(** * Connection pool and transaction lifecycle of the storage-api packages

    A shallow embedding of the in-memory key-value engine (MemKvPool,
    MemKvConn, MemKvTxn, cancelableConnRequest, PromiseHandle), of the stack
    fixture (MemStackPool, MemStackConn, MemStackTxn) and of the generic
    coordinator [runTransaction], followed by the properties of the
    specification.  The definitions come first, one module for each engine;
    the lemmas and theorems about them follow in the modules whose names end
    in [Props].

    JavaScript objects live in a store indexed by their identity (a natural
    number); a method is a function from the world before the call to the
    outcome of the call and the world after it.  A call runs to completion
    before the next one starts (one logical thread); a promise is
    represented by its state. *)

From Stdlib Require Import String List ZArith Bool Lia.
From stdpp Require Import base option list functions gmap strings.

(** ** JavaScript values, errors and outcomes *)

(** The values of type [unknown] that callers store: the primitive values
    of the language. *)
Inductive JsVal : Type :=
| undefined
| JsNull
| JsBool (b : bool)
| JsNum (n : Z)
| JsStr (s : string).

#[global] Instance JsVal_eq_dec : EqDecision JsVal.
Proof. solve_decision. Defined.

(** [new Error(message)]. *)
Inductive JsError : Type :=
| Error (message : string).

#[global] Instance JsError_eq_dec : EqDecision JsError.
Proof. solve_decision. Defined.

(** ** Plain objects used as maps

    The key-value engine keeps its data in plain objects indexed by the
    key: the store, made by an object literal, and the staging area of a
    transaction, made by [Object.create(store)].  Both inherit, the second
    through the first, from [Object.prototype], so that a read or an
    assignment [obj[key]] whose key names a member of [Object.prototype]
    does not behave like that of a map. *)

(** The own data properties of a plain object, as an object literal lists
    them. *)
Abbreviation PlainObject := (gmap string JsVal).

(** Whether an object still has the prototype it was created with, or
    [null]: the one change of prototype that an assignment of a primitive
    value can make is [obj['__proto__'] = null]. *)
Inductive ProtoLink : Type :=
| Linked
| Unlinked.

#[global] Instance ProtoLink_eq_dec : EqDecision ProtoLink.
Proof. solve_decision. Defined.

(** A plain object at run time. *)
Record JsObject : Type := {
  own : PlainObject;
  link : ProtoLink
}.

(** [{ ...s }] written as an object literal: its prototype is
    [Object.prototype]. *)
Definition object_literal (s : PlainObject) : JsObject :=
  {| own := s; link := Linked |}.

(** [Object.create(proto)]: no own property. *)
Definition object_create : JsObject :=
  {| own := ∅; link := Linked |}.

(** What a read [obj[key]] yields: a value that was stored, or what the
    prototype chain leads to: a function of [Object.prototype] (under
    [constructor], the function [Object]), the object [Object.prototype], or
    the store. *)
Inductive JsRead : Type :=
| Data (v : JsVal)
| Inherited (name : string)
| ObjectPrototypeRef
| StoreRef.

Coercion Data : JsVal >-> JsRead.

#[global] Instance JsRead_eq_dec : EqDecision JsRead.
Proof. solve_decision. Defined.

(** The data properties of [Object.prototype]: functions, all writable.
    Its one other property is the accessor [__proto__]. *)
Definition object_prototype_methods : list string :=
  ["constructor"; "__defineGetter__"; "__defineSetter__"; "hasOwnProperty";
   "__lookupGetter__"; "__lookupSetter__"; "isPrototypeOf";
   "propertyIsEnumerable"; "toString"; "valueOf"; "toLocaleString"]%string.


(** A read that reaches [Object.prototype], started on an object whose
    prototype is [receiver_proto]: the getter of [__proto__] returns the
    prototype of the object the read started on. *)
Definition object_prototype_get (receiver_proto : JsRead) (key : string)
    : JsRead :=
  if bool_decide (key = "__proto__"%string) then receiver_proto
  else if bool_decide (key ∈ object_prototype_methods) then Inherited key
  else Data undefined.

(** [obj[key]] on an object made by an object literal: the own property if
    there is one, otherwise what [Object.prototype] has, if that is still
    the prototype. *)
Definition js_get (obj : JsObject) (key : string) : JsRead :=
  match own obj !! key with
  | Some v => Data v
  | None =>
      match link obj with
      | Linked => object_prototype_get ObjectPrototypeRef key
      | Unlinked => Data undefined
      end
  end.

(** [obj[key]] on [obj = Object.create(proto)]: the own property if there
    is one, otherwise, if [proto] is still the prototype, what [proto] has
    when the lookup runs. *)
Definition proto_get (obj proto : JsObject) (key : string) : JsRead :=
  match own obj !! key with
  | Some v => Data v
  | None =>
      match link obj with
      | Linked =>
          match own proto !! key with
          | Some v => Data v
          | None =>
              match link proto with
              | Linked => object_prototype_get StoreRef key
              | Unlinked => Data undefined
              end
          end
      | Unlinked => Data undefined
      end
  end.

(** The setter of [__proto__], called with [val] on [obj]: [null] becomes
    the prototype, any other primitive value is ignored. *)
Definition set_prototype (val : JsVal) (obj : JsObject) : JsObject :=
  match val with
  | JsNull => {| own := own obj; link := Unlinked |}
  | _ => obj
  end.

(** An own data property created or overwritten. *)
Definition define_own (key : string) (val : JsVal) (obj : JsObject)
    : JsObject :=
  {| own := <[key := val]> (own obj); link := link obj |}.

(** [obj[key] = val] on an object made by an object literal.  The
    assignment runs the setter of [__proto__] when the key is [__proto__],
    the object has no own property of that name and still inherits from
    [Object.prototype]; otherwise it creates or overwrites an own
    property. *)
Definition js_set (key : string) (val : JsVal) (obj : JsObject) : JsObject :=
  match own obj !! key, link obj with
  | None, Linked =>
      if bool_decide (key = "__proto__"%string) then set_prototype val obj
      else define_own key val obj
  | _, _ => define_own key val obj
  end.

(** [obj[key] = val] on [obj = Object.create(proto)]: the setter of
    [__proto__] is reached through [proto]. *)
Definition proto_set (proto : JsObject) (key : string) (val : JsVal)
    (obj : JsObject) : JsObject :=
  match own obj !! key, link obj with
  | None, Linked =>
      match own proto !! key, link proto with
      | None, Linked =>
          if bool_decide (key = "__proto__"%string) then set_prototype val obj
          else define_own key val obj
      | _, _ => define_own key val obj
      end
  | _, _ => define_own key val obj
  end.

(** [delete obj[key]]: the own property goes, if there is one. *)
Definition js_delete (key : string) (obj : JsObject) : JsObject :=
  {| own := delete key (own obj); link := link obj |}.

(** The outcome of a call: a value, an exception, or the recursion budget of
    the embedding exhausted (shown below never to happen). *)
Inductive Outcome (A : Type) : Type :=
| Returned (a : A)
| Thrown (e : JsError)
| NoFuel.

Arguments Returned {A} a.
Arguments Thrown {A} e.
Arguments NoFuel {A}.

(** State and exception monad over a world [W].  The world after an
    exception is kept: JavaScript does not undo the mutations made before a
    throw. *)
Definition M (W A : Type) : Type := W -> Outcome A * W.

Definition ret {W A} (a : A) : M W A := fun w => (Returned a, w).

Definition throw {W A} (e : JsError) : M W A := fun w => (Thrown e, w).

Definition bind {W A B} (m : M W A) (k : A -> M W B) : M W B :=
  fun w =>
    match m w with
    | (Returned a, w') => k a w'
    | (Thrown e, w') => (Thrown e, w')
    | (NoFuel, w') => (NoFuel, w')
    end.

Definition gets {W A} (f : W -> A) : M W A := fun w => (Returned (f w), w).

Definition modify {W} (f : W -> W) : M W unit := fun w => (Returned tt, f w).

(** [try { m } catch (e) { h e }]. *)
Definition try_catch {W A} (m : M W A) (h : JsError -> M W A) : M W A :=
  fun w =>
    match m w with
    | (Thrown e, w') => h e w'
    | r => r
    end.

(** [try { m } finally { f }]: [f] runs whatever the outcome of [m], and an
    exception of [f] replaces that outcome. *)
Definition finally {W A B} (m : M W A) (f : M W B) : M W A :=
  fun w =>
    match m w with
    | (NoFuel, w') => (NoFuel, w')
    | (r, w') =>
        match f w' with
        | (Returned _, w'') => (r, w'')
        | (Thrown e, w'') => (Thrown e, w'')
        | (NoFuel, w'') => (NoFuel, w'')
        end
    end.

Notation "'let*' x := m 'in' k" := (bind m (fun x => k))
  (at level 10, x name, m at level 100, k at level 200).

Notation "m >>> k" := (bind m (fun _ => k))
  (at level 90, right associativity).

(** The state of a promise. *)
Inductive PromiseState (A : Type) : Type :=
| Pending
| Fulfilled (v : A)
| Rejected (e : JsError).

Arguments Pending {A}.
Arguments Fulfilled {A} v.
Arguments Rejected {A} e.

(** Resolving or rejecting a promise that is already settled does nothing. *)
Definition settle {A} (s new : PromiseState A) : PromiseState A :=
  match s with
  | Pending => new
  | _ => s
  end.

(** A [Promise<void>] handed back by [close], [commit] or [rollback]:
    [Promise.resolve()], or the promise of the PromiseHandle [h]. *)
Inductive VoidPromise : Type :=
| ResolvedPromise
| HandlePromise (h : nat).

(** [arr.indexOf(x)]; [None] stands for [-1]. *)
Fixpoint indexOf (x : nat) (arr : list nat) : option nat :=
  match arr with
  | [] => None
  | y :: rest => if decide (y = x) then Some 0 else S <$> indexOf x rest
  end.

(** Options of [beginTxn]. *)
Inductive IsolationLevel : Type :=
| isoDefault | readUncommitted | readCommitted | writeCommitted
| repeatableRead | snapshot | serializable | linearizable.

Record TxnOptions : Type := {
  isolationLevel : option IsolationLevel;
  readOnly : option bool
}.

(** [opts.readOnly === true] after [opts] defaulted to [{}]. *)
Definition readOnly_is_true (opts : option TxnOptions) : bool :=
  match opts with
  | Some o => match readOnly o with Some true => true | _ => false end
  | None => false
  end.

Inductive StorageMode : Type :=
| mode_pool
| mode_conn
| mode_txn.

#[global] Instance StorageMode_eq_dec : EqDecision StorageMode.
Proof. solve_decision. Defined.

(** ** A frame property for the monad

    [keeps R m]: the world after [m], whatever the outcome, is related by
    [R] to the world before. *)
Definition keeps {W A} (R : relation W) (m : M W A) : Prop :=
  forall w, R w (snd (m w)).

(** ** The ambient context *)

Module Ctx.

(** Modelled from the spec: the ambient context carrier of [@sabl/context],
    which is not part of the sources: an immutable key-indexed lookup
    structure with a derivation operation, optionally carrying a
    cancellation signal.  A canceler is named by its identity. *)
Inductive Context (V : Type) : Type :=
| background
| withCancel (parent : Context V) (clr : nat)
| withValue (parent : Context V) (key : string) (v : V).

Arguments background {V}.
Arguments withCancel {V} parent clr.
Arguments withValue {V} parent key v.

Fixpoint canceler {V} (ctx : Context V) : option nat :=
  match ctx with
  | background => None
  | withCancel _ clr => Some clr
  | withValue parent _ _ => canceler parent
  end.

Fixpoint value {V} (ctx : Context V) (key : string) : option V :=
  match ctx with
  | background => None
  | withCancel parent _ => value parent key
  | withValue parent k v => if decide (k = key) then Some v else value parent key
  end.

End Ctx.

(** ** The in-memory key-value engine *)

Module MemKv.

Import Ctx.

(** The promise returned by [MemKvPool.conn]: [Promise.resolve(conn)], or the
    promise of the queued request [r]. *)
Inductive ConnPromise : Type :=
| ConnReady (c : nat)
| ConnWaiting (r : nat).

(** A listener subscribed to a canceler: the [handle.onCancel] closure of
    the cancelable request [r]. *)
Inductive Listener : Type :=
| OnCancel (r : nat).

#[global] Instance Listener_eq_dec : EqDecision Listener.
Proof. solve_decision. Defined.

(** Modelled from the spec: the cancellation signal of [@sabl/context]
    (not under src/): listeners are subscribed with [onCancel], removed with
    [off], and the cancellation event fires once. *)
Record Canceler : Type := {
  canceled : bool;
  listeners : list Listener
}.

(** The private fields of a MemKvConn.  [#store] and [#pool] are constant
    references to the store and pool of the world. *)
Record MemKvConn : Type := {
  keepOpen : bool;
  closed : bool;
  waitClose : option nat;
  txn : option nat
}.

Inductive MemOp : Type :=
| OpSet (key : string) (val : JsVal)
| OpDelete (key : string).

(** The private fields of a MemKvTxn.  [onComplete] is the closure
    [() => this.#txnDone()] of the connection it names; [temp] is the object
    [Object.create(store)]. *)
Record MemKvTxn : Type := {
  onComplete : nat;
  temp : JsObject;
  ops : list MemOp;
  readonly : bool;
  done : bool
}.

(** A [PromiseHandle<MemKvConn>] of the request queue: a plain handle
    ([clrOf = None]) or the handle made by [cancelableConnRequest clr], with
    the two flags of its closure. *)
Record ConnRequest : Type := {
  promise : PromiseState nat;
  clrOf : option nat;
  timedOut : bool;
  resolved : bool
}.

(** The private fields of a MemKvPool; [pool] is the idle list. *)
Record MemKvPool : Type := {
  maxCnt : Z;
  reqQueue : list nat;
  poolClosed : bool;
  active : list nat;
  pool : list nat
}.

Record World : Type := {
  store : JsObject;
  thePool : MemKvPool;
  conns : nat -> MemKvConn;
  nextConn : nat;
  txns : nat -> MemKvTxn;
  nextTxn : nat;
  reqs : nat -> ConnRequest;
  nextReq : nat;
  handles : nat -> PromiseState unit;
  nextHandle : nat;
  cancelers : nat -> Canceler
}.

(** *** Field updates *)

Definition set_store (f : JsObject -> JsObject) (w : World) : World :=
  {| store := f (store w); thePool := thePool w; conns := conns w;
     nextConn := nextConn w; txns := txns w; nextTxn := nextTxn w;
     reqs := reqs w; nextReq := nextReq w; handles := handles w;
     nextHandle := nextHandle w; cancelers := cancelers w |}.

Definition set_pool (f : MemKvPool -> MemKvPool) (w : World) : World :=
  {| store := store w; thePool := f (thePool w); conns := conns w;
     nextConn := nextConn w; txns := txns w; nextTxn := nextTxn w;
     reqs := reqs w; nextReq := nextReq w; handles := handles w;
     nextHandle := nextHandle w; cancelers := cancelers w |}.

Definition set_conn (c : nat) (f : MemKvConn -> MemKvConn) (w : World) : World :=
  {| store := store w; thePool := thePool w;
     conns := <[c := f (conns w c)]> (conns w);
     nextConn := nextConn w; txns := txns w; nextTxn := nextTxn w;
     reqs := reqs w; nextReq := nextReq w; handles := handles w;
     nextHandle := nextHandle w; cancelers := cancelers w |}.

Definition set_txn (t : nat) (f : MemKvTxn -> MemKvTxn) (w : World) : World :=
  {| store := store w; thePool := thePool w; conns := conns w;
     nextConn := nextConn w;
     txns := <[t := f (txns w t)]> (txns w); nextTxn := nextTxn w;
     reqs := reqs w; nextReq := nextReq w; handles := handles w;
     nextHandle := nextHandle w; cancelers := cancelers w |}.

Definition set_req (r : nat) (f : ConnRequest -> ConnRequest) (w : World) : World :=
  {| store := store w; thePool := thePool w; conns := conns w;
     nextConn := nextConn w; txns := txns w; nextTxn := nextTxn w;
     reqs := <[r := f (reqs w r)]> (reqs w); nextReq := nextReq w;
     handles := handles w; nextHandle := nextHandle w;
     cancelers := cancelers w |}.

Definition set_handle (h : nat) (f : PromiseState unit -> PromiseState unit)
    (w : World) : World :=
  {| store := store w; thePool := thePool w; conns := conns w;
     nextConn := nextConn w; txns := txns w; nextTxn := nextTxn w;
     reqs := reqs w; nextReq := nextReq w;
     handles := <[h := f (handles w h)]> (handles w);
     nextHandle := nextHandle w; cancelers := cancelers w |}.

Definition set_canceler (i : nat) (f : Canceler -> Canceler) (w : World) : World :=
  {| store := store w; thePool := thePool w; conns := conns w;
     nextConn := nextConn w; txns := txns w; nextTxn := nextTxn w;
     reqs := reqs w; nextReq := nextReq w; handles := handles w;
     nextHandle := nextHandle w;
     cancelers := <[i := f (cancelers w i)]> (cancelers w) |}.

Definition bump_conn (w : World) : World :=
  {| store := store w; thePool := thePool w; conns := conns w;
     nextConn := S (nextConn w); txns := txns w; nextTxn := nextTxn w;
     reqs := reqs w; nextReq := nextReq w; handles := handles w;
     nextHandle := nextHandle w; cancelers := cancelers w |}.

Definition bump_txn (w : World) : World :=
  {| store := store w; thePool := thePool w; conns := conns w;
     nextConn := nextConn w; txns := txns w; nextTxn := S (nextTxn w);
     reqs := reqs w; nextReq := nextReq w; handles := handles w;
     nextHandle := nextHandle w; cancelers := cancelers w |}.

Definition bump_req (w : World) : World :=
  {| store := store w; thePool := thePool w; conns := conns w;
     nextConn := nextConn w; txns := txns w; nextTxn := nextTxn w;
     reqs := reqs w; nextReq := S (nextReq w); handles := handles w;
     nextHandle := nextHandle w; cancelers := cancelers w |}.

Definition bump_handle (w : World) : World :=
  {| store := store w; thePool := thePool w; conns := conns w;
     nextConn := nextConn w; txns := txns w; nextTxn := nextTxn w;
     reqs := reqs w; nextReq := nextReq w; handles := handles w;
     nextHandle := S (nextHandle w); cancelers := cancelers w |}.

Definition conn_with_keepOpen (b : bool) (c : MemKvConn) : MemKvConn :=
  {| keepOpen := b; closed := closed c; waitClose := waitClose c; txn := txn c |}.
Definition conn_with_closed (b : bool) (c : MemKvConn) : MemKvConn :=
  {| keepOpen := keepOpen c; closed := b; waitClose := waitClose c; txn := txn c |}.
Definition conn_with_waitClose (h : option nat) (c : MemKvConn) : MemKvConn :=
  {| keepOpen := keepOpen c; closed := closed c; waitClose := h; txn := txn c |}.
Definition conn_with_txn (t : option nat) (c : MemKvConn) : MemKvConn :=
  {| keepOpen := keepOpen c; closed := closed c; waitClose := waitClose c; txn := t |}.

Definition txn_with_temp (f : JsObject -> JsObject) (t : MemKvTxn) : MemKvTxn :=
  {| onComplete := onComplete t; temp := f (temp t); ops := ops t;
     readonly := readonly t; done := done t |}.
Definition txn_with_ops (f : list MemOp -> list MemOp) (t : MemKvTxn) : MemKvTxn :=
  {| onComplete := onComplete t; temp := temp t; ops := f (ops t);
     readonly := readonly t; done := done t |}.
Definition txn_with_done (b : bool) (t : MemKvTxn) : MemKvTxn :=
  {| onComplete := onComplete t; temp := temp t; ops := ops t;
     readonly := readonly t; done := b |}.

Definition req_with_promise (f : PromiseState nat -> PromiseState nat)
    (r : ConnRequest) : ConnRequest :=
  {| promise := f (promise r); clrOf := clrOf r; timedOut := timedOut r;
     resolved := resolved r |}.
Definition req_with_timedOut (b : bool) (r : ConnRequest) : ConnRequest :=
  {| promise := promise r; clrOf := clrOf r; timedOut := b; resolved := resolved r |}.
Definition req_with_resolved (b : bool) (r : ConnRequest) : ConnRequest :=
  {| promise := promise r; clrOf := clrOf r; timedOut := timedOut r; resolved := b |}.

Definition pool_with_reqQueue (f : list nat -> list nat) (p : MemKvPool) : MemKvPool :=
  {| maxCnt := maxCnt p; reqQueue := f (reqQueue p); poolClosed := poolClosed p;
     active := active p; pool := pool p |}.
Definition pool_with_closed (b : bool) (p : MemKvPool) : MemKvPool :=
  {| maxCnt := maxCnt p; reqQueue := reqQueue p; poolClosed := b;
     active := active p; pool := pool p |}.
Definition pool_with_active (f : list nat -> list nat) (p : MemKvPool) : MemKvPool :=
  {| maxCnt := maxCnt p; reqQueue := reqQueue p; poolClosed := poolClosed p;
     active := f (active p); pool := pool p |}.
Definition pool_with_pool (f : list nat -> list nat) (p : MemKvPool) : MemKvPool :=
  {| maxCnt := maxCnt p; reqQueue := reqQueue p; poolClosed := poolClosed p;
     active := active p; pool := f (pool p) |}.

Definition canceler_with_listeners (f : list Listener -> list Listener)
    (c : Canceler) : Canceler :=
  {| canceled := canceled c; listeners := f (listeners c) |}.
Definition canceler_with_canceled (b : bool) (c : Canceler) : Canceler :=
  {| canceled := b; listeners := listeners c |}.

Abbreviation KV := (M World).

(** *** PromiseHandle and canceler *)

(** [new PromiseHandle<void>()]. *)
Definition new_handle : KV nat :=
  fun w =>
    let h := nextHandle w in
    (Returned h, bump_handle (set_handle h (fun _ => Pending) w)).

(** [PromiseHandle<void>.resolve()]. *)
Definition handle_resolve (h : nat) : KV unit :=
  modify (set_handle h (fun s => settle s (Fulfilled tt))).

(** [clr.onCancel(l)]. *)
Definition clr_onCancel (clr : nat) (l : Listener) : KV unit :=
  modify (set_canceler clr (canceler_with_listeners (fun ls => ls ++ [l]))).

(** [clr.off(l)]. *)
Definition clr_off (clr : nat) (l : Listener) : KV unit :=
  modify (set_canceler clr (canceler_with_listeners (filter (fun x => x <> l)))).

(** [new PromiseHandle<MemKvConn>()]: a plain request. *)
Definition new_request : KV nat :=
  fun w =>
    let r := nextReq w in
    (Returned r,
     bump_req (set_req r (fun _ => {| promise := Pending; clrOf := None;
                                      timedOut := false; resolved := false |}) w)).

(** [cancelableConnRequest(clr)]: the promise with its two flags, and the
    subscription of [handle.onCancel]. *)
Definition cancelableConnRequest (clr : nat) : KV nat :=
  let* r := (fun w =>
    let r := nextReq w in
    (Returned r,
     bump_req (set_req r (fun _ => {| promise := Pending; clrOf := Some clr;
                                      timedOut := false; resolved := false |}) w))) in
  clr_onCancel clr (OnCancel r) >>> ret r.

(** The closure [handle.onCancel] of the cancelable request [r]. *)
Definition handle_onCancel (r : nat) : KV unit :=
  let* q := gets (fun w => reqs w r) in
  match clrOf q with
  | None => ret tt
  | Some clr =>
      clr_off clr (OnCancel r) >>>
      if resolved q then ret tt
      else
        modify (set_req r (req_with_timedOut true)) >>>
        modify (set_req r (req_with_promise (fun s =>
          settle s (Rejected (Error
            "Context was canceled before a connection was available")))))
  end.

Fixpoint fire_all (ls : list Listener) : KV unit :=
  match ls with
  | [] => ret tt
  | OnCancel r :: rest => handle_onCancel r >>> fire_all rest
  end.

(** Modelled from the spec: the one-time cancellation event of a canceler of
    [@sabl/context] (not under src/): the first cancellation calls every
    listener subscribed at that moment, in subscription order; later
    cancellations do nothing. *)
Definition cancel (clr : nat) : KV unit :=
  let* c := gets (fun w => cancelers w clr) in
  if canceled c then ret tt
  else
    modify (set_canceler clr (canceler_with_canceled true)) >>>
    fire_all (listeners c).

(** *** MemKvConn *)

Definition new_conn : KV nat :=
  fun w =>
    let c := nextConn w in
    (Returned c,
     bump_conn (set_conn c (fun _ => {| keepOpen := false; closed := false;
                                        waitClose := None; txn := None |}) w)).

Definition conn_reset (c : nat) (keep : bool) : KV unit :=
  modify (set_conn c (conn_with_closed false)) >>>
  modify (set_conn c (conn_with_keepOpen keep)).

Section WithReturn.

(** [MemKvPool.return], which [close], [#txnDone] and the resolver of a
    cancelable request call back into. *)
Variable pool_return : nat -> KV unit.

Definition conn_close_with (c : nat) : KV VoidPromise :=
  let* cn := gets (fun w => conns w c) in
  if closed cn then ret ResolvedPromise
  else
    modify (set_conn c (conn_with_closed true)) >>>
    match txn cn with
    | Some _ =>
        match waitClose cn with
        | Some h => ret (HandlePromise h)
        | None =>
            let* h := new_handle in
            modify (set_conn c (conn_with_waitClose (Some h))) >>>
            ret (HandlePromise h)
        end
    | None => pool_return c >>> ret ResolvedPromise
    end.

Definition conn_txnDone_with (c : nat) : KV (option VoidPromise) :=
  modify (set_conn c (conn_with_txn None)) >>>
  let* cn := gets (fun w => conns w c) in
  match waitClose cn with
  | Some wc =>
      modify (set_conn c (conn_with_waitClose None)) >>>
      pool_return c >>>
      handle_resolve wc >>>
      ret None
  | None =>
      if negb (keepOpen cn) then
        let* p := conn_close_with c in ret (Some p)
      else ret None
  end.

(** [req.resolve(con)] on a handle of the request queue: the resolver of a
    plain PromiseHandle, or the [res] closure of [cancelableConnRequest]. *)
Definition request_resolve_with (r con : nat) : KV unit :=
  let* q := gets (fun w => reqs w r) in
  match clrOf q with
  | None => modify (set_req r (req_with_promise (fun s => settle s (Fulfilled con))))
  | Some clr =>
      if timedOut q then conn_close_with con >>> ret tt
      else
        modify (set_req r (req_with_resolved true)) >>>
        clr_off clr (OnCancel r) >>>
        modify (set_req r (req_with_promise (fun s => settle s (Fulfilled con))))
  end.

End WithReturn.

(** *** MemKvPool *)

(** [MemKvPool.return(con)].  The resolver of a timed-out request closes the
    connection, which re-enters [return] with a shorter queue: [fuel] bounds
    the depth of that recursion. *)
Fixpoint pool_return_fuel (fuel : nat) (con : nat) : KV unit :=
  match fuel with
  | 0 => fun w => (NoFuel, w)
  | S fuel' =>
      let* p := gets thePool in
      match indexOf con (active p) with
      | None => throw (Error "Connection is not in this pool")
      | Some ix =>
          match reqQueue p with
          | req :: _ =>
              modify (set_pool (pool_with_reqQueue tail)) >>>
              conn_reset con true >>>
              request_resolve_with (pool_return_fuel fuel') req con
          | [] =>
              modify (set_pool (pool_with_active (delete ix))) >>>
              modify (set_pool (pool_with_pool (fun l => l ++ [con])))
          end
      end
  end.

Definition pool_return (con : nat) : KV unit :=
  fun w => pool_return_fuel (S (length (reqQueue (thePool w)))) con w.

Definition conn_close : nat -> KV VoidPromise := conn_close_with pool_return.

Definition conn_txnDone : nat -> KV (option VoidPromise) :=
  conn_txnDone_with pool_return.

Definition conn_checkOpen (c : nat) : KV unit :=
  let* cn := gets (fun w => conns w c) in
  if closed cn then throw (Error "Connection is closed") else ret tt.

Definition conn_set {V} (c : nat) (ctx : Context V) (key : string) (val : JsVal)
    : KV unit :=
  conn_checkOpen c >>> modify (set_store (js_set key val)).

Definition conn_get {V} (c : nat) (ctx : Context V) (key : string) : KV JsRead :=
  conn_checkOpen c >>> gets (fun w => js_get (store w) key).

Definition conn_delete {V} (c : nat) (ctx : Context V) (key : string) : KV unit :=
  conn_checkOpen c >>> modify (set_store (js_delete key)).

(** [MemKvConn.beginTxn]: the new transaction captures the connection in its
    completion callback; neither [ctx] nor the field [#txn] is touched. *)
Definition conn_beginTxn {V} (c : nat) (ctx : Context V) (opts : option TxnOptions)
    : KV nat :=
  conn_checkOpen c >>>
  fun w =>
    let t := nextTxn w in
    (Returned t,
     bump_txn (set_txn t (fun _ => {| onComplete := c; temp := object_create; ops := [];
                                      readonly := readOnly_is_true opts;
                                      done := false |}) w)).

Definition pool_conn {V} (ctx : Context V) : KV ConnPromise :=
  let* p := gets thePool in
  if poolClosed p then throw (Error "Pool is closed")
  else
    match pool p with
    | c :: _ =>
        modify (set_pool (pool_with_pool tail)) >>>
        conn_reset c true >>>
        modify (set_pool (pool_with_active (fun l => l ++ [c]))) >>>
        ret (ConnReady c)
    | [] =>
        if (Z.of_nat (length (active p)) <? maxCnt p)%Z then
          let* c := new_conn in
          conn_reset c true >>>
          modify (set_pool (pool_with_active (fun l => l ++ [c]))) >>>
          ret (ConnReady c)
        else
          match canceler ctx with
          | Some clr =>
              let* h := cancelableConnRequest clr in
              modify (set_pool (pool_with_reqQueue (fun q => q ++ [h]))) >>>
              ret (ConnWaiting h)
          | None =>
              let* h := new_request in
              modify (set_pool (pool_with_reqQueue (fun q => q ++ [h]))) >>>
              ret (ConnWaiting h)
          end
    end.

(** [for (const c of this.#active) promises.push(c.close())]: the array
    iterator reads the live array at its current index on every round, while
    [c.close()] may splice the array. *)
Fixpoint close_loop (fuel i : nat) (promises : list VoidPromise)
    : KV (list VoidPromise) :=
  let* p := gets thePool in
  match active p !! i with
  | None => ret promises
  | Some c =>
      match fuel with
      | 0 => fun w => (NoFuel, w)
      | S fuel' =>
          let* pr := conn_close c in
          close_loop fuel' (S i) (promises ++ [pr])
      end
  end.

(** [MemKvPool.close()], up to its [await]: the promises it then awaits with
    [Promise.all] (none when the pool was closed already). *)
Definition pool_close : KV (list VoidPromise) :=
  let* p := gets thePool in
  if poolClosed p then ret []
  else
    modify (set_pool (pool_with_closed true)) >>>
    modify (set_pool (pool_with_pool (fun _ => []))) >>>
    let* n := gets (fun w => length (active (thePool w))) in
    close_loop n 0 [].

(** *** MemKvTxn *)

Definition apply_op (s : JsObject) (op : MemOp) : JsObject :=
  match op with
  | OpDelete key => js_delete key s
  | OpSet key val => js_set key val s
  end.

(** [this.#temp[key] = val]: an assignment to [Object.create(store)], the
    store being read when the assignment runs. *)
Definition temp_assign (t : nat) (key : string) (val : JsVal) (w : World)
    : World :=
  set_txn t (txn_with_temp (proto_set (store w) key val)) w.

Definition txn_set {V} (t : nat) (ctx : Context V) (key : string) (val : JsVal)
    : KV unit :=
  let* tx := gets (fun w => txns w t) in
  if done tx then throw (Error "Transaction is already complete")
  else if readonly tx then throw (Error "Transaction is read only")
  else
    modify (set_txn t (txn_with_ops (fun l => l ++ [OpSet key val]))) >>>
    modify (temp_assign t key val).

Definition txn_get {V} (t : nat) (ctx : Context V) (key : string) : KV JsRead :=
  let* tx := gets (fun w => txns w t) in
  if done tx then throw (Error "Transaction is already complete")
  else gets (fun w => proto_get (temp (txns w t)) (store w) key).

Definition txn_delete {V} (t : nat) (ctx : Context V) (key : string) : KV unit :=
  let* tx := gets (fun w => txns w t) in
  if done tx then throw (Error "Transaction is already complete")
  else if readonly tx then throw (Error "Transaction is read only")
  else
    modify (set_txn t (txn_with_ops (fun l => l ++ [OpDelete key]))) >>>
    modify (temp_assign t key undefined).

(** [MemKvTxn.#close()]. *)
Definition txn_close (t : nat) : KV VoidPromise :=
  let* tx := gets (fun w => txns w t) in
  let* p := conn_txnDone (onComplete tx) in
  match p with
  | None => ret ResolvedPromise
  | Some p => ret p
  end.

(** [MemKvTxn.commit()], up to its [await]; the promise it awaits. *)
Definition txn_commit (t : nat) : KV VoidPromise :=
  let* tx := gets (fun w => txns w t) in
  if done tx then throw (Error "Transaction is already complete")
  else
    modify (set_txn t (txn_with_done true)) >>>
    modify (set_store (fun s => fold_left apply_op (ops tx) s)) >>>
    txn_close t.

Definition txn_rollback (t : nat) : KV VoidPromise :=
  let* tx := gets (fun w => txns w t) in
  if done tx then throw (Error "Transaction is already complete")
  else
    modify (set_txn t (txn_with_done true)) >>>
    txn_close t.

(** [getPool(store, maxCnt)]: a world with the pool and nothing else. *)
Definition getPool (s : PlainObject) (n : Z) : World :=
  {| store := object_literal s;
     thePool := {| maxCnt := n; reqQueue := []; poolClosed := false;
                   active := []; pool := [] |};
     conns := fun _ => {| keepOpen := false; closed := false;
                          waitClose := None; txn := None |};
     nextConn := 0;
     txns := fun _ => {| onComplete := 0; temp := object_create; ops := [];
                         readonly := false; done := false |};
     nextTxn := 0;
     reqs := fun _ => {| promise := Pending; clrOf := None;
                         timedOut := false; resolved := false |};
     nextReq := 0;
     handles := fun _ => Pending;
     nextHandle := 0;
     cancelers := fun _ => {| canceled := false; listeners := [] |} |}.

(** *** The calls of the public interface *)

(** The part of [MemKvPool.beginTxn] after its [await]: it runs once the
    connection [con] is there. *)
Definition pool_beginTxn_resume {V} (con : nat) (ctx : Context V)
    (opts : option TxnOptions) : KV nat :=
  conn_reset con false >>> conn_beginTxn con ctx opts.

(** The parts of [MemKvPool.set], [get] and [delete] after their first
    [await]. *)
Definition pool_set_resume {V} (con : nat) (ctx : Context V) (key : string)
    (val : JsVal) : KV unit :=
  finally (conn_set con ctx key val) (conn_close con).

Definition pool_get_resume {V} (con : nat) (ctx : Context V) (key : string)
    : KV JsRead :=
  finally (conn_get con ctx key) (conn_close con).

Definition pool_delete_resume {V} (con : nat) (ctx : Context V) (key : string)
    : KV unit :=
  finally (conn_delete con ctx key) (conn_close con).

(** One synchronous stretch of execution started from outside the engine: a
    method call, the continuation of a pool-level call, or the cancellation
    of a context. *)
Inductive Call (V : Type) : Type :=
| PoolConn (ctx : Context V)
| PoolClose
| PoolBeginTxnResume (con : nat) (ctx : Context V) (opts : option TxnOptions)
| PoolSetResume (con : nat) (ctx : Context V) (key : string) (val : JsVal)
| PoolGetResume (con : nat) (ctx : Context V) (key : string)
| PoolDeleteResume (con : nat) (ctx : Context V) (key : string)
| ConnClose (c : nat)
| ConnSet (c : nat) (ctx : Context V) (key : string) (val : JsVal)
| ConnGet (c : nat) (ctx : Context V) (key : string)
| ConnDelete (c : nat) (ctx : Context V) (key : string)
| ConnBeginTxn (c : nat) (ctx : Context V) (opts : option TxnOptions)
| TxnSet (t : nat) (ctx : Context V) (key : string) (val : JsVal)
| TxnGet (t : nat) (ctx : Context V) (key : string)
| TxnDelete (t : nat) (ctx : Context V) (key : string)
| TxnCommit (t : nat)
| TxnRollback (t : nat)
| Cancel (clr : nat).

Arguments PoolConn {V} ctx.
Arguments PoolClose {V}.
Arguments PoolBeginTxnResume {V} con ctx opts.
Arguments PoolSetResume {V} con ctx key val.
Arguments PoolGetResume {V} con ctx key.
Arguments PoolDeleteResume {V} con ctx key.
Arguments ConnClose {V} c.
Arguments ConnSet {V} c ctx key val.
Arguments ConnGet {V} c ctx key.
Arguments ConnDelete {V} c ctx key.
Arguments ConnBeginTxn {V} c ctx opts.
Arguments TxnSet {V} t ctx key val.
Arguments TxnGet {V} t ctx key.
Arguments TxnDelete {V} t ctx key.
Arguments TxnCommit {V} t.
Arguments TxnRollback {V} t.
Arguments Cancel {V} clr.

Definition perform {V} (a : Call V) : KV unit :=
  match a with
  | PoolConn ctx => pool_conn ctx >>> ret tt
  | PoolClose => pool_close >>> ret tt
  | PoolBeginTxnResume con ctx opts => pool_beginTxn_resume con ctx opts >>> ret tt
  | PoolSetResume con ctx key val => pool_set_resume con ctx key val
  | PoolGetResume con ctx key => pool_get_resume con ctx key >>> ret tt
  | PoolDeleteResume con ctx key => pool_delete_resume con ctx key
  | ConnClose c => conn_close c >>> ret tt
  | ConnSet c ctx key val => conn_set c ctx key val
  | ConnGet c ctx key => conn_get c ctx key >>> ret tt
  | ConnDelete c ctx key => conn_delete c ctx key
  | ConnBeginTxn c ctx opts => conn_beginTxn c ctx opts >>> ret tt
  | TxnSet t ctx key val => txn_set t ctx key val
  | TxnGet t ctx key => txn_get t ctx key >>> ret tt
  | TxnDelete t ctx key => txn_delete t ctx key
  | TxnCommit t => txn_commit t >>> ret tt
  | TxnRollback t => txn_rollback t >>> ret tt
  | Cancel clr => cancel clr
  end.

(** The world after a call, whatever its outcome. *)
Definition step {V} (a : Call V) (w : World) : World := snd (perform a w).

Definition run {V} (calls : list (Call V)) (w : World) : World :=
  fold_left (fun w a => step a w) calls w.

(** The worlds the engine can be in: those that a sequence of calls leads to
    from a new pool. *)
Inductive reachable {V : Type} : World -> Prop :=
| reachable_getPool (s : PlainObject) (n : Z) : reachable (getPool s n)
| reachable_step (w : World) (a : Call V) :
    reachable w -> reachable (step a w).

(** The calls that can reach [MemKvPool.return]. *)
Definition releases {V} (a : Call V) : bool :=
  match a with
  | PoolClose | PoolSetResume _ _ _ _ | PoolGetResume _ _ _
  | PoolDeleteResume _ _ _ | ConnClose _ | TxnCommit _ | TxnRollback _ => true
  | _ => false
  end.

(** The calls that write to the shared store. *)
Definition mutates {V} (a : Call V) : bool :=
  match a with
  | PoolSetResume _ _ _ _ | PoolDeleteResume _ _ _ | ConnSet _ _ _ _
  | ConnDelete _ _ _ | TxnCommit _ => true
  | _ => false
  end.

(** The calls that buffer a write in a transaction. *)
Definition buffers {V} (a : Call V) : bool :=
  match a with
  | TxnSet _ _ _ _ | TxnDelete _ _ _ => true
  | _ => false
  end.

(** *** Relations between the world before and after *)

Definition same_store : relation World :=
  fun w w' => store w' = store w.

Definition same_txns : relation World :=
  fun w w' => txns w' = txns w /\ nextTxn w' = nextTxn w.

(** A closed pool stays closed. *)
Definition pool_closed_stays : relation World :=
  fun w w' =>
    poolClosed (thePool w) = true -> poolClosed (thePool w') = true.

Definition same_cancelers : relation World :=
  fun w w' => cancelers w' = cancelers w.

Definition active_shrinks : relation World :=
  fun w w' => length (active (thePool w')) <= length (active (thePool w)).

(** A transaction that exists and is done stays done. *)
Definition done_stays (t : nat) : relation World :=
  fun w w' =>
    nextTxn w <= nextTxn w' /\
    (t < nextTxn w -> done (txns w t) = true -> done (txns w' t) = true).

(** The promise of a request that exists and is settled keeps its state. *)
Definition settled_stays (r : nat) : relation World :=
  fun w w' =>
    nextReq w <= nextReq w' /\
    (r < nextReq w -> promise (reqs w r) <> Pending ->
     promise (reqs w' r) = promise (reqs w r)).

(** The promise of a request that exists is not fulfilled in between. *)
Definition not_granted (r : nat) : relation World :=
  fun w w' =>
    nextReq w <= nextReq w' /\
    (r < nextReq w ->
     forall c, promise (reqs w' r) = Fulfilled c -> promise (reqs w r) = Fulfilled c).

(** The field [#txn] of a connection, once null, stays null. *)
Definition txn_unset_stays : relation World :=
  fun w w' => forall c, txn (conns w c) = None -> txn (conns w' c) = None.

(** The calls made on the transaction [t]. *)
Definition on_txn {V} (t : nat) (a : Call V) : bool :=
  match a with
  | TxnSet t' _ _ _ | TxnGet t' _ _ | TxnDelete t' _ _ | TxnCommit t'
  | TxnRollback t' => bool_decide (t' = t)
  | _ => false
  end.

(** The calls on the transaction [t] other than [commit]. *)
Definition uncommitted_op {V} (t : nat) (a : Call V) : bool :=
  match a with
  | TxnSet t' _ _ _ | TxnGet t' _ _ | TxnDelete t' _ _ | TxnRollback t' =>
      bool_decide (t' = t)
  | _ => false
  end.

(** The calls that set or delete [key] within the transaction [t]. *)
Definition touches {V} (t : nat) (key : string) (a : Call V) : bool :=
  match a with
  | TxnSet t' _ k _ | TxnDelete t' _ k => bool_decide (t' = t /\ k = key)
  | _ => false
  end.

(** The operation that a call buffers in the transaction [t], if it is a
    write within [t]. *)
Definition written {V} (t : nat) (a : Call V) : list MemOp :=
  match a with
  | TxnSet t' _ key val => if bool_decide (t' = t) then [OpSet key val] else []
  | TxnDelete t' _ key => if bool_decide (t' = t) then [OpDelete key] else []
  | _ => []
  end.

(** The value that a list of buffered operations wrote last under [key], a
    delete writing [undefined]; [None] when none of them has that key. *)
Definition staged_write (key : string) (acc : option JsVal) (op : MemOp)
    : option JsVal :=
  match op with
  | OpSet k v => if bool_decide (k = key) then Some v else acc
  | OpDelete k => if bool_decide (k = key) then Some undefined else acc
  end.

Definition last_write (key : string) (l : list MemOp) : option JsVal :=
  fold_left (staged_write key) l None.

(** The own properties of the staging area of a transaction are the last
    values its buffered operations wrote, for every key but [__proto__]. *)
Definition staged_ok (tx : MemKvTxn) : Prop :=
  forall key : string,
    key <> "__proto__"%string ->
    own (temp tx) !! key = last_write key (ops tx).

(** A key without own property in the staging area of a transaction that
    exists stays so. *)
Definition untouched (t : nat) (key : string) : relation World :=
  fun w w' =>
    nextTxn w <= nextTxn w' /\
    (t < nextTxn w -> own (temp (txns w t)) !! key = None ->
     own (temp (txns w' t)) !! key = None).

(** The staging area of a transaction that exists keeps the store as its
    prototype. *)
Definition still_linked (t : nat) : relation World :=
  fun w w' =>
    nextTxn w <= nextTxn w' /\
    (t < nextTxn w -> link (temp (txns w t)) = Linked ->
     link (temp (txns w' t)) = Linked).

(** *** States of requests and connections *)

(** A queued request still waiting for a connection. *)
Definition waiting (w : World) (r : nat) : Prop :=
  promise (reqs w r) = Pending /\
  (clrOf (reqs w r) = None \/ timedOut (reqs w r) = false).

(** A cancelable request whose context was canceled before a connection was
    there. *)
Definition timed_out (w : World) (r : nat) : Prop :=
  (exists clr, clrOf (reqs w r) = Some clr) /\ timedOut (reqs w r) = true.

(** An open connection of the active list, which [close] hands back. *)
Definition releasable (w : World) (c : nat) : Prop :=
  c ∈ active (thePool w) /\ closed (conns w c) = false /\
  txn (conns w c) = None.

(** The world after the connection [c] was handed to the request [r]. *)
Definition granted_to (c r : nat) (w w' : World) : Prop :=
  promise (reqs w' r) = Fulfilled c /\
  active (thePool w') = active (thePool w) /\
  pool (thePool w') = pool (thePool w) /\
  (forall r', r' <> r -> reqs w' r' = reqs w r') /\
  (forall c', c' <> c -> conns w' c' = conns w c') /\
  closed (conns w' c) = false /\ keepOpen (conns w' c) = true /\
  txn (conns w' c) = None.

(** The world after the connection [c] went back to the idle list. *)
Definition returned_idle (c : nat) (w w' : World) : Prop :=
  (exists ix, indexOf c (active (thePool w)) = Some ix /\
              active (thePool w') = delete ix (active (thePool w))) /\
  pool (thePool w') = pool (thePool w) ++ [c] /\
  (forall r, reqs w' r = reqs w r) /\
  (forall c', c' <> c -> conns w' c' = conns w c') /\
  closed (conns w' c) = true /\ txn (conns w' c) = None.

(** Closing the connections [cs] one after the other. *)
Definition release_all (cs : list nat) (w : World) : World :=
  fold_left (fun w c => snd (conn_close c w)) cs w.

(** Requesting a connection for every context of [ctxs], one call after the
    other with nothing in between: the outcomes, and the world after. *)
Fixpoint acquire_all {V} (ctxs : list (Context V)) (w : World)
    : list (Outcome ConnPromise) * World :=
  match ctxs with
  | [] => ([], w)
  | ctx :: rest =>
      let (o, w1) := pool_conn ctx w in
      let (os, w2) := acquire_all rest w1 in
      (o :: os, w2)
  end.

(** A pool that handed out its first [k] connections and nothing else
    happened: they are active and open, nobody waits. *)
Definition handed_out (k : nat) (n : Z) (w : World) : Prop :=
  poolClosed (thePool w) = false /\ maxCnt (thePool w) = n /\
  pool (thePool w) = [] /\ active (thePool w) = seq 0 k /\
  reqQueue (thePool w) = [] /\ nextConn w = k /\ nextReq w = 0 /\
  (forall c, closed (conns w c) = false /\ txn (conns w c) = None).

Definition cancel_message : string :=
  "Context was canceled before a connection was available".

(** The state of a cancelable request before and after its cancellation. *)
Definition cancelable_pending (clr r : nat) (w : World) : Prop :=
  clrOf (reqs w r) = Some clr /\ resolved (reqs w r) = false /\
  promise (reqs w r) = Pending.

Definition cancelable_rejected (clr r : nat) (w : World) : Prop :=
  clrOf (reqs w r) = Some clr /\ resolved (reqs w r) = false /\
  promise (reqs w r) = Rejected (Error cancel_message) /\
  timedOut (reqs w r) = true.

Definition same_pool : relation World :=
  fun w w' => thePool w' = thePool w.

(** A request that exists and was canceled while waiting stays so. *)
Definition timed_out_stays (r : nat) : relation World :=
  fun w w' =>
    nextReq w <= nextReq w' /\
    (r < nextReq w -> timed_out w r -> timed_out w' r).

(** *** Example worlds *)

Definition bg : Context unit := background.

(** A pool of capacity 1 whose connection 0 was acquired and began the
    transaction 0. *)
Definition world_txn_open : World :=
  run [PoolConn bg; ConnBeginTxn 0 bg None] (getPool ∅ 1).

(** A pool of capacity 2 both connections of which were acquired. *)
Definition world_two_active : World :=
  run [PoolConn bg; PoolConn bg] (getPool ∅ 2).

(** A pool of capacity 1 whose connection was acquired, and a second request
    made with a context that can be canceled by the canceler 7. *)
Definition world_one_waiting : World :=
  run [PoolConn bg; PoolConn (withCancel bg 7)] (getPool ∅ 1).

(** As [world_txn_open], the transaction begun with a context that can be
    canceled by the canceler 7. *)
Definition world_txn_cancelable : World :=
  run [PoolConn bg; ConnBeginTxn 0 (withCancel bg 7) None] (getPool ∅ 1).

(** A pool of capacity 1 over a store with one key, its connection 0
    acquired; and the same after connection 0 began transaction 0. *)
Definition world_conn_open : World :=
  run [PoolConn bg] (getPool {[ "a"%string := JsStr "b" ]} 1).

Definition world_txn_begun : World :=
  snd (conn_beginTxn 0 bg None world_conn_open).

(** A pool of capacity 1 over a store with one key, its connection 0 having
    begun a read-only transaction. *)
Definition world_txn_readonly : World :=
  snd (conn_beginTxn 0 bg (Some {| isolationLevel := None; readOnly := Some true |})
         world_conn_open).

(** *** Groups of field updates *)

(** The field updates the engine is made of, in groups.  A relation that
    the updates of a group respect is kept by every method built from
    them. *)
Class RespectsPooling (R : relation World) : Prop := {
  r_pool_reqQueue : forall f w, R w (set_pool (pool_with_reqQueue f) w);
  r_pool_closed : forall w, R w (set_pool (pool_with_closed true) w);
  r_pool_idle : forall f w, R w (set_pool (pool_with_pool f) w);
  r_pool_active_delete : forall ix w,
    R w (set_pool (pool_with_active (delete ix)) w);
  r_conn_closed : forall c b w, R w (set_conn c (conn_with_closed b) w);
  r_conn_keepOpen : forall c b w, R w (set_conn c (conn_with_keepOpen b) w);
  r_conn_waitClose : forall c h w, R w (set_conn c (conn_with_waitClose h) w);
  r_conn_txn : forall c w, R w (set_conn c (conn_with_txn None) w);
  r_handle : forall h f w, R w (set_handle h f w);
  r_bump_handle : forall w, R w (bump_handle w)
}.

Class RespectsAcquire (R : relation World) : Prop := {
  r_pool_active_push : forall c w,
    R w (set_pool (pool_with_active (fun l => l ++ [c])) w);
  r_conn_new : forall w,
    R w (bump_conn (set_conn (nextConn w)
           (fun _ => {| keepOpen := false; closed := false;
                        waitClose := None; txn := None |}) w))
}.

Class RespectsReqWait (R : relation World) : Prop := {
  r_req_reject : forall r e w,
    R w (set_req r (req_with_promise (fun s => settle s (Rejected e))) w);
  r_req_timedOut : forall r w, R w (set_req r (req_with_timedOut true) w);
  r_req_new : forall clr w,
    R w (bump_req (set_req (nextReq w)
           (fun _ => {| promise := Pending; clrOf := clr;
                        timedOut := false; resolved := false |}) w))
}.

Class RespectsReqGrant (R : relation World) : Prop := {
  r_req_fulfil : forall r c w,
    R w (set_req r (req_with_promise (fun s => settle s (Fulfilled c))) w);
  r_req_resolved : forall r b w, R w (set_req r (req_with_resolved b) w)
}.

Class RespectsCanceler (R : relation World) : Prop := {
  r_canceler : forall i f w, R w (set_canceler i f w)
}.

Class RespectsStore (R : relation World) : Prop := {
  r_store : forall f w, R w (set_store f w)
}.

Class RespectsTxnWrite (R : relation World) : Prop := {
  r_txn_ops : forall t f w, R w (set_txn t (txn_with_ops f) w);
  r_txn_temp : forall t f w, R w (set_txn t (txn_with_temp f) w)
}.

Class RespectsTxnLife (R : relation World) : Prop := {
  r_txn_done : forall t w, R w (set_txn t (txn_with_done true) w);
  r_txn_new : forall c ro w,
    R w (bump_txn (set_txn (nextTxn w)
           (fun _ => {| onComplete := c; temp := object_create; ops := [];
                        readonly := ro; done := false |}) w))
}.

(** *** The bookkeeping of the pool *)

(** The calls on the transaction [t] other than [commit] and [rollback]. *)
Definition uses {V} (t : nat) (a : Call V) : bool :=
  match a with
  | TxnSet t' _ _ _ | TxnGet t' _ _ | TxnDelete t' _ _ => bool_decide (t' = t)
  | _ => false
  end.

(** The connections of the pool, active or idle, are distinct objects made
    by the pool; no more connections were ever made than the capacity, and
    until the pool is closed each of them is active or idle; requests wait
    only while there is no idle connection and no room for a new one. *)
Definition within_capacity (w : World) : Prop :=
  let p := thePool w in
  NoDup (active p ++ pool p) /\
  Forall (fun c => c < nextConn w) (active p ++ pool p) /\
  (Z.of_nat (nextConn w) <= Z.max 0 (maxCnt p))%Z /\
  (poolClosed p = false -> length (active p ++ pool p) = nextConn w) /\
  (reqQueue p <> [] ->
   pool p = [] /\ (maxCnt p <= Z.of_nat (length (active p)))%Z).

(** No connection has a transaction on record or a close pending. *)
Definition conns_plain (w : World) : Prop :=
  forall c, txn (conns w c) = None /\ waitClose (conns w c) = None.

Definition steady (w : World) : Prop :=
  within_capacity w /\ conns_plain w.

(** A steady world stays steady, and the capacity of the pool is what it
    was. *)
Definition steady_stays : relation World :=
  fun w w' =>
    maxCnt (thePool w') = maxCnt (thePool w) /\ (steady w -> steady w').

(** The world [w'] after the connection [c], taken from the pool in the
    world [w], went back to it: the active list is as before, [c] is the
    last of the idle list and closed, and nobody waits. *)
Definition handed_back (c : nat) (w w' : World) : Prop :=
  active (thePool w') = active (thePool w) /\
  pool (thePool w') = tail (pool (thePool w)) ++ [c] /\
  closed (conns w' c) = true /\
  reqQueue (thePool w') = [].

(** The staged view of a transaction that exists (its own properties, its
    buffered operations and the read-only flag) stays as it is. *)
Definition same_staging (t : nat) : relation World :=
  fun w w' =>
    nextTxn w <= nextTxn w' /\
    (t < nextTxn w ->
     temp (txns w' t) = temp (txns w t) /\
     ops (txns w' t) = ops (txns w t) /\
     readonly (txns w' t) = readonly (txns w t)).

End MemKv.

(** ** Utilities of the key-value package *)

Module Util.

Local Open Scope Z_scope.

(** The numbers that [hasFlag] is used with are integers; [NaN], the
    infinities and fractions are not modelled. *)

(** [ToInt32] on an integer: the value modulo 2^32, read as a signed 32-bit
    integer. *)
Definition toInt32 (n : Z) : Z :=
  let k := n mod 2 ^ 32 in
  if 2 ^ 31 <=? k then k - 2 ^ 32 else k.

(** [hasFlag(flags, flag)]: [(flags & flag) === flag].  The operator [&]
    works on the [ToInt32] of its operands; the comparison is with [flag]
    itself. *)
Definition hasFlag (flags flag : Z) : bool :=
  Z.land (toInt32 flags) (toInt32 flag) =? flag.

(** The range of a signed 32-bit integer. *)
Definition is_int32 (n : Z) : Prop := - 2 ^ 31 <= n < 2 ^ 31.

End Util.


(** ** The in-memory stack store of the test fixtures *)

Module MemStack.

Import Ctx.

(** A listener subscribed to a canceler: the bound [#cancel] of the
    transaction [t]. *)
Inductive Listener : Type :=
| TxnCancel (t : nat).

#[global] Instance Listener_eq_dec : EqDecision Listener.
Proof. solve_decision. Defined.

(** Modelled from the spec: the cancellation signal of [@sabl/context]
    (not under src/): listeners are subscribed with [onCancel], removed with
    [off], and the cancellation event fires once. *)
Record Canceler : Type := {
  canceled : bool;
  listeners : list Listener
}.

Inductive StackOp : Type :=
| OpPush (val : JsVal)
| OpPop.

(** The private fields of a MemStackTxn; [#stack] is the stack of the
    world, [snap] the copy taken by the constructor. *)
Record MemStackTxn : Type := {
  con : nat;
  snap : list JsVal;
  ops : list StackOp;
  readonly : bool;
  done : bool;
  clr : option nat;
  onCancel : option Listener
}.

(** The private fields of a MemStackConn. *)
Record MemStackConn : Type := {
  txns : list nat;
  keepOpen : bool;
  closed : bool;
  closeResolve : option nat
}.

(** The private fields of a MemStackPool. *)
Record MemStackPool : Type := {
  active : list nat;
  poolClosed : bool;
  waitClose : option nat
}.

Record World : Type := {
  stack : list JsVal;
  thePool : MemStackPool;
  conns : nat -> MemStackConn;
  nextConn : nat;
  txnOf : nat -> MemStackTxn;
  nextTxn : nat;
  handles : nat -> PromiseState unit;
  nextHandle : nat;
  cancelers : nat -> Canceler
}.

(** *** Field updates *)

Definition set_stack (f : list JsVal -> list JsVal) (w : World) : World :=
  {| stack := f (stack w); thePool := thePool w; conns := conns w;
     nextConn := nextConn w; txnOf := txnOf w; nextTxn := nextTxn w;
     handles := handles w; nextHandle := nextHandle w;
     cancelers := cancelers w |}.

Definition set_pool (f : MemStackPool -> MemStackPool) (w : World) : World :=
  {| stack := stack w; thePool := f (thePool w); conns := conns w;
     nextConn := nextConn w; txnOf := txnOf w; nextTxn := nextTxn w;
     handles := handles w; nextHandle := nextHandle w;
     cancelers := cancelers w |}.

Definition set_conn (c : nat) (f : MemStackConn -> MemStackConn) (w : World) : World :=
  {| stack := stack w; thePool := thePool w;
     conns := <[c := f (conns w c)]> (conns w);
     nextConn := nextConn w; txnOf := txnOf w; nextTxn := nextTxn w;
     handles := handles w; nextHandle := nextHandle w;
     cancelers := cancelers w |}.

Definition set_txn (t : nat) (f : MemStackTxn -> MemStackTxn) (w : World) : World :=
  {| stack := stack w; thePool := thePool w; conns := conns w;
     nextConn := nextConn w;
     txnOf := <[t := f (txnOf w t)]> (txnOf w); nextTxn := nextTxn w;
     handles := handles w; nextHandle := nextHandle w;
     cancelers := cancelers w |}.

Definition set_handle (h : nat) (f : PromiseState unit -> PromiseState unit)
    (w : World) : World :=
  {| stack := stack w; thePool := thePool w; conns := conns w;
     nextConn := nextConn w; txnOf := txnOf w; nextTxn := nextTxn w;
     handles := <[h := f (handles w h)]> (handles w);
     nextHandle := nextHandle w; cancelers := cancelers w |}.

Definition set_canceler (i : nat) (f : Canceler -> Canceler) (w : World) : World :=
  {| stack := stack w; thePool := thePool w; conns := conns w;
     nextConn := nextConn w; txnOf := txnOf w; nextTxn := nextTxn w;
     handles := handles w; nextHandle := nextHandle w;
     cancelers := <[i := f (cancelers w i)]> (cancelers w) |}.

Definition bump_conn (w : World) : World :=
  {| stack := stack w; thePool := thePool w; conns := conns w;
     nextConn := S (nextConn w); txnOf := txnOf w; nextTxn := nextTxn w;
     handles := handles w; nextHandle := nextHandle w;
     cancelers := cancelers w |}.

Definition bump_txn (w : World) : World :=
  {| stack := stack w; thePool := thePool w; conns := conns w;
     nextConn := nextConn w; txnOf := txnOf w; nextTxn := S (nextTxn w);
     handles := handles w; nextHandle := nextHandle w;
     cancelers := cancelers w |}.

Definition bump_handle (w : World) : World :=
  {| stack := stack w; thePool := thePool w; conns := conns w;
     nextConn := nextConn w; txnOf := txnOf w; nextTxn := nextTxn w;
     handles := handles w; nextHandle := S (nextHandle w);
     cancelers := cancelers w |}.

Definition txn_with_snap (f : list JsVal -> list JsVal) (t : MemStackTxn) : MemStackTxn :=
  {| con := con t; snap := f (snap t); ops := ops t; readonly := readonly t;
     done := done t; clr := clr t; onCancel := onCancel t |}.
Definition txn_with_ops (f : list StackOp -> list StackOp) (t : MemStackTxn) : MemStackTxn :=
  {| con := con t; snap := snap t; ops := f (ops t); readonly := readonly t;
     done := done t; clr := clr t; onCancel := onCancel t |}.
Definition txn_with_done (b : bool) (t : MemStackTxn) : MemStackTxn :=
  {| con := con t; snap := snap t; ops := ops t; readonly := readonly t;
     done := b; clr := clr t; onCancel := onCancel t |}.
Definition txn_with_clr (c : option nat) (t : MemStackTxn) : MemStackTxn :=
  {| con := con t; snap := snap t; ops := ops t; readonly := readonly t;
     done := done t; clr := c; onCancel := onCancel t |}.
Definition txn_with_onCancel (l : option Listener) (t : MemStackTxn) : MemStackTxn :=
  {| con := con t; snap := snap t; ops := ops t; readonly := readonly t;
     done := done t; clr := clr t; onCancel := l |}.

Definition conn_with_txns (f : list nat -> list nat) (c : MemStackConn) : MemStackConn :=
  {| txns := f (txns c); keepOpen := keepOpen c; closed := closed c;
     closeResolve := closeResolve c |}.
Definition conn_with_closed (b : bool) (c : MemStackConn) : MemStackConn :=
  {| txns := txns c; keepOpen := keepOpen c; closed := b;
     closeResolve := closeResolve c |}.
Definition conn_with_closeResolve (h : option nat) (c : MemStackConn) : MemStackConn :=
  {| txns := txns c; keepOpen := keepOpen c; closed := closed c;
     closeResolve := h |}.

Definition pool_with_active (f : list nat -> list nat) (p : MemStackPool) : MemStackPool :=
  {| active := f (active p); poolClosed := poolClosed p; waitClose := waitClose p |}.
Definition pool_with_closed (b : bool) (p : MemStackPool) : MemStackPool :=
  {| active := active p; poolClosed := b; waitClose := waitClose p |}.
Definition pool_with_waitClose (h : option nat) (p : MemStackPool) : MemStackPool :=
  {| active := active p; poolClosed := poolClosed p; waitClose := h |}.

Definition canceler_with_listeners (f : list Listener -> list Listener)
    (c : Canceler) : Canceler :=
  {| canceled := canceled c; listeners := f (listeners c) |}.
Definition canceler_with_canceled (b : bool) (c : Canceler) : Canceler :=
  {| canceled := b; listeners := listeners c |}.

Abbreviation ST := (M World).

(** *** JavaScript arrays used as stacks *)

(** [arr.pop()]: the array without its last element. *)
Definition array_pop (arr : list JsVal) : list JsVal := removelast arr.

(** [arr[arr.length - 1]], which is also what [arr.pop()] returns. *)
Definition array_last (arr : list JsVal) : JsVal := List.last arr undefined.

(** *** PromiseHandle and canceler *)

Definition new_handle : ST nat :=
  fun w =>
    let h := nextHandle w in
    (Returned h, bump_handle (set_handle h (fun _ => Pending) w)).

Definition handle_resolve (h : nat) : ST unit :=
  modify (set_handle h (fun s => settle s (Fulfilled tt))).

Definition clr_onCancel (i : nat) (l : Listener) : ST unit :=
  modify (set_canceler i (canceler_with_listeners (fun ls => ls ++ [l]))).

Definition clr_off (i : nat) (l : Listener) : ST unit :=
  modify (set_canceler i (canceler_with_listeners (filter (fun x => x <> l)))).

(** *** MemStackPool._release and MemStackConn *)

Definition pool_release (c : nat) : ST unit :=
  let* p := gets thePool in
  match indexOf c (active p) with
  | None => ret tt
  | Some ix =>
      modify (set_pool (pool_with_active (delete ix))) >>>
      let* p := gets thePool in
      match active p with
      | [] =>
          match waitClose p with
          | Some wc =>
              modify (set_pool (pool_with_waitClose None)) >>>
              handle_resolve wc
          | None => ret tt
          end
      | _ :: _ => ret tt
      end
  end.

Definition conn_checkStatus (c : nat) : ST unit :=
  let* cn := gets (fun w => conns w c) in
  if closed cn then throw (Error "Connection is closed") else ret tt.

(** [MemStackConn.close()]: the loop [for (const txnId in this.#txns)]
    returns in its first round, which there is when the array is not
    empty. *)
Definition conn_close (c : nat) : ST VoidPromise :=
  conn_checkStatus c >>>
  modify (set_conn c (conn_with_closed true)) >>>
  let* cn := gets (fun w => conns w c) in
  match txns cn with
  | _ :: _ =>
      let* h := new_handle in
      modify (set_conn c (conn_with_closeResolve (Some h))) >>>
      ret (HandlePromise h)
  | [] => pool_release c >>> ret ResolvedPromise
  end.

(** [MemStackConn._txnDone(txn)]. *)
Definition conn_txnDone (c t : nat) : ST (option VoidPromise) :=
  let* cn := gets (fun w => conns w c) in
  match indexOf t (txns cn) with
  | None => ret None
  | Some ix =>
      modify (set_conn c (conn_with_txns (delete ix))) >>>
      let* cn := gets (fun w => conns w c) in
      match txns cn with
      | [] =>
          match closeResolve cn with
          | Some h =>
              pool_release c >>> handle_resolve h >>> ret None
          | None =>
              if negb (keepOpen cn) then
                let* p := conn_close c in ret (Some p)
              else ret None
          end
      | _ :: _ => ret None
      end
  end.

(** *** MemStackTxn *)

Definition txn_checkStatus (t : nat) (mod_ : bool) : ST unit :=
  let* tx := gets (fun w => txnOf w t) in
  if done tx then throw (Error "Transaction is already complete")
  else if mod_ && readonly tx then
    throw (Error "Cannot push or pop: Transaction is read-only")
  else ret tt.

Section WithRollback.

(** [MemStackTxn.rollback], which [#cancel] calls back into. *)
Variable rollback : nat -> ST VoidPromise.

(** [MemStackTxn.#cancel()]. *)
Definition txn_cancel_with (t : nat) : ST unit :=
  let* tx := gets (fun w => txnOf w t) in
  match onCancel tx with
  | Some l =>
      match clr tx with
      | Some i => clr_off i l
      | None => ret tt
      end >>>
      modify (set_txn t (txn_with_onCancel None))
  | None => ret tt
  end >>>
  let* tx := gets (fun w => txnOf w t) in
  if negb (done tx) then rollback t >>> ret tt else ret tt.

(** [MemStackTxn.#complete()]. *)
Definition txn_complete_with (t : nat) : ST VoidPromise :=
  txn_cancel_with t >>>
  let* tx := gets (fun w => txnOf w t) in
  let* p := conn_txnDone (con tx) t in
  match p with
  | Some p => ret p
  | None => ret ResolvedPromise
  end.

End WithRollback.

(** [MemStackTxn.rollback()]; [fuel] bounds the recursion through
    [#complete] and [#cancel]. *)
Fixpoint txn_rollback_fuel (fuel : nat) (t : nat) : ST VoidPromise :=
  match fuel with
  | 0 => fun w => (NoFuel, w)
  | S fuel' =>
      txn_checkStatus t false >>>
      modify (set_txn t (txn_with_done true)) >>>
      txn_complete_with (txn_rollback_fuel fuel') t
  end.

Definition txn_rollback : nat -> ST VoidPromise := txn_rollback_fuel 2.

Definition txn_cancel : nat -> ST unit := txn_cancel_with txn_rollback.

Definition txn_complete : nat -> ST VoidPromise := txn_complete_with txn_rollback.

Definition apply_op (s : list JsVal) (op : StackOp) : list JsVal :=
  match op with
  | OpPop => array_pop s
  | OpPush val => s ++ [val]
  end.

Definition txn_commit (t : nat) : ST VoidPromise :=
  txn_checkStatus t false >>>
  modify (set_txn t (txn_with_done true)) >>>
  let* tx := gets (fun w => txnOf w t) in
  modify (set_stack (fun s => fold_left apply_op (ops tx) s)) >>>
  txn_complete t.

Definition txn_push {V} (t : nat) (ctx : Context V) (val : JsVal) : ST nat :=
  txn_checkStatus t true >>>
  modify (set_txn t (txn_with_ops (fun l => l ++ [OpPush val]))) >>>
  modify (set_txn t (txn_with_snap (fun s => s ++ [val]))) >>>
  gets (fun w => length (snap (txnOf w t))).

Definition txn_pop (t : nat) : ST JsVal :=
  txn_checkStatus t true >>>
  modify (set_txn t (txn_with_ops (fun l => l ++ [OpPop]))) >>>
  let* v := gets (fun w => array_last (snap (txnOf w t))) in
  modify (set_txn t (txn_with_snap array_pop)) >>>
  ret v.

Definition txn_peek (t : nat) : ST JsVal :=
  txn_checkStatus t false >>>
  gets (fun w => array_last (snap (txnOf w t))).

(** [new MemStackTxn(con, stack, opts, clr)]. *)
Definition new_txn (c : nat) (opts : option TxnOptions) (cl : option nat) : ST nat :=
  let* t := (fun w =>
    let t := nextTxn w in
    (Returned t,
     bump_txn (set_txn t (fun _ => {| con := c; snap := stack w; ops := [];
                                      readonly := readOnly_is_true opts;
                                      done := false; clr := None;
                                      onCancel := None |}) w))) in
  match cl with
  | Some i =>
      modify (set_txn t (txn_with_clr (Some i))) >>>
      modify (set_txn t (txn_with_onCancel (Some (TxnCancel t)))) >>>
      clr_onCancel i (TxnCancel t)
  | None => ret tt
  end >>>
  ret t.

Definition conn_beginTxn {V} (c : nat) (ctx : Context V) (opts : option TxnOptions)
    : ST nat :=
  conn_checkStatus c >>>
  let* t := new_txn c opts (canceler ctx) in
  modify (set_conn c (conn_with_txns (fun l => l ++ [t]))) >>>
  ret t.

Definition conn_push {V} (c : nat) (ctx : Context V) (val : JsVal) : ST nat :=
  conn_checkStatus c >>>
  modify (set_stack (fun s => s ++ [val])) >>>
  gets (fun w => length (stack w)).

Definition conn_pop (c : nat) : ST JsVal :=
  conn_checkStatus c >>>
  let* v := gets (fun w => array_last (stack w)) in
  modify (set_stack array_pop) >>>
  ret v.

Definition conn_peek (c : nat) : ST JsVal :=
  conn_checkStatus c >>>
  gets (fun w => array_last (stack w)).

(** *** MemStackPool *)

(** [new MemStackConn(pool, stack, keepOpen)]. *)
Definition new_conn (keep : bool) : ST nat :=
  fun w =>
    let c := nextConn w in
    (Returned c,
     bump_conn (set_conn c (fun _ => {| txns := []; keepOpen := keep;
                                        closed := false;
                                        closeResolve := None |}) w)).

Definition pool_checkStatus : ST unit :=
  let* p := gets thePool in
  if poolClosed p then throw (Error "Pool is closed") else ret tt.

Definition pool_conn : ST nat :=
  pool_checkStatus >>> new_conn true.

Definition pool_beginTxn {V} (ctx : Context V) (opts : option TxnOptions) : ST nat :=
  pool_checkStatus >>>
  let* c := new_conn false in
  conn_beginTxn c ctx opts.

(** [for (const c of this.#active) c.close()] over the live array. *)
Fixpoint close_loop (fuel i : nat) : ST unit :=
  let* p := gets thePool in
  match active p !! i with
  | None => ret tt
  | Some c =>
      match fuel with
      | 0 => fun w => (NoFuel, w)
      | S fuel' => conn_close c >>> close_loop fuel' (S i)
      end
  end.

Definition pool_close : ST VoidPromise :=
  let* p := gets thePool in
  if poolClosed p then
    match waitClose p with
    | Some h => ret (HandlePromise h)
    | None => ret ResolvedPromise
    end
  else
    modify (set_pool (pool_with_closed true)) >>>
    let* p := gets thePool in
    match active p with
    | _ :: _ =>
        let* h := new_handle in
        modify (set_pool (pool_with_waitClose (Some h))) >>>
        close_loop (length (active p)) 0 >>>
        ret (HandlePromise h)
    | [] => ret ResolvedPromise
    end.

(** [MemStackPool.push], [pop] and [peek], their [await] on the already
    resolved promise of [conn] taken as immediate. *)
Definition pool_push {V} (ctx : Context V) (val : JsVal) : ST nat :=
  pool_checkStatus >>>
  let* c := pool_conn in
  finally (conn_push c ctx val) (conn_close c).

Definition pool_pop : ST JsVal :=
  pool_checkStatus >>>
  let* c := pool_conn in
  finally (conn_pop c) (conn_close c).

Definition pool_peek : ST JsVal :=
  pool_checkStatus >>>
  let* c := pool_conn in
  finally (conn_peek c) (conn_close c).

(** Modelled from the spec: the one-time cancellation event of a canceler of
    [@sabl/context] (not under src/): the first cancellation calls every
    listener subscribed at that moment, in subscription order; later
    cancellations do nothing. *)
Fixpoint fire_all (ls : list Listener) : ST unit :=
  match ls with
  | [] => ret tt
  | TxnCancel t :: rest => txn_cancel t >>> fire_all rest
  end.

Definition cancel (i : nat) : ST unit :=
  let* c := gets (fun w => cancelers w i) in
  if canceled c then ret tt
  else
    modify (set_canceler i (canceler_with_canceled true)) >>>
    fire_all (listeners c).

(** [openStackPool(stack)]. *)
Definition openStackPool (s : list JsVal) : World :=
  {| stack := s;
     thePool := {| active := []; poolClosed := false; waitClose := None |};
     conns := fun _ => {| txns := []; keepOpen := false; closed := false;
                          closeResolve := None |};
     nextConn := 0;
     txnOf := fun _ => {| con := 0; snap := []; ops := []; readonly := false;
                          done := false; clr := None; onCancel := None |};
     nextTxn := 0;
     handles := fun _ => Pending;
     nextHandle := 0;
     cancelers := fun _ => {| canceled := false; listeners := [] |} |}.

(** *** Auxiliary worlds *)

(** The part of the world that the connection and the pool never write. *)
Definition same_data (w w' : World) : Prop :=
  stack w' = stack w /\ txnOf w' = txnOf w /\ nextTxn w' = nextTxn w /\
  cancelers w' = cancelers w.

(** The world after [#cancel] took the listener of [t], if it has one, off
    its canceler. *)
Definition unsubscribed (t : nat) (w : World) : World :=
  match onCancel (txnOf w t) with
  | Some l =>
      set_txn t (txn_with_onCancel None)
        match clr (txnOf w t) with
        | Some i =>
            set_canceler i (canceler_with_listeners (filter (fun x => x <> l))) w
        | None => w
        end
  | None => w
  end.

(** A stack pool over [a, b], a connection of which has begun a transaction
    with a context that the canceler 7 can cancel. *)
Definition world_cancelable : World :=
  snd (pool_conn (openStackPool [JsStr "a"; JsStr "b"])).

Definition ctx7 : Context unit := withCancel background 7.

(** *** The calls of the public interface *)

(** The parts of [MemStackPool.push], [pop] and [peek] after their [await]:
    they run once the connection [c] that [conn] made is there. *)
Definition pool_push_resume {V} (c : nat) (ctx : Context V) (val : JsVal) : ST nat :=
  finally (conn_push c ctx val) (conn_close c).

Definition pool_pop_resume (c : nat) : ST JsVal :=
  finally (conn_pop c) (conn_close c).

Definition pool_peek_resume (c : nat) : ST JsVal :=
  finally (conn_peek c) (conn_close c).

(** A client that pushes the values [vals] on a connection one after the
    other, and one that pops [n] times and collects what it gets. *)
Fixpoint conn_push_all {V} (c : nat) (ctx : Context V) (vals : list JsVal)
    : ST unit :=
  match vals with
  | [] => ret tt
  | val :: rest => conn_push c ctx val >>> conn_push_all c ctx rest
  end.

Fixpoint conn_pop_times (c : nat) (n : nat) : ST (list JsVal) :=
  match n with
  | 0 => ret []
  | S n' =>
      let* val := conn_pop c in
      let* rest := conn_pop_times c n' in
      ret (val :: rest)
  end.

(** One synchronous stretch of execution started from outside the store: a
    method call, the continuation of a pool-level call (whose first part is
    that of [conn]), or the cancellation of a context. *)
Inductive Call (V : Type) : Type :=
| PoolConn
| PoolClose
| PoolBeginTxn (ctx : Context V) (opts : option TxnOptions)
| PoolPushResume (c : nat) (ctx : Context V) (val : JsVal)
| PoolPopResume (c : nat)
| PoolPeekResume (c : nat)
| ConnClose (c : nat)
| ConnBeginTxn (c : nat) (ctx : Context V) (opts : option TxnOptions)
| ConnPush (c : nat) (ctx : Context V) (val : JsVal)
| ConnPop (c : nat)
| ConnPeek (c : nat)
| TxnCommit (t : nat)
| TxnRollback (t : nat)
| TxnPush (t : nat) (ctx : Context V) (val : JsVal)
| TxnPop (t : nat)
| TxnPeek (t : nat)
| Cancel (i : nat).

Arguments PoolConn {V}.
Arguments PoolClose {V}.
Arguments PoolBeginTxn {V} ctx opts.
Arguments PoolPushResume {V} c ctx val.
Arguments PoolPopResume {V} c.
Arguments PoolPeekResume {V} c.
Arguments ConnClose {V} c.
Arguments ConnBeginTxn {V} c ctx opts.
Arguments ConnPush {V} c ctx val.
Arguments ConnPop {V} c.
Arguments ConnPeek {V} c.
Arguments TxnCommit {V} t.
Arguments TxnRollback {V} t.
Arguments TxnPush {V} t ctx val.
Arguments TxnPop {V} t.
Arguments TxnPeek {V} t.
Arguments Cancel {V} i.

Definition perform {V} (a : Call V) : ST unit :=
  match a with
  | PoolConn => pool_conn >>> ret tt
  | PoolClose => pool_close >>> ret tt
  | PoolBeginTxn ctx opts => pool_beginTxn ctx opts >>> ret tt
  | PoolPushResume c ctx val => pool_push_resume c ctx val >>> ret tt
  | PoolPopResume c => pool_pop_resume c >>> ret tt
  | PoolPeekResume c => pool_peek_resume c >>> ret tt
  | ConnClose c => conn_close c >>> ret tt
  | ConnBeginTxn c ctx opts => conn_beginTxn c ctx opts >>> ret tt
  | ConnPush c ctx val => conn_push c ctx val >>> ret tt
  | ConnPop c => conn_pop c >>> ret tt
  | ConnPeek c => conn_peek c >>> ret tt
  | TxnCommit t => txn_commit t >>> ret tt
  | TxnRollback t => txn_rollback t >>> ret tt
  | TxnPush t ctx val => txn_push t ctx val >>> ret tt
  | TxnPop t => txn_pop t >>> ret tt
  | TxnPeek t => txn_peek t >>> ret tt
  | Cancel i => cancel i
  end.

(** The world after a call, whatever its outcome. *)
Definition step {V} (a : Call V) (w : World) : World := snd (perform a w).

Definition run {V} (calls : list (Call V)) (w : World) : World :=
  fold_left (fun w a => step a w) calls w.

(** The calls that write to the shared stack. *)
Definition mutates {V} (a : Call V) : bool :=
  match a with
  | PoolPushResume _ _ _ | PoolPopResume _ | ConnPush _ _ _ | ConnPop _
  | TxnCommit _ => true
  | _ => false
  end.

(** The calls that buffer an operation in the transaction [t]. *)
Definition buffers {V} (t : nat) (a : Call V) : bool :=
  match a with
  | TxnPush t' _ _ | TxnPop t' => bool_decide (t' = t)
  | _ => false
  end.

(** The calls made on the transaction [t]. *)
Definition on_txn {V} (t : nat) (a : Call V) : bool :=
  match a with
  | TxnCommit t' | TxnRollback t' | TxnPush t' _ _ | TxnPop t' | TxnPeek t' =>
      bool_decide (t' = t)
  | _ => false
  end.

(** The calls on the transaction [t] other than [commit] and [rollback]. *)
Definition uses {V} (t : nat) (a : Call V) : bool :=
  match a with
  | TxnPush t' _ _ | TxnPop t' | TxnPeek t' => bool_decide (t' = t)
  | _ => false
  end.

(** The calls made on the connection [c]. *)
Definition on_conn {V} (c : nat) (a : Call V) : bool :=
  match a with
  | PoolPushResume c' _ _ | PoolPopResume c' | PoolPeekResume c' | ConnClose c'
  | ConnBeginTxn c' _ _ | ConnPush c' _ _ | ConnPop c' | ConnPeek c' =>
      bool_decide (c' = c)
  | _ => false
  end.

(** *** Relations between the world before and after *)

Definition same_stack : relation World :=
  fun w w' => stack w' = stack w.

(** The pool has no connection in its active list and no close pending. *)
Definition untracked (w : World) : Prop :=
  active (thePool w) = [] /\ waitClose (thePool w) = None.

Definition untracked_stays : relation World :=
  fun w w' => untracked w -> untracked w'.

(** A closed pool stays closed. *)
Definition pool_closed_stays : relation World :=
  fun w w' =>
    poolClosed (thePool w) = true -> poolClosed (thePool w') = true.

(** The connections that exist stay as open or closed as they are. *)
Definition same_closed : relation World :=
  fun w w' =>
    nextConn w <= nextConn w' /\
    forall c, c < nextConn w -> closed (conns w' c) = closed (conns w c).

(** A connection that exists and is closed stays closed. *)
Definition conn_closed_stays (c : nat) : relation World :=
  fun w w' =>
    nextConn w <= nextConn w' /\
    (c < nextConn w -> closed (conns w c) = true -> closed (conns w' c) = true).

(** A transaction that exists and is done stays done. *)
Definition done_stays (t : nat) : relation World :=
  fun w w' =>
    nextTxn w <= nextTxn w' /\
    (t < nextTxn w -> done (txnOf w t) = true -> done (txnOf w' t) = true).

(** The view of a transaction that exists (its copy of the stack, its
    buffered operations and the read-only flag) stays as it is. *)
Definition same_view (t : nat) : relation World :=
  fun w w' =>
    nextTxn w <= nextTxn w' /\
    (t < nextTxn w ->
     snap (txnOf w' t) = snap (txnOf w t) /\
     ops (txnOf w' t) = ops (txnOf w t) /\
     readonly (txnOf w' t) = readonly (txnOf w t)).

(** The copy of a transaction is the stack [s0] with the buffered
    operations applied. *)
Definition view_of (s0 : list JsVal) (tx : MemStackTxn) : Prop :=
  snap tx = fold_left apply_op (ops tx) s0.

(** *** Groups of field updates *)

(** The field updates the store is made of, in groups.  A relation that the
    updates of a group respect is kept by every method built from them. *)
Class RespectsLifecycle (R : relation World) : Prop := {
  r_pool_active_delete : forall ix w,
    R w (set_pool (pool_with_active (delete ix)) w);
  r_pool_waitClose_none : forall w, R w (set_pool (pool_with_waitClose None) w);
  r_conn_closed : forall c w, R w (set_conn c (conn_with_closed true) w);
  r_conn_closeResolve : forall c h w,
    R w (set_conn c (conn_with_closeResolve (Some h)) w);
  r_conn_txns : forall c f w, R w (set_conn c (conn_with_txns f) w);
  r_conn_new : forall keep w,
    R w (bump_conn (set_conn (nextConn w)
           (fun _ => {| txns := []; keepOpen := keep; closed := false;
                        closeResolve := None |}) w));
  r_handle : forall h f w, R w (set_handle h f w);
  r_bump_handle : forall w, R w (bump_handle w);
  r_canceler : forall i f w, R w (set_canceler i f w);
  r_txn_done : forall t w, R w (set_txn t (txn_with_done true) w);
  r_txn_onCancel : forall t l w, R w (set_txn t (txn_with_onCancel l) w);
  r_txn_clr : forall t i w, R w (set_txn t (txn_with_clr i) w);
  r_txn_new : forall c ro w,
    R w (bump_txn (set_txn (nextTxn w)
           (fun _ => {| con := c; snap := stack w; ops := []; readonly := ro;
                        done := false; clr := None; onCancel := None |}) w))
}.

Class RespectsPoolClose (R : relation World) : Prop := {
  r_pool_closed : forall w, R w (set_pool (pool_with_closed true) w);
  r_pool_waitClose_some : forall h w,
    R w (set_pool (pool_with_waitClose (Some h)) w)
}.

Class RespectsStack (R : relation World) : Prop := {
  r_stack : forall f w, R w (set_stack f w)
}.

Class RespectsTxnWrite (R : relation World) : Prop := {
  r_txn_ops : forall t f w, R w (set_txn t (txn_with_ops f) w);
  r_txn_snap : forall t f w, R w (set_txn t (txn_with_snap f) w)
}.


(** *** Auxiliary worlds of the calls *)

(** [world_cancelable] after its connection 0 has begun the transaction 0
    without options. *)
Definition stk_world_txn : World :=
  snd (conn_beginTxn 0 (background : Context unit) None world_cancelable).

(** As [stk_world_txn], with the options [{ readOnly: true }]. *)
Definition stk_world_txn_ro : World :=
  snd (conn_beginTxn 0 (background : Context unit)
         (Some {| isolationLevel := None; readOnly := Some true |})
         world_cancelable).

(** [world_cancelable] after the pool opened a second connection. *)
Definition stk_world_two_conns : World := snd (pool_conn world_cancelable).

End MemStack.


(** ** The transaction coordinator *)

Module Coordinator.

Import Ctx.

(** [ctxKeyStorageApi = Symbol('StorageApi')]. *)
Definition ctxKeyStorageApi : string := "StorageApi".

Definition withStorageApi {Api} (ctx : Context Api) (api : Api) : Context Api :=
  withValue ctx ctxKeyStorageApi api.

Definition getStorageApi {Api} (ctx : Context Api) : option Api :=
  value ctx ctxKeyStorageApi.

(** The interfaces [StorageApi], [Transactable] and [StorageTxn] over a
    world [W]: an object of type [Api] has a mode; [beginTxn], [commit] and
    [rollback] are the methods of that name, each together with the
    [await] on its result. *)
Class Storage (W Api : Type) : Type := {
  mode : Api -> StorageMode;
  beginTxn : Api -> Context Api -> option TxnOptions -> M W Api;
  commit : Api -> M W unit;
  rollback : Api -> M W unit
}.

Section RunTransaction.

Context {W Api : Type} `{!Storage W Api}.

Definition TxnCallback : Type := Context Api -> Api -> M W unit.

(** [runTransaction(ctx, fnOrOpts, maybeFn)]: [fnOrOpts] is the callback
    ([typeof fnOrOpts === 'function']) or the options, which may be null. *)
Definition runTransaction (ctx : Context Api)
    (fnOrOpts : TxnCallback + option TxnOptions)
    (maybeFn : option TxnCallback) : M W unit :=
  match getStorageApi ctx with
  | None => throw (Error "No storage API present on context")
  | Some api =>
      match
        match fnOrOpts with
        | inl fn => Some (fn, None)
        | inr opts =>
            match maybeFn with
            | None => None
            | Some fn => Some (fn, opts)
            end
        end
      with
      | None => throw (Error "Missing callback function")
      | Some (fn, opts) =>
          if decide (mode api = mode_txn) then fn ctx api
          else
            let* txn := beginTxn api ctx opts in
            let childCtx := withStorageApi ctx txn in
            try_catch
              (fn childCtx txn >>> commit txn)
              (fun e => rollback txn >>> throw e)
      end
  end.

End RunTransaction.

End Coordinator.

(** ** The coordinator over the stack store *)

Module StackCoordinator.

Import Ctx MemStack Coordinator.

(** The objects of the stack store that a context can carry. *)
Inductive StackApi : Type :=
| ApiPool
| ApiConn (c : nat)
| ApiTxn (t : nat).

(** The methods of the three classes.  [commit] and [rollback] return a
    promise that is already resolved ([txn_commit_promise],
    [txn_rollback_promise]), so that the [await] on it continues at once; a
    method that an object does not have is a TypeError. *)
#[global] Instance stack_storage : Storage World StackApi := {|
  mode api :=
    match api with
    | ApiPool => mode_pool
    | ApiConn _ => mode_conn
    | ApiTxn _ => mode_txn
    end;
  beginTxn api ctx opts :=
    match api with
    | ApiPool => let* t := pool_beginTxn ctx opts in ret (ApiTxn t)
    | ApiConn c => let* t := conn_beginTxn c ctx opts in ret (ApiTxn t)
    | ApiTxn _ => throw (Error "cn.beginTxn is not a function")
    end;
  commit api :=
    match api with
    | ApiTxn t => txn_commit t >>> ret tt
    | _ => throw (Error "txn.commit is not a function")
    end;
  rollback api :=
    match api with
    | ApiTxn t => txn_rollback t >>> ret tt
    | _ => throw (Error "txn.rollback is not a function")
    end
|}.

(** The fixtures of the tests of [runTransaction]. *)
Definition ab : list JsVal := [JsStr "a"; JsStr "b"].

Definition ctxRoot : Context StackApi := withStorageApi background ApiPool.

(** [async (ctx, txn) => { await txn.push(ctx, 'c') }]. *)
Definition push_c : TxnCallback (W := World) :=
  fun ctx api =>
    match api with
    | ApiTxn t => txn_push t ctx (JsStr "c") >>> ret tt
    | _ => throw (Error "stk.push is not a function")
    end.

(** [async (ctx, txn) => { await txn.push(ctx, 'c'); throw new Error(...) }]. *)
Definition push_c_then_fail : TxnCallback (W := World) :=
  fun ctx api => push_c ctx api >>> throw (Error "Failing on purpose").

(** [async (ctx, txn) => { await runTransaction(ctx, inner) }]. *)
Definition nested (inner : TxnCallback (W := World)) : TxnCallback (W := World) :=
  fun ctx api => runTransaction ctx (inl inner) None.

(** The world in which the pool has begun transaction 0 for [ctxRoot], and
    the context derived for it. *)
Definition world_begun : World :=
  snd (beginTxn ApiPool ctxRoot None (openStackPool ab)).

Definition ctxTxn : Context StackApi := withStorageApi ctxRoot (ApiTxn 0).

End StackCoordinator.

(** ** Callbacks that work on the stack *)

Module StackScripts.

Import Ctx MemStack Coordinator StackCoordinator.

(** The operations [ops] made one after the other on the transaction
    [t]: [await txn.push(ctx, val)] for a push, [await txn.pop(ctx)] for a
    pop. *)
Fixpoint txn_apply {V} (t : nat) (ctx : Context V) (ops : list StackOp)
    : ST unit :=
  match ops with
  | [] => ret tt
  | OpPush val :: rest => txn_push t ctx val >>> txn_apply t ctx rest
  | OpPop :: rest => txn_pop t >>> txn_apply t ctx rest
  end.

(** The callback [async (ctx, txn) => { ...ops on txn...; throw e }], or
    the same without the [throw]. *)
Definition script (ops : list StackOp) (failure : option JsError)
    : TxnCallback (W := World) :=
  fun ctx api =>
    match api with
    | ApiTxn t =>
        txn_apply t ctx ops >>>
        match failure with
        | Some e => throw e
        | None => ret tt
        end
    | _ => throw (Error "stk.push is not a function")
    end.

(** [{ readOnly: true }]. *)
Definition readOnlyOptions : option TxnOptions :=
  Some {| isolationLevel := None; readOnly := Some true |}.

(** [async (ctx, txn) => { await txn.commit() }]: a callback that
    finishes the transaction it was given. *)
Definition commits_itself : TxnCallback (W := World) :=
  fun ctx api =>
    match api with
    | ApiTxn t => txn_commit t >>> ret tt
    | _ => throw (Error "txn.commit is not a function")
    end.

End StackScripts.


(** * Properties *)

(** ** The frame property of the monad

    For a preorder [R], [keeps R] passes through every combinator, so that
    it is enough to check the field updates. *)

Section Keeps.

Context {W : Type} (R : relation W) `{!PreOrder R}.

Lemma keeps_ret {A} (a : A) : keeps R (ret a).
Proof using Type*. intros w. reflexivity. Qed.

Lemma keeps_throw {A} (e : JsError) : keeps R (throw (A := A) e).
Proof using Type*. intros w. reflexivity. Qed.

Lemma keeps_gets {A} (f : W -> A) : keeps R (gets f).
Proof using Type*. intros w. reflexivity. Qed.

Lemma keeps_nofuel {A} : keeps R (fun w => (NoFuel (A := A), w)).
Proof using Type*. intros w. reflexivity. Qed.

Lemma keeps_modify (f : W -> W) : (forall w, R w (f w)) -> keeps R (modify f).
Proof. intros H w. apply H. Qed.

Lemma keeps_bind {A B} (m : M W A) (k : A -> M W B) :
  keeps R m -> (forall a, keeps R (k a)) -> keeps R (bind m k).
Proof using Type*.
  intros Hm Hk w. unfold bind.
  specialize (Hm w). destruct (m w) as [[a | e | ] w1]; simpl in *; auto.
  etransitivity; [exact Hm | apply Hk].
Qed.

Lemma keeps_try_catch {A} (m : M W A) (h : JsError -> M W A) :
  keeps R m -> (forall e, keeps R (h e)) -> keeps R (try_catch m h).
Proof using Type*.
  intros Hm Hh w. unfold try_catch.
  specialize (Hm w). destruct (m w) as [[a | e | ] w1]; simpl in *; auto.
  etransitivity; [exact Hm | apply Hh].
Qed.

Lemma keeps_finally {A B} (m : M W A) (f : M W B) :
  keeps R m -> keeps R f -> keeps R (finally m f).
Proof using Type*.
  intros Hm Hf w. unfold finally.
  specialize (Hm w). destruct (m w) as [[a | e | ] w1]; simpl in *; auto.
  - specialize (Hf w1). destruct (f w1) as [[b | e | ] w2]; simpl in *;
      etransitivity; eauto.
  - specialize (Hf w1). destruct (f w1) as [[b | e' | ] w2]; simpl in *;
      etransitivity; eauto.
Qed.

End Keeps.

(** ** Arrays *)

Lemma length_delete_le {A} (l : list A) (i : nat) :
  length (delete i l) <= length l.
Proof.
  revert i. induction l as [ | x l IH]; intros [ | i]; simpl; auto.
  specialize (IH i). lia.
Qed.

Lemma indexOf_Some x arr ix : indexOf x arr = Some ix -> arr !! ix = Some x.
Proof.
  revert ix. induction arr as [ | y arr IH]; intros ix; simpl; [ discriminate | ].
  destruct (decide (y = x)) as [-> | Hne].
  - intros [= <-]. reflexivity.
  - destruct (indexOf x arr) as [j | ]; simpl; [ | discriminate ].
    intros [= <-]. simpl. apply IH. reflexivity.
Qed.

Lemma indexOf_elem x arr : x ∈ arr -> exists ix, indexOf x arr = Some ix.
Proof.
  induction arr as [ | y arr IH]; [ intros H; inversion H | ].
  intros H. simpl. destruct (decide (y = x)) as [-> | Hne]; [ eauto | ].
  apply elem_of_cons in H as [-> | H]; [ congruence | ].
  destruct (IH H) as [ix ->]. simpl. eauto.
Qed.

Lemma indexOf_None x arr : indexOf x arr = None -> x ∉ arr.
Proof.
  intros H Hin. apply indexOf_elem in Hin as [ix Hix]. congruence.
Qed.


(** Distinct numbers below [n] are at most [n]. *)
Lemma NoDup_below_length (l : list nat) (n : nat) :
  NoDup l -> Forall (fun x => x < n) l -> length l <= n.
Proof.
  intros Hd Hb.
  transitivity (length (seq 0 n)); [ | rewrite length_seq; reflexivity ].
  apply submseteq_length, NoDup_submseteq; [ exact Hd | ].
  intros x Hx. rewrite Forall_forall in Hb. apply elem_of_seq.
  specialize (Hb x Hx). lia.
Qed.

Lemma indexOf_app_last (x : nat) (arr : list nat) :
  x ∉ arr -> indexOf x (arr ++ [x]) = Some (length arr).
Proof.
  induction arr as [ | y arr IH]; intros Hx; simpl.
  - destruct (decide (x = x)); [ reflexivity | contradiction ].
  - apply not_elem_of_cons in Hx as [Hne Hx].
    destruct (decide (y = x)); [ congruence | ].
    rewrite (IH Hx). reflexivity.
Qed.

Lemma delete_app_last {A} (arr : list A) (x : A) :
  delete (length arr) (arr ++ [x]) = arr.
Proof. induction arr as [ | y arr IH]; simpl; [ reflexivity | f_equal; exact IH ]. Qed.

Lemma rearranged (l l' : list nat) (n : nat) :
  l' ≡ₚ l -> NoDup l -> Forall (fun x => x < n) l ->
  NoDup l' /\ Forall (fun x => x < n) l' /\ length l' = length l.
Proof.
  intros Hp Hd Hb. split; [ | split ].
  - apply (NoDup_Permutation_proper _ _ Hp). exact Hd.
  - apply (Forall_Permutation _ _ (fun _ => reflexivity _) _ _ Hp). exact Hb.
  - apply Permutation_length. exact Hp.
Qed.


(** ** Reads and assignments on plain objects *)



Lemma js_set_plain key val obj :
  key <> "__proto__"%string -> js_set key val obj = define_own key val obj.
Proof.
  intros H. unfold js_set. rewrite (bool_decide_eq_false_2 _ H).
  destruct (own obj !! key), (link obj); reflexivity.
Qed.

Lemma proto_set_plain proto key val obj :
  key <> "__proto__"%string ->
  proto_set proto key val obj = define_own key val obj.
Proof.
  intros H. unfold proto_set. rewrite (bool_decide_eq_false_2 _ H).
  destruct (own obj !! key), (link obj), (own proto !! key), (link proto);
    reflexivity.
Qed.


Lemma own_proto_set_ne proto k v obj key :
  k <> key -> own (proto_set proto k v obj) !! key = own obj !! key.
Proof.
  intros H. unfold proto_set, set_prototype, define_own.
  destruct (own obj !! k), (link obj), (own proto !! k), (link proto),
    (bool_decide (k = "__proto__"%string)), v;
    cbn [own]; rewrite ?lookup_insert_ne by exact H; reflexivity.
Qed.

(** Under a key other than [__proto__] an assignment to
    [Object.create(proto)] leaves an own property. *)
Lemma own_proto_set proto k v obj key :
  key <> "__proto__"%string ->
  own (proto_set proto k v obj) !! key =
  if bool_decide (k = key) then Some v else own obj !! key.
Proof.
  intros Hk. destruct (bool_decide (k = key)) eqn:E.
  - apply bool_decide_eq_true in E. subst k.
    rewrite proto_set_plain by exact Hk. cbn [define_own own].
    apply lookup_insert_eq.
  - apply bool_decide_eq_false in E. apply own_proto_set_ne, E.
Qed.

(** No assignment but one to [__proto__] changes a prototype. *)
Lemma link_js_set k v obj :
  k <> "__proto__"%string -> link (js_set k v obj) = link obj.
Proof. intros H. rewrite js_set_plain by exact H. reflexivity. Qed.

Lemma link_proto_set proto k v obj :
  k <> "__proto__"%string -> link (proto_set proto k v obj) = link obj.
Proof. intros H. rewrite proto_set_plain by exact H. reflexivity. Qed.

Lemma js_get_define_own k v obj key :
  js_get (define_own k v obj) key =
  if bool_decide (k = key) then Data v else js_get obj key.
Proof.
  unfold js_get, define_own. cbn [own link].
  destruct (bool_decide (k = key)) eqn:E.
  - apply bool_decide_eq_true in E. subst. rewrite lookup_insert_eq. reflexivity.
  - apply bool_decide_eq_false in E. rewrite lookup_insert_ne by exact E.
    reflexivity.
Qed.


Lemma proto_get_own obj proto key v :
  own obj !! key = Some v -> proto_get obj proto key = Data v.
Proof. intros H. unfold proto_get. rewrite H. reflexivity. Qed.

(** A read through [Object.create(store)] of a key without own property
    there is the read of the store, for every key but [__proto__]. *)
Lemma proto_get_through obj proto key :
  own obj !! key = None -> link obj = Linked -> key <> "__proto__"%string ->
  proto_get obj proto key = js_get proto key.
Proof.
  intros Ho Hl Hk. unfold proto_get, js_get, object_prototype_get.
  rewrite Ho, Hl, (bool_decide_eq_false_2 _ Hk). reflexivity.
Qed.

Lemma last_write_app key l op :
  MemKv.last_write key (l ++ [op]) =
  MemKv.staged_write key (MemKv.last_write key l) op.
Proof. unfold MemKv.last_write. rewrite fold_left_app. reflexivity. Qed.

(** ** The key-value engine *)

Module MemKvProps.

Import Ctx MemKv.

(** *** Simplification of field reads after field updates *)

Ltac kv_proj :=
  cbn [store thePool conns nextConn txns nextTxn reqs nextReq handles
       nextHandle cancelers set_store set_pool set_conn set_txn set_req
       set_handle set_canceler bump_conn bump_txn bump_req bump_handle
       keepOpen closed waitClose txn conn_with_keepOpen conn_with_closed
       conn_with_waitClose conn_with_txn onComplete temp ops readonly done
       txn_with_temp txn_with_ops txn_with_done promise clrOf timedOut
       resolved req_with_promise req_with_timedOut req_with_resolved maxCnt
       reqQueue poolClosed active pool pool_with_reqQueue pool_with_closed
       pool_with_active pool_with_pool canceled listeners
       canceler_with_listeners canceler_with_canceled fst snd] in *.

Ltac kv_run :=
  cbn [bind ret throw gets modify conn_reset] in *; kv_proj.

Ltac kv_lookup :=
  repeat first
    [ rewrite fn_lookup_insert in *
    | rewrite fn_lookup_insert_ne in * by congruence ].

Ltac kv_exec := kv_run; repeat (progress (unfold bind in *; kv_run)).

Ltac kv_eval :=
  repeat (progress (unfold bind, ret, throw, gets, modify, conn_reset in *;
                    kv_proj)).

(** *** Frame properties of the engine *)

Ltac keeps_step :=
  match goal with
  | |- PreOrder _ => exact _
  | |- keeps _ (bind _ _) => apply keeps_bind; [ exact _ | | intros ? ]
  | |- keeps _ (ret _) => apply keeps_ret; exact _
  | |- keeps _ (throw _) => apply keeps_throw; exact _
  | |- keeps _ (gets _) => apply keeps_gets; exact _
  | |- keeps _ (finally _ _) => apply keeps_finally; [ exact _ | | ]
  | |- keeps _ (modify _) =>
      apply keeps_modify; intros ?;
      first [ apply r_pool_reqQueue | apply r_pool_closed | apply r_pool_idle
            | apply r_pool_active_delete | apply r_pool_active_push
            | apply r_conn_closed | apply r_conn_keepOpen
            | apply r_conn_waitClose | apply r_conn_txn
            | apply r_handle | apply r_req_reject | apply r_req_fulfil
            | apply r_req_timedOut | apply r_req_resolved | apply r_canceler
            | apply r_store | apply r_txn_ops | apply r_txn_temp
            | apply r_txn_done ]
  | |- keeps _ (fun w => (NoFuel, w)) => apply keeps_nofuel; exact _
  | |- keeps _ (match ?x with _ => _ end) => destruct x
  | H : _ |- _ => solve [ apply H ]
  end.

Ltac keeps_auto := repeat keeps_step.

Section KvFrame.

Context (R : relation World) `{!PreOrder R}.

Lemma keeps_new_handle `{!RespectsPooling R} : keeps R new_handle.
Proof using Type*.
  intros w. unfold new_handle. kv_proj.
  etransitivity; [ apply r_handle | apply r_bump_handle ].
Qed.

Lemma keeps_new_conn `{!RespectsAcquire R} : keeps R new_conn.
Proof.
  intros w. unfold new_conn. simpl. apply r_conn_new.
Qed.

Lemma keeps_new_request `{!RespectsReqWait R} : keeps R new_request.
Proof. intros w. unfold new_request. simpl. apply r_req_new. Qed.

Lemma keeps_handle_resolve `{!RespectsPooling R} h : keeps R (handle_resolve h).
Proof. unfold handle_resolve. keeps_auto. Qed.

Lemma keeps_clr_onCancel `{!RespectsCanceler R} clr l : keeps R (clr_onCancel clr l).
Proof. unfold clr_onCancel. keeps_auto. Qed.

Lemma keeps_clr_off `{!RespectsCanceler R} clr l : keeps R (clr_off clr l).
Proof. unfold clr_off. keeps_auto. Qed.

Lemma keeps_cancelableConnRequest `{!RespectsReqWait R, !RespectsCanceler R} clr :
  keeps R (cancelableConnRequest clr).
Proof using Type*.
  unfold cancelableConnRequest. apply keeps_bind; [ exact _ | | ].
  - intros w. simpl. apply r_req_new.
  - intros r. pose proof (keeps_clr_onCancel clr (OnCancel r)). keeps_auto.
Qed.

Lemma keeps_handle_onCancel `{!RespectsReqWait R, !RespectsCanceler R} r :
  keeps R (handle_onCancel r).
Proof using Type*.
  unfold handle_onCancel. keeps_step; [ keeps_auto | ].
  destruct (clrOf a) as [clr | ]; [ | keeps_auto ].
  pose proof (keeps_clr_off clr (OnCancel r)). keeps_auto.
Qed.

Lemma keeps_fire_all `{!RespectsReqWait R, !RespectsCanceler R} ls :
  keeps R (fire_all ls).
Proof using Type*.
  induction ls as [ | [r] ls IH]; simpl; [ keeps_auto | ].
  pose proof (keeps_handle_onCancel r). keeps_auto.
Qed.

Lemma keeps_cancel `{!RespectsReqWait R, !RespectsCanceler R} clr :
  keeps R (cancel clr).
Proof using Type*.
  unfold cancel. keeps_step; [ keeps_auto | ].
  pose proof (keeps_fire_all (listeners a)). keeps_auto.
Qed.

Lemma keeps_conn_reset `{!RespectsPooling R} c b : keeps R (conn_reset c b).
Proof using Type*. unfold conn_reset. keeps_auto. Qed.

Section WithReturn.

Context `{!RespectsPooling R, !RespectsReqGrant R, !RespectsCanceler R}.
Variable pool_return : nat -> KV unit.
Hypothesis keeps_return : forall c, keeps R (pool_return c).

Lemma keeps_conn_close_with c : keeps R (conn_close_with pool_return c).
Proof using Type*.
  unfold conn_close_with. pose proof keeps_new_handle. keeps_auto.
Qed.

Lemma keeps_conn_txnDone_with c : keeps R (conn_txnDone_with pool_return c).
Proof using Type*.
  unfold conn_txnDone_with.
  pose proof (keeps_conn_close_with c). pose proof keeps_handle_resolve.
  keeps_auto.
Qed.

Lemma keeps_request_resolve_with r c :
  keeps R (request_resolve_with pool_return r c).
Proof using Type*.
  unfold request_resolve_with. keeps_step; [ keeps_auto | ].
  pose proof (keeps_conn_close_with c).
  destruct (clrOf a) as [clr | ]; [ | keeps_auto ].
  pose proof (keeps_clr_off clr (OnCancel r)). keeps_auto.
Qed.

End WithReturn.

Section Pooling.

Context `{!RespectsPooling R, !RespectsReqGrant R, !RespectsCanceler R}.

Lemma keeps_pool_return_fuel fuel c : keeps R (pool_return_fuel fuel c).
Proof using Type*.
  revert c. induction fuel as [ | fuel IH]; intros c; simpl; [ keeps_auto | ].
  pose proof (keeps_conn_reset c true).
  pose proof (fun r => keeps_request_resolve_with _ IH r c).
  keeps_auto.
Qed.

Lemma keeps_pool_return c : keeps R (pool_return c).
Proof using Type*. intros w. unfold pool_return. apply keeps_pool_return_fuel. Qed.

Lemma keeps_conn_close c : keeps R (conn_close c).
Proof using Type*. apply keeps_conn_close_with, keeps_pool_return. Qed.

Lemma keeps_conn_txnDone c : keeps R (conn_txnDone c).
Proof using Type*. apply keeps_conn_txnDone_with, keeps_pool_return. Qed.

Lemma keeps_close_loop fuel i ps : keeps R (close_loop fuel i ps).
Proof using Type*.
  revert i ps. induction fuel as [ | fuel IH]; intros i ps; simpl.
  - keeps_auto.
  - pose proof keeps_conn_close. keeps_auto.
Qed.

Lemma keeps_pool_close : keeps R pool_close.
Proof using Type*.
  unfold pool_close. pose proof keeps_close_loop. keeps_auto.
Qed.

Lemma keeps_txn_close t : keeps R (txn_close t).
Proof using Type*.
  unfold txn_close. pose proof keeps_conn_txnDone. keeps_auto.
Qed.

End Pooling.

Lemma keeps_pool_conn
    `{!RespectsPooling R, !RespectsAcquire R, !RespectsReqWait R,
      !RespectsCanceler R} {V} (ctx : Context V) :
  keeps R (pool_conn ctx).
Proof using Type*.
  unfold pool_conn.
  pose proof keeps_new_conn. pose proof keeps_new_request.
  pose proof keeps_cancelableConnRequest. pose proof keeps_conn_reset.
  keeps_auto.
Qed.

Lemma keeps_conn_checkOpen c : keeps R (conn_checkOpen c).
Proof using Type*. unfold conn_checkOpen. keeps_auto. Qed.

Lemma keeps_conn_get {V} c (ctx : Context V) key : keeps R (conn_get c ctx key).
Proof using Type*. unfold conn_get. pose proof keeps_conn_checkOpen. keeps_auto. Qed.

Lemma keeps_conn_set `{!RespectsStore R} {V} c (ctx : Context V) key val :
  keeps R (conn_set c ctx key val).
Proof using Type*. unfold conn_set. pose proof keeps_conn_checkOpen. keeps_auto. Qed.

Lemma keeps_conn_delete `{!RespectsStore R} {V} c (ctx : Context V) key :
  keeps R (conn_delete c ctx key).
Proof using Type*. unfold conn_delete. pose proof keeps_conn_checkOpen. keeps_auto. Qed.

Lemma keeps_conn_beginTxn `{!RespectsTxnLife R} {V} c (ctx : Context V) opts :
  keeps R (conn_beginTxn c ctx opts).
Proof using Type*.
  unfold conn_beginTxn.
  apply keeps_bind; [ exact _ | apply keeps_conn_checkOpen | ].
  intros _ w. simpl. apply r_txn_new.
Qed.

Lemma keeps_txn_get {V} t (ctx : Context V) key : keeps R (txn_get t ctx key).
Proof using Type*. unfold txn_get. keeps_auto. Qed.

Lemma keeps_txn_set `{!RespectsTxnWrite R} {V} t (ctx : Context V) key val :
  keeps R (txn_set t ctx key val).
Proof using Type*. unfold txn_set. keeps_auto. Qed.

Lemma keeps_txn_delete `{!RespectsTxnWrite R} {V} t (ctx : Context V) key :
  keeps R (txn_delete t ctx key).
Proof using Type*. unfold txn_delete. keeps_auto. Qed.

Lemma keeps_txn_rollback
    `{!RespectsPooling R, !RespectsReqGrant R, !RespectsCanceler R, !RespectsTxnLife R} t :
  keeps R (txn_rollback t).
Proof using Type*. unfold txn_rollback. pose proof keeps_txn_close. keeps_auto. Qed.

Lemma keeps_txn_commit
    `{!RespectsPooling R, !RespectsReqGrant R, !RespectsCanceler R, !RespectsTxnLife R,
      !RespectsStore R} t :
  keeps R (txn_commit t).
Proof using Type*. unfold txn_commit. pose proof keeps_txn_close. keeps_auto. Qed.

Lemma keeps_pool_beginTxn_resume `{!RespectsPooling R, !RespectsTxnLife R}
    {V} c (ctx : Context V) opts :
  keeps R (pool_beginTxn_resume c ctx opts).
Proof using Type*.
  unfold pool_beginTxn_resume.
  pose proof keeps_conn_reset. pose proof (keeps_conn_beginTxn c ctx opts).
  keeps_auto.
Qed.

(** A relation respected by the field updates is kept by every call; the
    updates of a group need to be respected only for the calls that can
    reach them. *)
Lemma keeps_perform {V} (a : Call V) :
  RespectsPooling R -> RespectsAcquire R -> RespectsReqWait R ->
  RespectsCanceler R -> RespectsTxnLife R ->
  (releases a = true -> RespectsReqGrant R) ->
  (mutates a = true -> RespectsStore R) ->
  (buffers a = true -> RespectsTxnWrite R) ->
  keeps R (perform a).
Proof using Type*.
  intros ? ? ? ? ? Hg Hs Hb.
  destruct a; simpl in Hg, Hs, Hb;
    try (pose proof (Hg eq_refl)); try (pose proof (Hs eq_refl));
    try (pose proof (Hb eq_refl)); clear Hg Hs Hb;
    cbn [perform]; unfold pool_set_resume, pool_get_resume, pool_delete_resume;
    first
      [ apply keeps_cancel
      | apply keeps_conn_set | apply keeps_conn_delete
      | apply keeps_txn_set | apply keeps_txn_delete
      | apply keeps_finally;
          [ exact _
          | first [ apply keeps_conn_set | apply keeps_conn_delete ]
          | apply keeps_conn_close ]
      | apply keeps_bind;
          [ exact _
          | first [ apply keeps_pool_conn | apply keeps_pool_close
                  | apply keeps_pool_beginTxn_resume
                  | apply keeps_finally;
                      [ exact _ | apply keeps_conn_get | apply keeps_conn_close ]
                  | apply keeps_conn_close | apply keeps_conn_get
                  | apply keeps_conn_beginTxn | apply keeps_txn_get
                  | apply keeps_txn_commit | apply keeps_txn_rollback ]
          | intros ?; apply keeps_ret; exact _ ]
 ].
Qed.

Lemma keeps_step {V} (a : Call V) w
    `{!RespectsPooling R, !RespectsAcquire R, !RespectsReqWait R,
      !RespectsReqGrant R, !RespectsCanceler R, !RespectsTxnLife R,
      !RespectsTxnWrite R, !RespectsStore R} :
  R w (step a w).
Proof using Type*. apply keeps_perform; auto. Qed.

Lemma keeps_run {V} (calls : list (Call V)) w
    `{!RespectsPooling R, !RespectsAcquire R, !RespectsReqWait R,
      !RespectsReqGrant R, !RespectsCanceler R, !RespectsTxnLife R,
      !RespectsTxnWrite R, !RespectsStore R} :
  R w (run calls w).
Proof using Type*.
  revert w. induction calls as [ | a calls IH]; intros w; simpl.
  - reflexivity.
  - etransitivity; [ exact (keeps_step a w) | apply IH ].
Qed.

End KvFrame.

(** *** The recursion of [return] terminates *)

(** [close] and the resolver of a request call [return] only in worlds with
    the pool they started from. *)
Lemma conn_close_with_ext (ret1 ret2 : nat -> KV unit) c w :
  (forall w', thePool w' = thePool w -> ret1 c w' = ret2 c w') ->
  conn_close_with ret1 c w = conn_close_with ret2 c w.
Proof.
  intros H. unfold conn_close_with. kv_run.
  destruct (closed (conns w c)); [ reflexivity | ].
  destruct (txn (conns w c)); [ reflexivity | ].
  kv_run. unfold bind. rewrite H; reflexivity.
Qed.

Lemma request_resolve_with_ext (ret1 ret2 : nat -> KV unit) r c w :
  (forall w', thePool w' = thePool w -> ret1 c w' = ret2 c w') ->
  request_resolve_with ret1 r c w = request_resolve_with ret2 r c w.
Proof.
  intros H. unfold request_resolve_with. kv_run.
  destruct (clrOf (reqs w r)); [ | reflexivity ].
  destruct (timedOut (reqs w r)); [ | reflexivity ].
  kv_run. unfold bind. rewrite (conn_close_with_ext ret1 ret2); auto.
Qed.

Lemma pool_return_fuel_irrel fuel1 : forall fuel2 c w,
  length (reqQueue (thePool w)) < fuel1 ->
  length (reqQueue (thePool w)) < fuel2 ->
  pool_return_fuel fuel1 c w = pool_return_fuel fuel2 c w.
Proof.
  induction fuel1 as [ | fuel1 IH]; intros fuel2 c w H1 H2; [ lia | ].
  destruct fuel2 as [ | fuel2]; [ lia | ].
  cbn [pool_return_fuel bind gets].
  destruct (indexOf c (active (thePool w))); [ | reflexivity ].
  destruct (reqQueue (thePool w)) as [ | req q] eqn:Hq; [ reflexivity | ].
  kv_run.
  apply request_resolve_with_ext. kv_proj. intros w' Hw'.
  apply IH; rewrite Hw'; kv_proj; rewrite Hq; simpl in *; lia.
Qed.

(** The equation of [MemKvPool.return], free of the recursion budget. *)
Lemma pool_return_unfold c w :
  pool_return c w =
  (let* p := gets thePool in
   match indexOf c (active p) with
   | None => throw (Error "Connection is not in this pool")
   | Some ix =>
       match reqQueue p with
       | req :: _ =>
           modify (set_pool (pool_with_reqQueue tail)) >>>
           conn_reset c true >>>
           request_resolve_with pool_return req c
       | [] =>
           modify (set_pool (pool_with_active (delete ix))) >>>
           modify (set_pool (pool_with_pool (fun l => l ++ [c])))
       end
   end) w.
Proof.
  unfold pool_return at 1. cbn [pool_return_fuel bind gets].
  destruct (indexOf c (active (thePool w))); [ | reflexivity ].
  destruct (reqQueue (thePool w)) as [ | req q] eqn:Hq; [ reflexivity | ].
  kv_run.
  apply request_resolve_with_ext. kv_proj. intros w' Hw'.
  unfold pool_return.
  apply pool_return_fuel_irrel; rewrite Hw'; kv_proj; rewrite Hq; simpl; lia.
Qed.

Lemma conn_close_with_fuel (ret1 : nat -> KV unit) c w :
  (forall w', thePool w' = thePool w -> fst (ret1 c w') <> NoFuel) ->
  fst (conn_close_with ret1 c w) <> NoFuel.
Proof.
  intros H. unfold conn_close_with. kv_run.
  destruct (closed (conns w c)); [ discriminate | ].
  destruct (txn (conns w c)).
  - destruct (waitClose (conns w c)); discriminate.
  - unfold bind. kv_run. match goal with |- context [ret1 c ?w'] =>
      specialize (H w' eq_refl); destruct (ret1 c w') as [[ [] | e | ] w2]
    end; simpl in *; congruence.
Qed.

Lemma pool_return_fuel_total fuel : forall c w,
  length (reqQueue (thePool w)) < fuel ->
  fst (pool_return_fuel fuel c w) <> NoFuel.
Proof.
  induction fuel as [ | fuel IH]; intros c w H; [ lia | ].
  cbn [pool_return_fuel bind gets].
  destruct (indexOf c (active (thePool w))); [ | discriminate ].
  destruct (reqQueue (thePool w)) as [ | req q] eqn:Hq; [ discriminate | ].
  kv_run.
  unfold request_resolve_with. kv_run.
  destruct (clrOf _); [ | discriminate ].
  destruct (timedOut _); [ | discriminate ].
  unfold bind. kv_run.
  match goal with |- context [conn_close_with ?f c ?w'] =>
    pose proof (conn_close_with_fuel f c w') as Hc;
    destruct (conn_close_with f c w') as [[ p | e | ] w2]
  end; simpl in *; try discriminate.
  intros _. apply Hc; [ | reflexivity ]. intros w' Hw'. apply IH. rewrite Hw'. kv_proj. rewrite Hq.
  simpl in *. lia.
Qed.

(** [MemKvPool.return] always comes back: it returns or throws. *)
Lemma pool_return_total c w : fst (pool_return c w) <> NoFuel.
Proof. unfold pool_return. apply pool_return_fuel_total. lia. Qed.

Lemma conn_close_total c w : fst (conn_close c w) <> NoFuel.
Proof.
  apply conn_close_with_fuel. intros w' _. apply pool_return_total.
Qed.

(** *** The relations are preorders that the field updates respect *)

Ltac respects_tac :=
  split; intros; red; kv_proj; try reflexivity; try lia.

#[local] Instance same_store_preorder : PreOrder same_store.
Proof.
  split; [ intros w; red; reflexivity | ].
  intros a b c H1 H2; unfold same_store in *; congruence.
Qed.
#[local] Instance same_store_pooling : RespectsPooling same_store.
Proof. respects_tac. Qed.
#[local] Instance same_store_acquire : RespectsAcquire same_store.
Proof. respects_tac. Qed.
#[local] Instance same_store_reqwait : RespectsReqWait same_store.
Proof. respects_tac. Qed.
#[local] Instance same_store_reqgrant : RespectsReqGrant same_store.
Proof. respects_tac. Qed.
#[local] Instance same_store_canceler : RespectsCanceler same_store.
Proof. respects_tac. Qed.
#[local] Instance same_store_txnwrite : RespectsTxnWrite same_store.
Proof. respects_tac. Qed.
#[local] Instance same_store_txnlife : RespectsTxnLife same_store.
Proof. respects_tac. Qed.

#[local] Instance same_txns_preorder : PreOrder same_txns.
Proof.
  split; [ intros w; split; reflexivity | ].
  intros a b c [H1 H1'] [H2 H2']; split; congruence.
Qed.
#[local] Instance same_txns_pooling : RespectsPooling same_txns.
Proof. respects_tac; split; reflexivity. Qed.
#[local] Instance same_txns_acquire : RespectsAcquire same_txns.
Proof. respects_tac; split; reflexivity. Qed.
#[local] Instance same_txns_reqwait : RespectsReqWait same_txns.
Proof. respects_tac; split; reflexivity. Qed.
#[local] Instance same_txns_reqgrant : RespectsReqGrant same_txns.
Proof. respects_tac; split; reflexivity. Qed.
#[local] Instance same_txns_canceler : RespectsCanceler same_txns.
Proof. respects_tac; split; reflexivity. Qed.
#[local] Instance same_txns_store : RespectsStore same_txns.
Proof. respects_tac; split; reflexivity. Qed.

#[local] Instance same_cancelers_preorder : PreOrder same_cancelers.
Proof.
  split; [ intros w; red; reflexivity | ].
  intros a b c H1 H2; unfold same_cancelers in *; congruence.
Qed.
#[local] Instance same_cancelers_pooling : RespectsPooling same_cancelers.
Proof. respects_tac. Qed.
#[local] Instance same_cancelers_acquire : RespectsAcquire same_cancelers.
Proof. respects_tac. Qed.
#[local] Instance same_cancelers_txnwrite : RespectsTxnWrite same_cancelers.
Proof. respects_tac. Qed.
#[local] Instance same_cancelers_txnlife : RespectsTxnLife same_cancelers.
Proof. respects_tac. Qed.
#[local] Instance same_cancelers_store : RespectsStore same_cancelers.
Proof. respects_tac. Qed.

#[local] Instance active_shrinks_preorder : PreOrder active_shrinks.
Proof.
  split; [ intros w; red; lia | ].
  intros a b c H1 H2; unfold active_shrinks in *; lia.
Qed.
#[local] Instance active_shrinks_pooling : RespectsPooling active_shrinks.
Proof.
  respects_tac. apply length_delete_le.
Qed.
#[local] Instance active_shrinks_reqgrant : RespectsReqGrant active_shrinks.
Proof. respects_tac. Qed.
#[local] Instance active_shrinks_canceler : RespectsCanceler active_shrinks.
Proof. respects_tac. Qed.

#[local] Instance done_stays_preorder t : PreOrder (done_stays t).
Proof.
  split; [ intros w; split; auto | ].
  intros a b c [H1 H1'] [H2 H2']; split; [ lia | ].
  intros Ht Hd. apply H2'; [ lia | auto ].
Qed.
#[local] Instance done_stays_pooling t : RespectsPooling (done_stays t).
Proof. respects_tac; split; auto. Qed.
#[local] Instance done_stays_acquire t : RespectsAcquire (done_stays t).
Proof. respects_tac; split; auto. Qed.
#[local] Instance done_stays_reqwait t : RespectsReqWait (done_stays t).
Proof. respects_tac; split; auto. Qed.
#[local] Instance done_stays_reqgrant t : RespectsReqGrant (done_stays t).
Proof. respects_tac; split; auto. Qed.
#[local] Instance done_stays_canceler t : RespectsCanceler (done_stays t).
Proof. respects_tac; split; auto. Qed.
#[local] Instance done_stays_store t : RespectsStore (done_stays t).
Proof. respects_tac; split; auto. Qed.
#[local] Instance done_stays_txnwrite t : RespectsTxnWrite (done_stays t).
Proof.
  split; intros; red; kv_proj; (split; [ lia | ]); intros Ht Hd.
  - destruct (decide (t0 = t)) as [-> | ]; kv_lookup; auto.
  - destruct (decide (t0 = t)) as [-> | ]; kv_lookup; auto.
Qed.
#[local] Instance done_stays_txnlife t : RespectsTxnLife (done_stays t).
Proof.
  split; intros; red; kv_proj; (split; [ lia | ]); intros Ht Hd.
  - destruct (decide (t0 = t)) as [-> | ]; kv_lookup; auto.
  - rewrite fn_lookup_insert_ne by lia. auto.
Qed.

#[local] Instance settled_stays_preorder r : PreOrder (settled_stays r).
Proof.
  split; [ intros w; split; auto | ].
  intros a b c [H1 H1'] [H2 H2']; split; [ lia | ].
  intros Hr Hp. rewrite H2'; [ auto | lia | rewrite H1'; auto ].
Qed.
#[local] Instance settled_stays_pooling r : RespectsPooling (settled_stays r).
Proof. respects_tac; split; auto. Qed.
#[local] Instance settled_stays_acquire r : RespectsAcquire (settled_stays r).
Proof. respects_tac; split; auto. Qed.
#[local] Instance settled_stays_canceler r : RespectsCanceler (settled_stays r).
Proof. respects_tac; split; auto. Qed.
#[local] Instance settled_stays_store r : RespectsStore (settled_stays r).
Proof. respects_tac; split; auto. Qed.
#[local] Instance settled_stays_txnwrite r : RespectsTxnWrite (settled_stays r).
Proof. respects_tac; split; auto. Qed.
#[local] Instance settled_stays_txnlife r : RespectsTxnLife (settled_stays r).
Proof. respects_tac; split; auto. Qed.
#[local] Instance settled_stays_reqwait r : RespectsReqWait (settled_stays r).
Proof.
  split; intros; red; kv_proj; (split; [ lia | ]); intros Hr Hp.
  - destruct (decide (r0 = r)) as [-> | ]; kv_lookup; auto.
    kv_proj. destruct (promise (reqs w r)); simpl; congruence.
  - destruct (decide (r0 = r)) as [-> | ]; kv_lookup; auto.
  - rewrite fn_lookup_insert_ne by lia. auto.
Qed.
#[local] Instance settled_stays_reqgrant r : RespectsReqGrant (settled_stays r).
Proof.
  split; intros; red; kv_proj; (split; [ lia | ]); intros Hr Hp.
  - destruct (decide (r0 = r)) as [-> | ]; kv_lookup; auto.
    kv_proj. destruct (promise (reqs w r)); simpl; congruence.
  - destruct (decide (r0 = r)) as [-> | ]; kv_lookup; auto.
Qed.

#[local] Instance not_granted_preorder r : PreOrder (not_granted r).
Proof.
  split; [ intros w; split; auto | ].
  intros a b c [H1 H1'] [H2 H2']; split; [ lia | ].
  intros Hr c0 Hp. apply H1'; auto. apply H2'; auto. lia.
Qed.
#[local] Instance not_granted_pooling r : RespectsPooling (not_granted r).
Proof. respects_tac; split; auto. Qed.
#[local] Instance not_granted_acquire r : RespectsAcquire (not_granted r).
Proof. respects_tac; split; auto. Qed.
#[local] Instance not_granted_canceler r : RespectsCanceler (not_granted r).
Proof. respects_tac; split; auto. Qed.
#[local] Instance not_granted_store r : RespectsStore (not_granted r).
Proof. respects_tac; split; auto. Qed.
#[local] Instance not_granted_txnwrite r : RespectsTxnWrite (not_granted r).
Proof. respects_tac; split; auto. Qed.
#[local] Instance not_granted_txnlife r : RespectsTxnLife (not_granted r).
Proof. respects_tac; split; auto. Qed.
#[local] Instance not_granted_reqwait r : RespectsReqWait (not_granted r).
Proof.
  split; intros; red; kv_proj; (split; [ lia | ]); intros Hr c0.
  - destruct (decide (r0 = r)) as [-> | ]; kv_lookup; auto.
    kv_proj. destruct (promise (reqs w r)); simpl; congruence.
  - destruct (decide (r0 = r)) as [-> | ]; kv_lookup; auto.
  - rewrite fn_lookup_insert_ne by lia. auto.
Qed.

#[local] Instance txn_unset_stays_preorder : PreOrder txn_unset_stays.
Proof. split; [ intros w c; auto | intros a b c H1 H2 x Hx; auto ]. Qed.
#[local] Instance txn_unset_stays_pooling : RespectsPooling txn_unset_stays.
Proof.
  split; intros; red; kv_proj; auto; intros c0 Hc0;
    destruct (decide (c = c0)) as [-> | ]; kv_lookup; auto.
Qed.
#[local] Instance txn_unset_stays_acquire : RespectsAcquire txn_unset_stays.
Proof.
  split; intros; red; kv_proj; auto; intros c0 Hc0.
  destruct (decide (nextConn w = c0)) as [<- | ]; kv_lookup; auto.
Qed.
#[local] Instance txn_unset_stays_reqwait : RespectsReqWait txn_unset_stays.
Proof. split; intros; red; kv_proj; auto. Qed.
#[local] Instance txn_unset_stays_reqgrant : RespectsReqGrant txn_unset_stays.
Proof. split; intros; red; kv_proj; auto. Qed.
#[local] Instance txn_unset_stays_canceler : RespectsCanceler txn_unset_stays.
Proof. split; intros; red; kv_proj; auto. Qed.
#[local] Instance txn_unset_stays_store : RespectsStore txn_unset_stays.
Proof. split; intros; red; kv_proj; auto. Qed.
#[local] Instance txn_unset_stays_txnwrite : RespectsTxnWrite txn_unset_stays.
Proof. split; intros; red; kv_proj; auto. Qed.
#[local] Instance txn_unset_stays_txnlife : RespectsTxnLife txn_unset_stays.
Proof. split; intros; red; kv_proj; auto. Qed.

#[local] Instance untouched_preorder t key : PreOrder (untouched t key).
Proof.
  split; [ intros w; split; auto | ].
  intros a b c [H1 H1'] [H2 H2']; split; [ lia | ].
  intros Ht Hk. apply H2'; [ lia | auto ].
Qed.
#[local] Instance untouched_pooling t key : RespectsPooling (untouched t key).
Proof. respects_tac; split; auto. Qed.
#[local] Instance untouched_acquire t key : RespectsAcquire (untouched t key).
Proof. respects_tac; split; auto. Qed.
#[local] Instance untouched_reqwait t key : RespectsReqWait (untouched t key).
Proof. respects_tac; split; auto. Qed.
#[local] Instance untouched_reqgrant t key : RespectsReqGrant (untouched t key).
Proof. respects_tac; split; auto. Qed.
#[local] Instance untouched_canceler t key : RespectsCanceler (untouched t key).
Proof. respects_tac; split; auto. Qed.
#[local] Instance untouched_store t key : RespectsStore (untouched t key).
Proof. respects_tac; split; auto. Qed.
#[local] Instance untouched_txnlife t key : RespectsTxnLife (untouched t key).
Proof.
  split; intros; red; kv_proj; (split; [ lia | ]); intros Ht Hk.
  - destruct (decide (t0 = t)) as [-> | ]; kv_lookup; auto.
  - rewrite fn_lookup_insert_ne by lia. auto.
Qed.

#[local] Instance same_pool_preorder : PreOrder same_pool.
Proof.
  split; [ intros w; red; reflexivity | ].
  intros a b c H1 H2; unfold same_pool in *; congruence.
Qed.
#[local] Instance same_pool_reqwait : RespectsReqWait same_pool.
Proof. respects_tac. Qed.
#[local] Instance same_pool_canceler : RespectsCanceler same_pool.
Proof. respects_tac. Qed.

#[local] Instance timed_out_stays_preorder r : PreOrder (timed_out_stays r).
Proof.
  split; [ intros w; split; auto | ].
  intros a b c [H1 H1'] [H2 H2']; split; [ lia | ].
  intros Hr Hp. apply H2'; [ lia | auto ].
Qed.
#[local] Instance timed_out_stays_pooling r : RespectsPooling (timed_out_stays r).
Proof. respects_tac; split; auto. Qed.
#[local] Instance timed_out_stays_acquire r : RespectsAcquire (timed_out_stays r).
Proof. respects_tac; split; auto. Qed.
#[local] Instance timed_out_stays_canceler r : RespectsCanceler (timed_out_stays r).
Proof. respects_tac; split; auto. Qed.
#[local] Instance timed_out_stays_store r : RespectsStore (timed_out_stays r).
Proof. respects_tac; split; auto. Qed.
#[local] Instance timed_out_stays_txnwrite r : RespectsTxnWrite (timed_out_stays r).
Proof. respects_tac; split; auto. Qed.
#[local] Instance timed_out_stays_txnlife r : RespectsTxnLife (timed_out_stays r).
Proof. respects_tac; split; auto. Qed.
#[local] Instance timed_out_stays_reqwait r : RespectsReqWait (timed_out_stays r).
Proof.
  split; intros; red; kv_proj; (split; [ lia | ]); intros Hr; unfold timed_out;
    kv_proj.
  - destruct (decide (r0 = r)) as [-> | ]; kv_lookup; auto.
  - destruct (decide (r0 = r)) as [-> | ]; kv_lookup; auto.
    kv_proj. tauto.
  - rewrite fn_lookup_insert_ne by lia. auto.
Qed.
#[local] Instance timed_out_stays_reqgrant r : RespectsReqGrant (timed_out_stays r).
Proof.
  split; intros; red; kv_proj; (split; [ lia | ]); intros Hr; unfold timed_out;
    kv_proj; destruct (decide (r0 = r)) as [-> | ]; kv_lookup; auto.
Qed.

#[local] Instance pool_closed_stays_preorder : PreOrder pool_closed_stays.
Proof. split; [ intros w H; exact H | intros a b c H1 H2 H; auto ]. Qed.
#[local] Instance pool_closed_stays_pooling : RespectsPooling pool_closed_stays.
Proof. split; intros; red; kv_proj; auto. Qed.
#[local] Instance pool_closed_stays_acquire : RespectsAcquire pool_closed_stays.
Proof. split; intros; red; kv_proj; auto. Qed.
#[local] Instance pool_closed_stays_reqwait : RespectsReqWait pool_closed_stays.
Proof. split; intros; red; kv_proj; auto. Qed.
#[local] Instance pool_closed_stays_reqgrant : RespectsReqGrant pool_closed_stays.
Proof. split; intros; red; kv_proj; auto. Qed.
#[local] Instance pool_closed_stays_canceler : RespectsCanceler pool_closed_stays.
Proof. split; intros; red; kv_proj; auto. Qed.
#[local] Instance pool_closed_stays_store : RespectsStore pool_closed_stays.
Proof. split; intros; red; kv_proj; auto. Qed.
#[local] Instance pool_closed_stays_txnwrite : RespectsTxnWrite pool_closed_stays.
Proof. split; intros; red; kv_proj; auto. Qed.
#[local] Instance pool_closed_stays_txnlife : RespectsTxnLife pool_closed_stays.
Proof. split; intros; red; kv_proj; auto. Qed.


#[local] Instance still_linked_preorder t : PreOrder (still_linked t).
Proof.
  split; [ intros w; split; auto | ].
  intros a b c [H1 H1'] [H2 H2']; split; [ lia | ].
  intros Ht Hk. apply H2'; [ lia | auto ].
Qed.
#[local] Instance still_linked_pooling t : RespectsPooling (still_linked t).
Proof. respects_tac; split; auto. Qed.
#[local] Instance still_linked_acquire t : RespectsAcquire (still_linked t).
Proof. respects_tac; split; auto. Qed.
#[local] Instance still_linked_reqwait t : RespectsReqWait (still_linked t).
Proof. respects_tac; split; auto. Qed.
#[local] Instance still_linked_reqgrant t : RespectsReqGrant (still_linked t).
Proof. respects_tac; split; auto. Qed.
#[local] Instance still_linked_canceler t : RespectsCanceler (still_linked t).
Proof. respects_tac; split; auto. Qed.
#[local] Instance still_linked_store t : RespectsStore (still_linked t).
Proof. respects_tac; split; auto. Qed.
#[local] Instance still_linked_txnlife t : RespectsTxnLife (still_linked t).
Proof.
  split; intros; red; kv_proj; (split; [ lia | ]); intros Ht Hk.
  - destruct (decide (t0 = t)) as [-> | ]; kv_lookup; auto.
  - rewrite fn_lookup_insert_ne by lia. auto.
Qed.
(** *** Transactions: the terminal state *)

Lemma txn_commit_sets_done t w :
  t < nextTxn w -> done (txns (snd (txn_commit t w)) t) = true.
Proof.
  intros Ht. unfold txn_commit. kv_run.
  destruct (done (txns w t)) eqn:Hd; [ exact Hd | ].
  kv_exec.
  match goal with |- context [txn_close t ?w1] =>
    destruct (keeps_txn_close (done_stays t) t w1) as [_ H]
  end.
  apply H; kv_proj; kv_lookup; auto.
Qed.

Lemma txn_rollback_sets_done t w :
  t < nextTxn w -> done (txns (snd (txn_rollback t w)) t) = true.
Proof.
  intros Ht. unfold txn_rollback. kv_run.
  destruct (done (txns w t)) eqn:Hd; [ exact Hd | ].
  kv_exec.
  match goal with |- context [txn_close t ?w1] =>
    destruct (keeps_txn_close (done_stays t) t w1) as [_ H]
  end.
  apply H; kv_proj; kv_lookup; auto.
Qed.

Lemma run_done_stays {V} (calls : list (Call V)) t w :
  t < nextTxn w -> done (txns w t) = true ->
  t < nextTxn (run calls w) /\ done (txns (run calls w) t) = true.
Proof.
  intros Ht Hd. destruct (keeps_run (done_stays t) calls w) as [H1 H2].
  split; [ lia | auto ].
Qed.

Lemma perform_on_done {V} (a : Call V) t w :
  on_txn t a = true -> done (txns w t) = true ->
  perform a w = (Thrown (Error "Transaction is already complete"), w).
Proof.
  intros Ha Hd.
  destruct a; simpl in Ha; try discriminate;
    apply bool_decide_eq_true in Ha; subst;
    cbn [perform]; unfold txn_set, txn_get, txn_delete, txn_commit, txn_rollback;
    kv_exec; rewrite Hd; reflexivity.
Qed.

(** *** Transactions: buffered writes and the staging area *)

Lemma txn_set_eq {V} t (ctx : Context V) key val w :
  txn_set t ctx key val w =
  if done (txns w t) then (Thrown (Error "Transaction is already complete"), w)
  else if readonly (txns w t) then (Thrown (Error "Transaction is read only"), w)
  else (Returned tt,
        set_txn t (txn_with_temp (proto_set (store w) key val))
          (set_txn t (txn_with_ops (fun l => l ++ [OpSet key val])) w)).
Proof.
  unfold txn_set, temp_assign. kv_exec.
  destruct (done (txns w t)); [ reflexivity | ].
  destruct (readonly (txns w t)); reflexivity.
Qed.

Lemma txn_delete_eq {V} t (ctx : Context V) key w :
  txn_delete t ctx key w =
  if done (txns w t) then (Thrown (Error "Transaction is already complete"), w)
  else if readonly (txns w t) then (Thrown (Error "Transaction is read only"), w)
  else (Returned tt,
        set_txn t (txn_with_temp (proto_set (store w) key undefined))
          (set_txn t (txn_with_ops (fun l => l ++ [OpDelete key])) w)).
Proof.
  unfold txn_delete, temp_assign. kv_exec.
  destruct (done (txns w t)); [ reflexivity | ].
  destruct (readonly (txns w t)); reflexivity.
Qed.

Lemma txn_get_eq {V} t (ctx : Context V) key w :
  txn_get t ctx key w =
  if done (txns w t) then (Thrown (Error "Transaction is already complete"), w)
  else (Returned (proto_get (temp (txns w t)) (store w) key), w).
Proof.
  unfold txn_get. kv_exec. destruct (done (txns w t)); reflexivity.
Qed.

Lemma staged_ok_new c ro :
  staged_ok {| onComplete := c; temp := object_create; ops := [];
               readonly := ro; done := false |}.
Proof. intros key _. simpl. apply lookup_empty. Qed.

Lemma staged_ok_set tx proto key val :
  staged_ok tx ->
  staged_ok (txn_with_temp (proto_set proto key val)
               (txn_with_ops (fun l => l ++ [OpSet key val]) tx)).
Proof.
  intros H k Hk. kv_proj. rewrite last_write_app, own_proto_set by exact Hk.
  cbn [staged_write]. rewrite H by exact Hk. reflexivity.
Qed.

Lemma staged_ok_delete tx proto key :
  staged_ok tx ->
  staged_ok (txn_with_temp (proto_set proto key undefined)
               (txn_with_ops (fun l => l ++ [OpDelete key]) tx)).
Proof.
  intros H k Hk. kv_proj. rewrite last_write_app, own_proto_set by exact Hk.
  cbn [staged_write]. rewrite H by exact Hk. reflexivity.
Qed.

(** Finishing a transaction changes no transaction but for its [done]
    flag. *)
Lemma txn_rollback_txns t w :
  txns (snd (txn_rollback t w)) = txns w \/
  txns (snd (txn_rollback t w)) = <[t := txn_with_done true (txns w t)]> (txns w).
Proof.
  unfold txn_rollback. kv_exec.
  destruct (done (txns w t)); [ left; reflexivity | right ].
  kv_exec.
  match goal with |- context [txn_close t ?w1] =>
    destruct (keeps_txn_close same_txns t w1) as [H _]
  end.
  rewrite H. reflexivity.
Qed.

(** A call on the transaction other than [commit] keeps the shared store and
    the agreement of the staging area with the buffered operations. *)
Lemma uncommitted_op_step {V} (a : Call V) t w :
  uncommitted_op t a = true ->
  store (step a w) = store w /\
  (staged_ok (txns w t) -> staged_ok (txns (step a w) t)).
Proof.
  intros Ha. split.
  - apply (keeps_perform same_store); try exact _;
      destruct a; simpl in *; try discriminate; exact _.
  - intros Hok. destruct a; simpl in Ha; try discriminate;
      apply bool_decide_eq_true in Ha; subst; unfold step; cbn [perform].
    + rewrite txn_set_eq.
      destruct (done (txns w t)); [ exact Hok | ].
      destruct (readonly (txns w t)); [ exact Hok | ].
      kv_proj. kv_lookup. apply staged_ok_set, Hok.
    + unfold bind. rewrite txn_get_eq.
      destruct (done (txns w t)); exact Hok.
    + rewrite txn_delete_eq.
      destruct (done (txns w t)); [ exact Hok | ].
      destruct (readonly (txns w t)); [ exact Hok | ].
      kv_proj. kv_lookup. apply staged_ok_delete, Hok.
    + unfold bind.
      destruct (txn_rollback_txns t w) as [H | H];
        destruct (txn_rollback t w) as [[p | e | ] w1]; simpl in *;
        rewrite H; kv_lookup; try exact Hok;
        intros key Hk; kv_proj; apply Hok, Hk.
Qed.

Lemma uncommitted_ops_run {V} (calls : list (Call V)) t w :
  Forall (fun a => uncommitted_op t a = true) calls ->
  store (run calls w) = store w /\
  (staged_ok (txns w t) -> staged_ok (txns (run calls w) t)).
Proof.
  intros H. revert w. induction H as [ | a calls Ha _ IH]; intros w; simpl.
  - auto.
  - destruct (IH (step a w)) as [IH1 IH2].
    destruct (uncommitted_op_step a t w Ha) as [H1 H2].
    split; [ congruence | auto ].
Qed.

Lemma conn_beginTxn_eq {V} c (ctx : Context V) opts w :
  conn_beginTxn c ctx opts w =
  if closed (conns w c) then (Thrown (Error "Connection is closed"), w)
  else (Returned (nextTxn w),
        bump_txn (set_txn (nextTxn w)
          (fun _ => {| onComplete := c; temp := object_create; ops := [];
                       readonly := readOnly_is_true opts; done := false |}) w)).
Proof.
  unfold conn_beginTxn, conn_checkOpen. kv_exec.
  destruct (closed (conns w c)); reflexivity.
Qed.

(** [commit] applies the buffered operations to the shared store, in
    order. *)
Lemma txn_commit_store t w :
  done (txns w t) = false ->
  store (snd (txn_commit t w)) = fold_left apply_op (ops (txns w t)) (store w).
Proof.
  intros Hd. unfold txn_commit. kv_exec. rewrite Hd. kv_exec.
  match goal with |- context [txn_close t ?w1] =>
    rewrite (keeps_txn_close same_store t w1)
  end.
  reflexivity.
Qed.

Lemma untouched_step {V} (a : Call V) t key w :
  touches t key a = false -> untouched t key w (step a w).
Proof.
  intros Ha. destruct (buffers a) eqn:Hb.
  - destruct a; simpl in Hb; try discriminate; simpl in Ha;
      apply bool_decide_eq_false in Ha; unfold step; cbn [perform];
      [ rewrite txn_set_eq | rewrite txn_delete_eq ];
      (destruct (done (txns w t0)); [ reflexivity | ]);
      (destruct (readonly (txns w t0)); [ reflexivity | ]);
      kv_proj; (split; [ kv_proj; lia | ]); kv_proj; intros Ht Hk;
      (destruct (decide (t0 = t)) as [-> | ]; kv_lookup; auto);
      kv_proj; rewrite own_proto_set_ne; auto.
  - apply (keeps_perform (untouched t key)); try exact _;
      rewrite ?Hb; try discriminate; intros _; exact _.
Qed.

Lemma untouched_run {V} (calls : list (Call V)) t key w :
  Forall (fun a => touches t key a = false) calls ->
  untouched t key w (run calls w).
Proof.
  intros H. revert w. induction H as [ | a calls Ha _ IH]; intros w; simpl.
  - reflexivity.
  - etransitivity; [ exact (untouched_step a t key w Ha) | apply IH ].
Qed.

Lemma conn_set_eq {V} c (ctx : Context V) key val w :
  conn_set c ctx key val w =
  if closed (conns w c) then (Thrown (Error "Connection is closed"), w)
  else (Returned tt, set_store (js_set key val) w).
Proof.
  unfold conn_set, conn_checkOpen. kv_exec.
  destruct (closed (conns w c)); reflexivity.
Qed.

Lemma conn_delete_eq {V} c (ctx : Context V) key w :
  conn_delete c ctx key w =
  if closed (conns w c) then (Thrown (Error "Connection is closed"), w)
  else (Returned tt, set_store (js_delete key) w).
Proof.
  unfold conn_delete, conn_checkOpen. kv_exec.
  destruct (closed (conns w c)); reflexivity.
Qed.

Lemma conn_get_eq {V} c (ctx : Context V) key w :
  conn_get c ctx key w =
  if closed (conns w c) then (Thrown (Error "Connection is closed"), w)
  else (Returned (js_get (store w) key), w).
Proof.
  unfold conn_get, conn_checkOpen. kv_exec.
  destruct (closed (conns w c)); reflexivity.
Qed.
(** *** The pool: acquiring and releasing connections *)

Lemma conn_close_open c w :
  closed (conns w c) = false -> txn (conns w c) = None ->
  conn_close c w =
  (pool_return c >>> ret ResolvedPromise) (set_conn c (conn_with_closed true) w).
Proof.
  intros Hc Ht. unfold conn_close, conn_close_with. kv_run.
  rewrite Hc. kv_run. rewrite Ht. reflexivity.
Qed.

Lemma conn_close_closed c w :
  closed (conns w c) = true -> conn_close c w = (Returned ResolvedPromise, w).
Proof.
  intros Hc. unfold conn_close, conn_close_with. kv_run. rewrite Hc. reflexivity.
Qed.

(** Nobody is waiting: the connection goes to the idle list. *)
Lemma conn_close_idle c ix w :
  closed (conns w c) = false -> txn (conns w c) = None ->
  indexOf c (active (thePool w)) = Some ix ->
  reqQueue (thePool w) = [] ->
  conn_close c w =
  (Returned ResolvedPromise,
   set_pool (pool_with_pool (fun l => l ++ [c]))
     (set_pool (pool_with_active (delete ix))
        (set_conn c (conn_with_closed true) w))).
Proof.
  intros Hc Ht Hix Hq. rewrite conn_close_open by assumption.
  unfold bind. rewrite pool_return_unfold. kv_exec.
  rewrite Hix, Hq. kv_exec. reflexivity.
Qed.

(** The head of the queue is a plain request: it is resolved with the
    connection. *)
Lemma conn_close_grant_plain c ix r q w :
  closed (conns w c) = false -> txn (conns w c) = None ->
  indexOf c (active (thePool w)) = Some ix ->
  reqQueue (thePool w) = r :: q ->
  clrOf (reqs w r) = None ->
  conn_close c w =
  (Returned ResolvedPromise,
   set_req r (req_with_promise (fun s => settle s (Fulfilled c)))
     (set_conn c (conn_with_keepOpen true)
        (set_conn c (conn_with_closed false)
           (set_pool (pool_with_reqQueue tail)
              (set_conn c (conn_with_closed true) w))))).
Proof.
  intros Hc Ht Hix Hq Hr. rewrite conn_close_open by assumption.
  unfold bind. rewrite pool_return_unfold. kv_exec.
  rewrite Hix, Hq. kv_exec. unfold request_resolve_with. kv_exec.
  rewrite Hr. kv_exec. reflexivity.
Qed.

(** The head of the queue is a cancelable request that was not canceled: it
    is resolved with the connection and its listener is removed. *)
Lemma conn_close_grant_cancelable c ix r q clr w :
  closed (conns w c) = false -> txn (conns w c) = None ->
  indexOf c (active (thePool w)) = Some ix ->
  reqQueue (thePool w) = r :: q ->
  clrOf (reqs w r) = Some clr -> timedOut (reqs w r) = false ->
  conn_close c w =
  (Returned ResolvedPromise,
   set_req r (req_with_promise (fun s => settle s (Fulfilled c)))
     (set_canceler clr (canceler_with_listeners (filter (fun x => x <> OnCancel r)))
        (set_req r (req_with_resolved true)
           (set_conn c (conn_with_keepOpen true)
              (set_conn c (conn_with_closed false)
                 (set_pool (pool_with_reqQueue tail)
                    (set_conn c (conn_with_closed true) w))))))).
Proof.
  intros Hc Ht Hix Hq Hr Hto. rewrite conn_close_open by assumption.
  unfold bind. rewrite pool_return_unfold. kv_exec.
  rewrite Hix, Hq. kv_exec. unfold request_resolve_with. kv_exec.
  rewrite Hr, Hto. unfold clr_off. kv_exec. reflexivity.
Qed.

(** The head of the queue is a request that was canceled: its resolver
    closes the connection again, which hands it to the rest of the queue. *)
Lemma conn_close_skip c ix r q clr w :
  closed (conns w c) = false -> txn (conns w c) = None ->
  indexOf c (active (thePool w)) = Some ix ->
  reqQueue (thePool w) = r :: q ->
  clrOf (reqs w r) = Some clr -> timedOut (reqs w r) = true ->
  conn_close c w =
  conn_close c
    (set_conn c (conn_with_keepOpen true)
       (set_conn c (conn_with_closed false)
          (set_pool (pool_with_reqQueue tail)
             (set_conn c (conn_with_closed true) w)))).
Proof.
  intros Hc Ht Hix Hq Hr Hto. rewrite conn_close_open by assumption.
  unfold bind. rewrite pool_return_unfold. kv_exec.
  rewrite Hix, Hq. kv_exec. unfold request_resolve_with. kv_exec.
  rewrite Hr, Hto. kv_exec.
  fold (conn_close c).
  match goal with |- context [conn_close c ?w2] =>
    pose proof (conn_close_open c w2) as Ho
  end.
  kv_proj. kv_lookup. kv_proj. kv_lookup. kv_proj.
  specialize (Ho eq_refl Ht).
  match goal with |- context [conn_close c ?w2] =>
    destruct (conn_close c w2) as [[p | e | ] w3] eqn:Hcl
  end; try reflexivity.
  unfold bind in Ho.
  match type of Ho with context [pool_return c ?w2] =>
    destruct (pool_return c w2) as [[ [] | e | ] w4]
  end; kv_exec; unfold ret in *; congruence.
Qed.

(** A released connection passes the canceled requests at the head of the
    queue and goes to the first request still waiting, or to the idle list
    when there is none. *)
Lemma release_passes_canceled (dead rest : list nat) : forall w c,
  releasable w c ->
  reqQueue (thePool w) = dead ++ rest ->
  Forall (timed_out w) dead ->
  match rest with
  | [] =>
      exists w', conn_close c w = (Returned ResolvedPromise, w') /\
                 reqQueue (thePool w') = [] /\ returned_idle c w w'
  | r :: q =>
      waiting w r ->
      exists w', conn_close c w = (Returned ResolvedPromise, w') /\
                 reqQueue (thePool w') = q /\ granted_to c r w w'
  end.
Proof.
  induction dead as [ | d dead IH]; intros w c (Hin & Hc & Ht) Hq Hdead.
  - simpl in Hq. destruct (indexOf_elem c _ Hin) as [ix Hix].
    destruct rest as [ | r q].
    + eexists. split; [ apply (conn_close_idle c ix w); assumption | ].
      kv_proj. split; [ assumption | ].
      unfold returned_idle. kv_proj. kv_lookup. kv_proj.
      repeat split; eauto. intros c' Hc'. kv_lookup. reflexivity.
    + intros [Hp Hlive].
      destruct (clrOf (reqs w r)) as [clr | ] eqn:Hclr.
      * destruct Hlive as [ | Hto]; [ discriminate | ].
        eexists. split;
          [ apply (conn_close_grant_cancelable c ix r q clr w); assumption | ].
        kv_proj. rewrite Hq. split; [ reflexivity | ].
        unfold granted_to. kv_proj. kv_lookup. kv_proj. kv_lookup. kv_proj.
        rewrite Hp. repeat split; auto; intros x Hx; kv_lookup; reflexivity.
      * eexists. split;
          [ apply (conn_close_grant_plain c ix r q w); assumption | ].
        kv_proj. rewrite Hq. split; [ reflexivity | ].
        unfold granted_to. kv_proj. kv_lookup. kv_proj. kv_lookup. kv_proj.
        rewrite Hp. repeat split; auto; intros x Hx; kv_lookup; reflexivity.
  - simpl in Hq. destruct (indexOf_elem c _ Hin) as [ix Hix].
    inversion Hdead as [ | ? ? [[clr Hclr] Hto] Hdead' ]; subst.
    rewrite (conn_close_skip c ix d (dead ++ rest) clr w) by assumption.
    set (w2 := set_conn c (conn_with_keepOpen true)
                 (set_conn c (conn_with_closed false)
                    (set_pool (pool_with_reqQueue tail)
                       (set_conn c (conn_with_closed true) w)))).
    assert (Hrel : releasable w2 c).
    { unfold releasable, w2. kv_proj. kv_lookup. kv_proj. kv_lookup. kv_proj.
      kv_lookup. kv_proj. auto. }
    assert (Hq2 : reqQueue (thePool w2) = dead ++ rest).
    { unfold w2. kv_proj. rewrite Hq. reflexivity. }
    assert (Hdead2 : Forall (timed_out w2) dead) by exact Hdead'.
    assert (Hconns : forall c', c' <> c -> conns w2 c' = conns w c').
    { intros c' Hc'. unfold w2. kv_proj. kv_lookup. reflexivity. }
    specialize (IH w2 c Hrel Hq2 Hdead2).
    destruct rest as [ | r q].
    + destruct IH as (w' & Hcl & Hq' & (ix' & Hix' & Hact) & Hpool & Hreqs & Hcs & Hcl' & Ht').
      exists w'. split; [ exact Hcl | ]. split; [ exact Hq' | ].
      unfold returned_idle. repeat split; eauto.
      intros c' Hc'. rewrite Hcs by assumption. auto.
    + intros Hw. destruct (IH Hw) as (w' & Hcl & Hq' & Hp & Hact & Hpool & Hreqs & Hcs & Hrest).
      exists w'. split; [ exact Hcl | ]. split; [ exact Hq' | ].
      unfold granted_to. repeat split; try tauto; auto.
      intros c' Hc'. rewrite Hcs by assumption. auto.
Qed.

(** First in, first out.  When the requests [rs] at the head of the queue
    are waiting and the connections [cs], as many, are closed one after the
    other, the i-th request is resolved with the i-th connection; no
    connection goes to the idle list. *)
Lemma release_fifo (rs : list nat) : forall (cs rest : list nat) w,
  NoDup rs -> length cs = length rs ->
  reqQueue (thePool w) = rs ++ rest ->
  Forall (waiting w) rs ->
  Forall (releasable w) cs ->
  let w' := release_all cs w in
  Forall2 (fun r c => promise (reqs w' r) = Fulfilled c) rs cs /\
  reqQueue (thePool w') = rest /\
  active (thePool w') = active (thePool w) /\
  pool (thePool w') = pool (thePool w) /\
  (forall r, r ∉ rs -> reqs w' r = reqs w r).
Proof.
  induction rs as [ | r rs IH]; intros cs rest w Hnd Hlen Hq Hwait Hrel.
  - destruct cs; [ | discriminate ]. simpl. auto.
  - destruct cs as [ | c cs]; [ discriminate | ].
    inversion Hnd as [ | ? ? Hnotin Hnd' ]; subst.
    inversion Hwait as [ | ? ? Hw Hwait' ]; subst.
    inversion Hrel as [ | ? ? Hc Hrel' ]; subst.
    destruct (release_passes_canceled [] (r :: rs ++ rest) w c Hc Hq
                (Forall_nil_2 _) Hw)
      as (w1 & Hcl & Hq1 & Hp & Hact & Hpool & Hreqs & Hcs & Hcl1 & Hko & Ht1).
    cbn [release_all fold_left]. rewrite Hcl. cbn [snd].
    fold (release_all cs w1).
    assert (Hwait1 : Forall (waiting w1) rs).
    { rewrite Forall_forall in Hwait' |- *. intros r' Hr'.
      assert (r' <> r) by (intros ->; contradiction).
      unfold waiting. rewrite Hreqs by assumption. apply Hwait', Hr'. }
    assert (Hrel1 : Forall (releasable w1) cs).
    { rewrite Forall_forall in Hrel' |- *. intros c' Hc'.
      destruct (Hrel' c' Hc') as (Hin' & Hcl' & Ht').
      unfold releasable. rewrite Hact. split; [ assumption | ].
      destruct (decide (c' = c)) as [-> | Hne]; [ auto | ].
      rewrite Hcs by assumption. auto. }
    destruct (IH cs rest w1 Hnd' ltac:(simpl in Hlen; lia) Hq1 Hwait1 Hrel1)
      as (HF & Hq' & Hact' & Hpool' & Hreqs').
    split; [ | split; [ | split; [ | split ] ] ].
    + constructor; [ | exact HF ]. rewrite Hreqs' by assumption. exact Hp.
    + exact Hq'.
    + congruence.
    + congruence.
    + intros r' Hr'. rewrite not_elem_of_cons in Hr'. destruct Hr' as [Hne Hr'].
      rewrite Hreqs' by assumption. apply Hreqs. assumption.
Qed.

(** *** Acquiring *)

Lemma pool_conn_closed {V} (ctx : Context V) w :
  poolClosed (thePool w) = true ->
  pool_conn ctx w = (Thrown (Error "Pool is closed"), w).
Proof. intros H. unfold pool_conn. kv_exec. rewrite H. reflexivity. Qed.

Lemma pool_conn_idle {V} (ctx : Context V) c rest w :
  poolClosed (thePool w) = false ->
  pool (thePool w) = c :: rest ->
  pool_conn ctx w =
  (Returned (ConnReady c),
   set_pool (pool_with_active (fun l => l ++ [c]))
     (set_conn c (conn_with_keepOpen true)
        (set_conn c (conn_with_closed false)
           (set_pool (pool_with_pool tail) w)))).
Proof.
  intros Hc Hp. unfold pool_conn. kv_exec. rewrite Hc, Hp. kv_exec. reflexivity.
Qed.

Lemma pool_conn_new {V} (ctx : Context V) w :
  poolClosed (thePool w) = false ->
  pool (thePool w) = [] ->
  (Z.of_nat (length (active (thePool w))) < maxCnt (thePool w))%Z ->
  pool_conn ctx w =
  (Returned (ConnReady (nextConn w)),
   set_pool (pool_with_active (fun l => l ++ [nextConn w]))
     (set_conn (nextConn w) (conn_with_keepOpen true)
        (set_conn (nextConn w) (conn_with_closed false)
           (bump_conn
              (set_conn (nextConn w)
                 (fun _ => {| keepOpen := false; closed := false;
                              waitClose := None; txn := None |}) w))))).
Proof.
  intros Hc Hp Hlt. unfold pool_conn. kv_exec. rewrite Hc, Hp.
  apply Z.ltb_lt in Hlt. rewrite Hlt. unfold new_conn. kv_exec. reflexivity.
Qed.

Lemma pool_conn_queued {V} (ctx : Context V) w :
  poolClosed (thePool w) = false ->
  pool (thePool w) = [] ->
  (maxCnt (thePool w) <= Z.of_nat (length (active (thePool w))))%Z ->
  exists w',
    pool_conn ctx w = (Returned (ConnWaiting (nextReq w)), w') /\
    reqQueue (thePool w') = reqQueue (thePool w) ++ [nextReq w] /\
    waiting w' (nextReq w) /\
    clrOf (reqs w' (nextReq w)) = canceler ctx /\
    resolved (reqs w' (nextReq w)) = false /\
    nextReq w' = S (nextReq w) /\
    active (thePool w') = active (thePool w) /\
    pool (thePool w') = pool (thePool w) /\
    conns w' = conns w /\
    (forall r, r <> nextReq w -> reqs w' r = reqs w r) /\
    (forall clr, canceler ctx = Some clr ->
       listeners (cancelers w' clr) =
       listeners (cancelers w clr) ++ [OnCancel (nextReq w)]).
Proof.
  intros Hc Hp Hge. unfold pool_conn. kv_exec. rewrite Hc, Hp.
  apply Z.ltb_ge in Hge. rewrite Hge.
  destruct (canceler ctx) as [clr | ].
  - unfold cancelableConnRequest, clr_onCancel. kv_exec.
    eexists. split; [ reflexivity | ]. kv_proj. kv_lookup. kv_proj.
    unfold waiting. kv_proj. kv_lookup. kv_proj.
    repeat split; auto.
    + intros r Hr. kv_lookup. reflexivity.
    + intros clr' [= <-]. kv_lookup. reflexivity.
  - unfold new_request. kv_exec.
    eexists. split; [ reflexivity | ]. kv_proj. kv_lookup. kv_proj.
    unfold waiting. kv_proj. kv_lookup. kv_proj.
    repeat split; auto.
    + intros r Hr. kv_lookup. reflexivity.
    + intros clr' [=].
Qed.

Lemma handed_out_getPool s n : handed_out 0 n (getPool s n).
Proof. unfold handed_out. simpl. repeat split; reflexivity. Qed.

(** Below capacity, every request is served at once with a new
    connection. *)
Lemma acquire_all_handed_out {V} (ctxs : list (Context V)) : forall k n w,
  handed_out k n w ->
  (Z.of_nat (k + length ctxs) <= n)%Z ->
  fst (acquire_all ctxs w) =
    map (fun c => Returned (ConnReady c)) (seq k (length ctxs)) /\
  handed_out (k + length ctxs) n (snd (acquire_all ctxs w)).
Proof.
  induction ctxs as [ | ctx ctxs IH]; intros k n w Hw Hle.
  - simpl. rewrite Nat.add_0_r. auto.
  - destruct Hw as (Hc & Hmax & Hp & Hact & Hq & Hnc & Hnr & Hconns).
    cbn [acquire_all length].
    rewrite pool_conn_new; try assumption;
      [ | rewrite Hact, Hmax, length_seq; simpl in Hle; lia ].
    match goal with |- context [acquire_all ctxs ?w1] =>
      specialize (IH (S k) n w1)
    end.
    destruct IH as [IH1 IH2].
    + unfold handed_out. kv_proj. rewrite Hact, Hnc.
      repeat split; auto.
      * rewrite seq_S. reflexivity.
      * destruct (decide (c = k)) as [-> | ]; kv_lookup; kv_proj; auto.
        apply Hconns.
      * destruct (decide (c = k)) as [-> | ]; kv_lookup; kv_proj; auto.
        apply Hconns.
    + simpl in Hle. lia.
    + match goal with |- context [acquire_all ctxs ?w1] =>
        destruct (acquire_all ctxs w1) as [os w2]
      end.
      simpl in *. rewrite Hnc, IH1.
      split; [ reflexivity | ].
      replace (k + S (length ctxs)) with (S k + length ctxs) by lia. exact IH2.
Qed.

(** A request that exists is not resolved with a connection by the calls
    that release none. *)
Lemma not_granted_run {V} (calls : list (Call V)) r w :
  Forall (fun a => releases a = false) calls ->
  not_granted r w (run calls w).
Proof.
  intros H. revert w. induction H as [ | a calls Ha _ IH]; intros w; simpl.
  - reflexivity.
  - etransitivity; [ | apply IH ].
    apply (keeps_perform (not_granted r)); try exact _;
      rewrite ?Ha; try discriminate; intros _; exact _.
Qed.

(** *** Cancellation of a waiting request *)

Lemma handle_onCancel_other r r' w :
  r' <> r -> reqs (snd (handle_onCancel r' w)) r = reqs w r.
Proof.
  intros Hne. unfold handle_onCancel, clr_off. kv_eval.
  destruct (clrOf (reqs w r')) as [clr | ]; [ | reflexivity ].
  destruct (resolved (reqs w r')); kv_eval; kv_lookup; reflexivity.
Qed.

Lemma handle_onCancel_returns r w :
  fst (handle_onCancel r w) = Returned tt.
Proof.
  unfold handle_onCancel, clr_off. kv_eval.
  destruct (clrOf (reqs w r)) as [clr | ]; [ | reflexivity ].
  destruct (resolved (reqs w r)); reflexivity.
Qed.

Lemma handle_onCancel_rejects r clr w :
  clrOf (reqs w r) = Some clr -> resolved (reqs w r) = false ->
  reqs (snd (handle_onCancel r w)) r =
  {| promise := settle (promise (reqs w r)) (Rejected (Error cancel_message));
     clrOf := Some clr; timedOut := true; resolved := false |}.
Proof.
  intros Hclr Hres. unfold handle_onCancel, clr_off. kv_eval.
  rewrite Hclr, Hres. kv_eval. kv_lookup. kv_proj.
  kv_lookup. unfold req_with_promise, req_with_timedOut. kv_proj.
  rewrite Hclr, Hres. reflexivity.
Qed.

Lemma handle_onCancel_step clr r r' w :
  cancelable_pending clr r w \/ cancelable_rejected clr r w ->
  let w1 := snd (handle_onCancel r' w) in
  (r' = r -> cancelable_rejected clr r w1) /\
  (r' <> r -> reqs w1 r = reqs w r).
Proof.
  intros Hw w1. split.
  - intros ->.
    assert (Hclr : clrOf (reqs w r) = Some clr /\ resolved (reqs w r) = false)
      by (destruct Hw as [(? & ? & ?) | (? & ? & ?)]; auto).
    destruct Hclr as [Hclr Hres].
    unfold cancelable_rejected, w1.
    rewrite (handle_onCancel_rejects r clr w Hclr Hres). simpl.
    destruct Hw as [(_ & _ & ->) | (_ & _ & -> & _)]; simpl; auto.
  - apply handle_onCancel_other.
Qed.

Lemma fire_all_rejects clr r (ls : list Listener) : forall w,
  cancelable_pending clr r w \/ cancelable_rejected clr r w ->
  let w' := snd (fire_all ls w) in
  (cancelable_pending clr r w' \/ cancelable_rejected clr r w') /\
  (OnCancel r ∈ ls -> cancelable_rejected clr r w') /\
  (cancelable_rejected clr r w -> cancelable_rejected clr r w').
Proof.
  induction ls as [ | [r'] ls IH]; intros w Hw; cbn [fire_all].
  - simpl. split; [ exact Hw | ]. split; [ | auto ]. intros H. inversion H.
  - unfold bind.
    pose proof (handle_onCancel_returns r' w) as Hret.
    destruct (handle_onCancel_step clr r r' w Hw) as [Hsame Hother].
    destruct (handle_onCancel r' w) as [[ [] | e | ] w1]; try discriminate.
    simpl in Hsame, Hother.
    destruct (decide (r' = r)) as [-> | Hne].
    + destruct (IH w1 (or_intror (Hsame eq_refl))) as (IH1 & IH2 & IH3).
      split; [ exact IH1 | ]. split; intros _; apply IH3, Hsame; reflexivity.
    + assert (Hw1 : cancelable_pending clr r w1 \/ cancelable_rejected clr r w1).
      { unfold cancelable_pending, cancelable_rejected in *.
        rewrite (Hother Hne). exact Hw. }
      destruct (IH w1 Hw1) as (IH1 & IH2 & IH3).
      split; [ exact IH1 | ]. split.
      * intros Hin. apply IH2. apply elem_of_cons in Hin as [[=] | ]; congruence.
      * intros Hrej. apply IH3. unfold cancelable_rejected in *.
        rewrite (Hother Hne). exact Hrej.
Qed.

(** Cancelling the context of a waiting request rejects its promise and
    leaves the pool, and with it the queue, as it was. *)
Lemma cancel_rejects clr r w :
  cancelable_pending clr r w ->
  canceled (cancelers w clr) = false ->
  OnCancel r ∈ listeners (cancelers w clr) ->
  cancelable_rejected clr r (snd (cancel clr w)) /\
  thePool (snd (cancel clr w)) = thePool w.
Proof.
  intros Hp Hc Hin. split; [ | apply (keeps_cancel same_pool) ].
  unfold cancel. kv_eval. rewrite Hc. kv_eval.
  match goal with |- context [fire_all ?ls ?w1] =>
    destruct (fire_all_rejects clr r ls w1 (or_introl Hp)) as (_ & H & _)
  end.
  apply H, Hin.
Qed.

Lemma timed_out_run {V} (calls : list (Call V)) r w :
  r < nextReq w -> timed_out w r -> timed_out (run calls w) r.
Proof.
  intros Hr Ht. destruct (keeps_run (timed_out_stays r) calls w) as [_ H]. auto.
Qed.

Lemma settled_run {V} (calls : list (Call V)) r w :
  r < nextReq w -> promise (reqs w r) <> Pending ->
  promise (reqs (run calls w) r) = promise (reqs w r) /\
  r < nextReq (run calls w).
Proof.
  intros Hr Hp. destruct (keeps_run (settled_stays r) calls w) as [H1 H2].
  split; [ auto | lia ].
Qed.

(** *** Closing: connections and the pool *)

(** No call ever assigns the field [#txn] of a connection. *)
Lemma reachable_txn_unset {V} w :
  reachable (V := V) w -> forall c, txn (conns w c) = None.
Proof.
  induction 1 as [s n | w a Hw IH]; intros c.
  - reflexivity.
  - apply (keeps_step txn_unset_stays a w). apply IH.
Qed.

(** Hence [close] on an open connection never waits for a transaction: it
    goes straight to [MemKvPool.return]. *)
Lemma reachable_close_not_deferred {V} w c :
  reachable (V := V) w -> closed (conns w c) = false ->
  conn_close c w =
  (pool_return c >>> ret ResolvedPromise) (set_conn c (conn_with_closed true) w).
Proof.
  intros Hw Hc. apply conn_close_open; [ exact Hc | ].
  apply (reachable_txn_unset (V := V)), Hw.
Qed.

Lemma close_loop_total fuel : forall i ps w,
  length (active (thePool w)) <= fuel + i ->
  fst (close_loop fuel i ps w) <> NoFuel.
Proof.
  induction fuel as [ | fuel IH]; intros i ps w Hlen; cbn [close_loop]; kv_eval.
  - destruct (active (thePool w) !! i) eqn:Hi; [ | discriminate ].
    apply lookup_lt_Some in Hi. lia.
  - destruct (active (thePool w) !! i) eqn:Hi; [ | discriminate ].
    pose proof (conn_close_total n w) as Htot.
    pose proof (keeps_conn_close active_shrinks n w) as Hshrink.
    destruct (conn_close n w) as [[p | e | ] w1]; simpl in Htot;
      [ | discriminate | congruence ].
    apply IH. unfold active_shrinks in Hshrink. simpl in Hshrink. lia.
Qed.

(** [MemKvPool.close] always comes back. *)
Lemma pool_close_total w : fst (pool_close w) <> NoFuel.
Proof.
  unfold pool_close. kv_eval.
  destruct (poolClosed (thePool w)); [ discriminate | ].
  apply close_loop_total. kv_proj. lia.
Qed.

(** A second [close] of the pool does nothing. *)
Lemma pool_close_idempotent w :
  poolClosed (thePool w) = true -> pool_close w = (Returned [], w).
Proof.
  intros H. unfold pool_close. kv_eval. rewrite H. reflexivity.
Qed.

(** [close] leaves the pool closed, and it stays closed whatever is called
    afterwards, so that every later [conn] throws. *)
Lemma pool_close_closes w : poolClosed (thePool (snd (pool_close w))) = true.
Proof.
  unfold pool_close. kv_eval.
  destruct (poolClosed (thePool w)) eqn:Hc; [ exact Hc | ].
  match goal with |- context [close_loop ?n 0 [] ?w1] =>
    apply (keeps_close_loop pool_closed_stays n 0 [] w1)
  end.
  reflexivity.
Qed.

Lemma conn_after_close_throws {V} (calls : list (Call V)) (ctx : Context V) w :
  let w' := run calls (snd (pool_close w)) in
  pool_conn ctx w' = (Thrown (Error "Pool is closed"), w').
Proof.
  intros w'. apply pool_conn_closed.
  pose proof (keeps_run pool_closed_stays calls (snd (pool_close w))) as H.
  apply H, pool_close_closes.
Qed.

(** [beginTxn] on a connection subscribes nothing to any canceler, and the
    cancellation of a context touches no transaction. *)
Lemma conn_beginTxn_subscribes_nothing {V} c (ctx : Context V) opts w :
  cancelers (snd (conn_beginTxn c ctx opts w)) = cancelers w.
Proof. apply (keeps_conn_beginTxn same_cancelers). Qed.

Lemma cancel_finishes_no_txn clr w :
  txns (snd (cancel clr w)) = txns w.
Proof. apply (keeps_cancel same_txns). Qed.

(** *** The bookkeeping of the pool is kept by every call *)

#[local] Instance steady_stays_preorder : PreOrder steady_stays.
Proof.
  split.
  - intros w. split; [ reflexivity | auto ].
  - intros w1 w2 w3 [H1 H1'] [H2 H2']. split; [ congruence | auto ].
Qed.

(** Updates outside the pool and the fields [#txn] and [#waitClose]. *)
Lemma steady_set_conn c f w :
  (forall cn, txn cn = None -> txn (f cn) = None) ->
  (forall cn, waitClose cn = None -> waitClose (f cn) = None) ->
  steady_stays w (set_conn c f w).
Proof.
  intros Ht Hw. split; [ reflexivity | ]. intros [Hc Hp]. split; [ exact Hc | ].
  intros c'. kv_proj. destruct (decide (c = c')) as [-> | Hne]; kv_lookup.
  - destruct (Hp c'). auto.
  - apply Hp.
Qed.

Lemma steady_queue_tail w :
  steady_stays w (set_pool (pool_with_reqQueue tail) w).
Proof.
  split; [ reflexivity | ]. intros [(H1 & H2 & H3 & H4 & H5) Hp].
  split; [ | exact Hp ]. unfold within_capacity. kv_proj.
  split; [ exact H1 | ]. split; [ exact H2 | ]. split; [ exact H3 | ].
  split; [ exact H4 | ].
  intros Hq. apply H5. intros Hq'. rewrite Hq' in Hq. auto.
Qed.

Lemma steady_closed_cleared w :
  steady_stays w
    (set_pool (pool_with_pool (fun _ => [])) (set_pool (pool_with_closed true) w)).
Proof.
  split; [ reflexivity | ]. intros [(H1 & H2 & H3 & H4 & H5) Hp].
  split; [ | exact Hp ]. unfold within_capacity. kv_proj.
  rewrite app_nil_r. apply NoDup_app in H1 as (H1 & _ & _).
  apply Forall_app in H2 as [H2 _].
  split; [ exact H1 | ]. split; [ exact H2 | ]. split; [ exact H3 | ].
  split; [ discriminate | ].
  intros Hq. split; [ reflexivity | apply H5, Hq ].
Qed.

Ltac steady_step :=
  match goal with
  | |- PreOrder _ => exact _
  | |- keeps _ (bind _ _) => apply keeps_bind; [ exact _ | | intros ? ]
  | |- keeps _ (ret _) => apply keeps_ret; exact _
  | |- keeps _ (throw _) => apply keeps_throw; exact _
  | |- keeps _ (gets _) => apply keeps_gets; exact _
  | |- keeps _ (finally _ _) => apply keeps_finally; [ exact _ | | ]
  | |- keeps _ (modify _) =>
      apply keeps_modify; intros ?;
      first [ apply steady_set_conn; intros ? ?; solve [ assumption | reflexivity ]
            | apply steady_queue_tail
            | split; [ reflexivity | intros ?; assumption ] ]
  | |- keeps _ (fun w => (NoFuel, w)) => apply keeps_nofuel; exact _
  | |- keeps _ (match ?x with _ => _ end) => destruct x
  | H : _ |- _ => solve [ apply H ]
  end.

Ltac steady_auto := repeat steady_step.

Lemma steady_unchanged (w w' : World) :
  thePool w' = thePool w -> nextConn w' = nextConn w -> conns w' = conns w ->
  steady_stays w w'.
Proof.
  intros Hp Hn Hc. split; [ rewrite Hp; reflexivity | ].
  unfold steady, within_capacity, conns_plain. rewrite Hp, Hn, Hc. auto.
Qed.

Lemma steady_new_handle : keeps steady_stays new_handle.
Proof. intros w. apply steady_unchanged; reflexivity. Qed.

Lemma steady_handle_resolve h : keeps steady_stays (handle_resolve h).
Proof. intros w. apply steady_unchanged; reflexivity. Qed.

Lemma steady_clr_off clr l : keeps steady_stays (clr_off clr l).
Proof. intros w. apply steady_unchanged; reflexivity. Qed.

Lemma steady_conn_reset c b : keeps steady_stays (conn_reset c b).
Proof. unfold conn_reset. steady_auto. Qed.

Section SteadyReturn.

Variable pool_return : nat -> KV unit.
Hypothesis steady_return : forall c, keeps steady_stays (pool_return c).

Lemma steady_conn_close_with c : keeps steady_stays (conn_close_with pool_return c).
Proof using steady_return.
  intros w. unfold conn_close_with. kv_eval.
  destruct (closed (conns w c)); [ reflexivity | ]. kv_eval.
  destruct (txn (conns w c)) as [t | ] eqn:Ht.
  - assert (Hno : ~ steady w).
    { intros [_ Hp]. destruct (Hp c). congruence. }
    destruct (waitClose (conns w c)); unfold new_handle; kv_eval;
      (split; [ reflexivity | intros; contradiction ]).
  - match goal with |- context [pool_return c ?w1] =>
      pose proof (steady_return c w1) as H;
      assert (H1 : steady_stays w w1)
        by (apply steady_set_conn; intros ? ?; assumption);
      destruct (pool_return c w1) as [[ [] | e | ] w2]
    end; cbn [fst snd] in *; etransitivity; eauto.
Qed.

Lemma steady_conn_txnDone_with c :
  keeps steady_stays (conn_txnDone_with pool_return c).
Proof using steady_return.
  unfold conn_txnDone_with.
  pose proof steady_conn_close_with. pose proof steady_handle_resolve.
  steady_auto.
Qed.

Lemma steady_request_resolve_with r c :
  keeps steady_stays (request_resolve_with pool_return r c).
Proof using steady_return.
  unfold request_resolve_with.
  pose proof steady_conn_close_with. pose proof steady_clr_off.
  steady_auto.
Qed.

End SteadyReturn.

(** Handing a connection from the active list to the idle list, and from
    the idle list to the active list, rearranges the same connections. *)
Lemma return_idle_perm (c ix : nat) (act idle : list nat) :
  indexOf c act = Some ix ->
  delete ix act ++ idle ++ [c] ≡ₚ act ++ idle.
Proof.
  intros Hix. apply indexOf_Some in Hix.
  rewrite (delete_Permutation act ix c Hix) at 2.
  rewrite app_assoc, <- Permutation_cons_append. reflexivity.
Qed.

Lemma take_idle_perm (c : nat) (act rest : list nat) :
  (act ++ [c]) ++ rest ≡ₚ act ++ c :: rest.
Proof. rewrite <- app_assoc. reflexivity. Qed.

Lemma steady_return_idle c ix w :
  indexOf c (active (thePool w)) = Some ix ->
  reqQueue (thePool w) = [] ->
  steady_stays w
    (set_pool (pool_with_pool (fun l => l ++ [c]))
       (set_pool (pool_with_active (delete ix)) w)).
Proof.
  intros Hix Hq. split; [ reflexivity | ].
  intros [(H1 & H2 & H3 & H4 & H5) Hp].
  split; [ | exact Hp ]. unfold within_capacity. kv_proj.
  pose proof (return_idle_perm c ix _ (pool (thePool w)) Hix) as Hperm.
  destruct (rearranged _ _ _ Hperm H1 H2) as (P1 & P2 & P3).
  rewrite Hq.
  split; [ exact P1 | ]. split; [ exact P2 | ]. split; [ exact H3 | ].
  split; [ rewrite P3; exact H4 | contradiction ].
Qed.

Lemma steady_pool_return_fuel fuel : forall c,
  keeps steady_stays (pool_return_fuel fuel c).
Proof.
  induction fuel as [ | fuel IH]; intros c w; cbn [pool_return_fuel];
    [ reflexivity | ].
  cbn [bind gets fst snd].
  destruct (indexOf c (active (thePool w))) as [ix | ] eqn:Hix; [ | reflexivity ].
  destruct (reqQueue (thePool w)) as [ | req q] eqn:Hq.
  - kv_eval. apply steady_return_idle; assumption.
  - pose proof steady_conn_reset.
    pose proof (steady_request_resolve_with _ IH).
    assert (Hk : keeps steady_stays
                   (modify (set_pool (pool_with_reqQueue tail)) >>>
                    conn_reset c true >>>
                    request_resolve_with (pool_return_fuel fuel) req c))
      by steady_auto.
    apply Hk.
Qed.

Lemma steady_pool_return c : keeps steady_stays (pool_return c).
Proof. intros w. unfold pool_return. apply steady_pool_return_fuel. Qed.

Lemma steady_conn_close c : keeps steady_stays (conn_close c).
Proof. apply steady_conn_close_with, steady_pool_return. Qed.

Lemma steady_conn_txnDone c : keeps steady_stays (conn_txnDone c).
Proof. apply steady_conn_txnDone_with, steady_pool_return. Qed.

Lemma steady_close_loop fuel i ps : keeps steady_stays (close_loop fuel i ps).
Proof.
  revert i ps. induction fuel as [ | fuel IH]; intros i ps; simpl.
  - steady_auto.
  - pose proof steady_conn_close. steady_auto.
Qed.

Lemma steady_pool_close : keeps steady_stays pool_close.
Proof.
  intros w. unfold pool_close. cbn [bind gets fst snd].
  destruct (poolClosed (thePool w)); [ reflexivity | ]. kv_eval.
  etransitivity; [ apply steady_closed_cleared | ].
  apply steady_close_loop.
Qed.

Lemma steady_txn_close t : keeps steady_stays (txn_close t).
Proof. unfold txn_close. pose proof steady_conn_txnDone. steady_auto. Qed.

Lemma steady_pool_conn {V} (ctx : Context V) : keeps steady_stays (pool_conn ctx).
Proof.
  intros w. unfold pool_conn. cbn [bind gets fst snd].
  destruct (poolClosed (thePool w)) eqn:Hcl; [ reflexivity | ].
  destruct (pool (thePool w)) as [ | c rest] eqn:Hidle.
  - destruct (Z.ltb_spec (Z.of_nat (length (active (thePool w))))
                (maxCnt (thePool w))) as [Hlt | Hge].
    + unfold new_conn. kv_eval. split; [ reflexivity | ].
      intros [(H1 & H2 & H3 & H4 & H5) Hp]. rewrite Hidle in *.
      rewrite app_nil_r in *. specialize (H4 Hcl). split.
      * unfold within_capacity. kv_proj. rewrite Hidle, app_nil_r.
        split; [ | split; [ | split; [ | split ] ] ].
        -- apply NoDup_app. split; [ exact H1 | ]. split; [ | apply NoDup_singleton ].
           intros x Hx Hx'. apply list_elem_of_singleton in Hx'. subst x.
           rewrite Forall_forall in H2. specialize (H2 _ Hx). lia.
        -- apply Forall_app. split.
           ++ eapply Forall_impl; [ exact H2 | ]. intros x Hx. simpl in Hx. lia.
           ++ repeat constructor.
        -- lia.
        -- intros _. rewrite length_app. simpl. lia.
        -- intros Hq. specialize (H5 Hq). lia.
      * intros c'. kv_proj.
        destruct (decide (nextConn w = c')) as [<- | Hne]; kv_lookup; kv_proj;
          [ auto | apply Hp ].
    + assert (Hq : forall (h : nat) (w1 : World),
                thePool w1 = thePool w -> nextConn w1 = nextConn w ->
                conns w1 = conns w ->
                steady_stays w
                  (set_pool (pool_with_reqQueue (fun q => q ++ [h])) w1)).
      { intros h w1 Hp1 Hn1 Hc1. split; [ kv_proj; rewrite Hp1; reflexivity | ].
        intros [(H1 & H2 & H3 & H4 & H5) Hp].
        unfold steady, within_capacity, conns_plain. kv_proj.
        rewrite Hp1, Hn1, Hc1, Hidle. rewrite Hidle in *.
        split; [ | exact Hp ].
        split; [ exact H1 | ]. split; [ exact H2 | ]. split; [ exact H3 | ].
        split; [ exact H4 | ].
        intros _. split; [ reflexivity | exact Hge ]. }
      destruct (canceler ctx) as [clr | ]; unfold cancelableConnRequest,
        clr_onCancel, new_request; kv_eval; apply Hq; reflexivity.
  - kv_eval. split; [ reflexivity | ].
    intros [(H1 & H2 & H3 & H4 & H5) Hp]. rewrite Hidle in *. split.
    + unfold within_capacity. kv_proj. rewrite Hidle. cbn [tail].
      destruct (rearranged _ _ _ (take_idle_perm c (active (thePool w)) rest)
                  H1 H2) as (P1 & P2 & P3).
      assert (Hq : reqQueue (thePool w) = []).
      { destruct (reqQueue (thePool w)); [ reflexivity | ].
        destruct H5; discriminate. }
      rewrite Hq.
      split; [ exact P1 | ]. split; [ exact P2 | ]. split; [ exact H3 | ].
      split; [ rewrite P3; exact H4 | contradiction ].
    + intros c'. kv_proj.
      destruct (decide (c = c')) as [<- | Hne]; kv_lookup; kv_proj; apply Hp.
Qed.

Lemma steady_conn_checkOpen c : keeps steady_stays (conn_checkOpen c).
Proof. unfold conn_checkOpen. steady_auto. Qed.

Lemma steady_conn_beginTxn {V} c (ctx : Context V) opts :
  keeps steady_stays (conn_beginTxn c ctx opts).
Proof.
  unfold conn_beginTxn.
  apply keeps_bind; [ exact _ | apply steady_conn_checkOpen | ].
  intros _ w. apply steady_unchanged; reflexivity.
Qed.

Lemma steady_handle_onCancel r : keeps steady_stays (handle_onCancel r).
Proof. unfold handle_onCancel. pose proof steady_clr_off. steady_auto. Qed.

Lemma steady_fire_all ls : keeps steady_stays (fire_all ls).
Proof.
  induction ls as [ | [r] ls IH]; simpl; [ steady_auto | ].
  pose proof (steady_handle_onCancel r). steady_auto.
Qed.

Lemma steady_perform {V} (a : Call V) : keeps steady_stays (perform a).
Proof.
  pose proof steady_conn_checkOpen. pose proof steady_conn_close.
  pose proof steady_txn_close. pose proof steady_fire_all.
  pose proof steady_conn_reset. pose proof steady_pool_close.
  pose proof (@steady_pool_conn V). pose proof (@steady_conn_beginTxn V).
  destruct a; cbn [perform];
    unfold pool_beginTxn_resume, pool_set_resume, pool_get_resume,
      pool_delete_resume, conn_set, conn_get, conn_delete, txn_set, txn_get,
      txn_delete, txn_commit, txn_rollback, cancel;
    steady_auto.
Qed.

Lemma steady_run {V} (calls : list (Call V)) w : steady_stays w (run calls w).
Proof.
  revert w. induction calls as [ | a calls IH]; intros w; simpl.
  - reflexivity.
  - etransitivity; [ apply (steady_perform a w) | apply IH ].
Qed.

Lemma steady_getPool s n : steady (getPool s n).
Proof.
  split.
  - unfold within_capacity. simpl. repeat split; try constructor; try lia;
      contradiction.
  - intros c. split; reflexivity.
Qed.

(** *** The staged view of a transaction *)

#[local] Instance same_staging_preorder t : PreOrder (same_staging t).
Proof.
  split; [ intros w; split; auto | ].
  intros w1 w2 w3 [H1 H1'] [H2 H2']; split; [ lia | ].
  intros Ht. destruct (H1' Ht) as (? & ? & ?).
  destruct (H2' ltac:(lia)) as (? & ? & ?). repeat split; congruence.
Qed.
#[local] Instance same_staging_pooling t : RespectsPooling (same_staging t).
Proof. respects_tac; split; auto. Qed.
#[local] Instance same_staging_acquire t : RespectsAcquire (same_staging t).
Proof. respects_tac; split; auto. Qed.
#[local] Instance same_staging_reqwait t : RespectsReqWait (same_staging t).
Proof. respects_tac; split; auto. Qed.
#[local] Instance same_staging_reqgrant t : RespectsReqGrant (same_staging t).
Proof. respects_tac; split; auto. Qed.
#[local] Instance same_staging_canceler t : RespectsCanceler (same_staging t).
Proof. respects_tac; split; auto. Qed.
#[local] Instance same_staging_store t : RespectsStore (same_staging t).
Proof. respects_tac; split; auto. Qed.
#[local] Instance same_staging_txnlife t : RespectsTxnLife (same_staging t).
Proof.
  split; intros; red; kv_proj; (split; [ lia | ]); intros Ht.
  - destruct (decide (t0 = t)) as [-> | ]; kv_lookup; auto.
  - rewrite fn_lookup_insert_ne by lia. auto.
Qed.

Lemma kv_step_same_staging {V} (a : Call V) t w :
  readonly (txns w t) = true \/ buffers a = false ->
  same_staging t w (step a w).
Proof.
  intros Hr.
  destruct (buffers a) eqn:Hb.
  - destruct Hr as [Hr | ?]; [ | discriminate ].
    destruct a; cbn [buffers] in Hb; try discriminate; unfold step, perform.
    + rewrite txn_set_eq. destruct (decide (t0 = t)) as [-> | Hne].
      * rewrite Hr. destruct (done (txns w t)); reflexivity.
      * destruct (done (txns w t0)); [ reflexivity | ].
        destruct (readonly (txns w t0)); [ reflexivity | ].
        split; kv_proj; [ lia | ]. intros _. kv_lookup. auto.
    + rewrite txn_delete_eq. destruct (decide (t0 = t)) as [-> | Hne].
      * rewrite Hr. destruct (done (txns w t)); reflexivity.
      * destruct (done (txns w t0)); [ reflexivity | ].
        destruct (readonly (txns w t0)); [ reflexivity | ].
        split; kv_proj; [ lia | ]. intros _. kv_lookup. auto.
  - apply (keeps_perform (same_staging t) a); try exact _; intros; try exact _.
    congruence.
Qed.

Lemma kv_run_readonly {V} (calls : list (Call V)) t w :
  t < nextTxn w -> readonly (txns w t) = true ->
  same_staging t w (run calls w).
Proof.
  revert w. induction calls as [ | a calls IH]; intros w Ht Hr; simpl.
  - reflexivity.
  - pose proof (kv_step_same_staging a t w (or_introl Hr)) as H1.
    etransitivity; [ exact H1 | ].
    destruct H1 as [Hn Hs]. destruct (Hs Ht) as (_ & _ & Hr').
    apply IH; [ lia | congruence ].
Qed.


(** *** What a transaction has buffered *)

(** The staging area of a transaction keeps the store as its prototype as
    long as nothing is written under [__proto__] within the transaction. *)
Lemma still_linked_step {V} (a : Call V) t w :
  touches t "__proto__" a = false -> still_linked t w (step a w).
Proof.
  intros Ha. destruct (buffers a) eqn:Hb.
  - destruct a; simpl in Hb; try discriminate; simpl in Ha;
      apply bool_decide_eq_false in Ha; unfold step; cbn [perform];
      [ rewrite txn_set_eq | rewrite txn_delete_eq ];
      (destruct (done (txns w t0)); [ reflexivity | ]);
      (destruct (readonly (txns w t0)); [ reflexivity | ]);
      kv_proj; (split; [ kv_proj; lia | ]); kv_proj; intros Ht Hk;
      (destruct (decide (t0 = t)) as [-> | ]; kv_lookup; auto);
      kv_proj; rewrite link_proto_set; auto.
  - apply (keeps_perform (still_linked t)); try exact _;
      rewrite ?Hb; try discriminate; intros _; exact _.
Qed.

Lemma still_linked_run {V} (calls : list (Call V)) t w :
  Forall (fun a => touches t "__proto__" a = false) calls ->
  still_linked t w (run calls w).
Proof.
  intros H. revert w. induction H as [ | a calls Ha _ IH]; intros w; simpl.
  - reflexivity.
  - etransitivity; [ exact (still_linked_step a t w Ha) | apply IH ].
Qed.

(** A call made while the transaction [t] is open and writable appends to
    its buffer the operation it writes within [t], and nothing else. *)
Lemma kv_step_written {V} (a : Call V) t w :
  t < nextTxn w -> done (txns w t) = false -> readonly (txns w t) = false ->
  t < nextTxn (step a w) /\
  ops (txns (step a w) t) = ops (txns w t) ++ written t a /\
  readonly (txns (step a w) t) = false.
Proof.
  intros Ht Hd Hr. destruct (buffers a) eqn:Hb.
  - destruct a; cbn [buffers] in Hb; try discriminate; unfold step, perform;
      cbn [written].
    + rewrite txn_set_eq. destruct (decide (t0 = t)) as [-> | Hne].
      * rewrite Hd, Hr, bool_decide_eq_true_2 by reflexivity.
        kv_proj. kv_lookup. kv_proj. auto.
      * rewrite (bool_decide_eq_false_2 _ Hne), app_nil_r.
        destruct (done (txns w t0)); [ auto | ].
        destruct (readonly (txns w t0)); [ auto | ].
        kv_proj. kv_lookup. auto.
    + rewrite txn_delete_eq. destruct (decide (t0 = t)) as [-> | Hne].
      * rewrite Hd, Hr, bool_decide_eq_true_2 by reflexivity.
        kv_proj. kv_lookup. kv_proj. auto.
      * rewrite (bool_decide_eq_false_2 _ Hne), app_nil_r.
        destruct (done (txns w t0)); [ auto | ].
        destruct (readonly (txns w t0)); [ auto | ].
        kv_proj. kv_lookup. auto.
  - destruct (kv_step_same_staging a t w (or_intror Hb)) as [Hn Hs].
    destruct (Hs Ht) as (_ & Ho & Hro).
    assert (Hw : written t a = []) by (destruct a; try reflexivity; discriminate).
    rewrite Hw, app_nil_r. split; [ lia | ]. split; congruence.
Qed.

(** The buffer of an open, writable transaction holds the operations
    written within it, in the order of the calls that wrote them. *)
Lemma kv_run_written {V} (calls : list (Call V)) t w :
  t < nextTxn w -> readonly (txns w t) = false ->
  done (txns (run calls w) t) = false ->
  t < nextTxn (run calls w) /\
  ops (txns (run calls w) t) = ops (txns w t) ++ flat_map (written t) calls /\
  readonly (txns (run calls w) t) = false.
Proof.
  revert w. induction calls as [ | a calls IH]; intros w Ht Hr Hd.
  - cbn [run fold_left flat_map]. rewrite app_nil_r. auto.
  - assert (Hd0 : done (txns w t) = false).
    { destruct (done (txns w t)) eqn:E; [ | reflexivity ].
      destruct (run_done_stays (a :: calls) t w Ht E) as [_ H]. congruence. }
    destruct (kv_step_written a t w Ht Hd0 Hr) as (Ht1 & Ho1 & Hr1).
    change (run (a :: calls) w) with (run calls (step a w)) in *.
    destruct (IH (step a w) Ht1 Hr1 Hd) as (Ht2 & Ho2 & Hr2).
    split; [ exact Ht2 | ]. split; [ | exact Hr2 ].
    rewrite Ho2, Ho1. cbn [flat_map]. rewrite app_assoc. reflexivity.
Qed.

(** The staging area agrees with the buffer after any calls. *)
Lemma kv_step_staged_ok {V} (a : Call V) t w :
  t < nextTxn w -> staged_ok (txns w t) -> staged_ok (txns (step a w) t).
Proof.
  intros Ht Hok. destruct (buffers a) eqn:Hb.
  - destruct a; cbn [buffers] in Hb; try discriminate; unfold step, perform.
    + rewrite txn_set_eq.
      destruct (done (txns w t0)); [ exact Hok | ].
      destruct (readonly (txns w t0)); [ exact Hok | ].
      kv_proj. destruct (decide (t0 = t)) as [-> | Hne]; kv_lookup.
      * apply staged_ok_set, Hok.
      * exact Hok.
    + rewrite txn_delete_eq.
      destruct (done (txns w t0)); [ exact Hok | ].
      destruct (readonly (txns w t0)); [ exact Hok | ].
      kv_proj. destruct (decide (t0 = t)) as [-> | Hne]; kv_lookup.
      * apply staged_ok_delete, Hok.
      * exact Hok.
  - destruct (kv_step_same_staging a t w (or_intror Hb)) as [Hn Hs].
    destruct (Hs Ht) as (Hte & Ho & _).
    intros key Hk. rewrite Hte, Ho. apply Hok, Hk.
Qed.

Lemma kv_run_staged_ok {V} (calls : list (Call V)) t w :
  t < nextTxn w -> staged_ok (txns w t) ->
  t < nextTxn (run calls w) /\ staged_ok (txns (run calls w) t).
Proof.
  revert w. induction calls as [ | a calls IH]; intros w Ht Hok.
  - auto.
  - change (run (a :: calls) w) with (run calls (step a w)).
    apply IH; [ | apply kv_step_staged_ok; assumption ].
    destruct (keeps_run (done_stays t) [a] w) as [Hn _]. cbn in Hn. lia.
Qed.
(** *** Properties of transactions *)

Lemma conn_beginTxn_new {V} c (ctx : Context V) opts w0 t w :
  conn_beginTxn c ctx opts w0 = (Returned t, w) ->
  t = nextTxn w0 /\ t < nextTxn w /\ store w = store w0 /\
  conns w = conns w0 /\
  txns w t = {| onComplete := c; temp := object_create; ops := [];
                readonly := readOnly_is_true opts; done := false |}.
Proof.
  rewrite conn_beginTxn_eq. destruct (closed (conns w0 c)); [ discriminate | ].
  intros [= <- <-]. kv_proj. kv_lookup. repeat split. lia.
Qed.

(** C1, where the code departs from it.  A transaction is begun, not read
    only, over a store made by an object literal that has no property
    [__proto__] of its own.  [set] of the key [__proto__] within the
    transaction returns and buffers the operation, and leaves the shared
    store alone; but the staging area has no own property afterwards, and a
    read of [__proto__] within the same transaction does not return the
    value written: it returns [undefined] when [null] was written, and the
    store object itself when another primitive value was. *)
Theorem kv_txn_proto_write_not_read_back {V} (w0 w : World) (c t : nat)
    (ctx : Context V) (opts : option TxnOptions) (val : JsVal) :
  conn_beginTxn c ctx opts w0 = (Returned t, w) ->
  readOnly_is_true opts = false ->
  link (store w0) = Linked ->
  own (store w0) !! "__proto__"%string = None ->
  let w1 := snd (txn_set t ctx "__proto__" val w) in
  txn_set t ctx "__proto__" val w = (Returned tt, w1) /\
  ops (txns w1 t) = [OpSet "__proto__" val] /\
  own (temp (txns w1 t)) = ∅ /\
  store w1 = store w0 /\
  txn_get t ctx "__proto__" w1 =
    (Returned (match val with JsNull => Data undefined | _ => StoreRef end), w1) /\
  txn_get t ctx "__proto__" w1 <> (Returned (Data val), w1).
Proof.
  intros Hb Hro Hl Hp w1.
  destruct (conn_beginTxn_new c ctx opts w0 t w Hb) as (_ & Ht & Hs & _ & Htx).
  assert (Hset : txn_set t ctx "__proto__" val w
                 = (Returned tt,
                    set_txn t (txn_with_temp (proto_set (store w) "__proto__" val))
                      (set_txn t (txn_with_ops
                                    (fun l => l ++ [OpSet "__proto__" val])) w))).
  { rewrite txn_set_eq, Htx. cbn [done readonly]. rewrite Hro. reflexivity. }
  assert (Hw1 : w1 = set_txn t (txn_with_temp (proto_set (store w) "__proto__" val))
                       (set_txn t (txn_with_ops
                                     (fun l => l ++ [OpSet "__proto__" val])) w))
    by (unfold w1; rewrite Hset; reflexivity).
  assert (Htemp : temp (txns w1 t) = set_prototype val object_create).
  { rewrite Hw1. kv_proj. kv_lookup. rewrite Htx. kv_proj.
    unfold proto_set. rewrite Hs, Hp, Hl. reflexivity. }
  assert (Hget : txn_get t ctx "__proto__" w1 =
                 (Returned (match val with
                            | JsNull => Data undefined
                            | _ => StoreRef
                            end), w1)).
  { rewrite txn_get_eq, Htemp.
    replace (done (txns w1 t)) with false
      by (rewrite Hw1; kv_proj; kv_lookup; rewrite Htx; reflexivity).
    replace (store w1) with (store w0) by (rewrite Hw1; kv_proj; congruence).
    unfold proto_get. destruct val; cbn [set_prototype object_create own link];
      rewrite ?lookup_empty, ?Hp, ?Hl; reflexivity. }
  split; [ rewrite Hset, Hw1; reflexivity | ].
  split; [ rewrite Hw1; kv_proj; kv_lookup; rewrite Htx; reflexivity | ].
  split; [ rewrite Htemp; destruct val; reflexivity | ].
  split; [ rewrite Hw1; kv_proj; exact Hs | ].
  split; [ exact Hget | ].
  rewrite Hget. destruct val; intros [=].
Qed.

Lemma kv_txn_proto_write_not_read_back_witness :
  conn_beginTxn 0 bg None world_conn_open = (Returned 0, world_txn_begun) /\
  readOnly_is_true None = false /\
  link (store world_conn_open) = Linked /\
  own (store world_conn_open) !! "__proto__"%string = None /\
  txn_set 0 bg "__proto__" (JsStr "x") world_txn_begun
  = (Returned tt, snd (txn_set 0 bg "__proto__" (JsStr "x") world_txn_begun)) /\
  txn_get 0 bg "__proto__"
    (snd (txn_set 0 bg "__proto__" (JsStr "x") world_txn_begun))
  = (Returned StoreRef,
     snd (txn_set 0 bg "__proto__" (JsStr "x") world_txn_begun)).
Proof.
  assert (Hb : conn_beginTxn 0 bg None world_conn_open
               = (Returned 0, world_txn_begun)) by reflexivity.
  assert (Hro : readOnly_is_true None = false) by reflexivity.
  assert (Hl : link (store world_conn_open) = Linked) by reflexivity.
  assert (Hp : own (store world_conn_open) !! "__proto__"%string = None)
    by reflexivity.
  split; [ exact Hb | ]. split; [ exact Hro | ]. split; [ exact Hl | ].
  split; [ exact Hp | ].
  destruct (kv_txn_proto_write_not_read_back world_conn_open world_txn_begun
              0 0 bg None (JsStr "x") Hb Hro Hl Hp) as (H1 & _ & _ & _ & H5 & _).
  split; [ exact H1 | exact H5 ].
Defined.

(** C10, where the code departs from it.  A transaction is begun, not read
    only, over a store made by an object literal that has no property
    [__proto__] of its own, and [null] is set under [__proto__] within it.
    From then on a read within the transaction of any other key, none of
    which was set or deleted within the transaction, returns [undefined],
    whatever the shared store holds for that key; a value written under the
    key through an open connection afterwards is read through the
    connection but not within the transaction. *)
Theorem kv_txn_proto_null_hides_store {V} (w0 w : World) (c c2 t : nat)
    (ctx : Context V) (opts : option TxnOptions) (key : string) (val : JsVal) :
  conn_beginTxn c ctx opts w0 = (Returned t, w) ->
  readOnly_is_true opts = false ->
  link (store w0) = Linked ->
  own (store w0) !! "__proto__"%string = None ->
  key <> "__proto__"%string ->
  closed (conns w0 c2) = false ->
  let w1 := snd (txn_set t ctx "__proto__" JsNull w) in
  let w2 := snd (conn_set c2 ctx key val w1) in
  txn_set t ctx "__proto__" JsNull w = (Returned tt, w1) /\
  touches t key (TxnSet t ctx "__proto__" JsNull) = false /\
  done (txns w1 t) = false /\
  conn_get c2 ctx key w1 = (Returned (js_get (store w0) key), w1) /\
  txn_get t ctx key w1 = (Returned (Data undefined), w1) /\
  conn_set c2 ctx key val w1 = (Returned tt, w2) /\
  conn_get c2 ctx key w2 = (Returned (Data val), w2) /\
  txn_get t ctx key w2 = (Returned (Data undefined), w2).
Proof.
  intros Hb Hro Hl Hp Hk Hc w1 w2.
  destruct (conn_beginTxn_new c ctx opts w0 t w Hb) as (_ & Ht & Hs & Hcs & Htx).
  assert (Hset : txn_set t ctx "__proto__" JsNull w
                 = (Returned tt,
                    set_txn t (txn_with_temp (proto_set (store w) "__proto__" JsNull))
                      (set_txn t (txn_with_ops
                                    (fun l => l ++ [OpSet "__proto__" JsNull])) w))).
  { rewrite txn_set_eq, Htx. cbn [done readonly]. rewrite Hro. reflexivity. }
  assert (Hw1 : w1 = set_txn t (txn_with_temp (proto_set (store w) "__proto__" JsNull))
                       (set_txn t (txn_with_ops
                                     (fun l => l ++ [OpSet "__proto__" JsNull])) w))
    by (unfold w1; rewrite Hset; reflexivity).
  assert (Htemp : temp (txns w1 t) = {| own := ∅; link := Unlinked |}).
  { rewrite Hw1. kv_proj. kv_lookup. rewrite Htx. kv_proj.
    unfold proto_set. rewrite Hs, Hp, Hl. reflexivity. }
  assert (Hd1 : done (txns w1 t) = false)
    by (rewrite Hw1; kv_proj; kv_lookup; rewrite Htx; reflexivity).
  assert (Hs1 : store w1 = store w0) by (rewrite Hw1; kv_proj; exact Hs).
  assert (Hc1 : closed (conns w1 c2) = false)
    by (rewrite Hw1; kv_proj; rewrite Hcs; exact Hc).
  assert (Hcset : conn_set c2 ctx key val w1
                  = (Returned tt, set_store (js_set key val) w1))
    by (rewrite conn_set_eq, Hc1; reflexivity).
  assert (Hw2 : w2 = set_store (js_set key val) w1)
    by (unfold w2; rewrite Hcset; reflexivity).
  split; [ rewrite Hset, Hw1; reflexivity | ].
  split.
  { cbn [touches]. apply bool_decide_eq_false_2. intros [_ E]. congruence. }
  split; [ exact Hd1 | ].
  split; [ rewrite conn_get_eq, Hc1, Hs1; reflexivity | ].
  split.
  { rewrite txn_get_eq, Hd1, Htemp. unfold proto_get. cbn [own link].
    rewrite lookup_empty. reflexivity. }
  split; [ rewrite Hcset, Hw2; reflexivity | ].
  split.
  { rewrite conn_get_eq, Hw2. kv_proj. rewrite Hc1.
    rewrite js_set_plain, js_get_define_own, bool_decide_eq_true_2 by auto.
    reflexivity. }
  rewrite txn_get_eq, Hw2. kv_proj. rewrite Hd1, Htemp.
  unfold proto_get. cbn [own link]. rewrite lookup_empty. reflexivity.
Qed.

Lemma kv_txn_proto_null_hides_store_witness :
  conn_beginTxn 0 bg None world_conn_open = (Returned 0, world_txn_begun) /\
  readOnly_is_true None = false /\
  link (store world_conn_open) = Linked /\
  own (store world_conn_open) !! "__proto__"%string = None /\
  "a"%string <> "__proto__"%string /\
  closed (conns world_conn_open 0) = false /\
  conn_get 0 bg "a" (snd (txn_set 0 bg "__proto__" JsNull world_txn_begun))
  = (Returned (Data (JsStr "b")),
     snd (txn_set 0 bg "__proto__" JsNull world_txn_begun)) /\
  txn_get 0 bg "a" (snd (txn_set 0 bg "__proto__" JsNull world_txn_begun))
  = (Returned (Data undefined),
     snd (txn_set 0 bg "__proto__" JsNull world_txn_begun)).
Proof.
  assert (Hb : conn_beginTxn 0 bg None world_conn_open
               = (Returned 0, world_txn_begun)) by reflexivity.
  assert (Hro : readOnly_is_true None = false) by reflexivity.
  assert (Hl : link (store world_conn_open) = Linked) by reflexivity.
  assert (Hp : own (store world_conn_open) !! "__proto__"%string = None)
    by reflexivity.
  assert (Hk : "a"%string <> "__proto__"%string) by discriminate.
  assert (Hc : closed (conns world_conn_open 0) = false) by reflexivity.
  split; [ exact Hb | ]. split; [ exact Hro | ]. split; [ exact Hl | ].
  split; [ exact Hp | ]. split; [ exact Hk | ]. split; [ exact Hc | ].
  destruct (kv_txn_proto_null_hides_store world_conn_open world_txn_begun
              0 0 0 bg None "a" (JsStr "c") Hb Hro Hl Hp Hk Hc)
    as (_ & _ & _ & H4 & H5 & _).
  split; [ exact H4 | exact H5 ].
Defined.

(** C7. The done state is terminal.  Once [commit] or [rollback] has
    succeeded on a transaction, then after any further calls whatsoever the
    transaction is still done, and every call on it (set, get, delete,
    commit, rollback) fails with the error that the transaction is already
    complete and changes nothing; in particular a second commit or rollback
    fails whichever of the two came first. *)
Theorem kv_txn_done_terminal {V} (w w1 : World) (t : nat) (p : VoidPromise)
    (calls : list (Call V)) :
  t < nextTxn w ->
  txn_commit t w = (Returned p, w1) \/ txn_rollback t w = (Returned p, w1) ->
  let w2 := run calls w1 in
  done (txns w2 t) = true /\
  (forall a : Call V,
     on_txn t a = true ->
     perform a w2 = (Thrown (Error "Transaction is already complete"), w2)).
Proof.
  intros Ht Hfin w2.
  assert (Hd : t < nextTxn w1 /\ done (txns w1 t) = true).
  { destruct Hfin as [H | H].
    - pose proof (txn_commit_sets_done t w Ht) as Hd.
      destruct (keeps_txn_commit (done_stays t) t w) as [Hn _].
      rewrite H in Hd, Hn. simpl in Hd, Hn. split; [ lia | exact Hd ].
    - pose proof (txn_rollback_sets_done t w Ht) as Hd.
      destruct (keeps_txn_rollback (done_stays t) t w) as [Hn _].
      rewrite H in Hd, Hn. simpl in Hd, Hn. split; [ lia | exact Hd ]. }
  destruct Hd as [Ht1 Hd1].
  destruct (run_done_stays calls t w1 Ht1 Hd1) as [_ Hd2]. fold w2 in Hd2.
  split; [ exact Hd2 | ].
  intros a Ha. apply (perform_on_done a t); assumption.
Qed.

Lemma kv_txn_done_terminal_witness :
  0 < nextTxn world_txn_begun /\
  txn_rollback 0 world_txn_begun
  = (Returned ResolvedPromise, snd (txn_rollback 0 world_txn_begun)) /\
  perform (V := unit) (TxnCommit 0)
    (run [TxnGet 0 bg "a"] (snd (txn_rollback 0 world_txn_begun)))
  = (Thrown (Error "Transaction is already complete"),
     run [TxnGet 0 bg "a"] (snd (txn_rollback 0 world_txn_begun))).
Proof.
  assert (Ht : 0 < nextTxn world_txn_begun) by (vm_compute; lia).
  assert (Hr : txn_rollback 0 world_txn_begun
               = (Returned ResolvedPromise, snd (txn_rollback 0 world_txn_begun)))
    by reflexivity.
  split; [ exact Ht | ]. split; [ exact Hr | ].
  exact (proj2 (kv_txn_done_terminal world_txn_begun _ 0 ResolvedPromise
                  [TxnGet 0 bg "a"] Ht (or_intror Hr))
           (TxnCommit 0) eq_refl).
Defined.

(** *** Transactions on ordinary keys *)


(** Isolation and read-your-writes.  Take a transaction begun on a
    connection, not read only, and any sequence of its operations other
    than commit (set, get, delete, rollback).  The shared store is then
    what it was before the transaction began, and it still is after a
    rollback.  While the transaction is open, for every key but
    [__proto__]: a read within the transaction returns the value written
    last under the key by the calls of the sequence (undefined after a
    delete); a further [set] returns, its value is read back and the shared
    store is not touched; a further [delete] returns, the key then reads
    undefined and the shared store is not touched. *)
Theorem kv_txn_read_your_writes {V} (w0 w : World) (c t : nat)
    (ctx : Context V) (opts : option TxnOptions) (calls : list (Call V)) :
  conn_beginTxn c ctx opts w0 = (Returned t, w) ->
  readOnly_is_true opts = false ->
  Forall (fun a => uncommitted_op t a = true) calls ->
  let w' := run calls w in
  store w' = store w0 /\
  store (snd (txn_rollback t w')) = store w0 /\
  (done (txns w' t) = false ->
   (forall key v,
      key <> "__proto__"%string ->
      last_write key (flat_map (written t) calls) = Some v ->
      txn_get t ctx key w' = (Returned (Data v), w')) /\
   (forall key val,
      key <> "__proto__"%string ->
      let w1 := snd (txn_set t ctx key val w') in
      txn_set t ctx key val w' = (Returned tt, w1) /\
      txn_get t ctx key w1 = (Returned (Data val), w1) /\
      store w1 = store w0) /\
   (forall key,
      key <> "__proto__"%string ->
      let w1 := snd (txn_delete t ctx key w') in
      txn_delete t ctx key w' = (Returned tt, w1) /\
      txn_get t ctx key w1 = (Returned (Data undefined), w1) /\
      store w1 = store w0)).
Proof.
  intros Hb Hro Hcalls w'.
  destruct (conn_beginTxn_new c ctx opts w0 t w Hb) as (_ & Ht & Hs & _ & Htx).
  destruct (uncommitted_ops_run calls t w Hcalls) as [Hs' Hok]. fold w' in Hs', Hok.
  assert (Hstore : store w' = store w0) by congruence.
  assert (Hok' : staged_ok (txns w' t)).
  { apply Hok. rewrite Htx. apply staged_ok_new. }
  split; [ exact Hstore | ]. split.
  { pose proof (keeps_txn_rollback same_store t w') as H.
    unfold same_store in H. congruence. }
  intros Hd.
  assert (Hr0 : readonly (txns w t) = false) by (rewrite Htx; exact Hro).
  destruct (kv_run_written calls t w Ht Hr0 Hd) as (_ & Hops & Hr).
  fold w' in Hops, Hr. rewrite Htx in Hops. cbn [ops app] in Hops.
  split; [ | split ].
  - intros key v Hk Hv. rewrite txn_get_eq, Hd.
    rewrite (proto_get_own _ _ key v); [ reflexivity | ].
    rewrite (Hok' key Hk), Hops. exact Hv.
  - intros key val Hk w1.
    assert (Hset : txn_set t ctx key val w'
                   = (Returned tt,
                      set_txn t (txn_with_temp (proto_set (store w') key val))
                        (set_txn t (txn_with_ops (fun l => l ++ [OpSet key val]))
                           w')))
      by (rewrite txn_set_eq, Hd, Hr; reflexivity).
    unfold w1. rewrite Hset. cbn [snd]. split; [ reflexivity | ].
    split; [ | kv_proj; exact Hstore ].
    rewrite txn_get_eq. kv_proj. kv_lookup. kv_proj. rewrite Hd.
    rewrite (proto_get_own _ _ key val); [ reflexivity | ].
    rewrite own_proto_set, bool_decide_eq_true_2 by auto. reflexivity.
  - intros key Hk w1.
    assert (Hdel : txn_delete t ctx key w'
                   = (Returned tt,
                      set_txn t (txn_with_temp (proto_set (store w') key undefined))
                        (set_txn t (txn_with_ops (fun l => l ++ [OpDelete key]))
                           w')))
      by (rewrite txn_delete_eq, Hd, Hr; reflexivity).
    unfold w1. rewrite Hdel. cbn [snd]. split; [ reflexivity | ].
    split; [ | kv_proj; exact Hstore ].
    rewrite txn_get_eq. kv_proj. kv_lookup. kv_proj. rewrite Hd.
    rewrite (proto_get_own _ _ key undefined); [ reflexivity | ].
    rewrite own_proto_set, bool_decide_eq_true_2 by auto. reflexivity.
Qed.

Lemma kv_txn_read_your_writes_witness :
  conn_beginTxn 0 bg None world_conn_open = (Returned 0, world_txn_begun) /\
  readOnly_is_true None = false /\
  Forall (fun a => uncommitted_op 0 a = true)
    [TxnSet 0 bg "a" (JsStr "c"); TxnDelete 0 bg "z"; TxnGet 0 bg "a"] /\
  done (txns (run [TxnSet 0 bg "a" (JsStr "c"); TxnDelete 0 bg "z";
                   TxnGet 0 bg "a"] world_txn_begun) 0) = false /\
  txn_get 0 bg "a"
    (run [TxnSet 0 bg "a" (JsStr "c"); TxnDelete 0 bg "z"; TxnGet 0 bg "a"]
       world_txn_begun)
  = (Returned (Data (JsStr "c")),
     run [TxnSet 0 bg "a" (JsStr "c"); TxnDelete 0 bg "z"; TxnGet 0 bg "a"]
       world_txn_begun) /\
  store (run [TxnSet 0 bg "a" (JsStr "c"); TxnDelete 0 bg "z"; TxnGet 0 bg "a"]
           world_txn_begun) = store world_conn_open.
Proof.
  assert (Hb : conn_beginTxn 0 bg None world_conn_open
               = (Returned 0, world_txn_begun)) by reflexivity.
  assert (Hro : readOnly_is_true None = false) by reflexivity.
  assert (Hc : Forall (fun a : Call unit => uncommitted_op 0 a = true)
                 [TxnSet 0 bg "a" (JsStr "c"); TxnDelete 0 bg "z";
                  TxnGet 0 bg "a"])
    by (repeat constructor).
  assert (Hd : done (txns (run [TxnSet 0 bg "a" (JsStr "c"); TxnDelete 0 bg "z";
                                TxnGet 0 bg "a"] world_txn_begun) 0) = false)
    by reflexivity.
  assert (Hk : "a"%string <> "__proto__"%string) by discriminate.
  split; [ exact Hb | ]. split; [ exact Hro | ]. split; [ exact Hc | ].
  split; [ exact Hd | ].
  destruct (kv_txn_read_your_writes world_conn_open world_txn_begun 0 0 bg None
              _ Hb Hro Hc) as (H1 & _ & H3).
  split; [ | exact H1 ].
  exact (proj1 (H3 Hd) "a"%string (JsStr "c") Hk eq_refl).
Defined.

(** No snapshot.  Take a transaction begun on a connection, followed by any
    calls whatsoever (on this or other transactions, on connections, on the
    pool) none of which sets or deletes, within the transaction, the key
    [key] or the key [__proto__].  While the transaction is open, a read of
    [key] within it returns what a read of the shared store returns at that
    moment; in particular a value written under [key] through an open
    connection after the transaction began is the value read. *)
Theorem kv_txn_sees_live_store {V} (w0 w : World) (c t : nat) (ctx : Context V)
    (opts : option TxnOptions) (calls : list (Call V)) (key : string) :
  conn_beginTxn c ctx opts w0 = (Returned t, w) ->
  key <> "__proto__"%string ->
  Forall (fun a => touches t key a = false) calls ->
  Forall (fun a => touches t "__proto__" a = false) calls ->
  let w' := run calls w in
  done (txns w' t) = false ->
  txn_get t ctx key w' = (Returned (js_get (store w') key), w') /\
  (forall c2 (ctx2 : Context V) val,
     closed (conns w' c2) = false ->
     let w1 := snd (conn_set c2 ctx2 key val w') in
     conn_set c2 ctx2 key val w' = (Returned tt, w1) /\
     txn_get t ctx key w1 = (Returned (Data val), w1)).
Proof.
  intros Hb Hk Hcalls Hproto w' Hd.
  destruct (conn_beginTxn_new c ctx opts w0 t w Hb) as (_ & Ht & _ & _ & Htx).
  destruct (untouched_run calls t key w Hcalls) as [_ Hu].
  destruct (still_linked_run calls t w Hproto) as [_ Hl].
  fold w' in Hu, Hl.
  assert (Ho : own (temp (txns w' t)) !! key = None).
  { apply Hu; [ exact Ht | ]. rewrite Htx. apply lookup_empty. }
  assert (Hli : link (temp (txns w' t)) = Linked).
  { apply Hl; [ exact Ht | ]. rewrite Htx. reflexivity. }
  split.
  - rewrite txn_get_eq, Hd, proto_get_through by assumption. reflexivity.
  - intros c2 ctx2 val Hc w1.
    assert (Hset : conn_set c2 ctx2 key val w'
                   = (Returned tt, set_store (js_set key val) w'))
      by (rewrite conn_set_eq, Hc; reflexivity).
    unfold w1. rewrite Hset. cbn [snd]. split; [ reflexivity | ].
    rewrite txn_get_eq. kv_proj. rewrite Hd.
    rewrite proto_get_through by assumption.
    rewrite js_set_plain, js_get_define_own, bool_decide_eq_true_2 by auto.
    reflexivity.
Qed.

Lemma kv_txn_sees_live_store_witness :
  conn_beginTxn 0 bg None world_conn_open = (Returned 0, world_txn_begun) /\
  "a"%string <> "__proto__"%string /\
  Forall (fun a => touches 0 "a" a = false)
    [TxnSet 0 bg "z" JsNull; ConnSet 0 bg "a" (JsStr "c")] /\
  Forall (fun a => touches 0 "__proto__" a = false)
    [TxnSet 0 bg "z" JsNull; ConnSet 0 bg "a" (JsStr "c")] /\
  done (txns (run [TxnSet 0 bg "z" JsNull; ConnSet 0 bg "a" (JsStr "c")]
                world_txn_begun) 0) = false /\
  txn_get 0 bg "a"
    (run [TxnSet 0 bg "z" JsNull; ConnSet 0 bg "a" (JsStr "c")] world_txn_begun)
  = (Returned (Data (JsStr "c")),
     run [TxnSet 0 bg "z" JsNull; ConnSet 0 bg "a" (JsStr "c")] world_txn_begun).
Proof.
  assert (Hb : conn_beginTxn 0 bg None world_conn_open
               = (Returned 0, world_txn_begun)) by reflexivity.
  assert (Hk : "a"%string <> "__proto__"%string) by discriminate.
  assert (Hc : Forall (fun a : Call unit => touches 0 "a" a = false)
                 [TxnSet 0 bg "z" JsNull; ConnSet 0 bg "a" (JsStr "c")])
    by (repeat constructor).
  assert (Hp : Forall (fun a : Call unit => touches 0 "__proto__" a = false)
                 [TxnSet 0 bg "z" JsNull; ConnSet 0 bg "a" (JsStr "c")])
    by (repeat constructor).
  assert (Hd : done (txns (run [TxnSet 0 bg "z" JsNull;
                                ConnSet 0 bg "a" (JsStr "c")]
                             world_txn_begun) 0) = false) by reflexivity.
  split; [ exact Hb | ]. split; [ exact Hk | ]. split; [ exact Hc | ].
  split; [ exact Hp | ]. split; [ exact Hd | ].
  exact (proj1 (kv_txn_sees_live_store world_conn_open world_txn_begun 0 0 bg
                  None _ "a" Hb Hk Hc Hp Hd)).
Defined.


(** *** Properties of the pool *)

(** C2. Capacity and first in, first out.  On an open pool a request is
    resolved at once with the head of the idle list when there is one, and
    otherwise with a new connection while fewer connections than the
    capacity are active; else it is queued behind the requests already
    waiting.  So on a new pool of capacity [n], [n] requests made in a row
    are resolved at once, with the connections 0 to n-1; the next request
    is queued and pending; no sequence of calls that releases no connection
    resolves it; closing any one of the [n] connections resolves it with
    that very connection, which stays active and does not go to the idle
    list.  In any world, when the requests at the head of the queue are
    waiting and as many open active connections are closed one after the
    other, the i-th request of the queue is resolved with the i-th
    connection closed, and the idle list is left as it was. *)
Theorem kv_pool_capacity_fifo {V} (s : PlainObject) (n : nat)
    (ctxs : list (Context V)) (ctx : Context V) :
  length ctxs = n ->
  let w := snd (acquire_all ctxs (getPool s (Z.of_nat n))) in
  (forall (w0 : World) (ctx0 : Context V),
     poolClosed (thePool w0) = false ->
     match pool (thePool w0) with
     | c :: rest =>
         exists w',
           pool_conn ctx0 w0 = (Returned (ConnReady c), w') /\
           pool (thePool w') = rest /\
           active (thePool w') = active (thePool w0) ++ [c] /\
           reqQueue (thePool w') = reqQueue (thePool w0) /\
           closed (conns w' c) = false
     | [] =>
         if decide (Z.of_nat (length (active (thePool w0))) < maxCnt (thePool w0))%Z
         then
           exists w',
             pool_conn ctx0 w0 = (Returned (ConnReady (nextConn w0)), w') /\
             pool (thePool w') = [] /\
             active (thePool w') = active (thePool w0) ++ [nextConn w0] /\
             reqQueue (thePool w') = reqQueue (thePool w0) /\
             closed (conns w' (nextConn w0)) = false
         else
           exists w',
             pool_conn ctx0 w0 = (Returned (ConnWaiting (nextReq w0)), w') /\
             reqQueue (thePool w') = reqQueue (thePool w0) ++ [nextReq w0] /\
             waiting w' (nextReq w0) /\
             active (thePool w') = active (thePool w0) /\
             pool (thePool w') = []
     end) /\
  fst (acquire_all ctxs (getPool s (Z.of_nat n))) =
    map (fun c => Returned (ConnReady c)) (seq 0 n) /\
  (exists w1,
     pool_conn ctx w = (Returned (ConnWaiting 0), w1) /\
     reqQueue (thePool w1) = [0] /\ waiting w1 0 /\
     (forall calls : list (Call V),
        Forall (fun a => releases a = false) calls ->
        forall c, promise (reqs (run calls w1) 0) <> Fulfilled c) /\
     (forall c, c < n ->
        exists w2,
          conn_close c w1 = (Returned ResolvedPromise, w2) /\
          promise (reqs w2 0) = Fulfilled c /\
          reqQueue (thePool w2) = [] /\
          pool (thePool w2) = [] /\
          active (thePool w2) = seq 0 n)) /\
  (forall (w0 : World) (rs cs rest : list nat),
     NoDup rs -> length cs = length rs ->
     reqQueue (thePool w0) = rs ++ rest ->
     Forall (waiting w0) rs ->
     Forall (releasable w0) cs ->
     let w' := release_all cs w0 in
     Forall2 (fun r c => promise (reqs w' r) = Fulfilled c) rs cs /\
     reqQueue (thePool w') = rest /\
     active (thePool w') = active (thePool w0) /\
     pool (thePool w') = pool (thePool w0)).
Proof.
  intros Hlen w.
  split.
  { intros w0 ctx0 Hopen.
    destruct (pool (thePool w0)) as [ | c rest] eqn:Hp.
    - destruct (decide (Z.of_nat (length (active (thePool w0)))
                        < maxCnt (thePool w0))%Z) as [Hlt | Hge].
      + eexists. split; [ apply pool_conn_new; assumption | ].
        kv_proj. kv_lookup. kv_proj. kv_lookup. kv_proj. kv_lookup. kv_proj.
        rewrite Hp. auto.
      + destruct (pool_conn_queued ctx0 w0 Hopen Hp ltac:(lia))
          as (w' & H1 & H2 & H3 & _ & _ & _ & H4 & H5 & _).
        exists w'. rewrite H5, Hp. auto.
    - eexists. split; [ apply (pool_conn_idle ctx0 c rest); assumption | ].
      kv_proj. kv_lookup. kv_proj. kv_lookup. kv_proj. rewrite Hp. auto. }
  destruct (acquire_all_handed_out ctxs 0 (Z.of_nat n) (getPool s (Z.of_nat n))
              (handed_out_getPool s (Z.of_nat n)) ltac:(simpl; lia))
    as [Hos Hw].
  fold w in Hw. simpl in Hos, Hw. rewrite Hlen in Hos, Hw.
  split; [ exact Hos | ].
  split.
  - destruct Hw as (Hc & Hmax & Hp & Hact & Hq & Hnc & Hnr & Hconns).
    destruct (pool_conn_queued ctx w Hc Hp) as
      (w1 & Hpc & Hq1 & Hwait & Hclr & Hres & Hnr1 & Hact1 & Hp1 & Hcs1 & Hreqs1 & _).
    { rewrite Hact, Hmax, length_seq. lia. }
    rewrite Hnr in *. rewrite Hq in Hq1. simpl in Hq1.
    exists w1. split; [ exact Hpc | ]. split; [ exact Hq1 | ].
    split; [ exact Hwait | ]. split.
    + intros calls Hcalls c Hf.
      destruct (not_granted_run calls 0 w1 Hcalls) as [_ Hng].
      destruct Hwait as [Hpend _].
      rewrite (Hng ltac:(lia) c Hf) in Hpend. discriminate.
    + intros c Hlt.
      assert (Hrel : releasable w1 c).
      { unfold releasable. rewrite Hact1, Hact, Hcs1.
        split; [ apply elem_of_seq; lia | apply Hconns ]. }
      destruct (release_passes_canceled [] [0] w1 c Hrel Hq1 (Forall_nil_2 _) Hwait)
        as (w2 & Hcl & Hq2 & Hpr & Hact2 & Hp2 & _).
      exists w2. repeat split; try assumption; congruence.
  - intros w0 rs cs rest Hnd Hl Hq Hwait Hrel w'.
    destruct (release_fifo rs cs rest w0 Hnd Hl Hq Hwait Hrel)
      as (H1 & H2 & H3 & H4 & _).
    auto.
Qed.

(** C4, as the code has it.  When the context of a cancelable request that
    waits in the queue is canceled, the promise of the request is rejected
    with the cancellation error, and the request STAYS in the queue of the
    pool.  Whatever calls follow, its promise stays rejected, so that no
    connection is ever delivered to the requester.  When a connection
    released later finds the request at the head of the queue, the request
    is taken off the queue and the connection is closed and returned to the
    pool again: it passes the canceled requests that follow and is handed
    to the first request still waiting, or goes to the idle list when there
    is none. *)
Theorem kv_cancel_waiting_request {V} (w : World) (r clr : nat) :
  r < nextReq w ->
  r ∈ reqQueue (thePool w) ->
  cancelable_pending clr r w ->
  canceled (cancelers w clr) = false ->
  OnCancel r ∈ listeners (cancelers w clr) ->
  let w1 := snd (cancel clr w) in
  promise (reqs w1 r) = Rejected (Error cancel_message) /\
  reqQueue (thePool w1) = reqQueue (thePool w) /\
  r ∈ reqQueue (thePool w1) /\
  (forall calls : list (Call V),
     let w2 := run calls w1 in
     promise (reqs w2 r) = Rejected (Error cancel_message) /\
     (forall c dead rest,
        releasable w2 c ->
        reqQueue (thePool w2) = r :: dead ++ rest ->
        Forall (timed_out w2) dead ->
        match rest with
        | [] =>
            exists w3,
              conn_close c w2 = (Returned ResolvedPromise, w3) /\
              reqQueue (thePool w3) = [] /\ returned_idle c w2 w3 /\
              promise (reqs w3 r) = Rejected (Error cancel_message)
        | r2 :: q =>
            waiting w2 r2 ->
            exists w3,
              conn_close c w2 = (Returned ResolvedPromise, w3) /\
              reqQueue (thePool w3) = q /\ granted_to c r2 w2 w3 /\
              promise (reqs w3 r) = Rejected (Error cancel_message)
        end)).
Proof.
  intros Hr Hin Hp Hc Hl w1.
  destruct (cancel_rejects clr r w Hp Hc Hl) as [(Hclr & Hres & Hrej & Hto) Hpool].
  fold w1 in Hclr, Hres, Hrej, Hto, Hpool.
  assert (Hr1 : r < nextReq w1).
  { destruct (keeps_cancel (settled_stays r) clr w) as [Hn _]. fold w1 in Hn. lia. }
  split; [ exact Hrej | ]. split; [ rewrite Hpool; reflexivity | ].
  split; [ rewrite Hpool; exact Hin | ].
  intros calls w2.
  destruct (settled_run calls r w1 Hr1 ltac:(rewrite Hrej; discriminate))
    as [Hrej2 Hr2].
  fold w2 in Hrej2, Hr2. rewrite Hrej in Hrej2.
  split; [ exact Hrej2 | ].
  intros c dead rest Hrel Hq Hdead.
  assert (Hto2 : timed_out w2 r).
  { apply timed_out_run; [ exact Hr1 | ]. split; eauto. }
  pose proof (release_passes_canceled (r :: dead) rest w2 c Hrel Hq
                (Forall_cons_2 _ _ _ Hto2 Hdead)) as Hrelease.
  assert (Hkeep : forall w3 o, conn_close c w2 = (o, w3) ->
                    promise (reqs w3 r) = Rejected (Error cancel_message)).
  { intros w3 o Hcl.
    destruct (keeps_conn_close (settled_stays r) c w2) as [_ Hs].
    rewrite Hcl in Hs. simpl in Hs. rewrite Hs; [ exact Hrej2 | exact Hr2 | ].
    rewrite Hrej2. discriminate. }
  destruct rest as [ | r2 q].
  - destruct Hrelease as (w3 & Hcl & Hq3 & Hidle).
    exists w3. repeat split; try assumption; try apply Hidle. eapply Hkeep, Hcl.
  - intros Hw2. destruct (Hrelease Hw2) as (w3 & Hcl & Hq3 & Hg).
    exists w3. repeat split; try assumption; try apply Hg. eapply Hkeep, Hcl.
Qed.

(** C3, where the code departs from it.  Connection 0 of a pool of capacity
    1 has begun transaction 0, which is neither committed nor rolled back.
    Calling [close] on the connection then returns an already resolved
    promise and puts the connection on the idle list of the pool at once:
    the field [#txn] that [close] tests is never assigned, so nothing is
    deferred and no close-barrier is stored. *)
Theorem kv_close_ignores_open_txn :
  done (txns world_txn_open 0) = false /\
  onComplete (txns world_txn_open 0) = 0 /\
  closed (conns world_txn_open 0) = false /\
  active (thePool world_txn_open) = [0] /\
  fst (conn_close 0 world_txn_open) = Returned ResolvedPromise /\
  let w := snd (conn_close 0 world_txn_open) in
  active (thePool w) = [] /\ pool (thePool w) = [0] /\
  waitClose (conns w 0) = None /\ done (txns w 0) = false.
Proof. vm_compute. repeat split; reflexivity. Qed.

(** C8, where the code departs from it.  Both connections of a pool of
    capacity 2 are active and open.  [close] on the pool asks connection 0
    to close and awaits that one promise, which is resolved; connection 1
    is skipped by the loop over the active list (closing connection 0 took
    it off the list that the loop is reading), so it is never asked to
    close and is still active and open when the close of the pool
    completes. *)
Theorem kv_pool_close_skips_connection :
  active (thePool world_two_active) = [0; 1] /\
  fst (pool_close world_two_active) = Returned [ResolvedPromise] /\
  let w := snd (pool_close world_two_active) in
  poolClosed (thePool w) = true /\
  closed (conns w 0) = true /\
  closed (conns w 1) = false /\ active (thePool w) = [1].
Proof. vm_compute. repeat split; reflexivity. Qed.

(** C9, where the code departs from it.  A key-value transaction is begun
    with a context that carries the canceler 7.  No listener is subscribed
    to the canceler, and when the canceler fires, the transaction is left
    open: it is not rolled back. *)
Theorem kv_txn_ignores_cancellation :
  canceler (withCancel bg 7) = Some 7 /\
  listeners (cancelers world_txn_cancelable 7) = [] /\
  done (txns world_txn_cancelable 0) = false /\
  let w := snd (cancel 7 world_txn_cancelable) in
  canceled (cancelers w 7) = true /\ done (txns w 0) = false.
Proof. vm_compute. repeat split; reflexivity. Qed.

(** The request of [world_one_waiting] is still in the queue of the pool
    after its context was canceled and its promise rejected. *)
Lemma kv_canceled_request_stays_queued :
  let w := snd (cancel 7 world_one_waiting) in
  reqQueue (thePool world_one_waiting) = [0] /\
  promise (reqs world_one_waiting 0) = Pending /\
  promise (reqs w 0) = Rejected (Error cancel_message) /\
  reqQueue (thePool w) = [0] /\
  ~ (0 ∉ reqQueue (thePool w)).
Proof.
  vm_compute. repeat split; try reflexivity.
  intros H. apply H. constructor.
Qed.

Lemma kv_pool_capacity_fifo_witness :
  length [bg; bg] = 2 /\
  fst (acquire_all [bg; bg] (getPool ∅ 2))
  = [Returned (ConnReady 0); Returned (ConnReady 1)].
Proof.
  split; [ reflexivity | ].
  exact (proj1 (proj2 (kv_pool_capacity_fifo ∅ 2 [bg; bg] bg eq_refl))).
Defined.

Lemma kv_cancel_waiting_request_witness :
  0 < nextReq world_one_waiting /\
  0 ∈ reqQueue (thePool world_one_waiting) /\
  cancelable_pending 7 0 world_one_waiting /\
  canceled (cancelers world_one_waiting 7) = false /\
  OnCancel 0 ∈ listeners (cancelers world_one_waiting 7) /\
  promise (reqs (snd (cancel 7 world_one_waiting)) 0)
  = Rejected (Error cancel_message).
Proof.
  assert (H1 : 0 < nextReq world_one_waiting) by (vm_compute; lia).
  assert (H2 : 0 ∈ reqQueue (thePool world_one_waiting))
    by (vm_compute; constructor).
  assert (H3 : cancelable_pending 7 0 world_one_waiting)
    by (vm_compute; repeat split; reflexivity).
  assert (H4 : canceled (cancelers world_one_waiting 7) = false) by reflexivity.
  assert (H5 : OnCancel 0 ∈ listeners (cancelers world_one_waiting 7))
    by (vm_compute; constructor).
  repeat (split; [ assumption | ]).
  exact (proj1 (kv_cancel_waiting_request (V := unit) world_one_waiting 0 7
                  H1 H2 H3 H4 H5)).
Defined.

(** 'waits for connection' (mem-kv.spec.ts).  A pool of capacity 1 over
    [{a: 'b'}] has handed out its connection; a [get] on the pool has to
    wait for a connection (its request is queued and pending).  The value is
    then set to ['c'] on the connection and the connection closed: the
    request is resolved with that connection, and the [get] reads ['c'] and
    hands the connection back to the idle list. *)
Example kv_pool_get_waits_for_connection :
  let w1 := world_conn_open in
  let w2 := step (PoolConn bg) w1 in
  let w3 := step (ConnSet 0 bg "a" (JsStr "c")) w2 in
  let w4 := step (V := unit) (ConnClose 0) w3 in
  fst (pool_conn bg w1) = Returned (ConnWaiting 0) /\
  promise (reqs w3 0) = Pending /\
  promise (reqs w4 0) = Fulfilled 0 /\
  fst (pool_get_resume 0 bg "a" w4) = Returned (Data (JsStr "c")) /\
  pool (thePool (snd (pool_get_resume 0 bg "a" w4))) = [0] /\
  active (thePool (snd (pool_get_resume 0 bg "a" w4))) = [].
Proof. vm_compute. repeat split; reflexivity. Qed.

(** *** The pool stays within its capacity *)

(** The capacity of the pool.  After any calls whatsoever on a pool made
    by [getPool(store, n)]: the connections of the active and of the idle
    list are distinct, no connection being in both lists or twice in one;
    the pool has made no more than [n] connections in all (none when [n]
    is not positive), and until it is closed every connection it made is
    in one of the two lists; and requests are waiting only while the idle
    list is empty and at least [n] connections are active. *)
Theorem kv_pool_within_capacity {V} (s : PlainObject) (n : Z)
    (calls : list (Call V)) :
  let w := run calls (getPool s n) in
  let p := thePool w in
  maxCnt p = n /\
  NoDup (active p ++ pool p) /\
  (Z.of_nat (length (active p) + length (pool p)) <= Z.of_nat (nextConn w)
   <= Z.max 0 n)%Z /\
  (poolClosed p = false -> length (active p) + length (pool p) = nextConn w) /\
  (reqQueue p <> [] -> pool p = [] /\ (n <= Z.of_nat (length (active p)))%Z).
Proof.
  intros w p.
  destruct (steady_run calls (getPool s n)) as [Hn Hs].
  destruct (Hs (steady_getPool s n)) as [(H1 & H2 & H3 & H4 & H5) _].
  fold w in Hn, H1, H2, H3, H4, H5. fold p in Hn, H1, H2, H3, H4, H5.
  change (maxCnt p = n) in Hn. rewrite Hn in *.
  split; [ reflexivity | ]. split; [ exact H1 | ].
  split; [ | split; [ rewrite <- length_app; exact H4 | exact H5 ] ].
  split; [ | exact H3 ].
  rewrite <- length_app. apply inj_le.
  apply NoDup_below_length; assumption.
Qed.

(** *** Operations invoked on the pool *)

(** What [conn] leaves behind when it resolves at once in a steady world:
    nobody is waiting, and the connection is the last of the active list,
    open. *)
Lemma pool_conn_ready {V} (ctx : Context V) c w w1 :
  steady w ->
  pool_conn ctx w = (Returned (ConnReady c), w1) ->
  steady w1 /\
  reqQueue (thePool w1) = [] /\
  active (thePool w1) = active (thePool w) ++ [c] /\
  pool (thePool w1) = tail (pool (thePool w)) /\
  indexOf c (active (thePool w1)) = Some (length (active (thePool w))) /\
  closed (conns w1 c) = false /\ keepOpen (conns w1 c) = true /\
  store w1 = store w /\ txns w1 = txns w /\ nextTxn w1 = nextTxn w.
Proof.
  intros Hs Hp.
  pose proof (steady_pool_conn ctx w) as [_ Hs1]. rewrite Hp in Hs1.
  cbn [snd] in Hs1. specialize (Hs1 Hs). split; [ exact Hs1 | ].
  destruct Hs as [(H1 & H2 & H3 & H4 & H5) _].
  destruct (poolClosed (thePool w)) eqn:Hcl.
  { rewrite pool_conn_closed in Hp by assumption. discriminate. }
  destruct (pool (thePool w)) as [ | c0 rest] eqn:Hidle.
  - destruct (Z.ltb_spec (Z.of_nat (length (active (thePool w))))
                (maxCnt (thePool w))) as [Hlt | Hge].
    + rewrite pool_conn_new in Hp by assumption. injection Hp as <- <-.
      kv_proj. kv_lookup. kv_proj. kv_lookup. kv_proj.
      rewrite app_nil_r in *.
      assert (Hq : reqQueue (thePool w) = []).
      { destruct (reqQueue (thePool w)); [ reflexivity | ].
        destruct H5; [ discriminate | lia ]. }
      rewrite Hidle. repeat split; try assumption.
      apply indexOf_app_last. intros Hin. rewrite Forall_forall in H2.
      specialize (H2 _ Hin). lia.
    + destruct (pool_conn_queued ctx w Hcl Hidle Hge) as (w' & Hw' & _).
      rewrite Hw' in Hp. discriminate.
  - rewrite (pool_conn_idle ctx c0 rest) in Hp by assumption.
    injection Hp as <- <-.
    kv_proj. kv_lookup. kv_proj. kv_lookup. kv_proj.
    assert (Hq : reqQueue (thePool w) = []).
    { destruct (reqQueue (thePool w)); [ reflexivity | ].
      destruct H5; discriminate. }
    rewrite Hidle. repeat split; try assumption.
    apply indexOf_app_last. intros Hin.
    apply NoDup_app in H1 as (_ & Hdisj & _).
    apply (Hdisj c0 Hin). left.
Qed.

Lemma pool_call_releases {A} (m : KV A) (a : A) c w w1 w1' :
  m w1 = (Returned a, w1') ->
  thePool w1' = thePool w1 -> conns w1' = conns w1 ->
  steady w1 ->
  reqQueue (thePool w1) = [] ->
  active (thePool w1) = active (thePool w) ++ [c] ->
  pool (thePool w1) = tail (pool (thePool w)) ->
  indexOf c (active (thePool w1)) = Some (length (active (thePool w))) ->
  closed (conns w1 c) = false ->
  fst (finally m (conn_close c) w1) = Returned a /\
  store (snd (finally m (conn_close c) w1)) = store w1' /\
  handed_back c w (snd (finally m (conn_close c) w1)).
Proof.
  intros Hm Hpool Hconns [_ Hp] Hq Ha Hi Hix Hc. unfold finally. rewrite Hm.
  destruct (Hp c) as [Ht _].
  rewrite (conn_close_idle c (length (active (thePool w))))
    by (rewrite ?Hpool, ?Hconns; assumption).
  cbn [fst snd]. unfold handed_back. kv_proj. kv_lookup. kv_proj.
  rewrite Hpool, Ha, Hi, Hq, delete_app_last. repeat split.
Qed.

(** An operation invoked on the pool itself, when [conn] resolves at once
    and nothing else runs before the call resumes.  After any calls on a
    pool made by [getPool], if the [conn] that [set], [get] or [delete] of
    the pool starts with resolves at once with the connection [c], and the
    rest of the call runs in the world that [conn] left, then it does the
    operation of that name on the store and hands [c] back: [set] makes the
    assignment [store[key] = val], which for every key but [__proto__]
    leaves [val] as the own property [key] of the store; [get] returns
    what the read [store[key]] gives; [delete] removes the own property
    [key]; afterwards the active list is what it was before the call and
    [c], closed, is the last of the idle list. *)
Theorem kv_pool_call_releases_connection {V} (s : PlainObject) (n : Z)
    (calls : list (Call V)) (ctx : Context V) (key : string) (val : JsVal)
    (c : nat) (w1 : World) :
  let w := run calls (getPool s n) in
  pool_conn ctx w = (Returned (ConnReady c), w1) ->
  let r2 := pool_set_resume c ctx key val w1 in
  let r3 := pool_get_resume c ctx key w1 in
  let r4 := pool_delete_resume c ctx key w1 in
  (fst r2 = Returned tt /\ store (snd r2) = js_set key val (store w) /\
   (key <> "__proto__"%string ->
    own (store (snd r2)) = <[key := val]> (own (store w))) /\
   handed_back c w (snd r2)) /\
  (fst r3 = Returned (js_get (store w) key) /\ store (snd r3) = store w /\
   handed_back c w (snd r3)) /\
  (fst r4 = Returned tt /\
   own (store (snd r4)) = delete key (own (store w)) /\
   link (store (snd r4)) = link (store w) /\
   handed_back c w (snd r4)).
Proof.
  intros w Hp r2 r3 r4.
  assert (Hs : steady w).
  { apply (steady_run calls (getPool s n)), steady_getPool. }
  destruct (pool_conn_ready ctx c w w1 Hs Hp)
    as (Hs1 & Hq & Ha & Hi & Hix & Hc & _ & Hst & _).
  rewrite <- Hst. subst r2 r3 r4.
  unfold pool_set_resume, pool_get_resume, pool_delete_resume.
  split; [ | split ].
  - destruct (pool_call_releases (conn_set c ctx key val) tt c w w1
                (set_store (js_set key val) w1)) as (H1 & H2 & H3);
      try assumption; try reflexivity.
    { rewrite conn_set_eq, Hc. reflexivity. }
    split; [ exact H1 | ]. split; [ exact H2 | ]. split; [ | exact H3 ].
    intros Hk. rewrite H2. kv_proj. rewrite js_set_plain by exact Hk.
    reflexivity.
  - destruct (pool_call_releases (conn_get c ctx key) (js_get (store w1) key)
                c w w1 w1) as (H1 & H2 & H3);
      try assumption; try reflexivity; [ | auto ].
    rewrite conn_get_eq, Hc. reflexivity.
  - destruct (pool_call_releases (conn_delete c ctx key) tt c w w1
                (set_store (js_delete key) w1)) as (H1 & H2 & H3);
      try assumption; try reflexivity.
    { rewrite conn_delete_eq, Hc. reflexivity. }
    rewrite H2. kv_proj. auto.
Qed.

(** *** The connection of a transaction when the transaction ends *)

Lemma kv_step_uses {V} (a : Call V) t w :
  uses t a = true ->
  step a w = w \/
  exists f g, step a w = set_txn t (txn_with_temp f) (set_txn t (txn_with_ops g) w).
Proof.
  intros Hu. destruct a; cbn [uses] in Hu; try discriminate;
    apply bool_decide_eq_true in Hu; subst; unfold step, perform.
  - rewrite txn_set_eq.
    destruct (done (txns w t)); [ auto | ].
    destruct (readonly (txns w t)); [ auto | ]. right. eauto.
  - unfold bind. rewrite txn_get_eq. destruct (done (txns w t)); auto.
  - rewrite txn_delete_eq.
    destruct (done (txns w t)); [ auto | ].
    destruct (readonly (txns w t)); [ auto | ]. right. eauto.
Qed.

Lemma kv_run_uses {V} (calls : list (Call V)) t w :
  Forall (fun a => uses t a = true) calls ->
  let w' := run calls w in
  thePool w' = thePool w /\ conns w' = conns w /\ store w' = store w /\
  done (txns w' t) = done (txns w t) /\
  onComplete (txns w' t) = onComplete (txns w t).
Proof.
  intros H. revert w. induction H as [ | a calls Ha _ IH]; intros w; simpl.
  - auto.
  - destruct (IH (step a w)) as (H1 & H2 & H3 & H4 & H5).
    rewrite H1, H2, H3, H4, H5.
    destruct (kv_step_uses a t w Ha) as [-> | (f & g & ->)]; [ auto | ].
    kv_proj. kv_lookup. kv_proj. kv_lookup. auto.
Qed.

(** The end of a transaction on a connection without transaction on record
    and without close pending: a connection that is kept open is left
    alone; another one is closed as by [close]. *)
Lemma txn_close_eq t w :
  let c := onComplete (txns w t) in
  txn (conns w c) = None -> waitClose (conns w c) = None ->
  txn_close t w =
  if keepOpen (conns w c) then
    (Returned ResolvedPromise, set_conn c (conn_with_txn None) w)
  else
    conn_close c (set_conn c (conn_with_txn None) w).
Proof.
  intros c Ht Hw. unfold txn_close, conn_txnDone, conn_txnDone_with. kv_eval.
  fold c. kv_lookup. kv_proj. rewrite Hw.
  destruct (keepOpen (conns w c)); cbn [negb]; [ reflexivity | ].
  unfold conn_close.
  destruct (conn_close_with pool_return c _) as [[p | e | ] w1]; reflexivity.
Qed.

Lemma pool_beginTxn_resume_eq {V} c (ctx : Context V) opts w :
  pool_beginTxn_resume c ctx opts w =
  (Returned (nextTxn w),
   bump_txn (set_txn (nextTxn w)
     (fun _ => {| onComplete := c; temp := object_create; ops := [];
                  readonly := readOnly_is_true opts; done := false |})
     (set_conn c (conn_with_keepOpen false)
        (set_conn c (conn_with_closed false) w)))).
Proof.
  unfold pool_beginTxn_resume, conn_reset. kv_eval.
  rewrite conn_beginTxn_eq. kv_proj. kv_lookup. kv_proj. kv_lookup. reflexivity.
Qed.

(** The transient connection of [MemKvPool.beginTxn], when [conn]
    resolves at once and nothing but the transaction runs until it ends.
    After any calls on a pool made by [getPool], if the [conn] that
    [beginTxn] of the pool starts with resolves at once with the connection
    [c], the rest of [beginTxn] runs in the world that [conn] left, and
    from then on only the transaction is used ([set], [get], [delete]):
    the transaction is begun on [c], the connection stays active and open,
    and [commit] as well as [rollback] hand it back to the pool: the
    active list is what it was before [beginTxn], and [c], closed, is the
    last of the idle list. *)
Theorem kv_pool_txn_releases_connection {V} (s : PlainObject) (n : Z)
    (calls during : list (Call V)) (ctx : Context V)
    (opts : option TxnOptions) (c t : nat) (w1 w2 : World) :
  let w := run calls (getPool s n) in
  pool_conn ctx w = (Returned (ConnReady c), w1) ->
  pool_beginTxn_resume c ctx opts w1 = (Returned t, w2) ->
  Forall (fun a => uses t a = true) during ->
  let w3 := run during w2 in
  (c ∈ active (thePool w3)) /\ closed (conns w3 c) = false /\
  fst (txn_commit t w3) = Returned ResolvedPromise /\
  handed_back c w (snd (txn_commit t w3)) /\
  fst (txn_rollback t w3) = Returned ResolvedPromise /\
  handed_back c w (snd (txn_rollback t w3)).
Proof.
  intros w Hp Hb Hu w3.
  assert (Hs : steady w).
  { apply (steady_run calls (getPool s n)), steady_getPool. }
  destruct (pool_conn_ready ctx c w w1 Hs Hp)
    as (Hs1 & Hq & Ha & Hi & Hix & Hc & _).
  rewrite pool_beginTxn_resume_eq in Hb. injection Hb as <- <-.
  set (t := nextTxn w1) in *.
  set (w2 := bump_txn _) in *.
  destruct (kv_run_uses during t w2 Hu) as (H1 & H2 & H3 & H4 & H5).
  fold w3 in H1, H2, H3, H4, H5.
  assert (Hpool : thePool w3 = thePool w1) by (rewrite H1; reflexivity).
  assert (Hcn : conns w3 c = {| keepOpen := false; closed := false;
                               waitClose := waitClose (conns w1 c);
                               txn := txn (conns w1 c) |}).
  { rewrite H2. unfold w2. kv_proj. kv_lookup. kv_proj. kv_lookup. reflexivity. }
  destruct Hs1 as [_ Hplain]. destruct (Hplain c) as [Htx Hwc].
  rewrite Htx, Hwc in Hcn.
  assert (Hd : done (txns w3 t) = false).
  { rewrite H4. unfold w2. kv_proj. kv_lookup. reflexivity. }
  assert (Hoc : onComplete (txns w3 t) = c).
  { rewrite H5. unfold w2. kv_proj. kv_lookup. reflexivity. }
  split; [ rewrite Hpool, Ha; apply elem_of_app; right; constructor | ].
  split; [ rewrite Hcn; reflexivity | ].
  assert (Hfin : forall w4,
            thePool w4 = thePool w3 -> conns w4 = conns w3 ->
            onComplete (txns w4 t) = c ->
            fst (txn_close t w4) = Returned ResolvedPromise /\
            handed_back c w (snd (txn_close t w4))).
  { intros w4 Hp4 Hc4 Ho4.
    pose proof (txn_close_eq t w4) as Heq. cbv zeta in Heq.
    rewrite Ho4, Hc4, Hcn in Heq. specialize (Heq eq_refl eq_refl).
    kv_proj. rewrite Heq.
    rewrite (conn_close_idle c (length (active (thePool w))));
      kv_proj; kv_lookup; kv_proj; rewrite ?Hc4, ?Hcn, ?Hp4, ?Hpool;
      try assumption; try reflexivity.
    cbn [fst snd]. split; [ reflexivity | ].
    unfold handed_back. kv_proj. kv_lookup. kv_proj.
    rewrite Hp4, Hpool, Ha, Hi, Hq, delete_app_last. repeat split. }
  unfold txn_commit, txn_rollback. kv_eval. rewrite Hd.
  split; [ | split; [ | split ] ]; apply Hfin; kv_proj; kv_lookup;
    reflexivity || assumption.
Qed.

(** A connection obtained with [conn] is kept when a transaction begun on
    it ends: [commit] and [rollback] leave it in the active list and open,
    and the pool as it was. *)
Theorem kv_conn_txn_keeps_connection {V} (s : PlainObject) (n : Z)
    (calls during : list (Call V)) (ctx : Context V)
    (opts : option TxnOptions) (c t : nat) (w1 w2 : World) :
  let w := run calls (getPool s n) in
  pool_conn ctx w = (Returned (ConnReady c), w1) ->
  conn_beginTxn c ctx opts w1 = (Returned t, w2) ->
  Forall (fun a => uses t a = true) during ->
  let w3 := run during w2 in
  let w4 := snd (txn_commit t w3) in
  let w5 := snd (txn_rollback t w3) in
  fst (txn_commit t w3) = Returned ResolvedPromise /\
  thePool w4 = thePool w1 /\ closed (conns w4 c) = false /\
  fst (txn_rollback t w3) = Returned ResolvedPromise /\
  thePool w5 = thePool w1 /\ closed (conns w5 c) = false /\
  (c ∈ active (thePool w1)).
Proof.
  intros w Hp Hb Hu w3 w4 w5.
  assert (Hs : steady w).
  { apply (steady_run calls (getPool s n)), steady_getPool. }
  destruct (pool_conn_ready ctx c w w1 Hs Hp)
    as (Hs1 & Hq & Ha & Hi & Hix & Hc & Hk & _).
  rewrite conn_beginTxn_eq, Hc in Hb. injection Hb as <- <-.
  set (t := nextTxn w1) in *.
  set (w2 := bump_txn _) in *.
  destruct (kv_run_uses during t w2 Hu) as (H1 & H2 & H3 & H4 & H5).
  fold w3 in H1, H2, H3, H4, H5.
  destruct Hs1 as [_ Hplain]. destruct (Hplain c) as [Htx Hwc].
  assert (Hd : done (txns w3 t) = false).
  { rewrite H4. unfold w2. kv_proj. kv_lookup. reflexivity. }
  assert (Hoc : onComplete (txns w3 t) = c).
  { rewrite H5. unfold w2. kv_proj. kv_lookup. reflexivity. }
  assert (Hfin : forall wx,
            thePool wx = thePool w3 -> conns wx = conns w3 ->
            onComplete (txns wx t) = c ->
            fst (txn_close t wx) = Returned ResolvedPromise /\
            thePool (snd (txn_close t wx)) = thePool w1 /\
            closed (conns (snd (txn_close t wx)) c) = false).
  { intros wx Hpx Hcx Hox.
    pose proof (txn_close_eq t wx) as Heq. cbv zeta in Heq.
    rewrite Hox, Hcx, H2 in Heq. unfold w2 in Heq. kv_proj.
    rewrite Hk in Heq. rewrite (Heq Htx Hwc). cbn [fst snd]. kv_proj.
    kv_lookup. kv_proj. rewrite Hpx, H1, Hcx, H2. unfold w2. kv_proj.
    auto. }
  subst w4 w5. unfold txn_commit, txn_rollback. kv_eval. rewrite Hd.
  assert (Hin : c ∈ active (thePool w1))
    by (rewrite Ha; apply elem_of_app; right; constructor).
  destruct (Hfin (set_store (fun s0 => fold_left apply_op (ops (txns w3 t)) s0)
                    (set_txn t (txn_with_done true) w3)))
    as (A1 & A2 & A3); [ reflexivity | reflexivity | kv_proj; kv_lookup; auto | ].
  destruct (Hfin (set_txn t (txn_with_done true) w3))
    as (B1 & B2 & B3); [ reflexivity | reflexivity | kv_proj; kv_lookup; auto | ].
  kv_proj. auto 10.
Qed.

(** *** Reading and writing through connections *)




(** The key [__proto__] on a connection.  On a store made by an object
    literal that has no property [__proto__] of its own, [set] of
    [__proto__] on an open connection returns and stores no property: the
    own properties of the store are what they were.  After a primitive
    value other than [null] the store reads as before; after [null] the
    store no longer inherits from [Object.prototype], so that [get]
    returns undefined under [__proto__] and under every key the store has
    no own property for, the names of the functions of [Object.prototype]
    included. *)
Theorem kv_conn_proto_key_stores_nothing {V} (c : nat) (ctx : Context V)
    (val : JsVal) (w : World) :
  closed (conns w c) = false ->
  link (store w) = Linked ->
  own (store w) !! "__proto__"%string = None ->
  let w1 := snd (conn_set c ctx "__proto__" val w) in
  conn_set c ctx "__proto__" val w = (Returned tt, w1) /\
  own (store w1) = own (store w) /\
  (val <> JsNull ->
   store w1 = store w /\
   conn_get c ctx "__proto__" w1 = (Returned ObjectPrototypeRef, w1)) /\
  (val = JsNull ->
   forall key,
     own (store w) !! key = None ->
     conn_get c ctx key w1 = (Returned (Data undefined), w1)).
Proof.
  intros Hc Hl Hp w1.
  assert (Hset : conn_set c ctx "__proto__" val w
                 = (Returned tt, set_store (js_set "__proto__" val) w))
    by (rewrite conn_set_eq, Hc; reflexivity).
  assert (Hw1 : w1 = set_store (js_set "__proto__" val) w)
    by (unfold w1; rewrite Hset; reflexivity).
  assert (Hs : store w1 = set_prototype val (store w)).
  { rewrite Hw1. kv_proj. unfold js_set. rewrite Hp, Hl. reflexivity. }
  assert (Hc1 : closed (conns w1 c) = false) by (rewrite Hw1; exact Hc).
  split; [ rewrite Hset, Hw1; reflexivity | ].
  split; [ rewrite Hs; destruct val; reflexivity | ].
  split.
  - intros Hv.
    assert (Hs' : store w1 = store w)
      by (rewrite Hs; destruct val; try reflexivity; contradiction).
    split; [ exact Hs' | ].
    rewrite conn_get_eq, Hc1, Hs'. unfold js_get. rewrite Hp, Hl. reflexivity.
  - intros -> key Hk. rewrite conn_get_eq, Hc1, Hs. unfold js_get.
    cbn [set_prototype own link]. rewrite Hk. reflexivity.
Qed.

(** *** Read-only transactions *)

Lemma kv_txn_commit_done t w :
  done (txns w t) = true ->
  txn_commit t w = (Thrown (Error "Transaction is already complete"), w).
Proof. intros Hd. unfold txn_commit. kv_eval. rewrite Hd. reflexivity. Qed.

(** A transaction begun with [readOnly: true] never writes.  After any
    calls whatsoever it has buffered no operation and its staging area is
    as [Object.create(store)] made it, without a property of its own; its
    [commit] leaves the store as it is; and while it is open [set] and
    [delete] on it throw 'Transaction is read only' and change nothing,
    while [get] returns, for every key but [__proto__], what the read of
    the store gives. *)
Theorem kv_readonly_txn_never_writes {V} (c : nat) (ctx : Context V)
    (opts : option TxnOptions) (w0 w1 : World) (t : nat)
    (calls : list (Call V)) (key : string) (val : JsVal) :
  readOnly_is_true opts = true ->
  conn_beginTxn c ctx opts w0 = (Returned t, w1) ->
  let w := run calls w1 in
  ops (txns w t) = [] /\ temp (txns w t) = object_create /\
  store (snd (txn_commit t w)) = store w /\
  (done (txns w t) = false ->
   txn_set t ctx key val w = (Thrown (Error "Transaction is read only"), w) /\
   txn_delete t ctx key w = (Thrown (Error "Transaction is read only"), w) /\
   (key <> "__proto__"%string ->
    txn_get t ctx key w = (Returned (js_get (store w) key), w))).
Proof.
  intros Hro Hb w.
  destruct (closed (conns w0 c)) eqn:Hc;
    rewrite conn_beginTxn_eq, Hc in Hb; [ discriminate | ].
  injection Hb as <- <-.
  set (t := nextTxn w0) in *. set (w1 := bump_txn _) in *.
  assert (Hr : readonly (txns w1 t) = true).
  { unfold w1. kv_proj. kv_lookup. exact Hro. }
  destruct (kv_run_readonly calls t w1) as [_ Hv];
    [ unfold w1; kv_proj; lia | exact Hr | ].
  destruct Hv as (H1 & H2 & H3); [ unfold w1; kv_proj; lia | ].
  fold w in H1, H2, H3.
  assert (Ht : temp (txns w t) = object_create)
    by (rewrite H1; unfold w1; kv_proj; kv_lookup; reflexivity).
  assert (Ho : ops (txns w t) = [])
    by (rewrite H2; unfold w1; kv_proj; kv_lookup; reflexivity).
  rewrite Hr in H3.
  split; [ exact Ho | ]. split; [ exact Ht | ]. split.
  - destruct (done (txns w t)) eqn:Hd.
    + rewrite kv_txn_commit_done by assumption. reflexivity.
    + rewrite txn_commit_store by assumption. rewrite Ho. reflexivity.
  - intros Hd. rewrite txn_set_eq, txn_delete_eq, txn_get_eq, Hd, H3, Ht.
    split; [ reflexivity | ]. split; [ reflexivity | ].
    intros Hk. rewrite proto_get_through; auto.
Qed.

(** *** A closed pool *)

(** A closed pool stays closed.  After [close] on the pool, in whatever
    world, and after any calls that follow, the pool is closed: [conn]
    throws 'Pool is closed' and changes nothing (and with it [beginTxn],
    [set], [get] and [delete] of the pool, which start with [conn]), and
    another [close] does nothing and has nothing to wait for. *)
Theorem kv_closed_pool_stays_closed {V} (calls : list (Call V))
    (ctx : Context V) (w : World) :
  let w' := run calls (snd (pool_close w)) in
  poolClosed (thePool w') = true /\
  pool_conn ctx w' = (Thrown (Error "Pool is closed"), w') /\
  pool_close w' = (Returned [], w').
Proof.
  intros w'.
  assert (Hc : poolClosed (thePool w') = true).
  { pose proof (keeps_run pool_closed_stays calls (snd (pool_close w))) as H.
    apply H, pool_close_closes. }
  split; [ exact Hc | ].
  split; [ apply pool_conn_closed, Hc | apply pool_close_idempotent, Hc ].
Qed.

(** *** A request that was granted a connection *)

(** Cancellation after the grant.  When a released connection is handed to
    the cancelable request at the head of the queue, the promise of the
    request is fulfilled with that connection, which stays active and open,
    and the listener of the request is taken off its canceler.  Whatever
    is called afterwards, and when the context is canceled after that, the
    promise stays fulfilled with that connection. *)
Theorem kv_granted_request_survives_cancel {V} (w : World) (c r clr : nat)
    (q : list nat) (calls : list (Call V)) :
  r < nextReq w ->
  releasable w c ->
  reqQueue (thePool w) = r :: q ->
  cancelable_pending clr r w ->
  timedOut (reqs w r) = false ->
  let w1 := snd (conn_close c w) in
  promise (reqs w1 r) = Fulfilled c /\
  (OnCancel r ∉ listeners (cancelers w1 clr)) /\
  (c ∈ active (thePool w1)) /\ closed (conns w1 c) = false /\
  reqQueue (thePool w1) = q /\
  promise (reqs (run (calls ++ [Cancel clr]) w1) r) = Fulfilled c.
Proof.
  intros Hr (Hin & Hc & Ht) Hq (Hclr & Hres & Hpend) Hto w1.
  destruct (indexOf_elem c _ Hin) as [ix Hix].
  assert (Hn : nextReq w <= nextReq w1).
  { destruct (keeps_conn_close (settled_stays r) c w) as [Hn _]. exact Hn. }
  subst w1.
  rewrite (conn_close_grant_cancelable c ix r q clr) in * by assumption.
  cbn [snd] in *. kv_proj. kv_lookup. kv_proj. rewrite Hpend, Hq.
  assert (Hf : settle (A := nat) Pending (Fulfilled c) = Fulfilled c)
    by reflexivity.
  rewrite Hf.
  split; [ reflexivity | ].
  split; [ rewrite list_elem_of_filter; intros [H _]; apply H; reflexivity | ].
  split; [ exact Hin | ]. split; [ reflexivity | ]. split; [ reflexivity | ].
  match goal with |- context [run _ ?wx] => set (w1 := wx) in * end.
  assert (Hp1 : promise (reqs w1 r) = Fulfilled c).
  { unfold w1. kv_proj. kv_lookup. kv_proj. rewrite Hpend. reflexivity. }
  destruct (settled_run (calls ++ [Cancel clr]) r w1) as [H2 _];
    [ unfold w1; kv_proj; exact Hr | rewrite Hp1; discriminate | ].
  rewrite Hp1 in H2. exact H2.
Qed.

(** *** Closing a connection twice *)

(** [close] on a connection is idempotent as long as nobody waits: on an
    open connection of the active list, when the queue is empty, the first
    [close] puts the connection on the idle list and a second [close]
    returns a resolved promise and changes nothing.  When a plain request
    waits at the head of the queue, the first [close] hands the connection
    to it, open again; a second [close] through the reference of the
    previous holder then releases the connection once more: with nobody
    else waiting it goes to the idle list, closed, while the promise of
    the request stays fulfilled with it. *)
Theorem kv_conn_close_twice (w : World) (c : nat) :
  releasable w c ->
  let w1 := snd (conn_close c w) in
  let w2 := snd (conn_close c w1) in
  (reqQueue (thePool w) = [] ->
   closed (conns w1 c) = true /\
   conn_close c w1 = (Returned ResolvedPromise, w1)) /\
  (forall r,
     reqQueue (thePool w) = [r] -> clrOf (reqs w r) = None ->
     promise (reqs w r) = Pending ->
     promise (reqs w1 r) = Fulfilled c /\ releasable w1 c /\
     closed (conns w2 c) = true /\ (c ∈ pool (thePool w2)) /\
     promise (reqs w2 r) = Fulfilled c).
Proof.
  intros (Hin & Hc & Ht) w1 w2.
  destruct (indexOf_elem c _ Hin) as [ix Hix].
  split.
  - intros Hq. subst w2 w1.
    rewrite (conn_close_idle c ix) by assumption. cbn [snd].
    assert (Hcl : closed (conns (set_pool (pool_with_pool (fun l => l ++ [c]))
                    (set_pool (pool_with_active (delete ix))
                       (set_conn c (conn_with_closed true) w))) c) = true)
      by (kv_proj; kv_lookup; reflexivity).
    split; [ exact Hcl | apply conn_close_closed, Hcl ].
  - intros r Hq Hplain Hpend. subst w2 w1.
    rewrite (conn_close_grant_plain c ix r []) by assumption. cbn [snd].
    match goal with |- context [conn_close c ?wx] => set (w1 := wx) end.
    assert (Hp1 : promise (reqs w1 r) = Fulfilled c).
    { unfold w1. kv_proj. kv_lookup. kv_proj. rewrite Hpend. reflexivity. }
    assert (Hrel : releasable w1 c).
    { unfold releasable, w1. kv_proj. kv_lookup. kv_proj. kv_lookup. kv_proj.
      kv_lookup. kv_proj. auto. }
    split; [ exact Hp1 | ]. split; [ exact Hrel | ].
    destruct Hrel as (_ & Hc1 & Ht1).
    rewrite (conn_close_idle c ix w1); try assumption;
      [ | unfold w1; kv_proj; rewrite Hq; reflexivity ].
    cbn [snd]. kv_proj. kv_lookup. kv_proj.
    split; [ reflexivity | ].
    split; [ apply elem_of_app; right; constructor | exact Hp1 ].
Qed.

(** *** The properties above on examples *)

Lemma kv_pool_call_releases_connection_witness :
  pool_conn bg (run (V := unit) [] (getPool {[ "a"%string := JsStr "b" ]} 1))
  = (Returned (ConnReady 0), world_conn_open) /\
  fst (pool_get_resume 0 bg "a" world_conn_open)
  = Returned (Data (JsStr "b")) /\
  handed_back 0 (getPool {[ "a"%string := JsStr "b" ]} 1)
    (snd (pool_get_resume 0 bg "a" world_conn_open)).
Proof.
  assert (H : pool_conn bg
                (run (V := unit) [] (getPool {[ "a"%string := JsStr "b" ]} 1))
              = (Returned (ConnReady 0), world_conn_open)) by reflexivity.
  split; [ exact H | ].
  destruct (kv_pool_call_releases_connection {[ "a"%string := JsStr "b" ]} 1
              [] bg "a" JsNull 0 world_conn_open H) as (_ & (H1 & _ & H3) & _).
  split; [ exact H1 | exact H3 ].
Defined.

Lemma kv_pool_txn_releases_connection_witness :
  pool_conn bg (run (V := unit) [] (getPool {[ "a"%string := JsStr "b" ]} 1))
  = (Returned (ConnReady 0), world_conn_open) /\
  pool_beginTxn_resume 0 bg None world_conn_open
  = (Returned 0, snd (pool_beginTxn_resume 0 bg None world_conn_open)) /\
  Forall (fun a => uses 0 a = true) [TxnSet 0 bg "a" (JsStr "c")] /\
  handed_back 0 (getPool {[ "a"%string := JsStr "b" ]} 1)
    (snd (txn_commit 0
            (run [TxnSet 0 bg "a" (JsStr "c")]
               (snd (pool_beginTxn_resume 0 bg None world_conn_open))))).
Proof.
  assert (H1 : pool_conn bg
                 (run (V := unit) [] (getPool {[ "a"%string := JsStr "b" ]} 1))
               = (Returned (ConnReady 0), world_conn_open)) by reflexivity.
  assert (H2 : pool_beginTxn_resume 0 bg None world_conn_open
               = (Returned 0, snd (pool_beginTxn_resume 0 bg None world_conn_open)))
    by reflexivity.
  assert (H3 : Forall (fun a : Call unit => uses 0 a = true)
                 [TxnSet 0 bg "a" (JsStr "c")])
    by (repeat constructor).
  split; [ exact H1 | ]. split; [ exact H2 | ]. split; [ exact H3 | ].
  exact (proj1 (proj2 (proj2 (proj2
           (kv_pool_txn_releases_connection {[ "a"%string := JsStr "b" ]} 1 []
              [TxnSet 0 bg "a" (JsStr "c")] bg None 0 0 world_conn_open _
              H1 H2 H3))))).
Defined.

Lemma kv_conn_txn_keeps_connection_witness :
  pool_conn bg (run (V := unit) [] (getPool {[ "a"%string := JsStr "b" ]} 1))
  = (Returned (ConnReady 0), world_conn_open) /\
  conn_beginTxn 0 bg None world_conn_open = (Returned 0, world_txn_begun) /\
  Forall (fun a => uses 0 a = true) [TxnSet 0 bg "a" (JsStr "c")] /\
  closed (conns (snd (txn_commit 0
                        (run [TxnSet 0 bg "a" (JsStr "c")] world_txn_begun))) 0)
  = false.
Proof.
  assert (H1 : pool_conn bg
                 (run (V := unit) [] (getPool {[ "a"%string := JsStr "b" ]} 1))
               = (Returned (ConnReady 0), world_conn_open)) by reflexivity.
  assert (H2 : conn_beginTxn 0 bg None world_conn_open
               = (Returned 0, world_txn_begun)) by reflexivity.
  assert (H3 : Forall (fun a : Call unit => uses 0 a = true)
                 [TxnSet 0 bg "a" (JsStr "c")])
    by (repeat constructor).
  split; [ exact H1 | ]. split; [ exact H2 | ]. split; [ exact H3 | ].
  exact (proj1 (proj2 (proj2
           (kv_conn_txn_keeps_connection {[ "a"%string := JsStr "b" ]} 1 []
              [TxnSet 0 bg "a" (JsStr "c")] bg None 0 0 world_conn_open
              world_txn_begun H1 H2 H3)))).
Defined.


Lemma kv_conn_proto_key_stores_nothing_witness :
  closed (conns world_conn_open 0) = false /\
  link (store world_conn_open) = Linked /\
  own (store world_conn_open) !! "__proto__"%string = None /\
  own (store (snd (conn_set 0 bg "__proto__" JsNull world_conn_open)))
  = {[ "a"%string := JsStr "b" ]} /\
  conn_get 0 bg "toString" (snd (conn_set 0 bg "__proto__" JsNull world_conn_open))
  = (Returned (Data undefined),
     snd (conn_set 0 bg "__proto__" JsNull world_conn_open)).
Proof.
  assert (H1 : closed (conns world_conn_open 0) = false) by reflexivity.
  assert (H2 : link (store world_conn_open) = Linked) by reflexivity.
  assert (H3 : own (store world_conn_open) !! "__proto__"%string = None)
    by reflexivity.
  split; [ exact H1 | ]. split; [ exact H2 | ]. split; [ exact H3 | ].
  destruct (kv_conn_proto_key_stores_nothing 0 bg JsNull world_conn_open
              H1 H2 H3) as (_ & Ho & _ & Hn).
  split; [ exact Ho | ].
  exact (Hn eq_refl "toString"%string eq_refl).
Defined.

Lemma kv_readonly_txn_never_writes_witness :
  readOnly_is_true (Some {| isolationLevel := None; readOnly := Some true |}) = true /\
  conn_beginTxn 0 bg (Some {| isolationLevel := None; readOnly := Some true |})
    world_conn_open = (Returned 0, world_txn_readonly) /\
  store (snd (txn_commit 0
                (run [TxnSet 0 bg "a" (JsStr "c")] world_txn_readonly)))
  = store (run [TxnSet 0 bg "a" (JsStr "c")] world_txn_readonly).
Proof.
  assert (H1 : readOnly_is_true
                 (Some {| isolationLevel := None; readOnly := Some true |}) = true)
    by reflexivity.
  assert (H2 : conn_beginTxn 0 bg
                 (Some {| isolationLevel := None; readOnly := Some true |})
                 world_conn_open = (Returned 0, world_txn_readonly))
    by reflexivity.
  split; [ exact H1 | ]. split; [ exact H2 | ].
  exact (proj1 (proj2 (proj2
           (kv_readonly_txn_never_writes 0 bg _ world_conn_open
              world_txn_readonly 0 [TxnSet 0 bg "a" (JsStr "c")] "a" JsNull
              H1 H2)))).
Defined.

Lemma kv_granted_request_survives_cancel_witness :
  0 < nextReq world_one_waiting /\
  releasable world_one_waiting 0 /\
  reqQueue (thePool world_one_waiting) = [0] /\
  cancelable_pending 7 0 world_one_waiting /\
  timedOut (reqs world_one_waiting 0) = false /\
  promise (reqs (run (V := unit) ([] ++ [Cancel 7])
                   (snd (conn_close 0 world_one_waiting))) 0)
  = Fulfilled 0.
Proof.
  assert (H1 : 0 < nextReq world_one_waiting) by (vm_compute; lia).
  assert (H2 : releasable world_one_waiting 0).
  { split; [ | split; reflexivity ].
    change (active (thePool world_one_waiting)) with [0]. constructor. }
  assert (H3 : reqQueue (thePool world_one_waiting) = [0]) by reflexivity.
  assert (H4 : cancelable_pending 7 0 world_one_waiting)
    by (repeat split).
  assert (H5 : timedOut (reqs world_one_waiting 0) = false) by reflexivity.
  repeat (split; [ assumption | ]).
  exact (proj2 (proj2 (proj2 (proj2 (proj2
           (kv_granted_request_survives_cancel (V := unit) world_one_waiting
              0 0 7 [] [] H1 H2 H3 H4 H5)))))).
Defined.

Lemma kv_conn_close_twice_witness :
  releasable world_conn_open 0 /\
  reqQueue (thePool world_conn_open) = [] /\
  conn_close 0 (snd (conn_close 0 world_conn_open))
  = (Returned ResolvedPromise, snd (conn_close 0 world_conn_open)).
Proof.
  assert (H1 : releasable world_conn_open 0).
  { split; [ | split; reflexivity ].
    change (active (thePool world_conn_open)) with [0]. constructor. }
  assert (H2 : reqQueue (thePool world_conn_open) = []) by reflexivity.
  split; [ exact H1 | ]. split; [ exact H2 | ].
  exact (proj2 (proj1 (kv_conn_close_twice world_conn_open 0 H1) H2)).
Defined.

End MemKvProps.

(** ** The stack store *)

Module MemStackProps.

Import Ctx MemStack.

Ltac stk_proj :=
  cbn [stack thePool conns nextConn txnOf nextTxn handles nextHandle
       cancelers set_stack set_pool set_conn set_txn set_handle set_canceler
       bump_conn bump_txn bump_handle con snap ops readonly done clr onCancel
       txn_with_snap txn_with_ops txn_with_done txn_with_clr
       txn_with_onCancel txns keepOpen closed closeResolve conn_with_txns
       conn_with_closed conn_with_closeResolve active poolClosed waitClose
       pool_with_active pool_with_closed pool_with_waitClose canceled
       listeners canceler_with_listeners canceler_with_canceled fst snd] in *.

Ltac stk_eval :=
  repeat (progress (unfold bind, ret, throw, gets, modify in *; stk_proj)).

Ltac stk_lookup :=
  repeat first
    [ rewrite fn_lookup_insert in *
    | rewrite fn_lookup_insert_ne in * by congruence ].

(** *** What finishing a transaction leaves alone *)

Ltac stk_cases :=
  repeat match goal with
         | |- context [match ?x with _ => _ end] => destruct x eqn:?
         end.

Lemma same_data_refl w : same_data w w.
Proof. repeat split. Qed.

Lemma pool_release_data c w : same_data w (snd (pool_release c w)).
Proof.
  unfold pool_release, handle_resolve. stk_eval. stk_cases; stk_eval;
    repeat split.
Qed.

Lemma conn_close_data c w : same_data w (snd (conn_close c w)).
Proof.
  unfold conn_close, conn_checkStatus, new_handle. stk_eval.
  destruct (closed (conns w c)); [ apply same_data_refl | ].
  stk_eval. stk_lookup. stk_proj.
  destruct (txns (conns w c)); stk_eval; [ | repeat split ].
  match goal with |- context [pool_release c ?w1] =>
    pose proof (pool_release_data c w1) as H;
    destruct (pool_release c w1) as [[ [] | e | ] w2]
  end; exact H.
Qed.

Lemma conn_txnDone_data c t w : same_data w (snd (conn_txnDone c t w)).
Proof.
  unfold conn_txnDone, handle_resolve. stk_eval.
  destruct (indexOf t (txns (conns w c))); [ | apply same_data_refl ].
  stk_eval. stk_lookup. stk_proj.
  destruct (delete n (txns (conns w c))); [ | repeat split ].
  destruct (closeResolve (conns w c)).
  - match goal with |- context [pool_release c ?w1] =>
      pose proof (pool_release_data c w1) as H;
      destruct (pool_release c w1) as [[ [] | e | ] w2]
    end; exact H.
  - destruct (keepOpen (conns w c)); simpl; [ repeat split | ].
    match goal with |- context [conn_close c ?w1] =>
      pose proof (conn_close_data c w1) as H;
      destruct (conn_close c w1) as [[ p | e | ] w2]
    end; exact H.
Qed.

(** None of them runs out of budget: there is no recursion in them. *)
Lemma pool_release_returns c w : fst (pool_release c w) = Returned tt.
Proof.
  unfold pool_release, handle_resolve. stk_eval. stk_cases; reflexivity.
Qed.

Lemma stk_conn_close_total c w : fst (conn_close c w) <> NoFuel.
Proof.
  unfold conn_close, conn_checkStatus, new_handle. stk_eval.
  destruct (closed (conns w c)); [ discriminate | ].
  stk_eval. stk_lookup. stk_proj.
  destruct (txns (conns w c)); stk_eval; [ | discriminate ].
  match goal with |- context [pool_release c ?w1] =>
    pose proof (pool_release_returns c w1) as H;
    destruct (pool_release c w1) as [[ [] | e | ] w2]
  end; simpl in *; congruence.
Qed.

Lemma conn_txnDone_total c t w : fst (conn_txnDone c t w) <> NoFuel.
Proof.
  unfold conn_txnDone, handle_resolve. stk_eval.
  destruct (indexOf t (txns (conns w c))); [ | discriminate ].
  stk_eval. stk_lookup. stk_proj.
  destruct (delete n (txns (conns w c))); [ | discriminate ].
  destruct (closeResolve (conns w c)).
  - match goal with |- context [pool_release c ?w1] =>
      pose proof (pool_release_returns c w1) as H;
      destruct (pool_release c w1) as [[ [] | e | ] w2]
    end; simpl in *; congruence.
  - destruct (keepOpen (conns w c)); simpl; [ discriminate | ].
    match goal with |- context [conn_close c ?w1] =>
      pose proof (stk_conn_close_total c w1) as H;
      destruct (conn_close c w1) as [[ p | e | ] w2]
    end; simpl in *; congruence.
Qed.

(** [#cancel] on a transaction that is done takes the listener off the
    canceler and calls nothing else. *)
Lemma txn_cancel_with_done (rollback : nat -> ST VoidPromise) t w :
  done (txnOf w t) = true ->
  txn_cancel_with rollback t w =
  (Returned tt,
   match onCancel (txnOf w t) with
   | Some l =>
       set_txn t (txn_with_onCancel None)
         match clr (txnOf w t) with
         | Some i =>
             set_canceler i (canceler_with_listeners (filter (fun x => x <> l))) w
         | None => w
         end
   | None => w
   end).
Proof.
  intros Hd. unfold txn_cancel_with, clr_off. stk_eval.
  destruct (onCancel (txnOf w t)) as [l | ]; stk_eval.
  - destruct (clr (txnOf w t)) as [i | ]; stk_eval; stk_lookup; stk_proj;
      rewrite Hd; reflexivity.
  - rewrite Hd. reflexivity.
Qed.

Lemma txn_complete_with_done (r1 r2 : nat -> ST VoidPromise) t w :
  done (txnOf w t) = true ->
  txn_complete_with r1 t w = txn_complete_with r2 t w.
Proof.
  intros Hd. unfold txn_complete_with.
  unfold bind at 1. rewrite (txn_cancel_with_done r1) by assumption.
  symmetry.
  unfold bind at 1. rewrite (txn_cancel_with_done r2) by assumption.
  reflexivity.
Qed.

(** The equation of [rollback], free of the recursion budget. *)
Lemma txn_rollback_unfold t w :
  txn_rollback t w =
  (txn_checkStatus t false >>>
   modify (set_txn t (txn_with_done true)) >>>
   txn_complete t) w.
Proof.
  unfold txn_rollback, txn_complete. cbn [txn_rollback_fuel].
  unfold bind at 1. symmetry. unfold bind at 1. symmetry.
  destruct (txn_checkStatus t false w) as [[ [] | e | ] w1]; try reflexivity.
  unfold bind at 1. symmetry. unfold bind at 1. symmetry.
  unfold modify. cbn [fst snd].
  apply txn_complete_with_done. stk_proj. stk_lookup. reflexivity.
Qed.

Lemma txn_complete_done_total t w :
  done (txnOf w t) = true -> fst (txn_complete t w) <> NoFuel.
Proof.
  intros Hd. unfold txn_complete, txn_complete_with. unfold bind at 1.
  rewrite txn_cancel_with_done by assumption. stk_eval.
  match goal with |- context [conn_txnDone ?c t ?w1] =>
    pose proof (conn_txnDone_total c t w1) as H;
    destruct (conn_txnDone c t w1) as [[ [p | ] | e | ] w2]
  end; simpl in *; congruence.
Qed.

(** [rollback] and [commit] always come back. *)
Lemma txn_rollback_total t w : fst (txn_rollback t w) <> NoFuel.
Proof.
  rewrite txn_rollback_unfold. unfold txn_checkStatus. stk_eval.
  destruct (done (txnOf w t)); [ discriminate | ]. simpl.
  apply txn_complete_done_total. stk_proj. stk_lookup. reflexivity.
Qed.

Lemma txn_commit_total t w : fst (txn_commit t w) <> NoFuel.
Proof.
  unfold txn_commit, txn_checkStatus. stk_eval.
  destruct (done (txnOf w t)); [ discriminate | ]. simpl.
  apply txn_complete_done_total. stk_proj. stk_lookup. reflexivity.
Qed.

(** *** Cancellation and completion of a stack transaction *)

Lemma not_elem_of_filter_ne (l : Listener) (ls : list Listener) :
  l ∉ filter (fun x => x <> l) ls.
Proof. rewrite list_elem_of_filter. intros [H _]. apply H. reflexivity. Qed.

Lemma stk_conn_beginTxn_eq {V} c (ctx : Context V) opts w :
  closed (conns w c) = false ->
  conn_beginTxn c ctx opts w =
  (Returned (nextTxn w),
   set_conn c (conn_with_txns (fun l => l ++ [nextTxn w]))
     (snd (new_txn c opts (canceler ctx) w))).
Proof.
  intros Hc. unfold conn_beginTxn, conn_checkStatus. stk_eval. rewrite Hc.
  unfold new_txn, clr_onCancel. stk_eval.
  destruct (canceler ctx); reflexivity.
Qed.

(** A transaction begun with a context that carries a canceler subscribes
    its [#cancel] to it. *)
Lemma conn_beginTxn_subscribes {V} c (ctx : Context V) opts i w t w1 :
  canceler ctx = Some i ->
  conn_beginTxn c ctx opts w = (Returned t, w1) ->
  t = nextTxn w /\
  TxnCancel t ∈ listeners (cancelers w1 i) /\
  onCancel (txnOf w1 t) = Some (TxnCancel t) /\
  clr (txnOf w1 t) = Some i /\
  done (txnOf w1 t) = false /\ con (txnOf w1 t) = c /\
  snap (txnOf w1 t) = stack w /\ stack w1 = stack w.
Proof.
  intros Hi. unfold conn_beginTxn, conn_checkStatus. stk_eval.
  destruct (closed (conns w c)); [ discriminate | ].
  unfold new_txn, clr_onCancel. stk_eval. rewrite Hi. stk_eval.
  intros [= <- <-]. stk_proj. stk_lookup. stk_proj. stk_lookup. stk_proj.
  stk_lookup. stk_proj.
  repeat split; try reflexivity.
  apply elem_of_app. right. constructor.
Qed.

Lemma unsubscribed_listener t i w :
  onCancel (txnOf w t) = Some (TxnCancel t) -> clr (txnOf w t) = Some i ->
  (TxnCancel t ∉ listeners (cancelers (unsubscribed t w) i)) /\
  onCancel (txnOf (unsubscribed t w) t) = None.
Proof.
  intros Hl Hi. unfold unsubscribed. rewrite Hl, Hi. stk_proj. stk_lookup.
  stk_proj. split; [ apply not_elem_of_filter_ne | reflexivity ].
Qed.

Lemma unsubscribed_data t w :
  stack (unsubscribed t w) = stack w /\
  done (txnOf (unsubscribed t w) t) = done (txnOf w t) /\
  con (txnOf (unsubscribed t w) t) = con (txnOf w t) /\
  conns (unsubscribed t w) = conns w /\
  thePool (unsubscribed t w) = thePool w /\
  handles (unsubscribed t w) = handles w /\
  nextHandle (unsubscribed t w) = nextHandle w.
Proof.
  unfold unsubscribed. destruct (onCancel (txnOf w t)); [ | repeat split ].
  destruct (clr (txnOf w t)); stk_proj; stk_lookup; repeat split.
Qed.

Lemma txn_complete_data t w :
  done (txnOf w t) = true ->
  same_data (unsubscribed t w) (snd (txn_complete t w)).
Proof.
  intros Hd. unfold txn_complete, txn_complete_with. unfold bind at 1.
  rewrite txn_cancel_with_done by assumption. fold (unsubscribed t w).
  stk_eval.
  match goal with |- context [conn_txnDone ?c t ?w2] =>
    pose proof (conn_txnDone_data c t w2) as H;
    destruct (conn_txnDone c t w2) as [[ [p | ] | e | ] w3]
  end; exact H.
Qed.

Lemma txn_rollback_data t w :
  done (txnOf w t) = false ->
  same_data (unsubscribed t (set_txn t (txn_with_done true) w))
    (snd (txn_rollback t w)).
Proof.
  intros Hd. rewrite txn_rollback_unfold. unfold txn_checkStatus. stk_eval.
  rewrite Hd. cbn [andb]. stk_eval.
  apply txn_complete_data. stk_proj. stk_lookup. reflexivity.
Qed.

Lemma txn_commit_data t w :
  done (txnOf w t) = false ->
  same_data
    (unsubscribed t
       (set_stack (fun s => fold_left apply_op (ops (txnOf w t)) s)
          (set_txn t (txn_with_done true) w)))
    (snd (txn_commit t w)).
Proof.
  intros Hd. unfold txn_commit, txn_checkStatus. stk_eval.
  rewrite Hd. cbn [andb]. stk_eval. stk_lookup. stk_proj.
  apply txn_complete_data. stk_proj. stk_lookup. reflexivity.
Qed.

(** When the canceler fires, the listener of an open transaction rolls it
    back, leaves the shared stack alone, and is taken off the canceler. *)
Lemma txn_cancel_rolls_back t i w :
  done (txnOf w t) = false ->
  onCancel (txnOf w t) = Some (TxnCancel t) ->
  clr (txnOf w t) = Some i ->
  let w' := snd (txn_cancel t w) in
  done (txnOf w' t) = true /\ stack w' = stack w /\
  onCancel (txnOf w' t) = None /\
  (TxnCancel t ∉ listeners (cancelers w' i)).
Proof.
  intros Hd Hl Hi. unfold txn_cancel, txn_cancel_with, clr_off. stk_eval.
  rewrite Hl, Hi. stk_eval. stk_lookup. stk_proj. rewrite Hd. simpl.
  match goal with |- context [txn_rollback t ?w1] =>
    destruct (txn_rollback_data t w1) as (Hs & Ht & _ & Hc);
      [ stk_proj; stk_lookup; stk_proj; exact Hd | ];
    destruct (txn_rollback t w1) as [[ p | e | ] w2]
  end; simpl in *; rewrite Hs, Ht, Hc; unfold unsubscribed; stk_proj;
    stk_lookup; stk_proj; stk_lookup; stk_proj;
    (repeat split; try reflexivity); apply not_elem_of_filter_ne.
Qed.

(** On a transaction that is done, the listener only takes itself off the
    canceler. *)
Lemma txn_cancel_when_done t w :
  done (txnOf w t) = true ->
  txn_cancel t w = (Returned tt, unsubscribed t w).
Proof.
  intros Hd. unfold txn_cancel. rewrite txn_cancel_with_done by assumption.
  reflexivity.
Qed.

(** [commit] and [rollback] take the listener off the canceler. *)
Lemma txn_finish_unsubscribes t i w :
  done (txnOf w t) = false ->
  onCancel (txnOf w t) = Some (TxnCancel t) ->
  clr (txnOf w t) = Some i ->
  (TxnCancel t ∉ listeners (cancelers (snd (txn_commit t w)) i)) /\
  (TxnCancel t ∉ listeners (cancelers (snd (txn_rollback t w)) i)).
Proof.
  intros Hd Hl Hi. split.
  - destruct (txn_commit_data t w Hd) as (_ & _ & _ & Hc). rewrite Hc.
    apply unsubscribed_listener; stk_proj; stk_lookup; stk_proj; assumption.
  - destruct (txn_rollback_data t w Hd) as (_ & _ & _ & Hc). rewrite Hc.
    apply unsubscribed_listener; stk_proj; stk_lookup; stk_proj; assumption.
Qed.

(** *** Closing a connection of the stack store while a transaction is open *)

Lemma txn_complete_eq t w :
  done (txnOf w t) = true ->
  txn_complete t w =
  (let* p := conn_txnDone (con (txnOf (unsubscribed t w) t)) t in
   match p with
   | Some p => ret p
   | None => ret ResolvedPromise
   end) (unsubscribed t w).
Proof.
  intros Hd. unfold txn_complete, txn_complete_with. unfold bind at 1.
  rewrite txn_cancel_with_done by assumption. fold (unsubscribed t w).
  reflexivity.
Qed.

(** [close] with a transaction open stores a close-barrier and releases
    nothing. *)
Lemma conn_close_deferred c t ts w :
  closed (conns w c) = false ->
  txns (conns w c) = t :: ts ->
  conn_close c w =
  (Returned (HandlePromise (nextHandle w)),
   set_conn c (conn_with_closeResolve (Some (nextHandle w)))
     (bump_handle
        (set_handle (nextHandle w) (fun _ => Pending)
           (set_conn c (conn_with_closed true) w)))).
Proof.
  intros Hc Ht. unfold conn_close, conn_checkStatus, new_handle. stk_eval.
  rewrite Hc. stk_eval. stk_lookup. stk_proj. rewrite Ht. reflexivity.
Qed.

Lemma pool_release_handle c h w :
  handles (snd (pool_release c w)) h = Fulfilled tt \/
  handles (snd (pool_release c w)) h = handles w h.
Proof.
  unfold pool_release, handle_resolve. stk_eval.
  destruct (indexOf c (active (thePool w))); [ | auto ].
  stk_eval.
  destruct (delete n (active (thePool w))); [ | auto ].
  destruct (waitClose (thePool w)) as [wc | ]; [ | auto ].
  stk_eval. destruct (decide (wc = h)) as [-> | Hne]; stk_lookup; [ | auto ].
  destruct (handles w h) as [ | [] | e ]; simpl; auto.
Qed.

(** When the last transaction of a connection finishes and a close-barrier
    is stored, the connection is released and the barrier resolved. *)
Lemma conn_txnDone_resolves c t h w :
  txns (conns w c) = [t] ->
  closeResolve (conns w c) = Some h ->
  handles w h = Pending ->
  fst (conn_txnDone c t w) = Returned None /\
  handles (snd (conn_txnDone c t w)) h = Fulfilled tt.
Proof.
  intros Ht Hcr Hh. unfold conn_txnDone, handle_resolve. stk_eval.
  rewrite Ht. simpl. destruct (decide (t = t)) as [_ | ]; [ | congruence ].
  stk_eval. stk_lookup. stk_proj. rewrite Ht, Hcr. simpl.
  match goal with |- context [pool_release c ?w1] =>
    pose proof (pool_release_returns c w1) as Hr;
    pose proof (pool_release_handle c h w1) as Hp;
    destruct (pool_release c w1) as [[ [] | err | ] w2]
  end; simpl in *; try discriminate.
  stk_lookup. split; [ reflexivity | ].
  destruct Hp as [Hp | Hp]; rewrite Hp; [ reflexivity | ].
  rewrite Hh. reflexivity.
Qed.

(** The promise that [commit] and [rollback] return is already resolved. *)
Lemma conn_close_promise c w p :
  txns (conns w c) = [] ->
  fst (conn_close c w) = Returned p -> p = ResolvedPromise.
Proof.
  intros Ht. unfold conn_close, conn_checkStatus. stk_eval.
  destruct (closed (conns w c)); [ discriminate | ].
  stk_eval. stk_lookup. stk_proj. rewrite Ht.
  match goal with |- context [pool_release c ?w1] =>
    destruct (pool_release c w1) as [[ [] | e | ] w2]
  end; simpl; congruence.
Qed.

Lemma conn_txnDone_promise c t w p :
  fst (conn_txnDone c t w) = Returned (Some p) -> p = ResolvedPromise.
Proof.
  unfold conn_txnDone, handle_resolve. stk_eval.
  destruct (indexOf t (txns (conns w c))); [ | discriminate ].
  stk_eval. stk_lookup. stk_proj.
  destruct (delete n (txns (conns w c))) eqn:Hdel; [ | discriminate ].
  destruct (closeResolve (conns w c)).
  - match goal with |- context [pool_release c ?w1] =>
      destruct (pool_release c w1) as [[ [] | e | ] w2]
    end; simpl; discriminate.
  - destruct (keepOpen (conns w c)); simpl; [ discriminate | ].
    match goal with |- context [conn_close c ?w1] =>
      pose proof (conn_close_promise c w1) as H;
      destruct (conn_close c w1) as [[ q | e | ] w2]
    end; simpl in *; try discriminate.
    intros [= <-]. apply H; [ | reflexivity ].
    stk_proj. stk_lookup. stk_proj. exact Hdel.
Qed.

Lemma txn_complete_promise t w p :
  done (txnOf w t) = true ->
  fst (txn_complete t w) = Returned p -> p = ResolvedPromise.
Proof.
  intros Hd. rewrite txn_complete_eq by assumption. unfold bind.
  match goal with |- context [conn_txnDone ?c t ?w1] =>
    pose proof (conn_txnDone_promise c t w1) as H;
    destruct (conn_txnDone c t w1) as [[ [q | ] | e | ] w2]
  end; simpl in *; try discriminate.
  - intros [= <-]. apply H. reflexivity.
  - intros [= <-]. reflexivity.
Qed.

Lemma txn_commit_promise t w p :
  fst (txn_commit t w) = Returned p -> p = ResolvedPromise.
Proof.
  unfold txn_commit, txn_checkStatus. stk_eval.
  destruct (done (txnOf w t)); [ discriminate | ]. cbn [andb]. stk_eval.
  apply txn_complete_promise. stk_proj. stk_lookup. reflexivity.
Qed.

Lemma txn_rollback_promise t w p :
  fst (txn_rollback t w) = Returned p -> p = ResolvedPromise.
Proof.
  rewrite txn_rollback_unfold. unfold txn_checkStatus. stk_eval.
  destruct (done (txnOf w t)); [ discriminate | ]. cbn [andb]. stk_eval.
  apply txn_complete_promise. stk_proj. stk_lookup. reflexivity.
Qed.

(** *** Frame properties of the stack store *)

Ltac stk_frame_step :=
  match goal with
  | |- PreOrder _ => exact _
  | |- keeps _ (bind _ _) => apply keeps_bind; [ exact _ | | intros ? ]
  | |- keeps _ (ret _) => apply keeps_ret; exact _
  | |- keeps _ (throw _) => apply keeps_throw; exact _
  | |- keeps _ (gets _) => apply keeps_gets; exact _
  | |- keeps _ (finally _ _) => apply keeps_finally; [ exact _ | | ]
  | |- keeps _ (modify _) =>
      apply keeps_modify; intros ?;
      first [ apply r_pool_active_delete | apply r_pool_waitClose_none
            | apply r_conn_closed | apply r_conn_closeResolve
            | apply r_conn_txns | apply r_handle | apply r_canceler
            | apply r_txn_done | apply r_txn_onCancel | apply r_txn_clr
            | apply r_pool_closed | apply r_pool_waitClose_some
            | apply r_stack | apply r_txn_ops | apply r_txn_snap ]
  | |- keeps _ (fun w => (NoFuel, w)) => apply keeps_nofuel; exact _
  | |- keeps _ (match ?x with _ => _ end) => destruct x
  | |- keeps _ (if ?x then _ else _) => destruct x
  | H : _ |- _ => solve [ apply H ]
  end.

Ltac stk_frame := repeat stk_frame_step.

Section StackFrame.

Context (R : relation World) `{!PreOrder R}.

Section Lifecycle.

Context `{!RespectsLifecycle R}.

Lemma stk_keeps_new_handle : keeps R new_handle.
Proof using Type*.
  intros w. unfold new_handle. stk_proj.
  etransitivity; [ apply r_handle | apply r_bump_handle ].
Qed.

Lemma stk_keeps_handle_resolve h : keeps R (handle_resolve h).
Proof using Type*. unfold handle_resolve. stk_frame. Qed.

Lemma stk_keeps_clr_onCancel i l : keeps R (clr_onCancel i l).
Proof using Type*. unfold clr_onCancel. stk_frame. Qed.

Lemma stk_keeps_clr_off i l : keeps R (clr_off i l).
Proof using Type*. unfold clr_off. stk_frame. Qed.

Lemma stk_keeps_pool_release c : keeps R (pool_release c).
Proof using Type*.
  unfold pool_release. pose proof stk_keeps_handle_resolve. stk_frame.
Qed.

Lemma stk_keeps_conn_checkStatus c : keeps R (conn_checkStatus c).
Proof using Type*. unfold conn_checkStatus. stk_frame. Qed.

Lemma stk_keeps_conn_close c : keeps R (conn_close c).
Proof using Type*.
  unfold conn_close.
  pose proof stk_keeps_conn_checkStatus. pose proof stk_keeps_new_handle.
  pose proof stk_keeps_pool_release. stk_frame.
Qed.

Lemma stk_keeps_conn_txnDone c t : keeps R (conn_txnDone c t).
Proof using Type*.
  unfold conn_txnDone.
  pose proof stk_keeps_pool_release. pose proof stk_keeps_handle_resolve.
  pose proof stk_keeps_conn_close. stk_frame.
Qed.

Lemma stk_keeps_txn_checkStatus t m : keeps R (txn_checkStatus t m).
Proof using Type*. unfold txn_checkStatus. stk_frame. Qed.

Lemma stk_keeps_txn_cancel_with (rollback : nat -> ST VoidPromise) t :
  (forall t', keeps R (rollback t')) -> keeps R (txn_cancel_with rollback t).
Proof using Type*.
  intros Hr. unfold txn_cancel_with. pose proof stk_keeps_clr_off. stk_frame.
Qed.

Lemma stk_keeps_txn_complete_with (rollback : nat -> ST VoidPromise) t :
  (forall t', keeps R (rollback t')) -> keeps R (txn_complete_with rollback t).
Proof using Type*.
  intros Hr. unfold txn_complete_with.
  pose proof (stk_keeps_txn_cancel_with rollback t Hr).
  pose proof stk_keeps_conn_txnDone. stk_frame.
Qed.

Lemma stk_keeps_txn_rollback_fuel fuel t : keeps R (txn_rollback_fuel fuel t).
Proof using Type*.
  revert t. induction fuel as [ | fuel IH]; intros t; simpl; [ stk_frame | ].
  pose proof stk_keeps_txn_checkStatus.
  pose proof (stk_keeps_txn_complete_with _ t IH). stk_frame.
Qed.

Lemma stk_keeps_txn_rollback t : keeps R (txn_rollback t).
Proof using Type*. apply stk_keeps_txn_rollback_fuel. Qed.

Lemma stk_keeps_txn_cancel t : keeps R (txn_cancel t).
Proof using Type*. apply stk_keeps_txn_cancel_with, stk_keeps_txn_rollback. Qed.

Lemma stk_keeps_txn_complete t : keeps R (txn_complete t).
Proof using Type*. apply stk_keeps_txn_complete_with, stk_keeps_txn_rollback. Qed.

Lemma stk_keeps_txn_peek t : keeps R (txn_peek t).
Proof using Type*. unfold txn_peek. pose proof stk_keeps_txn_checkStatus. stk_frame. Qed.

Lemma stk_keeps_new_txn c opts cl : keeps R (new_txn c opts cl).
Proof using Type*.
  unfold new_txn. pose proof stk_keeps_clr_onCancel.
  apply keeps_bind; [ exact _ | | intros t; stk_frame ].
  intros w. stk_proj. apply r_txn_new.
Qed.

Lemma stk_keeps_conn_beginTxn {V} c (ctx : Context V) opts :
  keeps R (conn_beginTxn c ctx opts).
Proof using Type*.
  unfold conn_beginTxn.
  pose proof stk_keeps_conn_checkStatus. pose proof stk_keeps_new_txn. stk_frame.
Qed.

Lemma stk_keeps_conn_peek c : keeps R (conn_peek c).
Proof using Type*. unfold conn_peek. pose proof stk_keeps_conn_checkStatus. stk_frame. Qed.

Lemma stk_keeps_new_conn keep : keeps R (new_conn keep).
Proof using Type*. intros w. unfold new_conn. stk_proj. apply r_conn_new. Qed.

Lemma stk_keeps_pool_checkStatus : keeps R pool_checkStatus.
Proof using Type*. unfold pool_checkStatus. stk_frame. Qed.

Lemma stk_keeps_pool_conn : keeps R pool_conn.
Proof using Type*.
  unfold pool_conn. pose proof stk_keeps_pool_checkStatus. pose proof stk_keeps_new_conn.
  stk_frame.
Qed.

Lemma stk_keeps_pool_beginTxn {V} (ctx : Context V) opts :
  keeps R (pool_beginTxn ctx opts).
Proof using Type*.
  unfold pool_beginTxn.
  pose proof stk_keeps_pool_checkStatus. pose proof stk_keeps_new_conn.
  pose proof (fun c => stk_keeps_conn_beginTxn c ctx opts). stk_frame.
Qed.

Lemma stk_keeps_pool_peek_resume c : keeps R (pool_peek_resume c).
Proof using Type*.
  unfold pool_peek_resume. pose proof stk_keeps_conn_peek. pose proof stk_keeps_conn_close.
  stk_frame.
Qed.

Lemma stk_keeps_fire_all ls : keeps R (fire_all ls).
Proof using Type*.
  induction ls as [ | [t] ls IH]; simpl; [ stk_frame | ].
  pose proof stk_keeps_txn_cancel. stk_frame.
Qed.

Lemma stk_keeps_cancel i : keeps R (cancel i).
Proof using Type*. unfold cancel. pose proof stk_keeps_fire_all. stk_frame. Qed.

Lemma stk_keeps_close_loop fuel i : keeps R (close_loop fuel i).
Proof using Type*.
  revert i. induction fuel as [ | fuel IH]; intros i; simpl.
  - stk_frame.
  - pose proof stk_keeps_conn_close. stk_frame.
Qed.

Lemma stk_keeps_pool_close `{!RespectsPoolClose R} : keeps R pool_close.
Proof using Type*.
  unfold pool_close. pose proof stk_keeps_new_handle. pose proof stk_keeps_close_loop.
  stk_frame.
Qed.

Lemma stk_keeps_txn_commit `{!RespectsStack R} t : keeps R (txn_commit t).
Proof using Type*.
  unfold txn_commit. pose proof stk_keeps_txn_checkStatus. pose proof stk_keeps_txn_complete.
  stk_frame.
Qed.

Lemma stk_keeps_txn_push `{!RespectsTxnWrite R} {V} t (ctx : Context V) val :
  keeps R (txn_push t ctx val).
Proof using Type*. unfold txn_push. pose proof stk_keeps_txn_checkStatus. stk_frame. Qed.

Lemma stk_keeps_txn_pop `{!RespectsTxnWrite R} t : keeps R (txn_pop t).
Proof using Type*. unfold txn_pop. pose proof stk_keeps_txn_checkStatus. stk_frame. Qed.

Lemma stk_keeps_conn_push `{!RespectsStack R} {V} c (ctx : Context V) val :
  keeps R (conn_push c ctx val).
Proof using Type*. unfold conn_push. pose proof stk_keeps_conn_checkStatus. stk_frame. Qed.

Lemma stk_keeps_conn_pop `{!RespectsStack R} c : keeps R (conn_pop c).
Proof using Type*. unfold conn_pop. pose proof stk_keeps_conn_checkStatus. stk_frame. Qed.

Lemma stk_keeps_pool_push_resume `{!RespectsStack R} {V} c (ctx : Context V) val :
  keeps R (pool_push_resume c ctx val).
Proof using Type*.
  unfold pool_push_resume.
  pose proof (stk_keeps_conn_push c ctx val). pose proof stk_keeps_conn_close. stk_frame.
Qed.

Lemma stk_keeps_pool_pop_resume `{!RespectsStack R} c : keeps R (pool_pop_resume c).
Proof using Type*.
  unfold pool_pop_resume. pose proof stk_keeps_conn_pop. pose proof stk_keeps_conn_close.
  stk_frame.
Qed.

(** A relation respected by the field updates is kept by every call; the
    updates of a group need to be respected only for the calls that can
    reach them. *)
Lemma stk_keeps_perform {V} (a : Call V) :
  (a = PoolClose -> RespectsPoolClose R) ->
  (mutates a = true -> RespectsStack R) ->
  ((exists t, buffers t a = true) -> RespectsTxnWrite R) ->
  keeps R (perform a).
Proof using Type*.
  intros Hc Hs Hb.
  destruct a; cbn [perform];
    try (pose proof (Hc eq_refl)); try (pose proof (Hs eq_refl));
    try (assert (RespectsTxnWrite R)
           by (apply Hb; eexists; cbn [buffers]; apply bool_decide_eq_true;
               reflexivity));
    clear Hc Hs Hb;
    first
      [ apply stk_keeps_cancel
      | apply keeps_bind;
          [ exact _
          | first [ apply stk_keeps_pool_conn | apply stk_keeps_pool_close
                  | apply stk_keeps_pool_beginTxn | apply stk_keeps_pool_push_resume
                  | apply stk_keeps_pool_pop_resume | apply stk_keeps_pool_peek_resume
                  | apply stk_keeps_conn_close | apply stk_keeps_conn_beginTxn
                  | apply stk_keeps_conn_push | apply stk_keeps_conn_pop
                  | apply stk_keeps_conn_peek | apply stk_keeps_txn_commit
                  | apply stk_keeps_txn_rollback | apply stk_keeps_txn_push
                  | apply stk_keeps_txn_pop | apply stk_keeps_txn_peek ]
          | intros ?; apply keeps_ret; exact _ ] ].
Qed.

Lemma stk_keeps_step {V} (a : Call V) w
    `{!RespectsPoolClose R, !RespectsStack R, !RespectsTxnWrite R} :
  R w (step a w).
Proof using Type*. apply stk_keeps_perform; auto. Qed.

Lemma stk_keeps_run {V} (calls : list (Call V)) w
    `{!RespectsPoolClose R, !RespectsStack R, !RespectsTxnWrite R} :
  R w (run calls w).
Proof using Type*.
  revert w. induction calls as [ | a calls IH]; intros w; simpl.
  - reflexivity.
  - etransitivity; [ exact (stk_keeps_step a w) | apply IH ].
Qed.

End Lifecycle.

End StackFrame.

(** *** The relations are preorders that the field updates respect *)

Ltac stk_at k c :=
  destruct (decide (k = c)); [ subst | ]; stk_lookup; stk_proj.

Ltac stk_respects :=
  split; intros; red; stk_proj; try reflexivity; auto.

#[local] Instance stk_same_stack_preorder : PreOrder same_stack.
Proof.
  split; [ intros w; red; reflexivity | ].
  intros a b c H1 H2; unfold same_stack in *; congruence.
Qed.
#[local] Instance stk_same_stack_lifecycle : RespectsLifecycle same_stack.
Proof. stk_respects. Qed.
#[local] Instance stk_same_stack_poolclose : RespectsPoolClose same_stack.
Proof. stk_respects. Qed.
#[local] Instance stk_same_stack_txnwrite : RespectsTxnWrite same_stack.
Proof. stk_respects. Qed.

#[local] Instance stk_untracked_preorder : PreOrder untracked_stays.
Proof. split; [ intros w H; exact H | intros a b c H1 H2 H; auto ]. Qed.
#[local] Instance stk_untracked_lifecycle : RespectsLifecycle untracked_stays.
Proof.
  split; intros; intros [Ha Hw]; unfold untracked in *; stk_proj; auto.
  rewrite Ha. auto.
Qed.
#[local] Instance stk_untracked_stack : RespectsStack untracked_stays.
Proof. stk_respects. Qed.
#[local] Instance stk_untracked_txnwrite : RespectsTxnWrite untracked_stays.
Proof. stk_respects. Qed.

#[local] Instance stk_pool_closed_preorder : PreOrder pool_closed_stays.
Proof. split; [ intros w H; exact H | intros a b c H1 H2 H; auto ]. Qed.
#[local] Instance stk_pool_closed_lifecycle : RespectsLifecycle pool_closed_stays.
Proof. stk_respects. Qed.
#[local] Instance stk_pool_closed_poolclose : RespectsPoolClose pool_closed_stays.
Proof. stk_respects. Qed.
#[local] Instance stk_pool_closed_stack : RespectsStack pool_closed_stays.
Proof. stk_respects. Qed.
#[local] Instance stk_pool_closed_txnwrite : RespectsTxnWrite pool_closed_stays.
Proof. stk_respects. Qed.

#[local] Instance stk_conn_closed_preorder c : PreOrder (conn_closed_stays c).
Proof.
  split; [ intros w; split; auto | ].
  intros w1 w2 w3 [H1 H1'] [H2 H2']; split; [ lia | ].
  intros Hc Hd. apply H2'; [ lia | auto ].
Qed.
#[local] Instance stk_conn_closed_lifecycle c : RespectsLifecycle (conn_closed_stays c).
Proof.
  split; intros; red; stk_proj; (split; [ lia | ]); intros Hc Hd; auto;
    match goal with
    | |- context [<[?k := _]> _ c] => stk_at k c; auto; lia
    end.
Qed.
#[local] Instance stk_conn_closed_poolclose c : RespectsPoolClose (conn_closed_stays c).
Proof. split; intros; red; stk_proj; auto. Qed.
#[local] Instance stk_conn_closed_stack c : RespectsStack (conn_closed_stays c).
Proof. split; intros; red; stk_proj; auto. Qed.
#[local] Instance stk_conn_closed_txnwrite c : RespectsTxnWrite (conn_closed_stays c).
Proof. split; intros; red; stk_proj; auto. Qed.

#[local] Instance stk_done_stays_preorder t : PreOrder (done_stays t).
Proof.
  split; [ intros w; split; auto | ].
  intros w1 w2 w3 [H1 H1'] [H2 H2']; split; [ lia | ].
  intros Hc Hd. apply H2'; [ lia | auto ].
Qed.
#[local] Instance stk_done_stays_lifecycle t : RespectsLifecycle (done_stays t).
Proof.
  split; intros; red; stk_proj; (split; [ lia | ]); intros Hc Hd; auto;
    match goal with
    | |- context [<[?k := _]> _ t] => stk_at k t; auto; lia
    end.
Qed.
#[local] Instance stk_done_stays_poolclose t : RespectsPoolClose (done_stays t).
Proof. split; intros; red; stk_proj; auto. Qed.
#[local] Instance stk_done_stays_stack t : RespectsStack (done_stays t).
Proof. split; intros; red; stk_proj; auto. Qed.
#[local] Instance stk_done_stays_txnwrite t : RespectsTxnWrite (done_stays t).
Proof.
  split; intros; red; stk_proj; (split; [ lia | ]); intros Hc Hd;
    match goal with
    | |- context [<[?k := _]> _ t] => stk_at k t; auto
    end.
Qed.

#[local] Instance stk_same_view_preorder t : PreOrder (same_view t).
Proof.
  split; [ intros w; split; auto | ].
  intros w1 w2 w3 [H1 H1'] [H2 H2']; split; [ lia | ].
  intros Hc. destruct (H1' Hc) as (? & ? & ?).
  destruct (H2' ltac:(lia)) as (? & ? & ?). repeat split; congruence.
Qed.
#[local] Instance stk_same_view_lifecycle t : RespectsLifecycle (same_view t).
Proof.
  split; intros; red; stk_proj; (split; [ lia | ]); intros Hc; auto;
    match goal with
    | |- context [<[?k := _]> _ t] => stk_at k t; auto; lia
    end.
Qed.
#[local] Instance stk_same_view_poolclose t : RespectsPoolClose (same_view t).
Proof. split; intros; red; stk_proj; auto. Qed.
#[local] Instance stk_same_view_stack t : RespectsStack (same_view t).
Proof. split; intros; red; stk_proj; auto. Qed.

(** *** The operations on the stack, one by one *)

Lemma txn_checkStatus_eq t m w :
  txn_checkStatus t m w =
  if done (txnOf w t) then (Thrown (Error "Transaction is already complete"), w)
  else if m && readonly (txnOf w t) then
    (Thrown (Error "Cannot push or pop: Transaction is read-only"), w)
  else (Returned tt, w).
Proof.
  unfold txn_checkStatus. stk_eval.
  destruct (done (txnOf w t)); [ reflexivity | ].
  destruct (m && readonly (txnOf w t)); reflexivity.
Qed.

Lemma txn_push_eq {V} t (ctx : Context V) val w :
  txn_push t ctx val w =
  if done (txnOf w t) then (Thrown (Error "Transaction is already complete"), w)
  else if readonly (txnOf w t) then
    (Thrown (Error "Cannot push or pop: Transaction is read-only"), w)
  else (Returned (length (snap (txnOf w t) ++ [val])),
        set_txn t (txn_with_snap (fun s => s ++ [val]))
          (set_txn t (txn_with_ops (fun l => l ++ [OpPush val])) w)).
Proof.
  unfold txn_push. unfold bind at 1. rewrite txn_checkStatus_eq.
  destruct (done (txnOf w t)); [ reflexivity | ]. cbn [andb].
  destruct (readonly (txnOf w t)); [ reflexivity | ].
  stk_eval. stk_lookup. stk_proj. reflexivity.
Qed.

Lemma txn_pop_eq t w :
  txn_pop t w =
  if done (txnOf w t) then (Thrown (Error "Transaction is already complete"), w)
  else if readonly (txnOf w t) then
    (Thrown (Error "Cannot push or pop: Transaction is read-only"), w)
  else (Returned (array_last (snap (txnOf w t))),
        set_txn t (txn_with_snap array_pop)
          (set_txn t (txn_with_ops (fun l => l ++ [OpPop])) w)).
Proof.
  unfold txn_pop. unfold bind at 1. rewrite txn_checkStatus_eq.
  destruct (done (txnOf w t)); [ reflexivity | ]. cbn [andb].
  destruct (readonly (txnOf w t)); [ reflexivity | ].
  stk_eval. stk_lookup. stk_proj. reflexivity.
Qed.

Lemma txn_peek_eq t w :
  txn_peek t w =
  if done (txnOf w t) then (Thrown (Error "Transaction is already complete"), w)
  else (Returned (array_last (snap (txnOf w t))), w).
Proof.
  unfold txn_peek. unfold bind at 1. rewrite txn_checkStatus_eq.
  destruct (done (txnOf w t)); reflexivity.
Qed.

Lemma txn_commit_done t w :
  done (txnOf w t) = true ->
  txn_commit t w = (Thrown (Error "Transaction is already complete"), w).
Proof.
  intros Hd. unfold txn_commit. unfold bind at 1.
  rewrite txn_checkStatus_eq, Hd. reflexivity.
Qed.

Lemma txn_rollback_done t w :
  done (txnOf w t) = true ->
  txn_rollback t w = (Thrown (Error "Transaction is already complete"), w).
Proof.
  intros Hd. rewrite txn_rollback_unfold. unfold bind at 1.
  rewrite txn_checkStatus_eq, Hd. reflexivity.
Qed.

Lemma conn_push_eq {V} c (ctx : Context V) val w :
  conn_push c ctx val w =
  if closed (conns w c) then (Thrown (Error "Connection is closed"), w)
  else (Returned (length (stack w ++ [val])), set_stack (fun s => s ++ [val]) w).
Proof.
  unfold conn_push, conn_checkStatus. stk_eval.
  destruct (closed (conns w c)); reflexivity.
Qed.

Lemma conn_pop_eq c w :
  conn_pop c w =
  if closed (conns w c) then (Thrown (Error "Connection is closed"), w)
  else (Returned (array_last (stack w)), set_stack array_pop w).
Proof.
  unfold conn_pop, conn_checkStatus. stk_eval.
  destruct (closed (conns w c)); reflexivity.
Qed.

Lemma conn_peek_eq c w :
  conn_peek c w =
  if closed (conns w c) then (Thrown (Error "Connection is closed"), w)
  else (Returned (array_last (stack w)), w).
Proof.
  unfold conn_peek, conn_checkStatus. stk_eval.
  destruct (closed (conns w c)); reflexivity.
Qed.

Lemma stk_conn_close_closed c w :
  closed (conns w c) = true ->
  conn_close c w = (Thrown (Error "Connection is closed"), w).
Proof.
  intros Hc. unfold conn_close, conn_checkStatus. stk_eval. rewrite Hc.
  reflexivity.
Qed.

Lemma stk_conn_beginTxn_closed {V} c (ctx : Context V) opts w :
  closed (conns w c) = true ->
  conn_beginTxn c ctx opts w = (Thrown (Error "Connection is closed"), w).
Proof.
  intros Hc. unfold conn_beginTxn, conn_checkStatus. stk_eval. rewrite Hc.
  reflexivity.
Qed.

(** The stack after [commit]. *)
Lemma txn_commit_stack t w :
  done (txnOf w t) = false ->
  stack (snd (txn_commit t w)) = fold_left apply_op (ops (txnOf w t)) (stack w) /\
  done (txnOf (snd (txn_commit t w)) t) = true.
Proof.
  intros Hd. destruct (txn_commit_data t w Hd) as (Hs & Ht & _).
  rewrite Hs, Ht.
  match goal with |- context [unsubscribed t ?w1] =>
    destruct (unsubscribed_data t w1) as (-> & -> & _)
  end.
  stk_proj. stk_lookup. stk_proj. auto.
Qed.

Lemma txn_rollback_stack t w :
  done (txnOf w t) = false ->
  stack (snd (txn_rollback t w)) = stack w /\
  done (txnOf (snd (txn_rollback t w)) t) = true.
Proof.
  intros Hd. destruct (txn_rollback_data t w Hd) as (Hs & Ht & _).
  rewrite Hs, Ht.
  match goal with |- context [unsubscribed t ?w1] =>
    destruct (unsubscribed_data t w1) as (-> & -> & _)
  end.
  stk_proj. stk_lookup. stk_proj. auto.
Qed.

(** [#cancel], as the canceler calls it. *)
Lemma txn_cancel_eq t w :
  txn_cancel t w =
  if done (txnOf w t) then (Returned tt, unsubscribed t w)
  else (txn_rollback t >>> ret tt) (unsubscribed t w).
Proof.
  destruct (done (txnOf w t)) eqn:Hd; [ apply txn_cancel_when_done, Hd | ].
  unfold txn_cancel, txn_cancel_with, unsubscribed, clr_off. stk_eval.
  destruct (onCancel (txnOf w t)) as [l | ]; stk_eval.
  - destruct (clr (txnOf w t)) as [i | ]; stk_eval; stk_lookup; stk_proj;
      rewrite Hd; reflexivity.
  - rewrite Hd. reflexivity.
Qed.

Lemma txn_cancel_sets_done t w :
  done (txnOf (snd (txn_cancel t w)) t) = true /\
  stack (snd (txn_cancel t w)) = stack w.
Proof.
  rewrite txn_cancel_eq.
  destruct (unsubscribed_data t w) as (Hs & Hd & _).
  destruct (done (txnOf w t)) eqn:Hdone.
  - cbn [snd]. rewrite Hs, Hd. auto.
  - destruct (txn_rollback_stack t (unsubscribed t w) Hd) as [H1 H2].
    unfold bind. destruct (txn_rollback t (unsubscribed t w)) as [[p | e | ] w1];
      cbn [fst snd ret] in *; rewrite H1, Hs; auto.
Qed.

(** *** Properties of the stack store *)

(** Cancellation of a stack transaction.  A transaction begun with a
    context that carries a canceler subscribes a listener to it.  When the
    canceler fires, the listener rolls the open transaction back, leaves
    the shared stack as it was before the transaction began, and is taken
    off the canceler; on a transaction that is done it does nothing but
    that.  Commit and rollback take the listener off the canceler. *)
Theorem stk_txn_rollback_on_cancel {V} (c : nat) (ctx : Context V)
    (opts : option TxnOptions) (i : nat) (w w1 : World) (t : nat) :
  canceler ctx = Some i ->
  conn_beginTxn c ctx opts w = (Returned t, w1) ->
  TxnCancel t ∈ listeners (cancelers w1 i) /\
  (let w2 := snd (txn_cancel t w1) in
   done (txnOf w2 t) = true /\ stack w2 = stack w /\
   (TxnCancel t ∉ listeners (cancelers w2 i))) /\
  (TxnCancel t ∉ listeners (cancelers (snd (txn_commit t w1)) i)) /\
  (TxnCancel t ∉ listeners (cancelers (snd (txn_rollback t w1)) i)) /\
  (forall w', done (txnOf w' t) = true ->
     txn_cancel t w' = (Returned tt, unsubscribed t w') /\
     stack (unsubscribed t w') = stack w').
Proof.
  intros Hi Hb.
  destruct (conn_beginTxn_subscribes c ctx opts i w t w1 Hi Hb)
    as (_ & Hin & Hl & Hc & Hd & _ & _ & Hs).
  split; [ exact Hin | ].
  split.
  { destruct (txn_cancel_rolls_back t i w1 Hd Hl Hc) as (H1 & H2 & _ & H4).
    cbv zeta. rewrite H2, Hs. auto. }
  destruct (txn_finish_unsubscribes t i w1 Hd Hl Hc) as [H1 H2].
  split; [ exact H1 | ]. split; [ exact H2 | ].
  intros w' Hd'. split; [ apply txn_cancel_when_done, Hd' | ].
  apply unsubscribed_data.
Qed.

(** Closing a stack connection while its transaction is open.  The close
    stores a close-barrier, returns its pending promise and does not
    release the connection; the barrier is resolved when the transaction is
    committed or rolled back. *)
Theorem stk_close_waits_for_txn {V} (c : nat) (ctx : Context V)
    (opts : option TxnOptions) (w w1 : World) (t : nat) :
  txns (conns w c) = [] ->
  conn_beginTxn c ctx opts w = (Returned t, w1) ->
  let h := nextHandle w1 in
  let w2 := snd (conn_close c w1) in
  fst (conn_close c w1) = Returned (HandlePromise h) /\
  handles w2 h = Pending /\ thePool w2 = thePool w1 /\
  closed (conns w2 c) = true /\
  handles (snd (txn_commit t w2)) h = Fulfilled tt /\
  handles (snd (txn_rollback t w2)) h = Fulfilled tt.
Proof.
  intros Htx Hb h w2.
  assert (Hc : closed (conns w c) = false).
  { revert Hb. unfold conn_beginTxn, conn_checkStatus. stk_eval.
    destruct (closed (conns w c)); [ discriminate | reflexivity ]. }
  rewrite (stk_conn_beginTxn_eq c ctx opts w Hc) in Hb. injection Hb as <- <-.
  set (w1 := set_conn c (conn_with_txns (fun l => l ++ [nextTxn w]))
               (snd (new_txn c opts (canceler ctx) w))) in *.
  assert (Hfacts : conns w1 c =
                   {| txns := [nextTxn w]; keepOpen := keepOpen (conns w c);
                      closed := false; closeResolve := closeResolve (conns w c) |}
                   /\ done (txnOf w1 (nextTxn w)) = false
                   /\ con (txnOf w1 (nextTxn w)) = c).
  { unfold w1, new_txn, clr_onCancel. stk_eval.
    destruct (canceler ctx); stk_eval; stk_lookup; stk_proj; stk_lookup;
      stk_proj; stk_lookup; unfold conn_with_txns; rewrite Htx, Hc; auto. }
  destruct Hfacts as (Hconn & Hdone & Hcon).
  assert (Hcl : conn_close c w1 = _) by
    (apply (conn_close_deferred c (nextTxn w) [] w1); rewrite Hconn; reflexivity).
  unfold w2, h. rewrite Hcl. cbn [fst snd].
  split; [ reflexivity | ]. stk_proj. stk_lookup. stk_proj.
  split; [ reflexivity | ]. split; [ reflexivity | ]. split; [ reflexivity | ].
  set (w3 := set_conn c _ _).
  assert (H3 : conns w3 c =
               {| txns := [nextTxn w]; keepOpen := keepOpen (conns w c);
                  closed := true; closeResolve := Some (nextHandle w1) |}
               /\ handles w3 (nextHandle w1) = Pending
               /\ done (txnOf w3 (nextTxn w)) = false
               /\ con (txnOf w3 (nextTxn w)) = c).
  { unfold w3. stk_proj. stk_lookup. stk_proj. stk_lookup. rewrite Hconn.
    auto. }
  destruct H3 as (Hconn3 & Hh3 & Hdone3 & Hcon3).
  split.
  - unfold txn_commit, txn_checkStatus. stk_eval. rewrite Hdone3. cbn [andb].
    stk_eval. stk_lookup. stk_proj.
    rewrite txn_complete_eq by (stk_proj; stk_lookup; reflexivity).
    match goal with |- context [unsubscribed ?t ?w4] =>
      destruct (unsubscribed_data t w4) as (_ & _ & Hc4 & Hcs4 & _ & Hh4 & _);
      set (w5 := unsubscribed t w4) in *
    end.
    unfold bind. stk_proj. stk_lookup. stk_proj.
    rewrite Hc4, Hcon3.
    destruct (conn_txnDone_resolves c (nextTxn w) (nextHandle w1) w5) as [Hr Hf].
    + rewrite Hcs4. stk_proj. rewrite Hconn3. reflexivity.
    + rewrite Hcs4. stk_proj. rewrite Hconn3. reflexivity.
    + rewrite Hh4. stk_proj. exact Hh3.
    + destruct (conn_txnDone c (nextTxn w) w5) as [[ [p | ] | e | ] w6];
        simpl in *; try discriminate. exact Hf.
  - rewrite txn_rollback_unfold. unfold txn_checkStatus. stk_eval.
    rewrite Hdone3. cbn [andb]. stk_eval.
    rewrite txn_complete_eq by (stk_proj; stk_lookup; reflexivity).
    match goal with |- context [unsubscribed ?t ?w4] =>
      destruct (unsubscribed_data t w4) as (_ & _ & Hc4 & Hcs4 & _ & Hh4 & _);
      set (w5 := unsubscribed t w4) in *
    end.
    unfold bind. stk_proj. stk_lookup. stk_proj.
    rewrite Hc4, Hcon3.
    destruct (conn_txnDone_resolves c (nextTxn w) (nextHandle w1) w5) as [Hr Hf].
    + rewrite Hcs4. stk_proj. rewrite Hconn3. reflexivity.
    + rewrite Hcs4. stk_proj. rewrite Hconn3. reflexivity.
    + rewrite Hh4. stk_proj. exact Hh3.
    + destruct (conn_txnDone c (nextTxn w) w5) as [[ [p | ] | e | ] w6];
        simpl in *; try discriminate. exact Hf.
Qed.

Lemma stk_txn_rollback_on_cancel_witness :
  canceler ctx7 = Some 7 /\
  conn_beginTxn 0 ctx7 None world_cancelable
  = (Returned 0, snd (conn_beginTxn 0 ctx7 None world_cancelable)) /\
  TxnCancel 0 ∈ listeners (cancelers (snd (conn_beginTxn 0 ctx7 None world_cancelable)) 7).
Proof.
  assert (H1 : canceler ctx7 = Some 7) by reflexivity.
  assert (H2 : conn_beginTxn 0 ctx7 None world_cancelable
               = (Returned 0, snd (conn_beginTxn 0 ctx7 None world_cancelable)))
    by reflexivity.
  split; [ exact H1 | ]. split; [ exact H2 | ].
  exact (proj1 (stk_txn_rollback_on_cancel 0 ctx7 None 7 world_cancelable _ 0
                  H1 H2)).
Defined.

Lemma stk_close_waits_for_txn_witness :
  txns (conns world_cancelable 0) = [] /\
  conn_beginTxn 0 ctx7 None world_cancelable
  = (Returned 0, snd (conn_beginTxn 0 ctx7 None world_cancelable)) /\
  fst (conn_close 0 (snd (conn_beginTxn 0 ctx7 None world_cancelable)))
  = Returned (HandlePromise 0).
Proof.
  assert (H1 : txns (conns world_cancelable 0) = []) by reflexivity.
  assert (H2 : conn_beginTxn 0 ctx7 None world_cancelable
               = (Returned 0, snd (conn_beginTxn 0 ctx7 None world_cancelable)))
    by reflexivity.
  split; [ exact H1 | ]. split; [ exact H2 | ].
  exact (proj1 (stk_close_waits_for_txn 0 ctx7 None world_cancelable _ 0 H1 H2)).
Defined.

(** 'uses stack' (the test of the fixture): a push on the pool reaches the
    shared stack. *)
Example stk_pool_push_uses_stack :
  fst (pool_push ctx7 (JsStr "a") (openStackPool [])) = Returned 1 /\
  stack (snd (pool_push ctx7 (JsStr "a") (openStackPool []))) = [JsStr "a"].
Proof. vm_compute. split; reflexivity. Qed.

(** *** The done state of a stack transaction is terminal *)

Lemma stk_perform_on_done {V} (a : Call V) t w :
  on_txn t a = true -> done (txnOf w t) = true ->
  perform a w = (Thrown (Error "Transaction is already complete"), w).
Proof.
  intros Ha Hd.
  destruct a; cbn [on_txn] in Ha; try discriminate;
    apply bool_decide_eq_true in Ha; subst; cbn [perform]; unfold bind.
  - rewrite txn_commit_done by assumption. reflexivity.
  - rewrite txn_rollback_done by assumption. reflexivity.
  - rewrite txn_push_eq, Hd. reflexivity.
  - rewrite txn_pop_eq, Hd. reflexivity.
  - rewrite txn_peek_eq, Hd. reflexivity.
Qed.

Lemma stk_run_done_stays {V} (calls : list (Call V)) t w :
  t < nextTxn w -> done (txnOf w t) = true ->
  t < nextTxn (run calls w) /\ done (txnOf (run calls w) t) = true.
Proof.
  intros Ht Hd.
  destruct (stk_keeps_run (done_stays t) calls w) as [Hn Hs].
  split; [ lia | auto ].
Qed.

(** Once a stack transaction has been finished, whether by [commit], by
    [rollback] or by the listener that the cancellation of its context
    calls, it stays done whatever is called afterwards, and every call on
    it ([commit], [rollback], [push], [pop], [peek]) throws 'Transaction is
    already complete' and changes nothing. *)
Theorem stk_txn_done_terminal {V} (t : nat) (w w1 : World)
    (calls : list (Call V)) (a : Call V) :
  t < nextTxn w ->
  done (txnOf w t) = false ->
  w1 = snd (txn_commit t w) \/ w1 = snd (txn_rollback t w) \/
  w1 = snd (txn_cancel t w) ->
  on_txn t a = true ->
  let w2 := run calls w1 in
  done (txnOf w2 t) = true /\
  perform a w2 = (Thrown (Error "Transaction is already complete"), w2).
Proof.
  intros Ht Hd Hfin Ha w2.
  assert (H1 : t < nextTxn w1 /\ done (txnOf w1 t) = true).
  { destruct Hfin as [-> | [-> | ->]].
    - destruct (stk_keeps_txn_commit (done_stays t) t w) as [Hn _].
      split; [ lia | apply txn_commit_stack, Hd ].
    - destruct (stk_keeps_txn_rollback (done_stays t) t w) as [Hn _].
      split; [ lia | apply txn_rollback_stack, Hd ].
    - destruct (stk_keeps_txn_cancel (done_stays t) t w) as [Hn _].
      split; [ lia | apply txn_cancel_sets_done ]. }
  destruct H1 as [Ht1 Hd1].
  destruct (stk_run_done_stays calls t w1 Ht1 Hd1) as [_ Hd2].
  split; [ exact Hd2 | ].
  apply (stk_perform_on_done a t); assumption.
Qed.

(** *** A closed stack connection stays closed *)

Lemma stk_perform_on_closed {V} (a : Call V) c w :
  on_conn c a = true -> closed (conns w c) = true ->
  perform a w = (Thrown (Error "Connection is closed"), w).
Proof.
  intros Ha Hc.
  destruct a; cbn [on_conn] in Ha; try discriminate;
    apply bool_decide_eq_true in Ha; subst; cbn [perform];
    unfold pool_push_resume, pool_pop_resume, pool_peek_resume, finally, bind;
    rewrite ?conn_push_eq, ?conn_pop_eq, ?conn_peek_eq, ?Hc,
      ?stk_conn_close_closed, ?stk_conn_beginTxn_closed by assumption;
    reflexivity.
Qed.

Lemma stk_conn_close_sets_closed c w :
  c < nextConn w -> closed (conns (snd (conn_close c w)) c) = true.
Proof.
  intros Hc. destruct (closed (conns w c)) eqn:Hcl.
  - rewrite stk_conn_close_closed by assumption. exact Hcl.
  - unfold conn_close, conn_checkStatus, new_handle. stk_eval. rewrite Hcl.
    stk_eval. stk_lookup. stk_proj.
    destruct (txns (conns w c)); stk_eval; [ | stk_lookup; reflexivity ].
    match goal with |- context [pool_release c ?w1] =>
      destruct (stk_keeps_pool_release (conn_closed_stays c) c w1) as [_ H];
      destruct (pool_release c w1) as [[ [] | e | ] w2]
    end; cbn [fst snd] in *; apply H; stk_proj; stk_lookup; auto.
Qed.

(** A stack connection that was closed stays closed whatever is called
    afterwards (nothing reopens it), and every call on it ([close] again,
    [beginTxn], [push], [pop], [peek], and the continuation of a pool-level
    call that holds it) throws 'Connection is closed' and changes
    nothing. *)
Theorem stk_conn_closed_terminal {V} (c : nat) (w : World)
    (calls : list (Call V)) (a : Call V) :
  c < nextConn w ->
  on_conn c a = true ->
  let w2 := run calls (snd (conn_close c w)) in
  closed (conns w2 c) = true /\
  perform a w2 = (Thrown (Error "Connection is closed"), w2).
Proof.
  intros Hc Ha w2.
  pose proof (stk_conn_close_sets_closed c w Hc) as H1.
  destruct (stk_keeps_conn_close (conn_closed_stays c) c w) as [Hn _].
  destruct (stk_keeps_run (conn_closed_stays c) calls (snd (conn_close c w)))
    as [_ Hs].
  assert (Hc2 : closed (conns w2 c) = true) by (apply Hs; [ lia | exact H1 ]).
  split; [ exact Hc2 | ].
  apply (stk_perform_on_closed a c); assumption.
Qed.

(** *** The stack pool keeps no track of its connections *)

Lemma stk_pool_close_untracked w :
  untracked w ->
  pool_close w =
  (Returned ResolvedPromise,
   if poolClosed (thePool w) then w else set_pool (pool_with_closed true) w).
Proof.
  intros [Ha Hw]. unfold pool_close. stk_eval.
  destruct (poolClosed (thePool w)).
  - rewrite Hw. reflexivity.
  - stk_eval. rewrite Ha. reflexivity.
Qed.

Lemma stk_step_untracked {V} (a : Call V) w : untracked w -> untracked (step a w).
Proof.
  intros Hu.
  assert (Hother : a <> PoolClose -> untracked (step a w)).
  { intros Hne.
    apply (stk_keeps_perform untracked_stays a); [ contradiction | .. | exact Hu ];
      intros; exact _. }
  destruct a; try (apply Hother; discriminate).
  unfold step, perform, bind. rewrite stk_pool_close_untracked by assumption.
  destruct Hu. destruct (poolClosed (thePool w)); split; assumption.
Qed.

Lemma stk_run_untracked {V} (calls : list (Call V)) w :
  untracked w -> untracked (run calls w).
Proof.
  revert w. induction calls as [ | a calls IH]; intros w Hu; simpl; [ exact Hu | ].
  apply IH, stk_step_untracked, Hu.
Qed.

(** No method ever adds a connection to the active list of a stack pool:
    after any calls on a pool made by [openStackPool] the list is empty and
    no close is pending.  So [close] on the pool asks no connection to
    close: it returns a resolved promise at once and changes nothing but
    the closed flag of the pool, and the connections handed out before are
    as open, and their transactions as unfinished, as they were. *)
Theorem stk_pool_close_signals_no_connection {V} (s : list JsVal)
    (calls : list (Call V)) :
  let w := run calls (openStackPool s) in
  active (thePool w) = [] /\ waitClose (thePool w) = None /\
  pool_close w =
  (Returned ResolvedPromise,
   if poolClosed (thePool w) then w else set_pool (pool_with_closed true) w) /\
  conns (snd (pool_close w)) = conns w /\
  txnOf (snd (pool_close w)) = txnOf w /\
  stack (snd (pool_close w)) = stack w.
Proof.
  intros w.
  assert (Hu : untracked w) by (apply stk_run_untracked; split; reflexivity).
  destruct Hu as [Ha Hw].
  split; [ exact Ha | ]. split; [ exact Hw | ].
  rewrite stk_pool_close_untracked by (split; assumption).
  split; [ reflexivity | ].
  destruct (poolClosed (thePool w)); repeat split.
Qed.

(** *** The view of a stack transaction *)

Lemma stk_conn_beginTxn_new {V} c (ctx : Context V) opts w t w1 :
  conn_beginTxn c ctx opts w = (Returned t, w1) ->
  t = nextTxn w /\ nextTxn w1 = S t /\ stack w1 = stack w /\
  snap (txnOf w1 t) = stack w /\ ops (txnOf w1 t) = [] /\
  readonly (txnOf w1 t) = readOnly_is_true opts /\
  done (txnOf w1 t) = false /\ con (txnOf w1 t) = c /\
  closed (conns w c) = false.
Proof.
  destruct (closed (conns w c)) eqn:Hc.
  - rewrite stk_conn_beginTxn_closed by assumption. discriminate.
  - rewrite stk_conn_beginTxn_eq by assumption. intros [= <- <-].
    unfold new_txn, clr_onCancel. stk_eval.
    destruct (canceler ctx); stk_eval; stk_lookup; stk_proj; stk_lookup;
      stk_proj; repeat split.
Qed.

Lemma stk_step_same_stack {V} (a : Call V) w :
  mutates a = false -> stack (step a w) = stack w.
Proof.
  intros Hm.
  apply (stk_keeps_perform same_stack a); intros; try exact _.
  congruence.
Qed.

Lemma stk_run_same_stack {V} (calls : list (Call V)) w :
  Forall (fun a => mutates a = false) calls -> stack (run calls w) = stack w.
Proof.
  intros H. revert w. induction H as [ | a calls Ha _ IH]; intros w; simpl.
  - reflexivity.
  - rewrite IH. apply stk_step_same_stack, Ha.
Qed.

Lemma stk_step_same_view {V} (a : Call V) t w :
  buffers t a = false -> same_view t w (step a w).
Proof.
  intros Hb.
  destruct a; cbn [buffers] in Hb;
    try (apply (stk_keeps_perform (same_view t)); intros; try exact _;
         match goal with
         | H : exists _, _ |- _ => destruct H as [? H]; discriminate H
         | H : _ = PoolClose |- _ => discriminate H
         | H : mutates _ = true |- _ => discriminate H
         end).
  - apply bool_decide_eq_false in Hb. unfold step, perform, bind.
    rewrite txn_push_eq.
    destruct (done (txnOf w t0)); [ reflexivity | ].
    destruct (readonly (txnOf w t0)); [ reflexivity | ].
    unfold ret. split; stk_proj; [ lia | ]. intros _. stk_lookup. auto.
  - apply bool_decide_eq_false in Hb. unfold step, perform, bind.
    rewrite txn_pop_eq.
    destruct (done (txnOf w t0)); [ reflexivity | ].
    destruct (readonly (txnOf w t0)); [ reflexivity | ].
    unfold ret. split; stk_proj; [ lia | ]. intros _. stk_lookup. auto.
Qed.

Lemma stk_step_view {V} (a : Call V) t s0 w :
  t < nextTxn w -> view_of s0 (txnOf w t) ->
  t < nextTxn (step a w) /\ view_of s0 (txnOf (step a w) t) /\
  readonly (txnOf (step a w) t) = readonly (txnOf w t).
Proof.
  intros Ht Hv.
  destruct (buffers t a) eqn:Hb.
  - destruct a; cbn [buffers] in Hb; try discriminate;
      apply bool_decide_eq_true in Hb; subst; unfold step, perform, bind.
    + rewrite txn_push_eq.
      destruct (done (txnOf w t)); [ auto | ].
      destruct (readonly (txnOf w t)) eqn:Hr; [ auto | ].
      unfold ret. stk_proj. stk_lookup. stk_proj. stk_lookup. stk_proj.
      split; [ exact Ht | ]. split; [ | exact Hr ].
      unfold view_of in *. stk_proj. rewrite fold_left_app, <- Hv. reflexivity.
    + rewrite txn_pop_eq.
      destruct (done (txnOf w t)); [ auto | ].
      destruct (readonly (txnOf w t)) eqn:Hr; [ auto | ].
      unfold ret. stk_proj. stk_lookup. stk_proj. stk_lookup. stk_proj.
      split; [ exact Ht | ]. split; [ | exact Hr ].
      unfold view_of in *. stk_proj. rewrite fold_left_app, <- Hv. reflexivity.
  - destruct (stk_step_same_view a t w Hb) as [Hn Hs].
    destruct (Hs Ht) as (H1 & H2 & H3).
    split; [ lia | ]. split; [ | exact H3 ].
    unfold view_of in *. rewrite H1, H2. exact Hv.
Qed.

Lemma stk_run_view {V} (calls : list (Call V)) t s0 w :
  t < nextTxn w -> view_of s0 (txnOf w t) ->
  t < nextTxn (run calls w) /\ view_of s0 (txnOf (run calls w) t) /\
  readonly (txnOf (run calls w) t) = readonly (txnOf w t).
Proof.
  revert w. induction calls as [ | a calls IH]; intros w Ht Hv; simpl; [ auto | ].
  destruct (stk_step_view a t s0 w Ht Hv) as (H1 & H2 & H3).
  destruct (IH _ H1 H2) as (H4 & H5 & H6).
  split; [ exact H4 | ]. split; [ exact H5 | congruence ].
Qed.

Lemma stk_view_after_run {V} (c : nat) (ctx : Context V)
    (opts : option TxnOptions) (w0 w1 : World) (t : nat)
    (calls : list (Call V)) :
  conn_beginTxn c ctx opts w0 = (Returned t, w1) ->
  let w := run calls w1 in
  snap (txnOf w t) = fold_left apply_op (ops (txnOf w t)) (stack w0) /\
  (Forall (fun a => mutates a = false) calls -> stack w = stack w0).
Proof.
  intros Hb w.
  destruct (stk_conn_beginTxn_new c ctx opts w0 t w1 Hb)
    as (-> & Hn & Hs & Hsnap & Hops & _).
  assert (Hv : view_of (stack w0) (txnOf w1 (nextTxn w0))).
  { unfold view_of. rewrite Hsnap, Hops. reflexivity. }
  destruct (stk_run_view calls (nextTxn w0) (stack w0) w1 ltac:(lia) Hv)
    as (_ & Hv' & _).
  split; [ exact Hv' | ].
  intros Hm. unfold w. rewrite stk_run_same_stack by assumption. exact Hs.
Qed.

(** Snapshot isolation of a stack transaction.  The transaction works on
    the copy of the shared stack that its constructor took: after any calls
    whatsoever, on it or on anything else, its copy is the stack as it was
    when the transaction began with the transaction's own buffered
    operations applied in order, whatever has been written to the shared
    stack since; while the transaction is open [peek] returns the last
    element of that copy.  As long as no connection writes and no
    transaction commits, the shared stack stays as it was. *)
Theorem stk_txn_snapshot_isolation {V} (c : nat) (ctx : Context V)
    (opts : option TxnOptions) (w0 w1 : World) (t : nat)
    (calls : list (Call V)) :
  conn_beginTxn c ctx opts w0 = (Returned t, w1) ->
  let w := run calls w1 in
  snap (txnOf w t) = fold_left apply_op (ops (txnOf w t)) (stack w0) /\
  (done (txnOf w t) = false ->
   txn_peek t w =
   (Returned (array_last (fold_left apply_op (ops (txnOf w t)) (stack w0))), w)) /\
  (Forall (fun a => mutates a = false) calls -> stack w = stack w0).
Proof.
  intros Hb w.
  destruct (stk_view_after_run c ctx opts w0 w1 t calls Hb)
    as [Hv Hsame].
  fold w in Hv, Hsame.
  split; [ exact Hv | ]. split; [ | exact Hsame ].
  intros Hd. rewrite txn_peek_eq, Hd, Hv. reflexivity.
Qed.

(** Commit of a stack transaction.  [commit] on an open transaction
    replays the buffered operations, in order, on the shared stack as it
    is at that moment, not on the copy: what other connections wrote since
    the transaction began stays underneath.  When nothing was written to
    the shared stack since the transaction began, the shared stack after
    [commit] is the transaction's copy, that is, what the transaction
    itself was reading. *)
Theorem stk_commit_replays_ops {V} (c : nat) (ctx : Context V)
    (opts : option TxnOptions) (w0 w1 : World) (t : nat)
    (calls : list (Call V)) :
  conn_beginTxn c ctx opts w0 = (Returned t, w1) ->
  let w := run calls w1 in
  done (txnOf w t) = false ->
  let w' := snd (txn_commit t w) in
  stack w' = fold_left apply_op (ops (txnOf w t)) (stack w) /\
  done (txnOf w' t) = true /\
  (Forall (fun a => mutates a = false) calls -> stack w' = snap (txnOf w t)).
Proof.
  intros Hb w Hd w'.
  destruct (txn_commit_stack t w Hd) as [Hs Hd'].
  split; [ exact Hs | ]. split; [ exact Hd' | ].
  intros Hm.
  destruct (stk_view_after_run c ctx opts w0 w1 t calls Hb)
    as [Hv Hsame].
  fold w in Hv, Hsame. unfold w'. rewrite Hs, Hv, (Hsame Hm). reflexivity.
Qed.

(** *** Read-only stack transactions *)

Lemma stk_step_readonly {V} (a : Call V) t w :
  readonly (txnOf w t) = true -> same_view t w (step a w).
Proof.
  intros Hr. destruct (buffers t a) eqn:Hb; [ | apply stk_step_same_view, Hb ].
  destruct a; cbn [buffers] in Hb; try discriminate;
    apply bool_decide_eq_true in Hb; subst; unfold step, perform, bind.
  - rewrite txn_push_eq, Hr. destruct (done (txnOf w t)); reflexivity.
  - rewrite txn_pop_eq, Hr. destruct (done (txnOf w t)); reflexivity.
Qed.

Lemma stk_run_readonly {V} (calls : list (Call V)) t w :
  t < nextTxn w -> readonly (txnOf w t) = true -> same_view t w (run calls w).
Proof.
  revert w. induction calls as [ | a calls IH]; intros w Ht Hr; simpl.
  - reflexivity.
  - pose proof (stk_step_readonly a t w Hr) as H1.
    etransitivity; [ exact H1 | ].
    destruct H1 as [Hn Hs]. destruct (Hs Ht) as (_ & _ & Hr').
    apply IH; [ lia | congruence ].
Qed.

(** A stack transaction begun with [readOnly: true] never writes.  After
    any calls whatsoever it has buffered no operation and its copy is the
    stack as it was when it began; [push] and [pop] on it throw (the
    read-only error while it is open) and change nothing, and its [commit]
    leaves the shared stack as it is. *)
Theorem stk_readonly_txn_never_writes {V} (c : nat) (ctx : Context V)
    (opts : option TxnOptions) (w0 w1 : World) (t : nat)
    (calls : list (Call V)) (val : JsVal) :
  readOnly_is_true opts = true ->
  conn_beginTxn c ctx opts w0 = (Returned t, w1) ->
  let w := run calls w1 in
  ops (txnOf w t) = [] /\ snap (txnOf w t) = stack w0 /\
  stack (snd (txn_commit t w)) = stack w /\
  (done (txnOf w t) = false ->
   txn_push t ctx val w =
     (Thrown (Error "Cannot push or pop: Transaction is read-only"), w) /\
   txn_pop t w =
     (Thrown (Error "Cannot push or pop: Transaction is read-only"), w) /\
   txn_peek t w = (Returned (array_last (stack w0)), w)).
Proof.
  intros Hro Hb w.
  destruct (stk_conn_beginTxn_new c ctx opts w0 t w1 Hb)
    as (-> & Hn & Hs & Hsnap & Hops & Hr & _).
  rewrite Hro in Hr.
  destruct (stk_run_readonly calls (nextTxn w0) w1 ltac:(lia) Hr) as [_ Hv].
  destruct (Hv ltac:(lia)) as (H1 & H2 & H3). fold w in H1, H2, H3.
  rewrite Hsnap in H1. rewrite Hops in H2. rewrite Hr in H3.
  split; [ exact H2 | ]. split; [ exact H1 | ]. split.
  - destruct (done (txnOf w (nextTxn w0))) eqn:Hd.
    + rewrite txn_commit_done by assumption. reflexivity.
    + destruct (txn_commit_stack (nextTxn w0) w Hd) as [Hc _].
      rewrite Hc, H2. reflexivity.
  - intros Hd. rewrite txn_push_eq, txn_pop_eq, txn_peek_eq, Hd, H3, H1. auto.
Qed.

(** *** The connection of a stack transaction when the transaction ends *)

Lemma stk_step_uses {V} (a : Call V) t w :
  uses t a = true ->
  step a w = w \/
  exists f g, step a w = set_txn t (txn_with_snap f) (set_txn t (txn_with_ops g) w).
Proof.
  intros Hu. destruct a; cbn [uses] in Hu; try discriminate;
    apply bool_decide_eq_true in Hu; subst; unfold step, perform, bind.
  - rewrite txn_push_eq.
    destruct (done (txnOf w t)); [ auto | ].
    destruct (readonly (txnOf w t)); [ auto | ]. right. eauto.
  - rewrite txn_pop_eq.
    destruct (done (txnOf w t)); [ auto | ].
    destruct (readonly (txnOf w t)); [ auto | ]. right. eauto.
  - rewrite txn_peek_eq. destruct (done (txnOf w t)); auto.
Qed.

Lemma stk_run_uses {V} (calls : list (Call V)) t w :
  Forall (fun a => uses t a = true) calls ->
  let w' := run calls w in
  conns w' = conns w /\ nextConn w' = nextConn w /\
  done (txnOf w' t) = done (txnOf w t) /\ con (txnOf w' t) = con (txnOf w t).
Proof.
  intros H. revert w. induction H as [ | a calls Ha _ IH]; intros w; simpl.
  - auto.
  - destruct (IH (step a w)) as (H1 & H2 & H3 & H4).
    rewrite H1, H2, H3, H4.
    destruct (stk_step_uses a t w Ha) as [-> | (f & g & ->)]; [ auto | ].
    stk_proj. stk_lookup. stk_proj. stk_lookup. auto.
Qed.

Lemma stk_conn_txnDone_last c t w :
  c < nextConn w ->
  txns (conns w c) = [t] -> closeResolve (conns w c) = None ->
  closed (conns w c) = false ->
  closed (conns (snd (conn_txnDone c t w)) c) = negb (keepOpen (conns w c)).
Proof.
  intros Hc Ht Hr Hcl. unfold conn_txnDone. stk_eval. rewrite Ht.
  cbn [indexOf]. destruct (decide (t = t)) as [_ | ]; [ | contradiction ].
  stk_eval. stk_lookup. stk_proj. rewrite Ht, Hr.
  change (delete 0 [t]) with (@nil nat).
  destruct (keepOpen (conns w c)); cbn [negb].
  - stk_eval. stk_lookup. exact Hcl.
  - match goal with |- context [conn_close c ?w1] =>
      pose proof (stk_conn_close_sets_closed c w1 Hc) as H;
      destruct (conn_close c w1) as [[p | e | ] w2]
    end; exact H.
Qed.

Lemma stk_finish_conn t w :
  let tx := txnOf w t in
  con tx < nextConn w -> done tx = false ->
  txns (conns w (con tx)) = [t] -> closeResolve (conns w (con tx)) = None ->
  closed (conns w (con tx)) = false ->
  closed (conns (snd (txn_commit t w)) (con tx)) = negb (keepOpen (conns w (con tx))) /\
  closed (conns (snd (txn_rollback t w)) (con tx)) = negb (keepOpen (conns w (con tx))).
Proof.
  intros tx Hc Hd Ht Hr Hcl.
  assert (Hfin : forall w1,
            done (txnOf w1 t) = true -> con (txnOf w1 t) = con tx ->
            conns w1 = conns w -> nextConn w1 = nextConn w ->
            closed (conns (snd (txn_complete t w1)) (con tx)) =
            negb (keepOpen (conns w (con tx)))).
  { intros w1 Hd1 Hc1 Hcs Hn.
    rewrite txn_complete_eq by assumption.
    destruct (unsubscribed_data t w1) as (_ & _ & Hc2 & Hcs2 & _).
    rewrite Hc2, Hc1.
    assert (Hn2 : nextConn (unsubscribed t w1) = nextConn w1).
    { unfold unsubscribed. destruct (onCancel (txnOf w1 t)); [ | reflexivity ].
      destruct (clr (txnOf w1 t)); reflexivity. }
    pose proof (stk_conn_txnDone_last (con tx) t (unsubscribed t w1)) as H.
    rewrite Hcs2, Hcs, Hn2, Hn in H. specialize (H Hc Ht Hr Hcl).
    unfold bind.
    destruct (conn_txnDone (con tx) t (unsubscribed t w1)) as [[[p | ] | e | ] w2];
      exact H. }
  split.
  - unfold txn_commit. unfold bind at 1. rewrite txn_checkStatus_eq.
    fold tx. rewrite Hd. cbn [andb]. stk_eval.
    apply Hfin; stk_proj; stk_lookup; reflexivity.
  - rewrite txn_rollback_unfold. unfold bind at 1. rewrite txn_checkStatus_eq.
    fold tx. rewrite Hd. cbn [andb]. stk_eval.
    apply Hfin; stk_proj; stk_lookup; reflexivity.
Qed.

Lemma stk_new_conn_beginTxn {V} keep (ctx : Context V) opts w t w1 :
  (let* c := new_conn keep in conn_beginTxn c ctx opts) w = (Returned t, w1) ->
  let c := nextConn w in
  c < nextConn w1 /\ con (txnOf w1 t) = c /\ done (txnOf w1 t) = false /\
  txns (conns w1 c) = [t] /\ closeResolve (conns w1 c) = None /\
  closed (conns w1 c) = false /\ keepOpen (conns w1 c) = keep.
Proof.
  unfold bind, new_conn. cbn [fst snd].
  rewrite stk_conn_beginTxn_eq by (stk_proj; stk_lookup; reflexivity).
  intros [= <- <-]. unfold new_txn, clr_onCancel. stk_eval.
  destruct (canceler ctx); stk_eval; stk_lookup; stk_proj; stk_lookup; stk_proj;
    repeat split; lia.
Qed.

(** The transient connection of [MemStackPool.beginTxn].  The pool begins
    the transaction on a connection of its own, made for it; while the
    transaction is only used ([push], [pop], [peek]) that connection stays
    open, and [commit] as well as [rollback] close it. *)
Theorem stk_pool_txn_closes_its_connection {V} (ctx : Context V)
    (opts : option TxnOptions) (w w1 : World) (t : nat)
    (calls : list (Call V)) :
  pool_beginTxn ctx opts w = (Returned t, w1) ->
  Forall (fun a => uses t a = true) calls ->
  let c := nextConn w in
  let w2 := run calls w1 in
  con (txnOf w2 t) = c /\ closed (conns w2 c) = false /\
  closed (conns (snd (txn_commit t w2)) c) = true /\
  closed (conns (snd (txn_rollback t w2)) c) = true.
Proof.
  intros Hb Hu c w2.
  assert (Hb' : (let* c := new_conn false in conn_beginTxn c ctx opts) w
                = (Returned t, w1)).
  { revert Hb. unfold pool_beginTxn, pool_checkStatus. unfold bind at 1 2.
    cbn [gets fst snd]. destruct (poolClosed (thePool w)); [ discriminate | ].
    cbn [ret fst snd]. auto. }
  destruct (stk_new_conn_beginTxn false ctx opts w t w1 Hb')
    as (Hc & Hcon & Hd & Ht & Hr & Hcl & Hk).
  destruct (stk_run_uses calls t w1 Hu) as (H1 & H2 & H3 & H4).
  fold w2 in H1, H2, H3, H4. fold c in Hc, Hcon, Ht, Hr, Hcl, Hk.
  assert (Hcon2 : con (txnOf w2 t) = c) by congruence.
  split; [ exact Hcon2 | ]. split; [ rewrite H1; exact Hcl | ].
  pose proof (stk_finish_conn t w2) as Hfin. cbv zeta in Hfin.
  rewrite Hcon2, H1, H2, H3, Hk in Hfin.
  apply Hfin; assumption.
Qed.

(** A connection obtained with [conn] stays open when one of its
    transactions ends: [commit] and [rollback] of the transaction leave it
    open. *)
Theorem stk_conn_txn_leaves_connection_open {V} (ctx : Context V)
    (opts : option TxnOptions) (w w1 w2 : World) (c t : nat)
    (calls : list (Call V)) :
  pool_conn w = (Returned c, w1) ->
  conn_beginTxn c ctx opts w1 = (Returned t, w2) ->
  Forall (fun a => uses t a = true) calls ->
  let w3 := run calls w2 in
  closed (conns (snd (txn_commit t w3)) c) = false /\
  closed (conns (snd (txn_rollback t w3)) c) = false.
Proof.
  intros Hp Hb Hu w3.
  assert (Hb' : (let* c := new_conn true in conn_beginTxn c ctx opts) w
                = (Returned t, w2) /\ c = nextConn w).
  { revert Hp. unfold pool_conn, pool_checkStatus. unfold bind at 1 2.
    cbn [gets fst snd]. destruct (poolClosed (thePool w)); [ discriminate | ].
    cbn [ret fst snd]. unfold new_conn at 1. intros [= <- <-].
    unfold bind, new_conn. cbn [fst snd]. auto. }
  destruct Hb' as [Hb' ->].
  destruct (stk_new_conn_beginTxn true ctx opts w t w2 Hb')
    as (Hc & Hcon & Hd & Ht & Hr & Hcl & Hk).
  destruct (stk_run_uses calls t w2 Hu) as (H1 & H2 & H3 & H4).
  fold w3 in H1, H2, H3, H4.
  assert (Hcon2 : con (txnOf w3 t) = nextConn w) by congruence.
  pose proof (stk_finish_conn t w3) as Hfin. cbv zeta in Hfin.
  rewrite Hcon2, H1, H2, H3, Hk in Hfin.
  apply Hfin; assumption.
Qed.

(** *** Last in, first out *)

Lemma array_pop_push (s : list JsVal) v : array_pop (s ++ [v]) = s.
Proof. apply removelast_last. Qed.

Lemma array_last_push (s : list JsVal) v : array_last (s ++ [v]) = v.
Proof. apply last_last. Qed.

Lemma stk_conn_push_all_eq {V} c (ctx : Context V) vals w :
  closed (conns w c) = false ->
  conn_push_all c ctx vals w = (Returned tt, set_stack (fun s => s ++ vals) w).
Proof.
  revert w. induction vals as [ | v vals IH]; intros w Hc; simpl.
  - unfold ret, set_stack. rewrite app_nil_r. destruct w; reflexivity.
  - unfold bind. rewrite conn_push_eq, Hc, IH by (stk_proj; exact Hc).
    unfold set_stack. stk_proj. rewrite <- app_assoc. reflexivity.
Qed.

Lemma stk_conn_pop_times_eq c (vals : list JsVal) : forall w s,
  closed (conns w c) = false ->
  stack w = s ++ vals ->
  conn_pop_times c (length vals) w =
  (Returned (rev vals), set_stack (fun _ => s) w).
Proof.
  induction vals as [ | v vals IH] using rev_ind; intros w s Hc Hs.
  - simpl. rewrite app_nil_r in Hs. unfold ret, set_stack. rewrite <- Hs.
    destruct w; reflexivity.
  - rewrite length_app, Nat.add_comm. cbn [length Nat.add conn_pop_times].
    unfold bind at 1. rewrite conn_pop_eq, Hc.
    rewrite app_assoc in Hs. rewrite Hs, array_last_push.
    unfold bind.
    rewrite (IH _ s) by (stk_proj; rewrite ?Hs, ?array_pop_push; auto).
    unfold ret. rewrite rev_app_distr. reflexivity.
Qed.

(** Last in, first out on a connection.  On open connections, after the
    values [vals] are pushed one after the other through one connection,
    as many [pop]s through another (or the same) return them in reverse
    order and leave the shared stack as it was before; [push] returns the
    new length of the stack.  On an empty stack [pop] and [peek] return
    undefined and the stack stays empty. *)
Theorem stk_conn_push_pop_lifo {V} (c1 c2 : nat) (ctx : Context V)
    (vals : list JsVal) (val : JsVal) (w : World) :
  closed (conns w c1) = false ->
  closed (conns w c2) = false ->
  fst (conn_push c1 ctx val w) = Returned (S (length (stack w))) /\
  (let w1 := snd (conn_push_all c1 ctx vals w) in
   stack w1 = stack w ++ vals /\
   fst (conn_pop_times c2 (length vals) w1) = Returned (rev vals) /\
   stack (snd (conn_pop_times c2 (length vals) w1)) = stack w) /\
  (stack w = [] ->
   conn_peek c2 w = (Returned undefined, w) /\
   fst (conn_pop c2 w) = Returned undefined /\
   stack (snd (conn_pop c2 w)) = []).
Proof.
  intros Hc1 Hc2. split; [ | split ].
  - rewrite conn_push_eq, Hc1. cbn [fst]. rewrite length_app, Nat.add_comm.
    reflexivity.
  - rewrite stk_conn_push_all_eq by assumption. cbn [snd]. stk_proj.
    split; [ reflexivity | ].
    rewrite (stk_conn_pop_times_eq c2 vals _ (stack w)) by (stk_proj; auto).
    split; reflexivity.
  - intros Hs. rewrite conn_peek_eq, conn_pop_eq, Hc2, Hs. stk_proj.
    rewrite Hs. repeat split.
Qed.

(** *** Operations invoked on the pool *)

Lemma stk_pool_conn_eq w :
  pool_conn w =
  if poolClosed (thePool w) then (Thrown (Error "Pool is closed"), w)
  else (Returned (nextConn w),
        bump_conn (set_conn (nextConn w)
          (fun _ => {| txns := []; keepOpen := true; closed := false;
                       closeResolve := None |}) w)).
Proof.
  unfold pool_conn, pool_checkStatus, new_conn. stk_eval.
  destruct (poolClosed (thePool w)); reflexivity.
Qed.

Lemma pool_release_conns c w : conns (snd (pool_release c w)) = conns w.
Proof.
  unfold pool_release, handle_resolve. stk_eval. stk_cases; reflexivity.
Qed.

Lemma stk_conn_close_fresh c w :
  closed (conns w c) = false -> txns (conns w c) = [] ->
  fst (conn_close c w) = Returned ResolvedPromise /\
  stack (snd (conn_close c w)) = stack w /\
  closed (conns (snd (conn_close c w)) c) = true.
Proof.
  intros Hc Ht. destruct (conn_close_data c w) as (Hs & _).
  split; [ | split; [ exact Hs | ] ];
    unfold conn_close, conn_checkStatus; stk_eval; rewrite Hc; stk_eval;
    stk_lookup; stk_proj; rewrite Ht; stk_eval;
    match goal with |- context [pool_release c ?w1] =>
      pose proof (pool_release_returns c w1) as H;
      pose proof (pool_release_conns c w1) as H';
      destruct (pool_release c w1) as [[ [] | e | ] w2]
    end; cbn [fst snd] in *; try congruence.
  rewrite H'. stk_proj. stk_lookup. reflexivity.
Qed.

Lemma stk_pool_call_eq {A} (k : nat -> ST A) w :
  (pool_checkStatus >>> let* c := pool_conn in k c) w =
  if poolClosed (thePool w) then (Thrown (Error "Pool is closed"), w)
  else k (nextConn w)
         (bump_conn (set_conn (nextConn w)
            (fun _ => {| txns := []; keepOpen := true; closed := false;
                         closeResolve := None |}) w)).
Proof.
  unfold pool_checkStatus. unfold bind at 1 2. cbn [gets fst snd].
  destruct (poolClosed (thePool w)) eqn:Hp; [ reflexivity | ].
  cbn [ret]. unfold bind. rewrite stk_pool_conn_eq, Hp. reflexivity.
Qed.

Lemma stk_finally_close {A} (m : ST A) (a : A) c w w' :
  m w = (Returned a, w') ->
  closed (conns w' c) = false -> txns (conns w' c) = [] ->
  fst (finally m (conn_close c) w) = Returned a /\
  stack (snd (finally m (conn_close c) w)) = stack w' /\
  closed (conns (snd (finally m (conn_close c) w)) c) = true.
Proof.
  intros Hm Hc Ht. unfold finally. rewrite Hm.
  destruct (stk_conn_close_fresh c w' Hc Ht) as (H1 & H2 & H3).
  destruct (conn_close c w') as [[p | e | ] w2]; cbn [fst snd] in *;
    try discriminate.
  auto.
Qed.

(** A call on the pool itself.  On a closed pool [push], [pop] and [peek]
    throw 'Pool is closed' and change nothing.  On an open pool each makes
    a connection of its own, runs the operation of that name on it and
    closes it: the result and the shared stack are those of the operation
    on a connection ([push] appends and returns the new length, [pop]
    removes and returns the last element, [peek] returns it), and the
    connection made for the call is closed when the call is over. *)
Theorem stk_pool_call_uses_own_connection {V} (ctx : Context V) (val : JsVal)
    (w : World) :
  let c := nextConn w in
  let w1 := snd (pool_push ctx val w) in
  let w2 := snd (pool_pop w) in
  let w3 := snd (pool_peek w) in
  if poolClosed (thePool w) then
    pool_push ctx val w = (Thrown (Error "Pool is closed"), w) /\
    pool_pop w = (Thrown (Error "Pool is closed"), w) /\
    pool_peek w = (Thrown (Error "Pool is closed"), w)
  else
    (fst (pool_push ctx val w) = Returned (S (length (stack w))) /\
     stack w1 = stack w ++ [val] /\ closed (conns w1 c) = true) /\
    (fst (pool_pop w) = Returned (array_last (stack w)) /\
     stack w2 = array_pop (stack w) /\ closed (conns w2 c) = true) /\
    (fst (pool_peek w) = Returned (array_last (stack w)) /\
     stack w3 = stack w /\ closed (conns w3 c) = true).
Proof.
  intros c w1 w2 w3. subst w1 w2 w3.
  unfold pool_push, pool_pop, pool_peek. rewrite !stk_pool_call_eq.
  destruct (poolClosed (thePool w)) eqn:Hp; [ auto | ]. fold c.
  set (w0 := bump_conn (set_conn c _ w)).
  assert (Hc : closed (conns w0 c) = false)
    by (unfold w0; stk_proj; stk_lookup; reflexivity).
  assert (Ht : txns (conns w0 c) = [])
    by (unfold w0; stk_proj; stk_lookup; reflexivity).
  assert (Hs : stack w0 = stack w) by reflexivity.
  split; [ | split ].
  - destruct (stk_finally_close (conn_push c ctx val)
                (length (stack w0 ++ [val])) c w0
                (set_stack (fun s => s ++ [val]) w0)) as (H1 & H2 & H3);
      [ rewrite conn_push_eq, Hc; reflexivity | exact Hc | exact Ht | ].
    rewrite H1, H2. split; [ | split; [ rewrite <- Hs; reflexivity | exact H3 ] ].
    rewrite Hs, length_app, Nat.add_comm. reflexivity.
  - destruct (stk_finally_close (conn_pop c) (array_last (stack w0)) c w0
                (set_stack array_pop w0)) as (H1 & H2 & H3);
      [ rewrite conn_pop_eq, Hc; reflexivity | exact Hc | exact Ht | ].
    rewrite H1, H2, Hs. split; [ reflexivity | ].
    split; [ rewrite <- Hs; reflexivity | exact H3 ].
  - destruct (stk_finally_close (conn_peek c) (array_last (stack w0)) c w0 w0)
      as (H1 & H2 & H3);
      [ rewrite conn_peek_eq, Hc; reflexivity | exact Hc | exact Ht | ].
    rewrite H1, H2, Hs. split; [ reflexivity | ].
    split; [ reflexivity | exact H3 ].
Qed.

(** *** Finishing the only transaction of an open connection *)

Lemma stk_conn_txnDone_returns c t w :
  txns (conns w c) = [t] -> closeResolve (conns w c) = None ->
  closed (conns w c) = false ->
  exists p, fst (conn_txnDone c t w) = Returned p /\
            (p = None \/ p = Some ResolvedPromise).
Proof.
  intros Ht Hr Hcl. unfold conn_txnDone. stk_eval. rewrite Ht.
  cbn [indexOf]. destruct (decide (t = t)) as [_ | ]; [ | contradiction ].
  stk_eval. stk_lookup. stk_proj. rewrite Ht, Hr.
  change (delete 0 [t]) with (@nil nat).
  destruct (keepOpen (conns w c)); cbn [negb].
  - exists None. auto.
  - match goal with |- context [conn_close c ?w1] =>
      destruct (stk_conn_close_fresh c w1) as (H & _);
        [ stk_proj; stk_lookup; exact Hcl
        | stk_proj; stk_lookup; stk_proj; rewrite Ht; reflexivity | ];
      destruct (conn_close c w1) as [[p | e | ] w2]
    end; cbn [fst] in *; try discriminate.
    injection H as ->. exists (Some ResolvedPromise). auto.
Qed.

Lemma stk_finish_returns t w :
  let tx := txnOf w t in
  done tx = false ->
  txns (conns w (con tx)) = [t] -> closeResolve (conns w (con tx)) = None ->
  closed (conns w (con tx)) = false ->
  fst (txn_commit t w) = Returned ResolvedPromise /\
  fst (txn_rollback t w) = Returned ResolvedPromise.
Proof.
  intros tx Hd Ht Hr Hcl.
  assert (Hfin : forall w1,
            done (txnOf w1 t) = true -> con (txnOf w1 t) = con tx ->
            conns w1 = conns w ->
            fst (txn_complete t w1) = Returned ResolvedPromise).
  { intros w1 Hd1 Hc1 Hcs.
    rewrite txn_complete_eq by assumption.
    destruct (unsubscribed_data t w1) as (_ & _ & Hc2 & Hcs2 & _).
    rewrite Hc2, Hc1.
    destruct (stk_conn_txnDone_returns (con tx) t (unsubscribed t w1))
      as (p & Hp & Hcase); rewrite ?Hcs2, ?Hcs; try assumption.
    unfold bind.
    destruct (conn_txnDone (con tx) t (unsubscribed t w1)) as [[q | e | ] w2];
      cbn [fst] in Hp; try discriminate.
    injection Hp as ->. destruct Hcase as [-> | ->]; reflexivity. }
  split.
  - unfold txn_commit. unfold bind at 1. rewrite txn_checkStatus_eq.
    fold tx. rewrite Hd. cbn [andb]. stk_eval.
    apply Hfin; stk_proj; stk_lookup; reflexivity.
  - rewrite txn_rollback_unfold. unfold bind at 1. rewrite txn_checkStatus_eq.
    fold tx. rewrite Hd. cbn [andb]. stk_eval.
    apply Hfin; stk_proj; stk_lookup; reflexivity.
Qed.


(** *** The properties above on examples *)

Lemma stk_txn_done_terminal_witness :
  0 < nextTxn stk_world_txn /\
  done (txnOf stk_world_txn 0) = false /\
  on_txn 0 (TxnPeek (V := unit) 0) = true /\
  perform (TxnPeek (V := unit) 0)
    (run [ConnPeek (V := unit) 0] (snd (txn_commit 0 stk_world_txn)))
  = (Thrown (Error "Transaction is already complete"),
     run [ConnPeek (V := unit) 0] (snd (txn_commit 0 stk_world_txn))).
Proof.
  assert (H1 : 0 < nextTxn stk_world_txn) by (vm_compute; lia).
  assert (H2 : done (txnOf stk_world_txn 0) = false) by reflexivity.
  assert (H3 : on_txn 0 (TxnPeek (V := unit) 0) = true) by reflexivity.
  split; [ exact H1 | ]. split; [ exact H2 | ]. split; [ exact H3 | ].
  exact (proj2 (stk_txn_done_terminal 0 stk_world_txn _ [ConnPeek 0] (TxnPeek 0)
                  H1 H2 (or_introl eq_refl) H3)).
Defined.

Lemma stk_conn_closed_terminal_witness :
  0 < nextConn world_cancelable /\
  on_conn 0 (ConnPush (V := unit) 0 background (JsStr "c")) = true /\
  perform (ConnPush (V := unit) 0 background (JsStr "c"))
    (run [PoolConn (V := unit)] (snd (conn_close 0 world_cancelable)))
  = (Thrown (Error "Connection is closed"),
     run [PoolConn (V := unit)] (snd (conn_close 0 world_cancelable))).
Proof.
  assert (H1 : 0 < nextConn world_cancelable) by (vm_compute; lia).
  assert (H2 : on_conn 0 (ConnPush (V := unit) 0 background (JsStr "c")) = true)
    by reflexivity.
  split; [ exact H1 | ]. split; [ exact H2 | ].
  exact (proj2 (stk_conn_closed_terminal 0 world_cancelable [PoolConn]
                  (ConnPush 0 background (JsStr "c")) H1 H2)).
Defined.

Lemma stk_txn_snapshot_isolation_witness :
  conn_beginTxn 0 (background : Context unit) None world_cancelable
  = (Returned 0, stk_world_txn) /\
  txn_peek 0 (run [ConnPush 0 (background : Context unit) (JsStr "c"); TxnPop 0]
                stk_world_txn)
  = (Returned (JsStr "a"),
     run [ConnPush 0 (background : Context unit) (JsStr "c"); TxnPop 0]
       stk_world_txn).
Proof.
  assert (H1 : conn_beginTxn 0 (background : Context unit) None world_cancelable
               = (Returned 0, stk_world_txn)) by reflexivity.
  split; [ exact H1 | ].
  exact (proj1 (proj2 (stk_txn_snapshot_isolation 0 background None
                         world_cancelable stk_world_txn 0
                         [ConnPush 0 background (JsStr "c"); TxnPop 0] H1))
           eq_refl).
Defined.

Lemma stk_commit_replays_ops_witness :
  conn_beginTxn 0 (background : Context unit) None world_cancelable
  = (Returned 0, stk_world_txn) /\
  done (txnOf (run [TxnPush 0 (background : Context unit) (JsStr "c");
                    ConnPop 0] stk_world_txn) 0) = false /\
  stack (snd (txn_commit 0
                (run [TxnPush 0 (background : Context unit) (JsStr "c");
                      ConnPop 0] stk_world_txn)))
  = [JsStr "a"; JsStr "c"].
Proof.
  assert (H1 : conn_beginTxn 0 (background : Context unit) None world_cancelable
               = (Returned 0, stk_world_txn)) by reflexivity.
  assert (H2 : done (txnOf (run [TxnPush 0 (background : Context unit) (JsStr "c");
                                 ConnPop 0] stk_world_txn) 0) = false)
    by reflexivity.
  split; [ exact H1 | ]. split; [ exact H2 | ].
  exact (proj1 (stk_commit_replays_ops 0 background None world_cancelable
                  stk_world_txn 0
                  [TxnPush 0 background (JsStr "c"); ConnPop 0] H1 H2)).
Defined.

Lemma stk_readonly_txn_never_writes_witness :
  readOnly_is_true (Some {| isolationLevel := None; readOnly := Some true |})
  = true /\
  conn_beginTxn 0 (background : Context unit)
    (Some {| isolationLevel := None; readOnly := Some true |}) world_cancelable
  = (Returned 0, stk_world_txn_ro) /\
  stack (snd (txn_commit 0
                (run [TxnPush 0 (background : Context unit) (JsStr "c")]
                   stk_world_txn_ro)))
  = stack (run [TxnPush 0 (background : Context unit) (JsStr "c")]
             stk_world_txn_ro).
Proof.
  assert (H1 : readOnly_is_true
                 (Some {| isolationLevel := None; readOnly := Some true |})
               = true) by reflexivity.
  assert (H2 : conn_beginTxn 0 (background : Context unit)
                 (Some {| isolationLevel := None; readOnly := Some true |})
                 world_cancelable
               = (Returned 0, stk_world_txn_ro)) by reflexivity.
  split; [ exact H1 | ]. split; [ exact H2 | ].
  exact (proj1 (proj2 (proj2
           (stk_readonly_txn_never_writes 0 background _ world_cancelable
              stk_world_txn_ro 0 [TxnPush 0 background (JsStr "c")] JsNull
              H1 H2)))).
Defined.

Lemma stk_pool_txn_closes_its_connection_witness :
  pool_beginTxn (background : Context unit) None
    (openStackPool [JsStr "a"; JsStr "b"])
  = (Returned 0,
     snd (pool_beginTxn (background : Context unit) None
            (openStackPool [JsStr "a"; JsStr "b"]))) /\
  Forall (fun a => uses 0 a = true)
    [TxnPush 0 (background : Context unit) (JsStr "c")] /\
  closed (conns (snd (txn_commit 0
                        (run [TxnPush 0 (background : Context unit) (JsStr "c")]
                           (snd (pool_beginTxn (background : Context unit) None
                                   (openStackPool [JsStr "a"; JsStr "b"]))))))
            0) = true.
Proof.
  assert (H1 : pool_beginTxn (background : Context unit) None
                 (openStackPool [JsStr "a"; JsStr "b"])
               = (Returned 0,
                  snd (pool_beginTxn (background : Context unit) None
                         (openStackPool [JsStr "a"; JsStr "b"]))))
    by reflexivity.
  assert (H2 : Forall (fun a => uses 0 a = true)
                 [TxnPush 0 (background : Context unit) (JsStr "c")])
    by (repeat constructor).
  split; [ exact H1 | ]. split; [ exact H2 | ].
  exact (proj1 (proj2 (proj2
           (stk_pool_txn_closes_its_connection background None
              (openStackPool [JsStr "a"; JsStr "b"]) _ 0
              [TxnPush 0 background (JsStr "c")] H1 H2)))).
Defined.

Lemma stk_conn_txn_leaves_connection_open_witness :
  pool_conn (openStackPool [JsStr "a"; JsStr "b"])
  = (Returned 0, world_cancelable) /\
  conn_beginTxn 0 (background : Context unit) None world_cancelable
  = (Returned 0, stk_world_txn) /\
  Forall (fun a => uses 0 a = true)
    [TxnPush 0 (background : Context unit) (JsStr "c")] /\
  closed (conns (snd (txn_commit 0
                        (run [TxnPush 0 (background : Context unit) (JsStr "c")]
                           stk_world_txn))) 0) = false.
Proof.
  assert (H1 : pool_conn (openStackPool [JsStr "a"; JsStr "b"])
               = (Returned 0, world_cancelable)) by reflexivity.
  assert (H2 : conn_beginTxn 0 (background : Context unit) None world_cancelable
               = (Returned 0, stk_world_txn)) by reflexivity.
  assert (H3 : Forall (fun a => uses 0 a = true)
                 [TxnPush 0 (background : Context unit) (JsStr "c")])
    by (repeat constructor).
  split; [ exact H1 | ]. split; [ exact H2 | ]. split; [ exact H3 | ].
  exact (proj1 (stk_conn_txn_leaves_connection_open background None
                  (openStackPool [JsStr "a"; JsStr "b"]) world_cancelable
                  stk_world_txn 0 0 [TxnPush 0 background (JsStr "c")]
                  H1 H2 H3)).
Defined.

Lemma stk_conn_push_pop_lifo_witness :
  closed (conns stk_world_two_conns 0) = false /\
  closed (conns stk_world_two_conns 1) = false /\
  fst (conn_pop_times 1 2
         (snd (conn_push_all 0 (background : Context unit)
                 [JsStr "c"; JsStr "d"] stk_world_two_conns)))
  = Returned [JsStr "d"; JsStr "c"].
Proof.
  assert (H1 : closed (conns stk_world_two_conns 0) = false) by reflexivity.
  assert (H2 : closed (conns stk_world_two_conns 1) = false) by reflexivity.
  split; [ exact H1 | ]. split; [ exact H2 | ].
  exact (proj1 (proj2 (proj1 (proj2
           (stk_conn_push_pop_lifo 0 1 (background : Context unit)
              [JsStr "c"; JsStr "d"] JsNull stk_world_two_conns H1 H2))))).
Defined.
End MemStackProps.

(** ** The transaction coordinator *)

Module CoordinatorProps.

Import Ctx Coordinator.

Section Properties.

Context {W Api : Type} `{!Storage W Api}.

(** C6. Reuse of an open transaction.  When the storage API bound to the
    context is in transaction mode, [runTransaction], in either call form,
    is exactly the call of the callback with that same context and that
    same transaction: whatever the methods [beginTxn], [commit] and
    [rollback] of the storage are, none of them takes part, so no
    transaction is created and none is committed or rolled back by this
    call. *)
Theorem runTransaction_reuses_txn (ctx : Context Api) (txn : Api)
    (fn : TxnCallback) (opts : option TxnOptions) :
  getStorageApi ctx = Some txn ->
  mode txn = mode_txn ->
  runTransaction ctx (inl fn) None = fn ctx txn /\
  runTransaction ctx (inr opts) (Some fn) = fn ctx txn.
Proof.
  intros Hapi Hmode. unfold runTransaction. rewrite Hapi.
  destruct (decide (mode txn = mode_txn)); [ | contradiction ].
  split; reflexivity.
Qed.

(** C5. Commit on success, rollback on failure.  When the storage API bound
    to the context is not a transaction and beginning a transaction on it
    gives [txn], the callback is run with the context derived for [txn].
    If it resolves, [commit] is called on [txn] (and when that succeeds the
    call succeeds).  If it rejects with [e], [rollback] is called on [txn]
    and awaited: when it succeeds the call rejects with that same [e], and
    when it rejects with [e'] the call rejects with [e'] instead. *)
Theorem runTransaction_commit_or_rollback (ctx : Context Api) (api txn : Api)
    (fn : TxnCallback) (fnOrOpts : TxnCallback + option TxnOptions)
    (maybeFn : option TxnCallback) (opts : option TxnOptions) (w w1 : W) :
  getStorageApi ctx = Some api ->
  mode api <> mode_txn ->
  (fnOrOpts = inl fn /\ opts = None) \/
  (fnOrOpts = inr opts /\ maybeFn = Some fn) ->
  beginTxn api ctx opts w = (Returned txn, w1) ->
  let childCtx := withStorageApi ctx txn in
  (forall w2,
     fn childCtx txn w1 = (Returned tt, w2) ->
     runTransaction ctx fnOrOpts maybeFn w =
       try_catch (commit txn) (fun e => rollback txn >>> throw e) w2 /\
     (forall w3,
        commit txn w2 = (Returned tt, w3) ->
        runTransaction ctx fnOrOpts maybeFn w = (Returned tt, w3))) /\
  (forall e w2,
     fn childCtx txn w1 = (Thrown e, w2) ->
     runTransaction ctx fnOrOpts maybeFn w = (rollback txn >>> throw e) w2 /\
     (forall w3,
        rollback txn w2 = (Returned tt, w3) ->
        runTransaction ctx fnOrOpts maybeFn w = (Thrown e, w3)) /\
     (forall e' w3,
        rollback txn w2 = (Thrown e', w3) ->
        runTransaction ctx fnOrOpts maybeFn w = (Thrown e', w3))).
Proof.
  intros Hapi Hmode Hform Hbegin childCtx.
  assert (Hrun : runTransaction ctx fnOrOpts maybeFn w =
                 try_catch (fn childCtx txn >>> commit txn)
                   (fun e => rollback txn >>> throw e) w1).
  { unfold runTransaction. rewrite Hapi.
    destruct Hform as [[-> ->] | [-> ->]];
      (destruct (decide (mode api = mode_txn)); [ contradiction | ]);
      unfold bind at 1; rewrite Hbegin; reflexivity. }
  rewrite Hrun. unfold try_catch, bind, throw.
  split.
  - intros w2 Hfn. rewrite Hfn. split.
    + destruct (commit txn w2) as [[ [] | e | ] w3]; reflexivity.
    + intros w3 Hcommit. rewrite Hcommit. reflexivity.
  - intros e w2 Hfn. rewrite Hfn. split; [ reflexivity | ]. split.
    + intros w3 Hroll. rewrite Hroll. reflexivity.
    + intros e' w3 Hroll. rewrite Hroll. reflexivity.
Qed.

(** What fails before the callback runs.  Whatever the implementation of
    the storage interfaces: without a storage API on the context the call
    rejects with 'No storage API present on context', whatever else is
    passed, the callback missing included; with an API but options in the
    place of the callback and no callback after them it rejects with
    'Missing callback function', a transaction on the context or not; in
    both cases nothing is begun and the world is left as it was.  When
    [beginTxn] rejects, the call rejects with the same error in the world
    that [beginTxn] left: the callback is not run, and neither [commit] nor
    [rollback] is called. *)
Theorem runTransaction_fails_before_callback (ctx : Context Api)
    (fnOrOpts : TxnCallback + option TxnOptions) (maybeFn : option TxnCallback)
    (w : W) :
  (getStorageApi ctx = None ->
   runTransaction ctx fnOrOpts maybeFn w =
   (Thrown (Error "No storage API present on context"), w)) /\
  (forall api opts,
     getStorageApi ctx = Some api ->
     runTransaction ctx (inr opts) None w =
     (Thrown (Error "Missing callback function"), w)) /\
  (forall api fn opts e w1,
     getStorageApi ctx = Some api ->
     mode api <> mode_txn ->
     (fnOrOpts = inl fn /\ opts = None) \/
     (fnOrOpts = inr opts /\ maybeFn = Some fn) ->
     beginTxn api ctx opts w = (Thrown e, w1) ->
     runTransaction ctx fnOrOpts maybeFn w = (Thrown e, w1)).
Proof.
  split; [ | split ].
  - intros Hapi. unfold runTransaction. rewrite Hapi. reflexivity.
  - intros api opts Hapi. unfold runTransaction. rewrite Hapi. reflexivity.
  - intros api fn opts e w1 Hapi Hmode Hform Hbegin.
    unfold runTransaction. rewrite Hapi.
    destruct Hform as [[-> ->] | [-> ->]];
      (destruct (decide (mode api = mode_txn)); [ contradiction | ]);
      unfold bind; rewrite Hbegin; reflexivity.
Qed.

(** The call once the transaction is begun (callback given first). *)
Lemma runTransaction_begun (ctx : Context Api) (api txn : Api)
    (fn : TxnCallback) (w w1 : W) :
  getStorageApi ctx = Some api ->
  mode api <> mode_txn ->
  beginTxn api ctx None w = (Returned txn, w1) ->
  runTransaction ctx (inl fn) None w =
  try_catch (fn (withStorageApi ctx txn) txn >>> commit txn)
    (fun e => rollback txn >>> throw e) w1.
Proof.
  intros Hapi Hmode Hbegin. unfold runTransaction. rewrite Hapi.
  destruct (decide (mode api = mode_txn)); [ contradiction | ].
  unfold bind at 1. rewrite Hbegin. reflexivity.
Qed.

(** The same with the options given first. *)
Lemma runTransaction_begun_opts (ctx : Context Api) (api txn : Api)
    (opts : option TxnOptions) (fn : TxnCallback) (w w1 : W) :
  getStorageApi ctx = Some api ->
  mode api <> mode_txn ->
  beginTxn api ctx opts w = (Returned txn, w1) ->
  runTransaction ctx (inr opts) (Some fn) w =
  try_catch (fn (withStorageApi ctx txn) txn >>> commit txn)
    (fun e => rollback txn >>> throw e) w1.
Proof.
  intros Hapi Hmode Hbegin. unfold runTransaction. rewrite Hapi.
  destruct (decide (mode api = mode_txn)); [ contradiction | ].
  unfold bind at 1. rewrite Hbegin. reflexivity.
Qed.

End Properties.

End CoordinatorProps.

(** ** The coordinator over the stack store *)

Module StackCoordinatorProps.

Import Ctx MemStack Coordinator StackCoordinator CoordinatorProps.

(** 'runs operations inside a transaction'. *)
Example runs_operations_inside_a_transaction :
  fst (runTransaction ctxRoot (inl push_c) None (openStackPool ab)) = Returned tt /\
  stack (snd (runTransaction ctxRoot (inl push_c) None (openStackPool ab)))
  = [JsStr "a"; JsStr "b"; JsStr "c"].
Proof. vm_compute. split; reflexivity. Qed.

(** 'rolls back on error'. *)
Example rolls_back_on_error :
  fst (runTransaction ctxRoot (inl push_c_then_fail) None (openStackPool ab))
  = Thrown (Error "Failing on purpose") /\
  stack (snd (runTransaction ctxRoot (inl push_c_then_fail) None (openStackPool ab)))
  = ab.
Proof. vm_compute. split; reflexivity. Qed.

(** 'uses options'. *)
Example uses_options :
  fst (runTransaction ctxRoot
         (inr (Some {| isolationLevel := None; readOnly := Some true |}))
         (Some push_c) (openStackPool ab))
  = Thrown (Error "Cannot push or pop: Transaction is read-only") /\
  stack (snd (runTransaction ctxRoot
                (inr (Some {| isolationLevel := None; readOnly := Some true |}))
                (Some push_c) (openStackPool ab)))
  = ab.
Proof. vm_compute. split; reflexivity. Qed.

(** 'reuses existing transaction': the inner call neither commits nor rolls
    back, the outer call commits once. *)
Example reuses_existing_transaction :
  fst (runTransaction ctxRoot (inl (nested push_c)) None (openStackPool ab))
  = Returned tt /\
  stack (snd (runTransaction ctxRoot (inl (nested push_c)) None (openStackPool ab)))
  = [JsStr "a"; JsStr "b"; JsStr "c"].
Proof. vm_compute. split; reflexivity. Qed.

(** 'throws if there is not storage api' and 'throws if no callback'. *)
Example throws_without_storage_api :
  fst (runTransaction background (inl push_c) None (openStackPool ab))
  = Thrown (Error "No storage API present on context").
Proof. reflexivity. Qed.

Example throws_without_callback :
  fst (runTransaction ctxRoot (inr None) None (openStackPool ab))
  = Thrown (Error "Missing callback function").
Proof. reflexivity. Qed.

Lemma runTransaction_reuses_txn_witness :
  getStorageApi ctxTxn = Some (ApiTxn 0) /\
  mode (ApiTxn 0) = mode_txn /\
  runTransaction ctxTxn (inl push_c) None = push_c ctxTxn (ApiTxn 0).
Proof.
  split; [ reflexivity | ]. split; [ reflexivity | ].
  exact (proj1 (runTransaction_reuses_txn ctxTxn (ApiTxn 0) push_c None
                  eq_refl eq_refl)).
Defined.

Lemma runTransaction_commit_or_rollback_witness :
  getStorageApi ctxRoot = Some ApiPool /\
  mode ApiPool <> mode_txn /\
  beginTxn ApiPool ctxRoot None (openStackPool ab)
  = (Returned (ApiTxn 0), world_begun) /\
  push_c_then_fail ctxTxn (ApiTxn 0) world_begun
  = (Thrown (Error "Failing on purpose"),
     snd (push_c_then_fail ctxTxn (ApiTxn 0) world_begun)) /\
  runTransaction ctxRoot (inl push_c_then_fail) None (openStackPool ab)
  = (rollback (ApiTxn 0) >>> throw (Error "Failing on purpose"))
      (snd (push_c_then_fail ctxTxn (ApiTxn 0) world_begun)).
Proof.
  assert (H1 : getStorageApi ctxRoot = Some ApiPool) by reflexivity.
  assert (H2 : mode ApiPool <> mode_txn) by discriminate.
  assert (H3 : beginTxn ApiPool ctxRoot None (openStackPool ab)
               = (Returned (ApiTxn 0), world_begun)) by reflexivity.
  assert (H4 : push_c_then_fail ctxTxn (ApiTxn 0) world_begun
               = (Thrown (Error "Failing on purpose"),
                  snd (push_c_then_fail ctxTxn (ApiTxn 0) world_begun)))
    by reflexivity.
  repeat (split; [ assumption | ]).
  exact (proj1 (proj2 (runTransaction_commit_or_rollback ctxRoot ApiPool
                         (ApiTxn 0) push_c_then_fail (inl push_c_then_fail)
                         None None (openStackPool ab) world_begun H1 H2
                         (or_introl (conj eq_refl eq_refl)) H3)
                  (Error "Failing on purpose") _ H4)).
Defined.

(** *** Callbacks that work on the stack *)

Import StackScripts MemStackProps.

Lemma txn_apply_ok {V} (ctx : Context V) t (ops_ : list StackOp) : forall w,
  done (txnOf w t) = false -> readonly (txnOf w t) = false ->
  exists w2,
    txn_apply t ctx ops_ w = (Returned tt, w2) /\
    stack w2 = stack w /\ conns w2 = conns w /\
    ops (txnOf w2 t) = ops (txnOf w t) ++ ops_ /\
    done (txnOf w2 t) = false /\ con (txnOf w2 t) = con (txnOf w t).
Proof.
  induction ops_ as [ | op rest IH]; intros w Hd Hr.
  - exists w. rewrite app_nil_r. repeat split; assumption.
  - destruct op as [val | ]; cbn [txn_apply]; unfold bind.
    + rewrite txn_push_eq, Hd, Hr.
      match goal with |- context [txn_apply t ctx rest ?w1] =>
        destruct (IH w1) as (w2 & H1 & H2 & H3 & H4 & H5 & H6);
          [ stk_proj; stk_lookup; stk_proj; stk_lookup; exact Hd
          | stk_proj; stk_lookup; stk_proj; stk_lookup; exact Hr | ]
      end.
      exists w2. rewrite H1, H2, H3, H4, H5, H6.
      stk_proj. stk_lookup. stk_proj. stk_lookup. stk_proj.
      rewrite <- app_assoc. repeat split.
    + rewrite txn_pop_eq, Hd, Hr.
      match goal with |- context [txn_apply t ctx rest ?w1] =>
        destruct (IH w1) as (w2 & H1 & H2 & H3 & H4 & H5 & H6);
          [ stk_proj; stk_lookup; stk_proj; stk_lookup; exact Hd
          | stk_proj; stk_lookup; stk_proj; stk_lookup; exact Hr | ]
      end.
      exists w2. rewrite H1, H2, H3, H4, H5, H6.
      stk_proj. stk_lookup. stk_proj. stk_lookup. stk_proj.
      rewrite <- app_assoc. repeat split.
Qed.

(** What [beginTxn] on an open pool leaves behind. *)
Lemma stk_pool_beginTxn_open {V} (ctx : Context V) opts w :
  poolClosed (thePool w) = false ->
  exists w1,
    let t := nextTxn w in
    let tx := txnOf w1 t in
    pool_beginTxn ctx opts w = (Returned t, w1) /\
    stack w1 = stack w /\ ops tx = [] /\
    readonly tx = readOnly_is_true opts /\ done tx = false /\
    txns (conns w1 (con tx)) = [t] /\ closeResolve (conns w1 (con tx)) = None /\
    closed (conns w1 (con tx)) = false.
Proof.
  intros Hp. unfold pool_beginTxn, pool_checkStatus. unfold bind at 1 2.
  cbn [gets fst snd]. rewrite Hp. cbn [ret].
  destruct ((let* c := new_conn false in conn_beginTxn c ctx opts) w)
    as [[t | e | ] w1] eqn:Hb.
  - destruct (stk_new_conn_beginTxn false ctx opts w t w1 Hb)
      as (_ & Hcon & Hd & Ht & Hr & Hcl & _).
    revert Hb. unfold bind, new_conn. cbn [fst snd]. intros Hb.
    destruct (stk_conn_beginTxn_new _ ctx opts _ t w1 Hb)
      as (Heq & _ & Hs & _ & Ho & Hro & _).
    stk_proj. subst t. exists w1. cbv zeta. rewrite Hcon.
    repeat split; assumption.
  - exfalso. revert Hb. unfold bind, new_conn. cbn [fst snd].
    rewrite stk_conn_beginTxn_eq by (stk_proj; stk_lookup; reflexivity).
    discriminate.
  - exfalso. revert Hb. unfold bind, new_conn. cbn [fst snd].
    rewrite stk_conn_beginTxn_eq by (stk_proj; stk_lookup; reflexivity).
    discriminate.
Qed.

(** The run of a script inside a transaction that the pool begins. *)
Lemma stk_script_in_txn (ctx : Context StackApi) (ops_ : list StackOp) w :
  poolClosed (thePool w) = false ->
  exists t w1 w2,
    beginTxn ApiPool ctx None w = (Returned (ApiTxn t), w1) /\
    txn_apply t (withStorageApi ctx (ApiTxn t)) ops_ w1 = (Returned tt, w2) /\
    stack w2 = stack w /\
    fst (txn_commit t w2) = Returned ResolvedPromise /\
    stack (snd (txn_commit t w2)) = fold_left apply_op ops_ (stack w) /\
    fst (txn_rollback t w2) = Returned ResolvedPromise /\
    stack (snd (txn_rollback t w2)) = stack w.
Proof.
  intros Hp.
  destruct (stk_pool_beginTxn_open ctx None w Hp)
    as (w1 & Hb & Hs & Ho & Hro & Hd & Ht & Hr & Hcl).
  cbv zeta in *. set (t := nextTxn w) in *.
  destruct (txn_apply_ok (withStorageApi ctx (ApiTxn t)) t ops_ w1 Hd Hro)
    as (w2 & Ha & Hs2 & Hc2 & Ho2 & Hd2 & Hcon2).
  exists t, w1, w2.
  split; [ cbn [beginTxn stack_storage]; unfold bind; rewrite Hb; reflexivity | ].
  split; [ exact Ha | ]. split; [ congruence | ].
  rewrite Ho in Ho2. cbn [app] in Ho2.
  destruct (stk_finish_returns t w2) as [Hc Hrb];
    rewrite ?Hcon2, ?Hc2; try assumption.
  destruct (txn_commit_stack t w2 Hd2) as [Hcs _].
  destruct (txn_rollback_stack t w2 Hd2) as [Hrs _].
  rewrite Hcs, Hrs, Ho2, Hs2, Hs. auto.
Qed.

(** [runTransaction] on a pool of the stack store is all or nothing.  With
    the open pool on the context, a callback that pushes and pops on the
    transaction it is given and returns makes the call succeed, and the
    shared stack is then the stack of before with those operations applied
    in order; the same callback throwing [e] at its end makes the call
    reject with [e], and the shared stack is then what it was before the
    call. *)
Theorem stk_runTransaction_all_or_nothing (ctx : Context StackApi)
    (ops_ : list StackOp) (e : JsError) (w : World) :
  getStorageApi ctx = Some ApiPool ->
  poolClosed (thePool w) = false ->
  let ok := runTransaction ctx (inl (script ops_ None)) None w in
  let ko := runTransaction ctx (inl (script ops_ (Some e))) None w in
  fst ok = Returned tt /\
  stack (snd ok) = fold_left apply_op ops_ (stack w) /\
  fst ko = Thrown e /\
  stack (snd ko) = stack w.
Proof.
  intros Hapi Hp ok ko.
  destruct (stk_script_in_txn ctx ops_ w Hp)
    as (t & w1 & w2 & Hb & Ha & Hs2 & Hc & Hcs & Hr & Hrs).
  assert (Hmode : mode ApiPool <> mode_txn) by discriminate.
  assert (Hok : ok = (Returned tt, snd (txn_commit t w2))).
  { unfold ok.
    rewrite (runTransaction_begun ctx ApiPool (ApiTxn t) _ w w1 Hapi
               Hmode Hb).
    unfold try_catch, script. unfold bind at 1 2. rewrite Ha.
    cbn [ret commit stack_storage]. unfold bind.
    destruct (txn_commit t w2) as [[p | e1 | ] w3]; cbn [fst] in Hc;
      try discriminate.
    reflexivity. }
  assert (Hko : ko = (Thrown e, snd (txn_rollback t w2))).
  { unfold ko.
    rewrite (runTransaction_begun ctx ApiPool (ApiTxn t) _ w w1 Hapi
               Hmode Hb).
    unfold try_catch, script. unfold bind at 1 2. rewrite Ha.
    cbn [throw rollback stack_storage]. unfold bind.
    destruct (txn_rollback t w2) as [[p | e1 | ] w3]; cbn [fst] in Hr;
      try discriminate.
    reflexivity. }
  rewrite Hok, Hko. cbn [fst snd]. auto.
Qed.

(** A callback must not finish the transaction itself.  When the callback
    leaves the transaction that [runTransaction] began for it done (it
    committed it or rolled it back), the call rejects with 'Transaction is
    already complete' and changes nothing after the callback: after a
    callback that returned, [commit] throws that error and so does the
    [rollback] that follows; after a callback that threw, [rollback]
    throws it, and the error of the callback is lost. *)
Theorem stk_runTransaction_callback_must_not_finish (ctx : Context StackApi)
    (fn : TxnCallback (W := World)) (w w1 w2 : World) (t : nat)
    (o : Outcome unit) :
  getStorageApi ctx = Some ApiPool ->
  beginTxn ApiPool ctx None w = (Returned (ApiTxn t), w1) ->
  fn (withStorageApi ctx (ApiTxn t)) (ApiTxn t) w1 = (o, w2) ->
  o <> NoFuel ->
  done (txnOf w2 t) = true ->
  runTransaction ctx (inl fn) None w =
  (Thrown (Error "Transaction is already complete"), w2).
Proof.
  intros Hapi Hb Hfn Ho Hd.
  assert (Hmode : mode ApiPool <> mode_txn) by discriminate.
  rewrite (runTransaction_begun ctx ApiPool (ApiTxn t) fn w w1 Hapi Hmode Hb).
  unfold try_catch. unfold bind at 1. rewrite Hfn.
  destruct o as [[] | e | ]; [ | | contradiction ];
    cbn [commit rollback stack_storage]; unfold bind;
    rewrite ?txn_commit_done, ?txn_rollback_done by assumption;
    try rewrite txn_rollback_done by assumption; reflexivity.
Qed.

(** A read-only transaction through [runTransaction].  With the open pool
    on the context and the options [{ readOnly: true }], a callback whose
    first step pushes or pops on the transaction makes the call reject
    with 'Cannot push or pop: Transaction is read-only', and the shared
    stack is what it was before the call. *)
Theorem stk_runTransaction_read_only (ctx : Context StackApi)
    (op : StackOp) (rest : list StackOp) (failure : option JsError)
    (w : World) :
  getStorageApi ctx = Some ApiPool ->
  poolClosed (thePool w) = false ->
  let r := runTransaction ctx (inr readOnlyOptions)
             (Some (script (op :: rest) failure)) w in
  fst r = Thrown (Error "Cannot push or pop: Transaction is read-only") /\
  stack (snd r) = stack w.
Proof.
  intros Hapi Hp r.
  destruct (stk_pool_beginTxn_open ctx readOnlyOptions w Hp)
    as (w1 & Hb & Hs & Ho & Hro & Hd & Ht & Hr & Hcl).
  cbv zeta in *. set (t := nextTxn w) in *.
  assert (Hmode : mode ApiPool <> mode_txn) by discriminate.
  assert (Hbegin : beginTxn ApiPool ctx readOnlyOptions w
                   = (Returned (ApiTxn t), w1)).
  { cbn [beginTxn stack_storage]. unfold bind. rewrite Hb. reflexivity. }
  change (readOnly_is_true readOnlyOptions) with true in Hro.
  assert (Hfn : script (op :: rest) failure (withStorageApi ctx (ApiTxn t))
                  (ApiTxn t) w1
                = (Thrown (Error "Cannot push or pop: Transaction is read-only"),
                   w1)).
  { unfold script. destruct op; cbn [txn_apply]; unfold bind;
      rewrite ?txn_push_eq, ?txn_pop_eq, Hd, Hro; reflexivity. }
  destruct (stk_finish_returns t w1) as [_ Hrb]; try assumption.
  destruct (txn_rollback_stack t w1 Hd) as [Hrs _].
  assert (Heq : r = (Thrown (Error "Cannot push or pop: Transaction is read-only"),
                     snd (txn_rollback t w1))).
  { unfold r.
    rewrite (runTransaction_begun_opts ctx ApiPool (ApiTxn t) _ _ w w1 Hapi
               Hmode Hbegin).
    unfold try_catch. unfold bind at 1. rewrite Hfn.
    cbn [rollback stack_storage]. unfold bind.
    destruct (txn_rollback t w1) as [[p | e1 | ] w3]; cbn [fst snd] in *;
      try discriminate.
    reflexivity. }
  rewrite Heq. cbn [fst snd]. split; [ reflexivity | congruence ].
Qed.


(** *** The properties above on examples *)

Lemma stk_runTransaction_all_or_nothing_witness :
  getStorageApi ctxRoot = Some ApiPool /\
  poolClosed (thePool (openStackPool ab)) = false /\
  stack (snd (runTransaction ctxRoot
                (inl (script [OpPop; OpPush (JsStr "c")] None)) None
                (openStackPool ab)))
  = [JsStr "a"; JsStr "c"] /\
  stack (snd (runTransaction ctxRoot
                (inl (script [OpPop; OpPush (JsStr "c")]
                        (Some (Error "Failing on purpose")))) None
                (openStackPool ab)))
  = ab.
Proof.
  assert (H1 : getStorageApi ctxRoot = Some ApiPool) by reflexivity.
  assert (H2 : poolClosed (thePool (openStackPool ab)) = false) by reflexivity.
  split; [ exact H1 | ]. split; [ exact H2 | ].
  destruct (stk_runTransaction_all_or_nothing ctxRoot
              [OpPop; OpPush (JsStr "c")] (Error "Failing on purpose")
              (openStackPool ab) H1 H2) as (_ & Hok & _ & Hko).
  split; [ exact Hok | exact Hko ].
Defined.

Lemma stk_runTransaction_callback_must_not_finish_witness :
  getStorageApi ctxRoot = Some ApiPool /\
  beginTxn ApiPool ctxRoot None (openStackPool ab)
  = (Returned (ApiTxn 0), world_begun) /\
  commits_itself ctxTxn (ApiTxn 0) world_begun
  = (Returned tt, snd (commits_itself ctxTxn (ApiTxn 0) world_begun)) /\
  done (txnOf (snd (commits_itself ctxTxn (ApiTxn 0) world_begun)) 0) = true /\
  runTransaction ctxRoot (inl commits_itself) None (openStackPool ab)
  = (Thrown (Error "Transaction is already complete"),
     snd (commits_itself ctxTxn (ApiTxn 0) world_begun)).
Proof.
  assert (H1 : getStorageApi ctxRoot = Some ApiPool) by reflexivity.
  assert (H2 : beginTxn ApiPool ctxRoot None (openStackPool ab)
               = (Returned (ApiTxn 0), world_begun)) by reflexivity.
  assert (H3 : commits_itself ctxTxn (ApiTxn 0) world_begun
               = (Returned tt, snd (commits_itself ctxTxn (ApiTxn 0) world_begun)))
    by reflexivity.
  assert (H4 : Returned tt <> NoFuel) by discriminate.
  assert (H5 : done (txnOf (snd (commits_itself ctxTxn (ApiTxn 0) world_begun)) 0)
               = true) by reflexivity.
  split; [ exact H1 | ]. split; [ exact H2 | ]. split; [ exact H3 | ].
  split; [ exact H5 | ].
  exact (stk_runTransaction_callback_must_not_finish ctxRoot commits_itself
           (openStackPool ab) world_begun _ 0 (Returned tt) H1 H2 H3 H4 H5).
Defined.

Lemma stk_runTransaction_read_only_witness :
  getStorageApi ctxRoot = Some ApiPool /\
  poolClosed (thePool (openStackPool ab)) = false /\
  fst (runTransaction ctxRoot (inr readOnlyOptions)
         (Some (script [OpPush (JsStr "c")] None)) (openStackPool ab))
  = Thrown (Error "Cannot push or pop: Transaction is read-only").
Proof.
  assert (H1 : getStorageApi ctxRoot = Some ApiPool) by reflexivity.
  assert (H2 : poolClosed (thePool (openStackPool ab)) = false) by reflexivity.
  split; [ exact H1 | ]. split; [ exact H2 | ].
  exact (proj1 (stk_runTransaction_read_only ctxRoot (OpPush (JsStr "c")) []
                  None (openStackPool ab) H1 H2)).
Defined.
End StackCoordinatorProps.

(** ** Utilities of the key-value package *)

Module UtilProps.

Import Util.

Local Open Scope Z_scope.

Lemma toInt32_range n : is_int32 (toInt32 n).
Proof.
  unfold toInt32, is_int32. cbv zeta.
  pose proof (Z.mod_pos_bound n (2 ^ 32) ltac:(lia)).
  destruct (Z.leb_spec (2 ^ 31) (n mod 2 ^ 32)); lia.
Qed.

Lemma toInt32_small n : is_int32 n -> toInt32 n = n.
Proof.
  unfold toInt32, is_int32. cbv zeta. intros H.
  destruct (Z.neg_nonneg_cases n) as [Hn | Hn].
  - replace (n mod 2 ^ 32) with (n + 2 ^ 32).
    + destruct (Z.leb_spec (2 ^ 31) (n + 2 ^ 32)); lia.
    + rewrite <- (Z_mod_plus_full n 1 (2 ^ 32)).
      rewrite Z.mod_small; lia.
  - rewrite Z.mod_small by lia.
    destruct (Z.leb_spec (2 ^ 31) n); lia.
Qed.

Lemma bits_high_nonneg x i : 0 <= x < 2 ^ 31 -> 31 <= i -> Z.testbit x i = false.
Proof.
  intros Hx Hi. rewrite <- (Z.mod_small x (2 ^ 31)) by lia.
  apply Z.mod_pow2_bits_high. lia.
Qed.

Lemma bits_high_neg x i : - 2 ^ 31 <= x < 0 -> 31 <= i -> Z.testbit x i = true.
Proof.
  intros Hx Hi.
  rewrite <- (Z.lnot_involutive x), Z.lnot_spec by lia.
  rewrite bits_high_nonneg; [ reflexivity | | lia ].
  unfold Z.lnot. lia.
Qed.

(** A signed 32-bit integer repeats its bit 31 upwards, and conversely. *)
Lemma int32_sign_extended x i :
  is_int32 x -> 31 <= i -> Z.testbit x i = Z.testbit x 31.
Proof.
  unfold is_int32. intros Hx Hi.
  destruct (Z.neg_nonneg_cases x).
  - rewrite !bits_high_neg by lia. reflexivity.
  - rewrite !bits_high_nonneg by lia. reflexivity.
Qed.

Lemma low_bits_nonneg x :
  (forall i, 31 <= i -> Z.testbit x i = false) -> 0 <= x < 2 ^ 31.
Proof.
  intros H.
  assert (Hx : x = x mod 2 ^ 31).
  { apply Z.bits_inj'. intros i Hi. rewrite Z.testbit_mod_pow2 by lia.
    destruct (Z.ltb_spec i 31); simpl; [ reflexivity | apply H; lia ]. }
  rewrite Hx. apply Z.mod_pos_bound. lia.
Qed.

Lemma sign_extended_int32 x :
  (forall i, 31 <= i -> Z.testbit x i = Z.testbit x 31) -> is_int32 x.
Proof.
  intros H. unfold is_int32.
  destruct (Z.testbit x 31) eqn:Hs.
  - assert (0 <= Z.lnot x < 2 ^ 31).
    { apply low_bits_nonneg. intros i Hi. rewrite Z.lnot_spec by lia.
      rewrite H by lia. reflexivity. }
    unfold Z.lnot in *. lia.
  - pose proof (low_bits_nonneg x H). lia.
Qed.

Lemma land_int32 a b : is_int32 a -> is_int32 b -> is_int32 (Z.land a b).
Proof.
  intros Ha Hb. apply sign_extended_int32. intros i Hi.
  rewrite !Z.land_spec, (int32_sign_extended a i Ha Hi),
    (int32_sign_extended b i Hb Hi). reflexivity.
Qed.

Lemma toInt32_bits_low n i :
  0 <= i < 32 -> Z.testbit (toInt32 n) i = Z.testbit n i.
Proof.
  intros Hi. unfold toInt32. cbv zeta.
  destruct (Z.leb_spec (2 ^ 31) (n mod 2 ^ 32)).
  - rewrite <- (Z.mod_pow2_bits_low (n mod 2 ^ 32 - 2 ^ 32) 32 i) by lia.
    replace (n mod 2 ^ 32 - 2 ^ 32) with (n mod 2 ^ 32 + (-1) * 2 ^ 32) by lia.
    rewrite Z_mod_plus_full, Z.mod_mod by lia.
    apply Z.mod_pow2_bits_low. lia.
  - apply Z.mod_pow2_bits_low. lia.
Qed.

(** [hasFlag(flags, flag)] on integers is true exactly when [flag] is in
    the range of a signed 32-bit integer and every one of the 32 low bits
    set in [flag] is set in [flags].  So it is false for every [flag]
    outside that range, whatever [flags] is, even for [flags] equal to
    [flag]; and the bits of [flags] above the 32 low ones play no part. *)
Theorem hasFlag_spec (flags flag : Z) :
  hasFlag flags flag = true <->
  is_int32 flag /\
  forall i, 0 <= i < 32 -> Z.testbit flag i = true -> Z.testbit flags i = true.
Proof.
  unfold hasFlag. rewrite Z.eqb_eq. split.
  - intros H.
    assert (Hr : is_int32 flag).
    { rewrite <- H. apply land_int32; apply toInt32_range. }
    split; [ exact Hr | ]. intros i Hi Hb.
    rewrite (toInt32_small flag Hr) in H.
    rewrite <- H, Z.land_spec, toInt32_bits_low in Hb by lia.
    apply andb_true_iff in Hb. tauto.
  - intros [Hr Hbits]. rewrite (toInt32_small flag Hr).
    apply Z.bits_inj'. intros i Hi. rewrite Z.land_spec.
    destruct (Z.testbit flag i) eqn:Hb; [ | apply andb_false_r ].
    rewrite andb_true_r.
    destruct (Z.ltb_spec i 32).
    + rewrite toInt32_bits_low by lia. apply Hbits; [ lia | exact Hb ].
    + rewrite (int32_sign_extended _ i (toInt32_range flags)) by lia.
      rewrite toInt32_bits_low by lia. apply Hbits; [ lia | ].
      rewrite <- (int32_sign_extended flag i Hr) by lia. exact Hb.
Qed.

(** Bit 31 used as an unsigned flag is never found: the result of [&] is a
    signed number. *)
Example hasFlag_bit31 :
  hasFlag (2 ^ 31) (2 ^ 31) = false /\ hasFlag (- 2 ^ 31) (- 2 ^ 31) = true /\
  hasFlag 6 2 = true /\ hasFlag 6 1 = false /\ hasFlag 6 0 = true.
Proof. repeat split. Qed.

End UtilProps.
